(** * dimod.generators.mimo: spin-encoded MIMO decoding problems

    A shallow embedding of [dimod/generators/mimo.py] and the properties its
    specification states about it.

    Scalars.  The arrays of the module hold real or complex numbers.  An
    entry of the embedding is a Gaussian integer [re + im*i] with [re], [im]
    in [Z]: constellation symbols, spins, binary channels and every other
    integer-valued input.  Matrix products, and the weighted sums of
    [spins_to_symbols], are computed in the arithmetic of the arrays' dtype:
    float64 and complex128 round every product and every partial sum to 53
    significant bits, int64 wraps modulo [2^64]; the exponent range of
    float64 is taken unbounded (no infinities).  The statements about the
    values of these products and sums therefore bound the operands; within
    the bounds the element-wise sums and scalings are exact as well.
    Signal-to-noise quantities are rationals. *)

From stdpp Require Import gmap strings list fin_maps.
From Stdlib Require Import ZArith QArith Lia List String.
Import ListNotations.
Local Close Scope Q_scope.
Local Open Scope Z_scope.
Local Open Scope nat_scope.

(** ** Exceptions and the error monad *)

Inductive exn : Type :=
| ValueError (msg : string)
| ZeroDivisionError
| KeyError
| TypeError
| AssertionError (msg : string)
| UnboundLocalError
| AttributeError
| IndexError
| Unmodelled (what : string).

Inductive result (A : Type) : Type :=
| Ok (a : A)
| Raise (e : exn).
Arguments Ok {A} a.
Arguments Raise {A} e.

#[global] Instance result_ret : MRet result := fun A a => Ok a.
#[global] Instance result_bind : MBind result := fun A B k r =>
  match r with
  | Ok a => k a
  | Raise e => Raise e
  end.

Definition raises {A} (r : result A) : Prop :=
  match r with Ok _ => False | Raise _ => True end.

Definition returns {A} (r : result A) : Prop :=
  match r with Ok _ => True | Raise _ => False end.

(** ** Scalars: Gaussian integers *)

Record complex : Type := Cx { re : Z; im : Z }.

Definition C0 : complex := Cx 0 0.
Definition Cre (x : Z) : complex := Cx x 0.
Definition Cadd (a b : complex) : complex := Cx (re a + re b) (im a + im b).
Definition Cmul (a b : complex) : complex :=
  Cx (re a * re b - im a * im b) (re a * im b + im a * re b).
Definition Cconj (a : complex) : complex := Cx (re a) (- im a).
Definition Cscale (k : Z) (a : complex) : complex := Cx (k * re a) (k * im a).
Definition Csum (l : list complex) : complex := fold_right Cadd C0 l.
(** [1j * x] *)
Definition Ci_mul (a : complex) : complex := Cx (- im a) (re a).

(** ** float64 and int64 arithmetic on integers *)

(** The nearest number with a significand of 53 bits, ties to the even
    significand (IEEE 754 binary64, round-to-nearest-even), first for
    [x >= 0]. *)
Definition round_magnitude (x : Z) : Z :=
  let e := (Z.log2 x - 52)%Z in
  if (e <=? 0)%Z then x
  else
    let q := Z.shiftr x e in
    let r := (x - Z.shiftl q e)%Z in
    let half := Z.shiftl 1 (e - 1) in
    Z.shiftl (if (r <? half)%Z then q
              else if (half <? r)%Z then (q + 1)%Z
              else if Z.even q then q else (q + 1)%Z) e.

Definition round_float64 (x : Z) : Z := (Z.sgn x * round_magnitude (Z.abs x))%Z.

Definition Cround (a : complex) : complex :=
  Cx (round_float64 (re a)) (round_float64 (im a)).

(** Sum and product of two complex128 numbers: each real operation rounds. *)
Definition Cadd_float (a b : complex) : complex :=
  Cx (round_float64 (re a + re b)) (round_float64 (im a + im b)).
Definition Cmul_float (a b : complex) : complex :=
  Cx (round_float64 (round_float64 (re a * re b) - round_float64 (im a * im b)))
     (round_float64 (round_float64 (re a * im b) + round_float64 (im a * re b))).
(** The terms are accumulated in the order of the index. *)
Definition Csum_float (l : list complex) : complex := fold_left Cadd_float l C0.

(** ** numpy arrays: a dtype, a shape and the entries in row-major order *)

Inductive dtype : Type := int64 | float64 | complex128.

Definition dtype_eqb (a b : dtype) : bool :=
  match a, b with
  | int64, int64 | float64, float64 | complex128, complex128 => true
  | _, _ => false
  end.

(** numpy's type promotion on the three dtypes the module meets *)
Definition promote (a b : dtype) : dtype :=
  match a, b with
  | complex128, _ | _, complex128 => complex128
  | float64, _ | _, float64 => float64
  | int64, int64 => int64
  end.

Record ndarray : Type := Array {
  adtype : dtype;
  shape : list nat;
  data : list complex
}.

Definition size_of (s : list nat) : nat := fold_right Nat.mul 1 s.
Definition ndim (a : ndarray) : nat := List.length (shape a).
Definition dim (k : nat) (a : ndarray) : nat := nth k (shape a) 0.

(** A well-formed array has one entry per position, and real entries unless
    its dtype is complex128. *)
Definition wf_array (a : ndarray) : Prop :=
  List.length (data a) = size_of (shape a) /\
  (adtype a <> complex128 -> Forall (fun z => im z = 0%Z) (data a)).

Definition at1 (a : ndarray) (i : nat) : complex := nth i (data a) C0.
Definition at2 (a : ndarray) (i j : nat) : complex :=
  nth (i * dim 1 a + j) (data a) C0.

(** Entries of a two-dimensional result, row by row. *)
Definition tabulate2 {A} (r c : nat) (f : nat -> nat -> A) : list A :=
  flat_map (fun i => List.map (f i) (seq 0 c)) (seq 0 r).

(** Flat position of a multi-index, and back. *)
Fixpoint ravel (s idx : list nat) (acc : nat) : nat :=
  match s, idx with
  | d :: s', i :: idx' => ravel s' idx' (acc * d + i)
  | _, _ => acc
  end.

Fixpoint unravel (s : list nat) (p : nat) : list nat :=
  match s with
  | [] => []
  | d :: s' => (p / size_of s') mod d :: unravel s' (p mod size_of s')
  end.

Arguments ravel : simpl never.
Arguments unravel : simpl never.
Arguments size_of : simpl never.

Module np.

(** [len(a)] *)
Definition len (a : ndarray) : result nat :=
  match shape a with
  | [] => Raise TypeError
  | n :: _ => Ok n
  end.

(** [a.real], [a.imag], [a.conj()], [a.copy()], [a.flatten()] *)
Definition real (a : ndarray) : ndarray :=
  Array (match adtype a with complex128 => float64 | d => d end)
        (shape a) (List.map (fun z => Cre (re z)) (data a)).

Definition imag (a : ndarray) : ndarray :=
  Array (match adtype a with complex128 => float64 | d => d end)
        (shape a) (List.map (fun z => Cre (im z)) (data a)).

Definition conj (a : ndarray) : ndarray :=
  Array (adtype a) (shape a) (List.map Cconj (data a)).

Definition copy (a : ndarray) : ndarray := a.

Definition flatten (a : ndarray) : ndarray :=
  Array (adtype a) [size_of (shape a)] (data a).

(** [a.T]: the axes reversed. *)
Definition T (a : ndarray) : ndarray :=
  let s' := rev (shape a) in
  Array (adtype a) s'
        (List.map (fun p => nth (ravel (shape a) (rev (unravel s' p)) 0) (data a) C0)
                  (seq 0 (size_of s'))).

(** [k * a] for a Python integer [k], and [1j * a] *)
Definition scale (k : Z) (a : ndarray) : ndarray :=
  Array (adtype a) (shape a) (List.map (Cscale k) (data a)).

Definition times_1j (a : ndarray) : ndarray :=
  Array complex128 (shape a) (List.map Ci_mul (data a)).

(** [a + b] on operands of one shape (the only use the module makes of it) *)
Definition add (a b : ndarray) : result ndarray :=
  if decide (shape a = shape b) then
    Ok (Array (promote (adtype a) (adtype b)) (shape a)
              (List.map (fun p => Cadd (fst p) (snd p)) (combine (data a) (data b))))
  else Raise (Unmodelled "broadcast in +").

(** int64 arithmetic is arithmetic modulo [2^64] on [-2^63 .. 2^63 - 1]. *)
Definition wrap64 (z : Z) : Z := ((z + 2 ^ 63) mod 2 ^ 64 - 2 ^ 63)%Z.

Definition Cwrap64 (a : complex) : complex := Cx (wrap64 (re a)) (wrap64 (im a)).

(** The inner product [sum_l f(l) g(l)] of [k] terms in the arithmetic of
    the dtype [d]: int64 wraps (and wrapping the exact sum once is wrapping
    after every operation), float64 and complex128 convert the operands and
    round every product and every partial sum. *)
Definition dot (d : dtype) (k : nat) (f g : nat -> complex) : complex :=
  match d with
  | int64 => Cwrap64 (Csum (List.map (fun l => Cmul (f l) (g l)) (seq 0 k)))
  | _ => Csum_float (List.map (fun l => Cmul_float (Cround (f l)) (Cround (g l)))
                              (seq 0 k))
  end.

(** One product [a * b], and the sum of a list of entries, in the arithmetic
    of the dtype [d]. *)
Definition multiply (d : dtype) (a b : complex) : complex :=
  match d with
  | int64 => Cwrap64 (Cmul a b)
  | _ => Cmul_float (Cround a) (Cround b)
  end.

Definition add_reduce (d : dtype) (l : list complex) : complex :=
  match d with
  | int64 => Cwrap64 (Csum l)
  | _ => Csum_float l
  end.

(** [np.matmul(a, b)] on two-dimensional operands, in the arithmetic of the
    promoted dtype. *)
Definition matmul (a b : ndarray) : result ndarray :=
  match shape a, shape b with
  | [n; k], [k'; m] =>
      if k =? k' then
        Ok (Array (promote (adtype a) (adtype b)) [n; m]
              (tabulate2 n m (fun i j =>
                 dot (promote (adtype a) (adtype b)) k
                     (fun l => at2 a i l) (fun l => at2 b l j))))
      else Raise (ValueError "matmul: mismatch in core dimension")
  | _, _ => Raise (Unmodelled "matmul on operands that are not two-dimensional")
  end.

(** [np.concatenate((a, b), axis=0)] *)
Definition concatenate0 (a b : ndarray) : result ndarray :=
  match shape a, shape b with
  | n :: s, m :: s' =>
      if decide (s = s') then
        Ok (Array (promote (adtype a) (adtype b)) (n + m :: s) (data a ++ data b))
      else Raise (ValueError "concatenate: dimensions must match except on the axis")
  | _, _ => Raise (ValueError "concatenate: zero-dimensional or mismatched arrays")
  end.

(** [np.concatenate((a, b), axis=1)] *)
Definition concatenate1 (a b : ndarray) : result ndarray :=
  match shape a, shape b with
  | n :: c :: s, n' :: c' :: s' =>
      if decide (n = n' /\ s = s') then
        let ca := c * size_of s in
        let cb := c' * size_of s in
        Ok (Array (promote (adtype a) (adtype b)) (n :: c + c' :: s)
              (flat_map (fun i => firstn ca (skipn (i * ca) (data a)) ++
                                  firstn cb (skipn (i * cb) (data b)))
                        (seq 0 n)))
      else Raise (ValueError "concatenate: dimensions must match except on the axis")
  | _, _ => Raise (ValueError "concatenate: axis 1 is out of bounds")
  end.

(** [2**np.arange(n)], an int64 array *)
Definition pow2_arange (n : nat) : ndarray :=
  Array int64 [n] (List.map (fun k => Cre (wrap64 (2 ^ Z.of_nat k))) (seq 0 n)).

(** [a[:, np.newaxis]] and [a[np.newaxis, :]] of a one-dimensional [a] *)
Definition newaxis_col (a : ndarray) : ndarray :=
  Array (adtype a) (shape a ++ [1]) (data a).

Definition newaxis_row (a : ndarray) : ndarray :=
  Array (adtype a) (1 :: shape a) (data a).

(** [np.kron(a, b)]: the shorter shape is padded with ones on the left. *)
Definition pad_shape (n : nat) (s : list nat) : list nat :=
  repeat 1 (n - List.length s) ++ s.

Definition kron (a b : ndarray) : ndarray :=
  let nd := Nat.max (ndim a) (ndim b) in
  let sa := pad_shape nd (shape a) in
  let sb := pad_shape nd (shape b) in
  let so := List.map (fun p => fst p * snd p) (combine sa sb) in
  Array (promote (adtype a) (adtype b)) so
    (List.map (fun p =>
       let o := combine (unravel so p) sb in
       Cmul (nth (ravel sa (List.map (fun q => fst q / snd q) o) 0) (data a) C0)
            (nth (ravel sb (List.map (fun q => fst q mod snd q) o) 0) (data b) C0))
       (seq 0 (size_of so))).

(** [np.concatenate(arrays)] along axis 0, for a list of arrays *)
Definition concatenate0_list (l : list ndarray) : result ndarray :=
  match l with
  | [] => Raise (ValueError "need at least one array to concatenate")
  | a :: rest => foldl (fun acc b => acc' ← acc; concatenate0 acc' b) (Ok a) rest
  end.

(** [np.concatenate((xs, ys))] of two Python lists of integers: an int64
    vector, float64 when both lists are empty. *)
Definition of_int_lists (xs ys : list Z) : ndarray :=
  Array (match xs ++ ys with [] => float64 | _ => int64 end)
        [List.length (xs ++ ys)] (List.map Cre (xs ++ ys)).

(** [np.reshape(a, s)] *)
Definition reshape (a : ndarray) (s : list nat) : result ndarray :=
  if size_of (shape a) =? size_of s then Ok (Array (adtype a) s (data a))
  else Raise (ValueError "cannot reshape array").

(** [a[:, lo:hi]] of a two-dimensional [a]; the bounds are clipped as Python
    clips a slice. *)
Definition slice_cols (lo hi : nat) (a : ndarray) : result ndarray :=
  match shape a with
  | [r; c] =>
      let hi' := Nat.min hi c in
      let lo' := Nat.min lo hi' in
      Ok (Array (adtype a) [r; hi' - lo']
                (tabulate2 r (hi' - lo') (fun i j => at2 a i (lo' + j))))
  | _ => Raise (Unmodelled "column slice of an array that is not two-dimensional")
  end.

(** [amps * m] where [amps] is a column [(k, 1)] broadcast against [(k, t)],
    in the arithmetic of the promoted dtype *)
Definition multiply_col (amps m : ndarray) : result ndarray :=
  match shape amps, shape m with
  | [k; 1], [k'; t] =>
      if k =? k' then
        Ok (Array (promote (adtype amps) (adtype m)) [k; t]
                  (tabulate2 k t (fun i j =>
                     multiply (promote (adtype amps) (adtype m)) (at2 amps i 0) (at2 m i j))))
      else Raise (ValueError "operands could not be broadcast together")
  | _, _ => Raise (Unmodelled "broadcast in *")
  end.

(** [np.sum(m, axis=0)] of a two-dimensional [m]: the rows are added one
    after the other, in the arithmetic of the dtype *)
Definition sum_axis0 (m : ndarray) : result ndarray :=
  match shape m with
  | [k; t] =>
      Ok (Array (adtype m) [t]
                (List.map (fun j => add_reduce (adtype m) (List.map (fun i => at2 m i j) (seq 0 k)))
                          (seq 0 t)))
  | _ => Raise (Unmodelled "sum over axis 0 of an array that is not two-dimensional")
  end.

(** [h[:, 0]] *)
Definition column0 (a : ndarray) : result ndarray :=
  match shape a with
  | [r; c] =>
      if c =? 0 then Raise IndexError
      else Ok (Array (adtype a) [r] (List.map (fun i => at2 a i 0) (seq 0 r)))
  | _ => Raise IndexError
  end.

(** [np.fill_diagonal(J, 0)] on a two-dimensional [J] *)
Definition fill_diagonal0 (a : ndarray) : result ndarray :=
  match shape a with
  | [r; c] =>
      Ok (Array (adtype a) [r; c]
                (tabulate2 r c (fun i j => if i =? j then C0 else at2 a i j)))
  | _ => Raise (Unmodelled "fill_diagonal on an array that is not two-dimensional")
  end.

End np.

(** ** The quadratic form of the least-squares objective *)

(** [_quadratic_form(y, F)] *)
Definition _quadratic_form (y F : ndarray) : result (ndarray * ndarray * ndarray) :=
  if negb (ndim y =? 2) || negb (dim 1 y =? 1) then
    Raise (ValueError "y should have shape [n, 1] for some n")
  else if negb (ndim F =? 2) || negb (dim 0 F =? dim 0 y) then
    Raise (ValueError "F should have shape [n, m] for some m, nand n should equal y.shape[1]")
  else
    oi ← np.matmul (np.T (np.imag y)) (np.imag y);
    or ← np.matmul (np.T (np.real y)) (np.real y);
    offset ← np.add oi or;
    Fy ← np.matmul (np.conj (np.T F)) y;
    let h := np.scale (-2) Fy in
    J ← np.matmul (np.conj (np.T F)) F;
    Ok (offset, h, J).

(** [_real_quadratic_form(h, J, modulation=None)] *)
Definition is_modulation (m : option string) (s : string) : bool :=
  match m with
  | Some m' => String.eqb m' s
  | None => false
  end.

Definition _real_quadratic_form (h J : ndarray) (modulation : option string)
  : result (ndarray * ndarray) :=
  if negb (is_modulation modulation "BPSK") &&
     (dtype_eqb (adtype h) complex128 || dtype_eqb (adtype J) complex128) then
    hR ← np.concatenate0 (np.real h) (np.imag h);
    left ← np.concatenate0 (np.real J) (np.imag J);
    right ← np.concatenate0 (np.T (np.imag J)) (np.real J);
    JR ← np.concatenate1 left right;
    Ok (hR, JR)
  else
    Ok (np.real h, np.real J).

(** [_amplitude_modulated_quadratic_form(h, J, modulation)] *)
Definition _amplitude_modulated_quadratic_form (h J : ndarray) (modulation : string)
  : result (ndarray * ndarray) :=
  if String.eqb modulation "BPSK" || String.eqb modulation "QPSK" then
    Ok (h, J)
  else
    num_amps ← (if String.eqb modulation "16QAM" then Ok 2
                 else if String.eqb modulation "64QAM" then Ok 3
                 else Raise (ValueError "unknown modulation"));
    let amps := np.pow2_arange num_amps in
    let hA := np.kron (np.newaxis_col amps) h in
    let JA := np.kron (np.kron (np.newaxis_col amps) (np.newaxis_row amps)) J in
    Ok (hA, JA).

(** [_yF_to_hJ(y, F, modulation)] *)
Definition _yF_to_hJ (y F : ndarray) (modulation : string)
  : result (ndarray * ndarray * ndarray) :=
  '(offset, h, J) ← _quadratic_form y F;
  '(h, J) ← _real_quadratic_form h J (Some modulation);
  '(h, J) ← _amplitude_modulated_quadratic_form h J modulation;
  Ok (h, J, offset).

(** ** Symbols and spins *)

(** [itertools.product] of a list of pools *)
Fixpoint product (pools : list (list Z)) : list (list Z) :=
  match pools with
  | [] => [[]]
  | p :: ps => flat_map (fun x => List.map (cons x) (product ps)) p
  end.

Definition Zsum (l : list Z) : Z := fold_right Z.add 0%Z l.

(** The dictionary [symb_to_spins] of [symbols_to_spins]: each tuple of spins
    is filed under [sum(x*2**xI for xI, x in enumerate(spins))]. *)
Definition symb_to_spins (spins_per_real_symbol : nat) : gmap Z (list Z) :=
  foldl (fun d spins =>
           <[ Zsum (imap (fun xI x => (x * 2 ^ Z.of_nat xI)%Z) spins) := spins ]> d)
        ∅ (product (repeat [(-1)%Z; 1%Z] spins_per_real_symbol)).

(** [symb_to_spins[symb][prec]] *)
Definition lookup_spin (d : gmap Z (list Z)) (prec : nat) (symb : Z) : result Z :=
  match d !! symb with
  | None => Raise KeyError
  | Some spins =>
      match spins !! prec with
      | None => Raise IndexError
      | Some s => Ok s
      end
  end.

(** [symbols_to_spins(symbols, modulation)] *)
Definition symbols_to_spins (symbols : ndarray) (modulation : string) : result ndarray :=
  num_transmitters ← np.len symbols;
  if String.eqb modulation "BPSK" then Ok (np.copy symbols)
  else if String.eqb modulation "QPSK" then
    np.concatenate0 (np.real symbols) (np.imag symbols)
  else
    spins_per_real_symbol ←
      (if String.eqb modulation "16QAM" then Ok 2
       else if String.eqb modulation "64QAM" then Ok 3
       else Raise (ValueError "Unsupported modulation"));
    let d := symb_to_spins spins_per_real_symbol in
    planes ← mapM (fun prec =>
                xs ← mapM (lookup_spin d prec)
                          (List.map re (data (np.flatten (np.real symbols))));
                ys ← mapM (lookup_spin d prec)
                          (List.map re (data (np.flatten (np.imag symbols))));
                Ok (np.of_int_lists xs ys))
             (seq 0 spins_per_real_symbol);
    (* the reshapes under [len(symbols.shape) > 2] are not assigned: no effect *)
    np.concatenate0_list planes.

(** [spins_to_symbols(spins, modulation=None, num_transmitters=None)] *)
Definition spins_to_symbols (spins : ndarray) (modulation : option string)
    (num_transmitters : option nat) : result ndarray :=
  num_spins ← np.len spins;
  num_transmitters ←
    match num_transmitters with
    | Some t => Ok t
    | None =>
        if is_modulation modulation "BPSK" then Ok num_spins
        else if is_modulation modulation "QPSK" then Ok (num_spins / 2)
        else if is_modulation modulation "16QAM" then Ok (num_spins / 4)
        else if is_modulation modulation "64QAM" then Ok (num_spins / 6)
        else Raise (ValueError "Unsupported modulation")
    end;
  if num_transmitters =? num_spins then Ok spins
  else if 2 * num_transmitters =? 0 then Raise ZeroDivisionError
  else
    let num_amps := num_spins / (2 * num_transmitters) in
    let rem := num_spins mod (2 * num_transmitters) in
    if 64 <? num_amps then
      Raise (ValueError "Complex encoding is limited to 64 bits inreal and imaginary parts; num_transmitters istoo small")
    else if negb (rem =? 0) then
      Raise (ValueError "num_spins must be divisible by num_transmitters for modulation schemes")
    else
      spinsR ← np.reshape spins [num_amps; 2 * num_transmitters];
      let amps := np.newaxis_col (np.pow2_arange num_amps) in
      lo ← np.slice_cols 0 num_transmitters spinsR;
      hi ← np.slice_cols num_transmitters (2 * num_transmitters) spinsR;
      wlo ← np.multiply_col amps lo;
      whi ← np.multiply_col amps hi;
      sre ← np.sum_axis0 wlo;
      sim ← np.sum_axis0 whi;
      np.add sre (np.times_1j sim).

(** ** The marginal estimator *)

(** [np.round(q)]: the nearest integer, a half going to the even neighbour *)
Definition np_round (q : Q) : Z :=
  let f := (Qnum q / Zpos (Qden q))%Z in
  let r2 := (2 * (Qnum q mod Zpos (Qden q)))%Z in
  if (r2 <? Zpos (Qden q))%Z then f
  else if (Zpos (Qden q) <? r2)%Z then (f + 1)%Z
  else if Z.even f then f else (f + 1)%Z.

(** One entry of [x_R]: [2*np.round((x-1)/2)+1], then
    [np.where(x_R < -max_abs, -max_abs, x_R)] and
    [np.where(x_R > max_abs, max_abs, x_R)] *)
Definition nearest_amplitude (max_abs : Z) (x : Z) : Z :=
  let x_R := (2 * np_round (inject_Z (x - 1) / 2) + 1)%Z in
  let x_R := if (x_R <? - max_abs)%Z then (- max_abs)%Z else x_R in
  if (max_abs <? x_R)%Z then max_abs else x_R.

(** The three lines that compute [x_R] (and [x_I]) from a real array; the
    division makes the result float64. *)
Definition estimate_part (max_abs : Z) (a : ndarray) : ndarray :=
  Array float64 (shape a)
        (List.map (fun z => Cre (nearest_amplitude max_abs (re z))) (data a)).

(** [filter_marginal_estimator(x, modulation)]; without a modulation the
    function falls off its end and returns [None]. *)
Definition filter_marginal_estimator (x : ndarray) (modulation : option string)
  : result (option ndarray) :=
  match modulation with
  | None => Ok None
  | Some m =>
      max_abs ← (if String.eqb m "BPSK" || String.eqb m "QPSK" then Ok 1%Z
                 else if String.eqb m "16QAM" then Ok 3%Z
                 else if String.eqb m "64QAM" then Ok 7%Z
                 else if String.eqb m "128QAM" then Ok 15%Z
                 else Raise (ValueError "Unknown modulation"));
      let x_R := estimate_part max_abs (np.real x) in
      if negb (String.eqb m "BPSK") then
        let x_I := estimate_part max_abs (np.imag x) in
        r ← np.add x_R (np.times_1j x_I);
        Ok (Some r)
      else Ok (Some x_R)
  end.

(** ** Constellations *)

(** Signal-to-noise ratio per bit: a finite rational or [float('Inf')]. *)
Inductive snr : Type :=
| Finite (q : Q)
| Inf.

(** [np.ones(1)] and [1+2*np.arange(k)] *)
Definition ones1 : ndarray := Array float64 [1] [Cre 1].
Definition odd_arange (k : nat) : ndarray :=
  Array int64 [k] (List.map (fun i => Cre (1 + 2 * Z.of_nat i)) (seq 0 k)).

(** [2*np.mean(amps*amps)] *)
Definition twice_mean_square (amps : ndarray) : Q :=
  (2 * (inject_Z (Zsum (List.map (fun z => (re z * re z)%Z) (data amps)))
        / inject_Z (Z.of_nat (List.length (data amps)))))%Q.

(** [constellation_properties(modulation)]: bits per transmitter, amplitudes
    and mean power of the constellation. *)
Definition constellation_properties (modulation : string) : result (nat * ndarray * Q) :=
  if String.eqb modulation "BPSK" then Ok (1, ones1, 1%Q)
  else
    let bits_per_transmitter := 2 in
    '(amps, bits_per_transmitter) ←
      (if String.eqb modulation "QPSK" then Ok (ones1, bits_per_transmitter)
       else if String.eqb modulation "16QAM" then Ok (odd_arange 2, bits_per_transmitter * 2)
       else if String.eqb modulation "64QAM" then Ok (odd_arange 4, bits_per_transmitter * 3)
       else if String.eqb modulation "256QAM" then Ok (odd_arange 8, bits_per_transmitter * 4)
       else Raise (ValueError "Unsupported modulation method"));
    Ok (bits_per_transmitter, amps, twice_mean_square amps).

(** ** Random sources

    numpy's generators are outside the module.  The embedding takes them as
    an interface: the state of a [RandomState], how a seed or the operating
    system's entropy initialises it, and how one draw advances it.  Standard
    normal draws are carried in the scalar domain of the embedding;
    [times_sqrt q x] stands for [sqrt(q) * x], which leaves that domain. *)
Class NumpyRandom : Type := {
  rng_state : Type;
  seed_state : Z -> rng_state;
  entropy_state : nat -> rng_state;
  next_normal : rng_state -> Z * rng_state;
  next_below : nat -> rng_state -> nat * rng_state;
  times_sqrt : Q -> Z -> Z
}.

(** Which generator a draw was taken from: the generator behind the
    [np.random.*] functions, shared by the whole process, or a [RandomState]
    object held by the caller. *)
Inductive source : Type := ProcessWide | Explicit.

(** Ghost record of what the generators were asked for. *)
Inductive event : Type :=
| Draw (src : source) (count : nat)
| NoiseVariance (N0 : Q).

(** [n] successive draws *)
Fixpoint draws {S A} (step : S -> A * S) (n : nat) (s : S) : list A * S :=
  match n with
  | 0 => ([], s)
  | S n' => let '(x, s1) := step s in
            let '(xs, s2) := draws step n' s1 in
            (x :: xs, s2)
  end.

(** ** The quadratic model container *)

(** Variable labels: Python integers and pairs, enough for indices [i],
    lattice coordinates [(x, y)] and geometric labels [(bs, i)]. *)
Inductive label : Type :=
| LInt (z : Z)
| LPair (a b : label).

#[global] Instance label_eq_dec : EqDecision label.
Proof. solve_decision. Defined.

Fixpoint label_to_tree (l : label) : gen_tree Z :=
  match l with
  | LInt z => GenLeaf z
  | LPair a b => GenNode 0 [label_to_tree a; label_to_tree b]
  end.

Fixpoint tree_to_label (t : gen_tree Z) : label :=
  match t with
  | GenLeaf z => LInt z
  | GenNode _ [a; b] => LPair (tree_to_label a) (tree_to_label b)
  | GenNode _ _ => LInt 0
  end.

#[global] Instance label_countable : Countable label.
Proof.
  refine (inj_countable' label_to_tree tree_to_label _).
  intros l. induction l as [z|a IHa b IHb]; simpl; congruence.
Defined.

Definition LIdx (i : nat) : label := LInt (Z.of_nat i).

Record bqm : Type := BQM {
  linear : gmap label Z;
  quadratic : gmap (label * label) Z;
  offset : Z;
  vartype : string
}.

Definition variables (b : bqm) : gset label := dom (linear b).
Definition num_variables (b : bqm) : nat := size (variables b).

(** Modelled from the spec: the constructor of the quadratic-model container
    (dimod's [BinaryQuadraticModel], which is not part of the sources at
    hand), "a constructor taking (linear coefficients, quadratic
    coefficients, variable domain tag, optional offset)".  The variables are
    the indices of the linear coefficients. *)
Definition BQM_of_arrays (h J : ndarray) (vartype : string) (offset : Z) : bqm :=
  BQM (list_to_map (List.map (fun i => (LIdx i, re (at1 h i))) (seq 0 (dim 0 h))))
      (list_to_map (tabulate2 (dim 0 J) (dim 1 J)
                      (fun i j => ((LIdx i, LIdx j), re (at2 J i j)))))
      offset vartype.

(** Modelled from the spec: [BinaryQuadraticModel('SPIN')], the model
    without variables. *)
Definition BQM_empty (vartype : string) : bqm := BQM ∅ ∅ 0 vartype.

(** Modelled from the spec: [+] of the container, "pairwise summation
    merging variables by identity, coefficients added". *)
Definition bqm_add (a b : bqm) : bqm :=
  BQM (union_with (fun x y => Some (x + y)%Z) (linear a) (linear b))
      (union_with (fun x y => Some (x + y)%Z) (quadratic a) (quadratic b))
      (offset a + offset b) (vartype a).

(** Modelled from the spec: [relabel_variables(mapping)] of the container.
    A variable the mapping names takes its new label, the others keep
    theirs. *)
Definition relabel (mapping : gmap label label) (v : label) : label :=
  default v (mapping !! v).

Definition relabel_variables (mapping : gmap label label) (b : bqm) : bqm :=
  BQM (list_to_map (List.map (fun p => (relabel mapping (fst p), snd p))
                             (map_to_list (linear b))))
      (list_to_map (List.map (fun p => ((relabel mapping (fst (fst p)),
                                          relabel mapping (snd (fst p))), snd p))
                             (map_to_list (quadratic b))))
      (offset b) (vartype b).

(** [{idx : l for idx, l in enumerate(labels)}] *)
Definition enumerate_map (labels : list label) : gmap label label :=
  foldl (fun d p => <[ fst p := snd p ]> d) ∅ (imap (fun idx l => (LIdx idx, l)) labels).

(** ** The basestation lattice *)

(** The graph container (networkx's [Graph]) holds nodes in insertion order
    and undirected edges.  Like every Python object it also carries the
    attributes its owner has set on it ([G.name = value]); a graph built
    with the operations of the container alone carries none. *)
Record Graph : Type := MkGraph {
  G_nodes : list label;
  G_edges : list (label * label);
  G_attrs : gmap string Z
}.

(** [G.number_of_nodes()] and [G.number_of_edges()] *)
Definition number_of_nodes (G : Graph) : nat := List.length (G_nodes G).
Definition number_of_edges (G : Graph) : nat := List.length (G_edges G).

(** [G.name] for a name the class [Graph] does not define.  The class has
    the views [nodes], [edges], [adj], [degree] and methods such as
    [neighbors], [number_of_nodes] and [number_of_edges]; any other name is
    looked up among the attributes set on the object. *)
Definition getattr (G : Graph) (name : string) : result Z :=
  match G_attrs G !! name with
  | Some v => Ok v
  | None => Raise AttributeError
  end.

(** [lattice.neighbors(bs)] *)
Definition neighbors (G : Graph) (bs : label) : list label :=
  flat_map (fun e => if decide (fst e = bs) then [snd e]
                     else if decide (snd e = bs) then [fst e] else [])
           (G_edges G).

(** [lattice.degree(bs)]: a loop counts twice. *)
Definition degree (G : Graph) (bs : label) : nat :=
  List.length (List.filter (fun e => bool_decide (fst e = bs)) (G_edges G)) +
  List.length (List.filter (fun e => bool_decide (snd e = bs)) (G_edges G)).

Definition has_edge (G : Graph) (u v : label) : bool :=
  existsb (fun e => bool_decide (e = (u, v)) || bool_decide (e = (v, u))) (G_edges G).

Definition add_node (G : Graph) (n : label) : Graph :=
  if bool_decide (n ∈ G_nodes G) then G
  else MkGraph (G_nodes G ++ [n]) (G_edges G) (G_attrs G).

Definition add_edge (G : Graph) (e : label * label) : Graph :=
  let G' := add_node (add_node G (fst e)) (snd e) in
  if has_edge G' (fst e) (snd e) then G'
  else MkGraph (G_nodes G') (G_edges G' ++ [e]) (G_attrs G').

Definition add_edges_from (G : Graph) (es : list (label * label)) : Graph :=
  foldl add_edge G es.

Definition remove_node (G : Graph) (n : label) : Graph :=
  MkGraph (List.filter (fun m => negb (bool_decide (m = n))) (G_nodes G))
          (List.filter (fun e => negb (bool_decide (fst e = n)) && negb (bool_decide (snd e = n)))
                       (G_edges G))
          (G_attrs G).

Definition remove_nodes_from (G : Graph) (ns : list label) : Graph :=
  foldl remove_node G ns.

(** [range(lo, hi)] *)
Definition range (lo hi : nat) : list nat := seq lo (hi - lo).

Definition coord (x y : nat) : label := LPair (LIdx x) (LIdx y).

(** [_make_honeycomb(L)] *)
Definition _make_honeycomb (L : nat) : Graph :=
  let G := MkGraph [] [] ∅ in
  let G := add_edges_from G
    (flat_map (fun x => List.map (fun y => (coord x y, coord x (y + 1))) (range 0 (2 * L)))
              (range 0 (2 * L + 1))) in
  let G := add_edges_from G
    (flat_map (fun x => List.map (fun y => (coord x y, coord (x + 1) y)) (range 0 (2 * L + 1)))
              (range 0 (2 * L))) in
  let G := add_edges_from G
    (flat_map (fun x => List.map (fun y => (coord x y, coord (x + 1) (y + 1))) (range 0 (2 * L)))
              (range 0 (2 * L))) in
  let G := remove_nodes_from G
    (flat_map (fun j => List.map (fun i => coord i j) (range (L + 1 + j) (2 * L + 1)))
              (range 0 L)) in
  let G := remove_nodes_from G
    (flat_map (fun i => List.map (fun j => coord i j) (range (L + 1 + i) (2 * L + 1)))
              (range 0 L)) in
  G.

(** ** Channels and signals

    The generating functions run in a state: the process-wide generator of
    numpy, the operating system's entropy (a counter: each unseeded
    [RandomState()] reads a fresh value), and the ghost trace. *)

Section Generators.
Context `{NumpyRandom}.

Record world : Type := World {
  np_random : rng_state;
  urandom : nat;
  trace : list event
}.

Definition M (A : Type) : Type := world -> result (A * world).

#[global] Instance M_ret : MRet M := fun A a w => Ok (a, w).
#[global] Instance M_bind : MBind M := fun A B k m w =>
  match m w with
  | Ok (a, w') => k a w'
  | Raise e => Raise e
  end.

Definition lift {A} (r : result A) : M A := fun w =>
  match r with
  | Ok a => Ok (a, w)
  | Raise e => Raise e
  end.

Definition raise {A} (e : exn) : M A := fun _ => Raise e.

Definition log (e : event) : M unit := fun w =>
  Ok (tt, World (np_random w) (urandom w) (trace w ++ [e])).

(** A [random_state] or [seed] argument: [None], a Python integer, or a
    [RandomState] object.  The object is mutated by each draw; the embedding
    passes its state along. *)
Inductive random_state_arg : Type :=
| RSNone
| RSInt (z : Z)
| RSObject (s : rng_state).

(** [np.random.RandomState(seed)] for [seed] an integer or [None] *)
Definition RandomState (seed : option Z) : M rng_state := fun w =>
  match seed with
  | Some z => Ok (seed_state z, w)
  | None => Ok (entropy_state (urandom w),
                World (np_random w) (S (urandom w)) (trace w))
  end.

(** [if random_state is None: random_state = np.random.RandomState(random_state)] *)
Definition or_new_RandomState (random_state : random_state_arg) : M random_state_arg :=
  match random_state with
  | RSNone => s ← RandomState None; mret (RSObject s)
  | r => mret r
  end.

(** [random_state.normal(0, 1, size=n)] and [random_state.randint(2, size=n)]
    on a [RandomState] object; on anything else the attribute is missing. *)
Definition rs_normal (rs : random_state_arg) (n : nat) : M (list Z * random_state_arg) :=
  match rs with
  | RSObject s =>
      _ ← log (Draw Explicit n);
      let '(xs, s') := draws next_normal n s in
      mret (xs, RSObject s')
  | _ => raise AttributeError
  end.

Definition rs_randint (rs : random_state_arg) (high n : nat) : M (list nat * random_state_arg) :=
  match rs with
  | RSObject s =>
      _ ← log (Draw Explicit n);
      let '(xs, s') := draws (next_below high) n s in
      mret (List.map (fun x => x mod high) xs, RSObject s')
  | _ => raise AttributeError
  end.

(** [np.random.choice(amps, size=(n, 1))]: drawn from the generator of the
    process. *)
Definition np_random_choice (amps : ndarray) (n : nat) : M ndarray := fun w =>
  match data amps with
  | [] => Raise (ValueError "a must be non-empty")
  | _ =>
      let '(idx, g') := draws (next_below (List.length (data amps))) n (np_random w) in
      Ok (Array (adtype amps) [n; 1]
                (List.map (fun i => at1 amps (i mod List.length (data amps))) idx),
          World g' (urandom w) (trace w ++ [Draw ProcessWide n]))
  end.

Definition real_matrix (d : dtype) (r c : nat) (xs : list Z) : ndarray :=
  Array d [r; c] (List.map Cre xs).

(** [create_channel(num_receivers, num_transmitters, F_distribution, random_state)].
    Returns the channel, its power, and the state the random source is left
    in. *)
Definition create_channel (num_receivers num_transmitters : nat)
    (F_distribution : option (list string)) (random_state : random_state_arg)
  : M (ndarray * nat * random_state_arg) :=
  let channel_power := 1 in
  let arg := random_state in
  random_state ← or_new_RandomState random_state;
  F_distribution ← match F_distribution with
                   | None => mret ["Normal"; "Complex"]%string
                   | Some [a; b] => mret [a; b]
                   | Some _ => raise (ValueError "F_distribution should be a tuple of strings or None")
                   end;
  let d0 := nth 0 F_distribution ""%string in
  let d1 := nth 1 F_distribution ""%string in
  let n := num_receivers * num_transmitters in
  let back r := match arg with RSNone => RSNone | _ => r end in
  if String.eqb d0 "Normal" then
    if String.eqb d1 "Real" then
      '(xs, rs) ← rs_normal random_state n;
      mret (real_matrix float64 num_receivers num_transmitters xs,
            channel_power * num_transmitters, back rs)
    else
      let channel_power := 2 in
      '(xs, rs) ← rs_normal random_state n;
      '(ys, rs) ← rs_normal rs n;
      F ← lift (np.add (real_matrix float64 num_receivers num_transmitters xs)
                       (np.times_1j (real_matrix float64 num_receivers num_transmitters ys)));
      mret (F, channel_power * num_transmitters, back rs)
  else if String.eqb d0 "Binary" then
    if String.eqb d1 "Real" then
      '(xs, rs) ← rs_randint random_state 2 n;
      mret (real_matrix int64 num_receivers num_transmitters
              (List.map (fun b => (1 - 2 * Z.of_nat b)%Z) xs),
            channel_power * num_transmitters, back rs)
    else
      let channel_power := 2 in
      '(xs, rs) ← rs_randint random_state 2 n;
      '(ys, rs) ← rs_randint rs 2 n;
      F ← lift (np.add (real_matrix int64 num_receivers num_transmitters
                          (List.map (fun b => (1 - 2 * Z.of_nat b)%Z) xs))
                       (np.times_1j (real_matrix int64 num_receivers num_transmitters
                          (List.map (fun b => (1 - 2 * Z.of_nat b)%Z) ys))));
      mret (F, channel_power * num_transmitters, back rs)
  else raise UnboundLocalError.

(** [create_transmitted_symbols(num_transmitters, amps, quadrature)] *)
Definition create_transmitted_symbols (num_transmitters : nat) (amps : ndarray)
    (quadrature : bool) : M ndarray :=
  if negb quadrature then np_random_choice amps num_transmitters
  else
    a ← np_random_choice amps num_transmitters;
    b ← np_random_choice amps num_transmitters;
    lift (np.add a (np.times_1j b)).

Definition snr_nonpositive (s : snr) : bool :=
  match s with
  | Finite q => Qle_bool q 0
  | Inf => false
  end.

(** [create_signal(F, transmitted_symbols, channel_noise, SNRb, modulation,
    channel_power, random_state)] *)
Definition create_signal (F : ndarray) (transmitted_symbols channel_noise : option ndarray)
    (SNRb : snr) (modulation : string) (channel_power : option nat)
    (random_state : random_state_arg)
  : M (ndarray * ndarray * option ndarray * random_state_arg) :=
  '(num_receivers, num_transmitters) ←
     match shape F with
     | r :: c :: _ => mret (r, c)
     | _ => raise IndexError
     end;
  let channel_power := match channel_power with
                       | None => num_transmitters
                       | Some c => c
                       end in
  '(bits_per_transmitter, amps, constellation_mean_power) ←
     lift (constellation_properties modulation);
  '(transmitted_symbols, random_state) ←
     match transmitted_symbols with
     | None =>
         random_state ← or_new_RandomState random_state;
         v ← (if String.eqb modulation "BPSK"
              then create_transmitted_symbols num_transmitters amps false
              else create_transmitted_symbols num_transmitters amps true);
         mret (v, random_state)
     | Some v => mret (v, random_state)
     end;
  if snr_nonpositive SNRb then
    raise (ValueError "Expect positive signal to noise ratio.")
  else
    match SNRb with
    | Finite q =>
        let Eb := (inject_Z (Z.of_nat channel_power) * constellation_mean_power
                   / inject_Z (Z.of_nat bits_per_transmitter))%Q in
        let N0 := (Eb / q)%Q in
        let sigma2 := (N0 / 2)%Q in
        '(channel_noise, random_state) ←
           match channel_noise with
           | None =>
               random_state ← or_new_RandomState random_state;
               _ ← log (NoiseVariance N0);
               if dtype_eqb (adtype transmitted_symbols) float64 &&
                  dtype_eqb (adtype F) float64 then
                 '(xs, rs) ← rs_normal random_state num_receivers;
                 mret (real_matrix float64 num_receivers 1 (List.map (times_sqrt sigma2) xs), rs)
               else
                 '(xs, rs) ← rs_normal random_state num_receivers;
                 '(ys, rs) ← rs_normal rs num_receivers;
                 n ← lift (np.add
                       (real_matrix float64 num_receivers 1 (List.map (times_sqrt sigma2) xs))
                       (np.times_1j
                          (real_matrix float64 num_receivers 1 (List.map (times_sqrt sigma2) ys))));
                 mret (n, rs)
           | Some n => mret (n, random_state)
           end;
        Fv ← lift (np.matmul F transmitted_symbols);
        y ← lift (np.add channel_noise Fv);
        mret (y, transmitted_symbols, Some channel_noise, random_state)
    | Inf =>
        y ← lift (np.matmul F transmitted_symbols);
        mret (y, transmitted_symbols, channel_noise, random_state)
    end.

(** ** The single-cell model: [spin_encoded_mimo] *)

Definition seed_arg (seed : option Z) : random_state_arg :=
  match seed with
  | None => RSNone
  | Some z => RSInt z
  end.

Definition spin_encoded_mimo (modulation : string) (y F : option ndarray)
    (transmitted_symbols channel_noise : option ndarray)
    (num_transmitters num_receivers : option nat) (SNRb : snr) (seed : option Z)
    (F_distribution : option (list string)) (use_offset : bool) : M bqm :=
  num_transmitters ←
    match num_transmitters with
    | Some t => mret t
    | None =>
        match F, transmitted_symbols with
        | Some F, _ => match shape F with
                       | _ :: c :: _ => mret c
                       | _ => raise IndexError
                       end
        | None, Some v => lift (np.len v)
        | None, None =>
            raise (ValueError "num_transmitters is not specified and cannotbe inferred from F or transmitted_symbols (both None)")
        end
    end;
  num_receivers ←
    match num_receivers with
    | Some r => mret r
    | None =>
        match F, y, channel_noise with
        | Some F, _, _ => match shape F with
                          | r :: _ => mret r
                          | _ => raise IndexError
                          end
        | None, Some y, _ => match shape y with
                             | r :: _ => mret r
                             | _ => raise IndexError
                             end
        | None, None, Some n => match shape n with
                                | r :: _ => mret r
                                | _ => raise IndexError
                                end
        | None, None, None =>
            raise (ValueError "num_receivers is not specified and cannotbe inferred from F, y or channel_noise (all None)")
        end
    end;
  if negb (0 <? num_transmitters) then
    raise (AssertionError "Expect positive number of transmitters")
  else if negb (0 <? num_receivers) then
    raise (AssertionError "Expect positive number of receivers")
  else
    '(F, channel_power, seed) ←
      match F with
      | None =>
          s ← RandomState seed;
          create_channel num_receivers num_transmitters F_distribution (RSObject s)
      | Some F => mret (F, num_transmitters, seed_arg seed)
      end;
    y ← match y with
        | None =>
            '(y, _, _, _) ← create_signal F transmitted_symbols channel_noise SNRb
                              modulation (Some channel_power) seed;
            mret y
        | Some y => mret y
        end;
    '(h, J, offset) ← lift (_yF_to_hJ y F modulation);
    h0 ← lift (np.column0 h);
    if use_offset then
      mret (BQM_of_arrays h0 J "SPIN" (re (at2 offset 0 0)))
    else
      J ← lift (np.fill_diagonal0 J);
      mret (BQM_of_arrays h0 J "SPIN" 0%Z).

(** ** The cooperative model: [spin_encoded_comp] *)

(** [SNRb /= (1 + 2*lattice.num_edges/lattice.num_nodes)] when [SNRb] is
    finite *)
Definition spread_SNRb (lattice : Graph) (SNRb : snr) : result snr :=
  match SNRb with
  | Finite q =>
      num_edges ← getattr lattice "num_edges";
      num_nodes ← getattr lattice "num_nodes";
      if (num_nodes =? 0)%Z then Raise ZeroDivisionError
      else
        let d := (1 + inject_Z (2 * num_edges) / inject_Z num_nodes)%Q in
        if Qeq_bool d 0 then Raise ZeroDivisionError
        else Ok (Finite (q / d)%Q)
  | Inf => Ok Inf
  end.

(** [ys[bs]] for [ys] a dictionary, or [None] (then every entry is [None]) *)
Definition per_node (d : option (gmap label (option ndarray))) (bs : label)
  : result (option ndarray) :=
  match d with
  | None => Ok None
  | Some d' => match d' !! bs with
               | Some v => Ok v
               | None => Raise KeyError
               end
  end.

(** The labels of a cell: its own transmitters, then each neighbour's. *)
Definition geometric_labels (lattice : Graph) (num_transmitters : nat) (bs : label)
  : list label :=
  List.map (fun i => LPair bs (LIdx i)) (range 0 num_transmitters) ++
  flat_map (fun neigh => List.map (fun i => LPair neigh (LIdx i)) (range 0 num_transmitters))
           (neighbors lattice bs).

(** The arguments the loop hands to [spin_encoded_mimo] for a node. *)
Record cell_call : Type := CellCall {
  cell_y : option ndarray;
  cell_F : option ndarray;
  cell_num_transmitters : nat;
  cell_num_receivers : nat;
  cell_SNRb : snr
}.

Definition cell_call_of (lattice : Graph) (ys Fs : option (gmap label (option ndarray)))
    (num_transmitters num_receivers : nat) (SNRb : snr) (bs : label) : result cell_call :=
  y ← per_node ys bs;
  F ← per_node Fs bs;
  Ok (CellCall y F (num_transmitters * (1 + degree lattice bs)) num_receivers SNRb).

(** One turn of the loop over the nodes. *)
Definition comp_step (lattice : Graph) (modulation : string)
    (ys Fs : option (gmap label (option ndarray)))
    (transmitted_symbols channel_noise : option ndarray)
    (num_transmitters num_receivers : nat) (SNRb : snr) (seed : option Z)
    (F_distribution : option (list string)) (use_offset : bool)
    (acc : bqm) (bs : label) : M bqm :=
  c ← lift (cell_call_of lattice ys Fs num_transmitters num_receivers SNRb bs);
  bqm_cell ← spin_encoded_mimo modulation (cell_y c) (cell_F c)
                transmitted_symbols channel_noise
                (Some (cell_num_transmitters c)) (Some (cell_num_receivers c))
                (cell_SNRb c) seed F_distribution use_offset;
  let bqm_cell := relabel_variables
                    (enumerate_map (geometric_labels lattice num_transmitters bs)) bqm_cell in
  mret (bqm_add acc bqm_cell).

Fixpoint comp_loop (step : bqm -> label -> M bqm) (nodes : list label) (acc : bqm) : M bqm :=
  match nodes with
  | [] => mret acc
  | bs :: rest => acc' ← step acc bs; comp_loop step rest acc'
  end.

(** [spin_encoded_comp(lattice, modulation, ys, Fs, ...)]; an integer
    [lattice] stands for the honeycomb of that scale. *)
Definition spin_encoded_comp (lattice : nat + Graph) (modulation : string)
    (ys Fs : option (gmap label (option ndarray)))
    (transmitted_symbols channel_noise : option ndarray)
    (num_transmitters num_receivers : option nat) (SNRb : snr) (seed : option Z)
    (F_distribution : option (list string)) (use_offset : bool) : M bqm :=
  let lattice := match lattice with
                 | inl L => _make_honeycomb L
                 | inr G => G
                 end in
  let num_transmitters := default 1 num_transmitters in
  let num_receivers := default 1 num_receivers in
  if (negb (String.eqb modulation "BPSK") && negb (String.eqb modulation "QPSK"))
     || bool_decide (transmitted_symbols <> None) then
    raise (ValueError "Generation of problems for which transmitted symbols arenot all 1 (default BPSK,QPSK) not yet supported.")
  else
    SNRb ← lift (spread_SNRb lattice SNRb);
    comp_loop (comp_step lattice modulation ys Fs transmitted_symbols channel_noise
                         num_transmitters num_receivers SNRb seed F_distribution use_offset)
              (G_nodes lattice) (BQM_empty "SPIN").

End Generators.

(** Events that are all draws from one kind of source. *)
Definition only_draws (src : source) (evs : list event) : Prop :=
  Forall (fun e => exists n, e = Draw src n) evs.

(** The events of one call of [create_signal] that generates its symbols:
    draws of [nt] symbols from the generator of the process, then, for a
    finite [SNRb], the noise density followed by draws from the explicit
    source. *)
Definition signal_events (nt : nat) (N0 : option Q) (evs : list event) : Prop :=
  exists ev1 ev2,
    evs = ev1 ++ ev2 /\ ev1 <> [] /\ Forall (fun e => e = Draw ProcessWide nt) ev1 /\
    match N0 with
    | None => ev2 = []
    | Some N => exists rest, ev2 = NoiseVariance N :: rest /\ only_draws Explicit rest
    end.

(** The noise density a call computes: none for an infinite [SNRb]. *)
Definition density_of (m : string) (channel_power : nat) (SNRb : snr) : option Q :=
  match SNRb, constellation_properties m with
  | Finite q, Ok (bits, _, power) =>
      Some (inject_Z (Z.of_nat channel_power) * power / inject_Z (Z.of_nat bits) / q)%Q
  | _, _ => None
  end.

(** Noise of variance [sigma2] in each real part: the square root of
    [sigma2] times standard normal draws of a generator in the state [s]; a
    real column of [nr] draws, or a complex one whose imaginary parts are
    the next [nr] draws. *)
Definition scaled_noise `{NumpyRandom} (sigma2 : Q) (quadrature : bool) (nr : nat)
    (s : rng_state) : ndarray :=
  let xs := fst (draws next_normal nr s) in
  if quadrature then
    let ys := fst (draws next_normal nr (snd (draws next_normal nr s))) in
    Array complex128 [nr; 1]
          (List.map (fun p => Cx (times_sqrt sigma2 (fst p)) (times_sqrt sigma2 (snd p)))
                    (combine xs ys))
  else Array float64 [nr; 1] (List.map (fun x => Cre (times_sqrt sigma2 x)) xs).

(** A distribution [create_channel] knows, and whether it is complex. *)
Definition known_distribution (Fd : option (list string)) : Prop :=
  Fd = None \/ exists a b, Fd = Some [a; b] /\ (a = "Normal"%string \/ a = "Binary"%string).

Definition complex_distribution (Fd : option (list string)) : Prop :=
  Fd = None \/ exists a b, Fd = Some [a; b] /\ (a = "Normal"%string \/ a = "Binary"%string) /\
                           b <> "Real"%string.

(** The modulations with a spin encoding. *)
Definition supported (m : string) : Prop :=
  In m ["BPSK"; "QPSK"; "16QAM"; "64QAM"]%string.

(** A ratio [create_signal] accepts: positive, or infinite. *)
Definition usable_SNRb (SNRb : snr) : Prop :=
  match SNRb with
  | Finite q => (0 < q)%Q
  | Inf => True
  end.


(** [nx.path_graph(2)], and the same graph after
    [G.num_edges = 1; G.num_nodes = 2] *)
Definition path_graph_2 : Graph := MkGraph [LIdx 0; LIdx 1] [(LIdx 0, LIdx 1)] ∅.

Definition path_graph_2_counted : Graph :=
  MkGraph [LIdx 0; LIdx 1] [(LIdx 0, LIdx 1)]
          {[ "num_edges"%string := 1%Z; "num_nodes"%string := 2%Z ]}.

(** A small deterministic generator, to run the pipeline on concrete
    inputs: the state is a counter. *)
Definition counter_random : NumpyRandom := {|
  rng_state := nat;
  seed_state := fun z => Z.to_nat (Z.abs z);
  entropy_state := fun n => 1000 + n;
  next_normal := fun s => ((Z.of_nat (s mod 7) - 3)%Z, S s);
  next_below := fun high s => (s mod high, S s);
  times_sqrt := fun q x => x
|}.

(** What a caller sees of a run: the bias of the first spin of the model,
    and the state the run leaves behind. *)
Definition first_bias `{NumpyRandom} (r : result (bqm * world)) : option Z :=
  match r with
  | Ok (b, _) => linear b !! LIdx 0
  | Raise _ => None
  end.

Definition state_after `{NumpyRandom} (r : result (bqm * world)) (w : world) : world :=
  match r with
  | Ok (_, w') => w'
  | Raise _ => w
  end.

(** The call [spin_encoded_mimo('64QAM', num_transmitters=1, num_receivers=1,
    seed=0, F_distribution=('Binary', 'Real'))] under the counter generator *)
Definition call_64QAM_seed0 : @M counter_random bqm :=
  @spin_encoded_mimo counter_random "64QAM" None None None None (Some 1) (Some 1)
     Inf (Some 0%Z) (Some ["Binary"; "Real"]%string) false.

(** ** What the specification says, in its own words

    The definitions below do not come from the code: they spell out the
    mathematics the specification's sentences refer to, for comparison with
    what the code computes. *)

(** [u^H v], the Hermitian product of two vectors of length [n] *)
Definition hdot (n : nat) (u v : nat -> complex) : complex :=
  Csum (List.map (fun i => Cmul (Cconj (u i)) (v i)) (seq 0 n)).

(** The entries of a [2n]-by-[2n] matrix given by four [n]-by-[n] blocks
    [[[A, B], [C, D]]] *)
Definition block_entry (n : nat) (A B C D : nat -> nat -> complex) (i j : nat) : complex :=
  if i <? n then (if j <? n then A i j else B i (j - n))
  else (if j <? n then C (i - n) j else D (i - n) (j - n)).

(** The stacked matrix of [_real_quadratic_form], entry by entry: the layout
    [[Re J, Im J], [Im J^T, Re J]] the specification writes, and the layout
    [[Re J, Im J^T], [Im J, Re J]]. *)
Definition re_part (J : ndarray) (i j : nat) : complex := Cre (re (at2 J i j)).
Definition im_part (J : ndarray) (i j : nat) : complex := Cre (im (at2 J i j)).
Definition im_part_T (J : ndarray) (i j : nat) : complex := Cre (im (at2 J j i)).

Definition stacked_as_written (n : nat) (J : ndarray) : nat -> nat -> complex :=
  block_entry n (re_part J) (im_part J) (im_part_T J) (re_part J).

Definition stacked (n : nat) (J : ndarray) : nat -> nat -> complex :=
  block_entry n (re_part J) (im_part_T J) (im_part J) (re_part J).

(** The spin of significance [2^p] in the linear encoding of an odd integer
    [x] with [k] spins, [x = sum over p < k of 2^p * s_p]: bit [p] of
    [(x + 2^k - 1) / 2], read as a sign. *)
Definition spin_digit (k p : nat) (x : Z) : Z :=
  if Z.testbit ((x + 2 ^ Z.of_nat k - 1) / 2) (Z.of_nat p) then 1%Z else (-1)%Z.

(** A bit-plane of a symbol vector: the spins of one significance, those of
    the real parts followed by those of the imaginary parts. *)
Definition bit_plane (k p : nat) (symbols : list complex) : list Z :=
  List.map (fun z => spin_digit k p (re z)) symbols ++
  List.map (fun z => spin_digit k p (im z)) symbols.

(** The two orders in which the bit-planes of [k] spins can follow each
    other: least significant first, most significant first. *)
Definition planes_lsb_first (k : nat) (symbols : list complex) : list Z :=
  flat_map (fun p => bit_plane k p symbols) (seq 0 k).

Definition planes_msb_first (k : nat) (symbols : list complex) : list Z :=
  flat_map (fun p => bit_plane k (k - 1 - p) symbols) (seq 0 k).

(** The weighted sum [sum over i < k of 2^i * f i], the weights being the
    int64 powers of [spins_to_symbols]. *)
Definition weighted_sum (k : nat) (f : nat -> complex) : complex :=
  Csum (List.map (fun i => Cmul (Cre (np.wrap64 (2 ^ Z.of_nat i))) (f i)) (seq 0 k)).

(** The same sum as numpy computes it, in the arithmetic of the dtype [d]. *)
Definition weighted_sum_in (d : dtype) (k : nat) (f : nat -> complex) : complex :=
  np.add_reduce d
    (List.map (fun i => np.multiply d (Cre (np.wrap64 (2 ^ Z.of_nat i))) (f i)) (seq 0 k)).

(** A vector of [n] valid constellation symbols, one-dimensional or a
    column: integer real and imaginary parts on the signed amplitudes of
    the modulation (real symbols for BPSK). *)
Definition signed_amplitude (amps : ndarray) (x : Z) : Prop :=
  In (Cre (Z.abs x)) (data amps).

Definition valid_constellation (modulation : string) (v : ndarray) (n : nat) : Prop :=
  exists bits amps power,
    constellation_properties modulation = Ok (bits, amps, power) /\
    (shape v = [n] \/ shape v = [n; 1]) /\ List.length (data v) = n /\
    if String.eqb modulation "BPSK"
    then adtype v <> complex128 /\
         Forall (fun z => signed_amplitude amps (re z) /\ im z = 0%Z) (data v)
    else adtype v = complex128 /\
         Forall (fun z => signed_amplitude amps (re z) /\ signed_amplitude amps (im z))
                (data v).

(** The linear codes of [symbols_to_spins]: the number of spins per real
    dimension and the amplitudes of each modulation that has a code. *)
Definition linear_code (modulation : string) (K : nat) (amps : ndarray) : Prop :=
  (modulation = "QPSK"%string /\ K = 1 /\ amps = ones1) \/
  (modulation = "16QAM"%string /\ K = 2 /\ amps = odd_arange 2) \/
  (modulation = "64QAM"%string /\ K = 3 /\ amps = odd_arange 4).

(** The identifiers [(node, i)], for each node of the lattice and
    [0 <= i < t]. *)
Definition lattice_variables (G : Graph) (t : nat) : list label :=
  flat_map (fun node => List.map (fun i => LPair node (LIdx i)) (seq 0 t)) (G_nodes G).

(** A lattice on which the attributes [num_edges] and [num_nodes] have been
    set, to its numbers of edges and of nodes. *)
Definition counts_set (G : Graph) : Prop :=
  G_attrs G !! "num_edges"%string = Some (Z.of_nat (number_of_edges G)) /\
  G_attrs G !! "num_nodes"%string = Some (Z.of_nat (number_of_nodes G)).

(** A simple graph on its nodes: no node twice, edges between nodes, no
    loop. *)
Definition simple_graph (G : Graph) : Prop :=
  NoDup (G_nodes G) /\
  forall e, In e (G_edges G) ->
    In (fst e) (G_nodes G) /\ In (snd e) (G_nodes G) /\ fst e <> snd e.

(** ** Energies

    The definitions below do not come from the code either: they are the
    values in which the properties of the quadratic forms are stated. *)

(** [a - b] *)
Definition Csub (a b : complex) : complex := Cadd a (Cscale (-1) b).

(** [(F v)[i]], for a vector [v] of length [m] *)
Definition matvec (m : nat) (F : ndarray) (v : nat -> complex) (i : nat) : complex :=
  Csum (List.map (fun k => Cmul (at2 F i k) (v k)) (seq 0 m)).

(** [||y - F v||^2], the least-squares objective, for [y] of length [n] *)
Definition residual (n m : nat) (y F : ndarray) (v : nat -> complex) : complex :=
  hdot n (fun i => Csub (at2 y i 0) (matvec m F v i))
         (fun i => Csub (at2 y i 0) (matvec m F v i)).

(** [offset + Re(h^H v) + v^H J v], the value of the complex quadratic form
    at [v] *)
Definition form_value (m : nat) (offset h J : ndarray) (v : nat -> complex) : complex :=
  Cadd (at2 offset 0 0)
       (Cadd (Cre (re (hdot m (fun j => at2 h j 0) v)))
             (hdot m v (matvec m J v))).

(** [sum_j h[j] s[j] + sum_{j,k} s[j] J[j,k] s[k]], the value of the real
    form with biases [h] and couplings [J] at the assignment [s] (every
    entry of [J] counted, the diagonal included) *)
Definition ising_value (n : nat) (h J : ndarray) (s : nat -> Z) : Z :=
  (Zsum (List.map (fun j => re (at2 h j 0) * s j) (seq 0 n)) +
   Zsum (List.map (fun j => Zsum (List.map (fun k => s j * re (at2 J j k) * s k) (seq 0 n)))
                  (seq 0 n)))%Z.

(** The real parts of [v], followed by its imaginary parts *)
Definition stack_re_im (n : nat) (v : nat -> complex) (p : nat) : Z :=
  if p <? n then re (v p) else im (v (p - n)).

(** The amplitude that [K] spins encode, [sum over a < K of 2^a * s[a*n+i]] *)
Definition amplitude_sum (K n : nat) (s : nat -> Z) (i : nat) : Z :=
  Zsum (List.map (fun a => (2 ^ Z.of_nat a * s (a * n + i)%nat)%Z) (seq 0 K)).

(** The entries of a vector of spins, and of a vector of symbols *)
Definition spin_values (spins : ndarray) (p : nat) : Z := re (nth p (data spins) C0).
Definition symbol_values (v : ndarray) (k : nat) : complex := nth k (data v) C0.

(** An entry of a channel of a binary distribution: [+-1], and [+-1 +- i]
    for a complex one *)
Definition binary_entry (cx : bool) (z : complex) : Prop :=
  (re z = 1%Z \/ re z = (-1)%Z) /\
  (if cx then im z = 1%Z \/ im z = (-1)%Z else im z = 0%Z).

(** A site of the honeycomb of scale [L]: a point of the square of side
    [2L], off the two cut corners *)
Definition honeycomb_site (L x y : nat) : Prop :=
  0 < L /\ x <= 2 * L /\ y <= 2 * L /\ x <= y + L /\ y <= x + L.

(** The three directions of the triangular lattice *)
Definition lattice_step (x y x' y' : nat) : Prop :=
  (x' = x /\ y' = y + 1) \/ (x' = x + 1 /\ y' = y) \/ (x' = x + 1 /\ y' = y + 1).

(** ** Concrete inputs *)

(** A signal and a channel of two receivers and one transmitter; a
    Hermitian matrix and a vector of biases; spins and symbols of 16QAM; the
    noiseless signal of [v_example]; real-valued data; a noise vector. *)
Definition y_example : ndarray := Array complex128 [2; 1] [Cx 3 1; Cx (-2) 5].
Definition F_example : ndarray := Array complex128 [2; 1] [Cx 1 (-1); Cx 2 1].
Definition J_example : ndarray :=
  Array complex128 [2; 2] [Cx 11 0; Cx 5 (-1); Cx 5 1; Cx 6 0].
Definition h_example : ndarray := Array complex128 [2; 1] [Cx (-6) (-8); Cx (-6) 2].
Definition spins_example : ndarray :=
  Array float64 [4] [Cre 1; Cre (-1); Cre (-1); Cre 1].
Definition v_example : ndarray := Array complex128 [1] [Cx (-1) 3].
Definition Fv_example : ndarray := Array complex128 [2; 1] [Cx 2 4; Cx (-5) 5].
Definition x_example : ndarray := Array complex128 [2] [Cx 4 (-9); Cx 0 2].
Definition yR_example : ndarray := Array float64 [2; 1] [Cre 3; Cre (-1)].
Definition FR_example : ndarray := Array float64 [2; 1] [Cre 1; Cre 2].
Definition noise_example : ndarray := Array complex128 [2; 1] [Cx 1 0; Cx 0 (-2)].

(** Signals and channels for the two cells of [path_graph_2], one
    transmitter and one receiver each; and signals for the first cell
    only. *)
Definition y_cell : ndarray := Array float64 [1; 1] [Cre 2].
Definition F_cell : ndarray := Array float64 [1; 2] [Cre 1; Cre (-1)].
Definition ys_example : gmap label (option ndarray) :=
  {[ LIdx 0 := Some y_cell; LIdx 1 := Some y_cell ]}.
Definition Fs_example : gmap label (option ndarray) :=
  {[ LIdx 0 := Some F_cell; LIdx 1 := Some F_cell ]}.
Definition ys_partial : gmap label (option ndarray) := {[ LIdx 0 := Some y_cell ]}.

(** ** Operands on which the matrix products are exact *)

(** Both parts of [z] are at most [B] in absolute value. *)
Definition within (B : Z) (z : complex) : Prop :=
  (Z.abs (re z) <= B)%Z /\ (Z.abs (im z) <= B)%Z.

Definition entries_within (B : Z) (a : ndarray) : Prop :=
  (0 <= B)%Z /\ Forall (within B) (data a).


(** * Properties *)

(** ** Lists and indices *)

Lemma nth_map_seq {A} (f : nat -> A) (s n i : nat) (d : A) :
  i < n -> nth i (List.map f (seq s n)) d = f (s + i).
Proof.
  intros Hi.
  rewrite (nth_indep _ d (f 0)) by (rewrite List.length_map, List.length_seq; exact Hi).
  rewrite map_nth, seq_nth by exact Hi. reflexivity.
Qed.

Lemma length_flat_rows {A} (c : nat) (f : nat -> nat -> A) (r s : nat) :
  List.length (flat_map (fun i => List.map (f i) (seq 0 c)) (seq s r)) = r * c.
Proof.
  revert s. induction r as [|r IH]; intros s; simpl; [reflexivity|].
  rewrite List.length_app, List.length_map, List.length_seq, IH. reflexivity.
Qed.

Lemma length_tabulate2 {A} (r c : nat) (f : nat -> nat -> A) :
  List.length (tabulate2 r c f) = r * c.
Proof. apply length_flat_rows. Qed.

Lemma nth_flat_rows {A} (c : nat) (f : nat -> nat -> A) (d : A) (r s i j : nat) :
  i < r -> j < c ->
  nth (i * c + j) (flat_map (fun i => List.map (f i) (seq 0 c)) (seq s r)) d = f (s + i) j.
Proof.
  revert s i. induction r as [|r IH]; intros s i Hi Hj; [lia|].
  simpl. destruct i as [|i].
  - rewrite app_nth1 by (rewrite List.length_map, List.length_seq; lia).
    simpl. rewrite nth_map_seq by exact Hj. f_equal; lia.
  - rewrite app_nth2 by (rewrite List.length_map, List.length_seq; simpl; lia).
    rewrite List.length_map, List.length_seq.
    replace (S i * c + j - c) with (i * c + j) by (simpl; lia).
    rewrite IH by lia. f_equal; lia.
Qed.

Lemma nth_tabulate2 {A} (r c : nat) (f : nat -> nat -> A) (d : A) (i j : nat) :
  i < r -> j < c -> nth (i * c + j) (tabulate2 r c f) d = f i j.
Proof. intros Hi Hj. unfold tabulate2. rewrite nth_flat_rows by assumption. reflexivity. Qed.

Lemma index_lt (r c i j : nat) : i < r -> j < c -> i * c + j < r * c.
Proof. intros Hi Hj. nia. Qed.

Lemma div_mul_add (c i j : nat) : j < c -> (i * c + j) / c = i.
Proof.
  intros Hj. rewrite Nat.add_comm, Nat.div_add by lia.
  rewrite Nat.div_small by exact Hj. reflexivity.
Qed.

Lemma mod_mul_add (c i j : nat) : j < c -> (i * c + j) mod c = j.
Proof.
  intros Hj. rewrite Nat.add_comm, Nat.Div0.mod_add. apply Nat.mod_small. exact Hj.
Qed.

Lemma unravel2 (r c i j : nat) :
  i < r -> j < c -> unravel [r; c] (i * c + j) = [i; j].
Proof.
  intros Hi Hj. unfold unravel, size_of. cbn [fold_right].
  rewrite !Nat.mul_1_r, !Nat.div_1_r.
  rewrite div_mul_add, mod_mul_add by exact Hj.
  rewrite !Nat.mod_small by assumption. reflexivity.
Qed.

(** ** Array operations on two-dimensional operands *)

Lemma ravel_unravel_T (r c i j : nat) :
  i < r -> j < c ->
  ravel [r; c] (rev (unravel (rev [r; c]) (j * r + i))) 0 = i * c + j.
Proof.
  intros Hi Hj. change (rev [r; c]) with [c; r].
  rewrite unravel2 by assumption. reflexivity.
Qed.

Lemma at2_T (a : ndarray) (r c i j : nat) :
  shape a = [r; c] -> i < r -> j < c -> at2 (np.T a) j i = at2 a i j.
Proof.
  intros Hs Hi Hj. unfold at2, np.T, dim. cbn [shape data]. rewrite Hs.
  change (nth 1 (rev [r; c]) 0) with r. change (nth 1 [r; c] 0) with c.
  rewrite nth_map_seq by (change (rev [r; c]) with [c; r]; unfold size_of; simpl; nia).
  rewrite Nat.add_0_l, ravel_unravel_T by assumption. reflexivity.
Qed.

Lemma shape_T2 (a : ndarray) (r c : nat) : shape a = [r; c] -> shape (np.T a) = [c; r].
Proof. intros Hs. unfold np.T. simpl. rewrite Hs. reflexivity. Qed.

Lemma at2_conj (a : ndarray) (i j : nat) : at2 (np.conj a) i j = Cconj (at2 a i j).
Proof. unfold at2, np.conj, dim. simpl. exact (map_nth Cconj (data a) C0 _). Qed.

Lemma at2_real (a : ndarray) (i j : nat) : at2 (np.real a) i j = Cre (re (at2 a i j)).
Proof. unfold at2, np.real, dim. simpl. exact (map_nth (fun z => Cre (re z)) (data a) C0 _). Qed.

Lemma at2_imag (a : ndarray) (i j : nat) : at2 (np.imag a) i j = Cre (im (at2 a i j)).
Proof. unfold at2, np.imag, dim. simpl. exact (map_nth (fun z => Cre (im z)) (data a) C0 _). Qed.

Lemma at2_scale (k : Z) (a : ndarray) (i j : nat) :
  at2 (np.scale k a) i j = Cscale k (at2 a i j).
Proof.
  unfold at2, np.scale, dim. simpl.
  replace C0 with (Cscale k C0) at 1 by (unfold Cscale, C0; simpl; f_equal; lia).
  apply (map_nth (Cscale k)).
Qed.

Lemma matmul_2d (a b : ndarray) (n k m : nat) :
  shape a = [n; k] -> shape b = [k; m] ->
  exists c, np.matmul a b = Ok c /\ shape c = [n; m] /\
    adtype c = promote (adtype a) (adtype b) /\
    data c = tabulate2 n m (fun i j =>
               np.dot (promote (adtype a) (adtype b)) k
                      (fun l => at2 a i l) (fun l => at2 b l j)) /\
    forall i j, i < n -> j < m ->
      at2 c i j = np.dot (promote (adtype a) (adtype b)) k
                         (fun l => at2 a i l) (fun l => at2 b l j).
Proof.
  intros Ha Hb. unfold np.matmul. rewrite Ha, Hb, Nat.eqb_refl.
  eexists. split; [reflexivity|]. split; [reflexivity|]. split; [reflexivity|].
  split; [reflexivity|].
  intros i j Hi Hj. unfold at2 at 1, dim. simpl.
  rewrite nth_tabulate2 by assumption. reflexivity.
Qed.

(** ** Complex arithmetic *)

Lemma complex_eq (a b : complex) : re a = re b -> im a = im b -> a = b.
Proof. destruct a, b; simpl; intros -> ->; reflexivity. Qed.

Ltac complex_ring :=
  apply complex_eq; unfold Cscale, Cmul, Cadd, Cconj, Cre, C0, Ci_mul; cbn [re im]; ring.

Lemma Csum_ext (f g : nat -> complex) (n : nat) :
  (forall l, l < n -> f l = g l) ->
  Csum (List.map f (seq 0 n)) = Csum (List.map g (seq 0 n)).
Proof.
  intros E. f_equal. apply map_ext_in. intros l Hl. apply in_seq in Hl. apply E. lia.
Qed.

Lemma Csum_add {A} (f g : A -> complex) (l : list A) :
  Cadd (Csum (List.map f l)) (Csum (List.map g l)) =
  Csum (List.map (fun x => Cadd (f x) (g x)) l).
Proof.
  induction l as [|x l IH]; simpl; [reflexivity|].
  rewrite <- IH. complex_ring.
Qed.

Lemma Csum_zero {A} (f : A -> complex) (l : list A) :
  (forall x, In x l -> f x = C0) -> Csum (List.map f l) = C0.
Proof.
  induction l as [|x l IH]; intros E; simpl; [reflexivity|].
  rewrite E by (left; reflexivity). rewrite IH by (intros; apply E; right; assumption).
  reflexivity.
Qed.

(** ** Rounding and wrap-around *)

Lemma round_magnitude_small (x : Z) : (0 <= x <= 2 ^ 53)%Z -> round_magnitude x = x.
Proof.
  intros Hx. unfold round_magnitude.
  destruct (Z.eq_dec x (2 ^ 53)) as [->|Hne]; [reflexivity|].
  assert (E : (Z.log2 x - 52 <= 0)%Z).
  { destruct (Z.eq_dec x 0) as [->|H0]; [cbn; lia|].
    assert (Z.log2 x < 53)%Z by (apply Z.log2_lt_pow2; lia). lia. }
  apply Z.leb_le in E. rewrite E. reflexivity.
Qed.


Lemma round_float64_small (x : Z) : (Z.abs x <= 2 ^ 53)%Z -> round_float64 x = x.
Proof.
  intros Hx. unfold round_float64.
  rewrite round_magnitude_small by (split; [apply Z.abs_nonneg|exact Hx]).
  rewrite Z.mul_comm. apply Z.abs_sgn.
Qed.



Lemma wrap64_small (x : Z) : (- 2 ^ 63 <= x < 2 ^ 63)%Z -> np.wrap64 x = x.
Proof. intros Hx. unfold np.wrap64. rewrite Z.mod_small by lia. lia. Qed.

Lemma abs_mul_le (x y A B : Z) :
  (Z.abs x <= A)%Z -> (Z.abs y <= B)%Z -> (Z.abs (x * y) <= A * B)%Z.
Proof.
  intros Hx Hy. rewrite Z.abs_mul.
  apply Z.mul_le_mono_nonneg; try assumption; apply Z.abs_nonneg.
Qed.

Lemma within_mono (A B : Z) (z : complex) : (A <= B)%Z -> within A z -> within B z.
Proof. intros H [Hr Hi]. split; lia. Qed.

Lemma within_Cmul (A B : Z) (a b : complex) :
  within A a -> within B b -> within (2 * A * B) (Cmul a b).
Proof.
  intros [Ha Ha'] [Hb Hb']. unfold within, Cmul. cbn [re im].
  pose proof (abs_mul_le _ _ _ _ Ha Hb). pose proof (abs_mul_le _ _ _ _ Ha' Hb').
  pose proof (abs_mul_le _ _ _ _ Ha Hb'). pose proof (abs_mul_le _ _ _ _ Ha' Hb).
  split; lia.
Qed.

Lemma within_Cadd (A B : Z) (a b : complex) :
  within A a -> within B b -> within (A + B) (Cadd a b).
Proof. intros [Ha Ha'] [Hb Hb']. unfold within, Cadd. cbn [re im]. split; lia. Qed.

Lemma within_Csum (P : Z) (ts : list complex) :
  (0 <= P)%Z -> Forall (within P) ts ->
  within (Z.of_nat (List.length ts) * P) (Csum ts).
Proof.
  intros HP H. induction H as [|t ts Ht _ IH].
  - split; cbn; lia.
  - cbn [Csum fold_right List.length]. fold (Csum ts).
    replace (Z.of_nat (S (List.length ts)) * P)%Z
      with (P + Z.of_nat (List.length ts) * P)%Z by lia.
    apply within_Cadd; assumption.
Qed.

Lemma Cround_small (a : complex) : within (2 ^ 53) a -> Cround a = a.
Proof.
  intros [Hr Hi]. unfold Cround. rewrite !round_float64_small by assumption.
  destruct a; reflexivity.
Qed.

Lemma Cmul_float_exact (A B : Z) (a b : complex) :
  within A a -> within B b -> (2 * A * B <= 2 ^ 53)%Z ->
  Cmul_float a b = Cmul a b.
Proof.
  intros [Ha Ha'] [Hb Hb'] HAB. unfold Cmul_float, Cmul.
  pose proof (abs_mul_le _ _ _ _ Ha Hb). pose proof (abs_mul_le _ _ _ _ Ha' Hb').
  pose proof (abs_mul_le _ _ _ _ Ha Hb'). pose proof (abs_mul_le _ _ _ _ Ha' Hb).
  rewrite (round_float64_small (re a * re b)), (round_float64_small (im a * im b)),
    (round_float64_small (re a * im b)), (round_float64_small (im a * re b)) by lia.
  rewrite !round_float64_small by lia. reflexivity.
Qed.

Lemma Csum_float_exact (P : Z) (ts : list complex) (S : Z) (acc : complex) :
  (0 <= P)%Z -> Forall (within P) ts -> within S acc ->
  (S + Z.of_nat (List.length ts) * P <= 2 ^ 53)%Z ->
  fold_left Cadd_float ts acc = Cadd acc (Csum ts).
Proof.
  intros HP H. revert S acc. induction H as [|t ts Ht _ IH]; intros S acc Hacc Hb.
  - cbn. destruct acc; unfold Cadd, C0; cbn [re im]. f_equal; lia.
  - cbn [fold_left Csum fold_right List.length] in *. fold (Csum ts).
    assert (E : Cadd_float acc t = Cadd acc t).
    { destruct Hacc as [Hr Hi], Ht as [Hr' Hi']. unfold Cadd_float, Cadd.
      rewrite !round_float64_small by lia. reflexivity. }
    rewrite E. rewrite (IH (S + P)%Z).
    + apply complex_eq; unfold Cadd; cbn [re im]; ring.
    + apply within_Cadd; assumption.
    + lia.
Qed.

(** Within the bound the inner product of [np.matmul] is the exact one,
    whatever the dtype. *)
Lemma dot_exact (d : dtype) (k : nat) (f g : nat -> complex) (A B : Z) :
  (0 <= A)%Z -> (0 <= B)%Z -> (0 < k -> (A <= 2 ^ 53)%Z /\ (B <= 2 ^ 53)%Z) ->
  (forall l, l < k -> within A (f l)) -> (forall l, l < k -> within B (g l)) ->
  (2 * Z.of_nat k * A * B <= 2 ^ 53)%Z ->
  np.dot d k f g = Csum (List.map (fun l => Cmul (f l) (g l)) (seq 0 k)).
Proof.
  intros HA HB Hsmall Hf Hg Hk.
  assert (Hts : Forall (within (2 * A * B))
                  (List.map (fun l => Cmul (f l) (g l)) (seq 0 k))).
  { apply Forall_forall. intros z Hz. apply in_map_iff in Hz as (l & <- & Hl).
    apply in_seq in Hl. apply within_Cmul; [apply Hf|apply Hg]; lia. }
  assert (HP : (0 <= 2 * A * B)%Z) by nia.
  assert (Hflt : Csum_float (List.map (fun l => Cmul_float (Cround (f l)) (Cround (g l)))
                                      (seq 0 k))
                 = Csum (List.map (fun l => Cmul (f l) (g l)) (seq 0 k))).
  { replace (List.map (fun l => Cmul_float (Cround (f l)) (Cround (g l))) (seq 0 k))
      with (List.map (fun l => Cmul (f l) (g l)) (seq 0 k)).
    - unfold Csum_float.
      rewrite (Csum_float_exact (2 * A * B) _ 0 C0 HP Hts).
      + apply complex_eq; unfold Cadd, C0; cbn [re im]; ring.
      + split; cbn; lia.
      + rewrite List.length_map, List.length_seq. lia.
    - apply map_ext_in. intros l Hl. apply in_seq in Hl.
      destruct (Hsmall ltac:(lia)) as [HA' HB'].
      rewrite (Cround_small (f l)) by (apply (within_mono A); [exact HA'|apply Hf; lia]).
      rewrite (Cround_small (g l)) by (apply (within_mono B); [exact HB'|apply Hg; lia]).
      symmetry. apply (Cmul_float_exact A B); [apply Hf; lia|apply Hg; lia|nia]. }
  destruct d; cbn [np.dot]; try exact Hflt.
  pose proof (within_Csum _ _ HP Hts) as [Hr Hi].
  rewrite List.length_map, List.length_seq in Hr, Hi.
  unfold np.Cwrap64.
  rewrite !wrap64_small by lia.
  destruct (Csum _); reflexivity.
Qed.

Lemma hdot_self_real (n : nat) (u : nat -> complex) : im (hdot n u u) = 0%Z.
Proof.
  unfold hdot. generalize (seq 0 n) as l.
  induction l as [|i l IH]; simpl; [reflexivity|].
  rewrite IH. ring.
Qed.


(** ** The quadratic form *)

Lemma dot_ext (d : dtype) (k : nat) (f f' g g' : nat -> complex) :
  (forall l, l < k -> f l = f' l) -> (forall l, l < k -> g l = g' l) ->
  np.dot d k f g = np.dot d k f' g'.
Proof.
  intros Hf Hg.
  assert (E1 : List.map (fun l => Cmul (f l) (g l)) (seq 0 k) =
               List.map (fun l => Cmul (f' l) (g' l)) (seq 0 k)).
  { apply map_ext_in. intros l Hl. apply in_seq in Hl. rewrite Hf, Hg by lia. reflexivity. }
  assert (E2 : List.map (fun l => Cmul_float (Cround (f l)) (Cround (g l))) (seq 0 k) =
               List.map (fun l => Cmul_float (Cround (f' l)) (Cround (g' l))) (seq 0 k)).
  { apply map_ext_in. intros l Hl. apply in_seq in Hl. rewrite Hf, Hg by lia. reflexivity. }
  destruct d; cbn [np.dot]; rewrite ?E1, ?E2; reflexivity.
Qed.



Lemma at2_within (B : Z) (a : ndarray) (i j : nat) :
  entries_within B a -> within B (at2 a i j).
Proof.
  intros [HB Ha]. unfold at2.
  destruct (Nat.lt_ge_cases (i * dim 1 a + j) (List.length (data a))) as [Hlt|Hge].
  - rewrite Forall_forall in Ha. apply Ha, nth_In. exact Hlt.
  - rewrite nth_overflow by exact Hge. split; cbn; lia.
Qed.

Lemma within_Cconj (B : Z) (z : complex) : within B z -> within B (Cconj z).
Proof. intros [Hr Hi]. split; cbn [Cconj re im]; [exact Hr|rewrite Z.abs_opp; exact Hi]. Qed.

Lemma within_re (B : Z) (z : complex) : within B z -> within B (Cre (re z)).
Proof. intros [Hr Hi]. split; cbn [Cre re im]; lia. Qed.

Lemma within_im (B : Z) (z : complex) : within B z -> within B (Cre (im z)).
Proof. intros [Hr Hi]. split; cbn [Cre re im]; lia. Qed.

(** Bounds under which every product of [_quadratic_form] is exact. *)
Lemma square_bound (n : nat) (B : Z) :
  (0 <= B)%Z -> (2 * Z.of_nat n * B * B <= 2 ^ 53)%Z ->
  0 < n -> (B <= 2 ^ 53)%Z.
Proof. intros HB Hn Hpos. nia. Qed.

(** What [_quadratic_form] computes on a column [y] and a matrix [F] with as
    many rows: the four inner products of [np.matmul], in the arithmetic of
    their dtypes. *)
Lemma quadratic_form_run (y F : ndarray) (n m : nat) :
  shape y = [n; 1] -> shape F = [n; m] ->
  exists offset h J,
    _quadratic_form y F = Ok (offset, h, J) /\
    shape offset = [1; 1] /\ adtype offset <> complex128 /\
    data offset =
      [Cadd (np.dot (adtype (np.imag y)) n (fun l => Cre (im (at2 y l 0)))
                    (fun l => Cre (im (at2 y l 0))))
            (np.dot (adtype (np.real y)) n (fun l => Cre (re (at2 y l 0)))
                    (fun l => Cre (re (at2 y l 0))))] /\
    shape h = [m; 1] /\ List.length (data h) = m /\
    adtype h = promote (adtype F) (adtype y) /\
    (forall j, j < m ->
       at2 h j 0 = Cscale (-2) (np.dot (promote (adtype F) (adtype y)) n
                                  (fun l => Cconj (at2 F l j)) (fun l => at2 y l 0))) /\
    shape J = [m; m] /\ List.length (data J) = m * m /\
    (forall j k, j < m -> k < m ->
       at2 J j k = np.dot (promote (adtype F) (adtype F)) n
                     (fun l => Cconj (at2 F l j)) (fun l => at2 F l k)).
Proof.
  intros Hy HF.
  assert (Hyi : shape (np.imag y) = [n; 1]) by (simpl; exact Hy).
  assert (Hyr : shape (np.real y) = [n; 1]) by (simpl; exact Hy).
  assert (HFt : shape (np.conj (np.T F)) = [m; n]) by (simpl; rewrite HF; reflexivity).
  destruct (matmul_2d (np.T (np.imag y)) (np.imag y) 1 n 1 (shape_T2 _ _ _ Hyi) Hyi)
    as (oi & Eoi & Soi & Toi & Doi & _).
  destruct (matmul_2d (np.T (np.real y)) (np.real y) 1 n 1 (shape_T2 _ _ _ Hyr) Hyr)
    as (or & Eor & Sor & Tor & Dor & _).
  destruct (matmul_2d (np.conj (np.T F)) y m n 1 HFt Hy) as (Fy & EFy & SFy & TFy & DFy & VFy).
  destruct (matmul_2d (np.conj (np.T F)) F m n m HFt HF) as (J & EJ & SJ & _ & DJ & VJ).
  exists (Array (promote (adtype oi) (adtype or)) [1; 1]
                (List.map (fun p => Cadd (fst p) (snd p)) (combine (data oi) (data or)))),
         (np.scale (-2) Fy), J.
  split.
  { unfold _quadratic_form, ndim, dim. rewrite Hy, HF. cbn [List.length nth].
    rewrite !Nat.eqb_refl. cbn [negb orb].
    rewrite Eoi, Eor. cbn [mbind result_bind]. unfold np.add. rewrite Soi, Sor.
    destruct (decide ([1; 1] = [1; 1])) as [_|Hne]; [|congruence].
    cbn [mbind result_bind]. rewrite EFy. cbn [mbind result_bind]. rewrite EJ.
    reflexivity. }
  split; [reflexivity|].
  split.
  { cbn [adtype]. rewrite Toi, Tor. cbn [np.T np.imag np.real adtype].
    destruct (adtype y); cbn; discriminate. }
  split.
  { cbn [data]. rewrite Doi, Dor. cbn [tabulate2 seq flat_map List.map app combine fst snd].
    f_equal. f_equal.
    - replace (promote (adtype (np.T (np.imag y))) (adtype (np.imag y)))
        with (adtype (np.imag y))
        by (cbn [np.T np.imag adtype]; destruct (adtype y); reflexivity).
      apply dot_ext; intros l Hl.
      + rewrite (at2_T _ n 1 l 0 Hyi Hl) by lia. apply at2_imag.
      + apply at2_imag.
    - replace (promote (adtype (np.T (np.real y))) (adtype (np.real y)))
        with (adtype (np.real y))
        by (cbn [np.T np.real adtype]; destruct (adtype y); reflexivity).
      apply dot_ext; intros l Hl.
      + rewrite (at2_T _ n 1 l 0 Hyr Hl) by lia. apply at2_real.
      + apply at2_real. }
  split; [exact SFy|].
  split; [cbn [np.scale data]; rewrite List.length_map, DFy, length_tabulate2; lia|].
  split; [cbn [np.scale adtype]; rewrite TFy; reflexivity|].
  split.
  { intros j Hj. rewrite at2_scale, VFy by lia. f_equal.
    apply dot_ext; intros l Hl; [|reflexivity].
    rewrite at2_conj, (at2_T F n m l j HF Hl Hj). reflexivity. }
  split; [exact SJ|]. split; [rewrite DJ, length_tabulate2; reflexivity|].
  intros j k Hj Hk. rewrite VJ by assumption.
  apply dot_ext; intros l Hl; [|reflexivity].
  rewrite at2_conj, (at2_T F n m l j HF Hl Hj). reflexivity.
Qed.

(** Within the bounds the products are the exact ones. *)
Lemma quadratic_form_entries (y F : ndarray) (n m : nat) (B : Z) :
  shape y = [n; 1] -> shape F = [n; m] ->
  entries_within B y -> entries_within B F -> (2 * Z.of_nat n * B * B <= 2 ^ 53)%Z ->
  exists offset h J,
    _quadratic_form y F = Ok (offset, h, J) /\
    shape offset = [1; 1] /\
    at2 offset 0 0 = hdot n (fun i => at2 y i 0) (fun i => at2 y i 0) /\
    shape h = [m; 1] /\ List.length (data h) = m /\
    adtype h = promote (adtype F) (adtype y) /\
    (forall j, j < m ->
       at2 h j 0 = Cscale (-2) (hdot n (fun i => at2 F i j) (fun i => at2 y i 0))) /\
    shape J = [m; m] /\ List.length (data J) = m * m /\
    (forall j k, j < m -> k < m ->
       at2 J j k = hdot n (fun i => at2 F i j) (fun i => at2 F i k)).
Proof.
  intros Hy HF By BF Hb.
  destruct (quadratic_form_run y F n m Hy HF)
    as (offset & h & J & E & So & _ & Do & Sh & Lh & Th & Vh & SJ & LJ & VJ).
  assert (HB : (0 <= B)%Z) by apply By.
  assert (HB' : 0 < n -> (B <= 2 ^ 53)%Z /\ (B <= 2 ^ 53)%Z)
    by (intros Hn; split; apply (square_bound n B HB Hb Hn)).
  assert (Hbb : (2 * Z.of_nat n * B * B <= 2 ^ 53)%Z) by exact Hb.
  exists offset, h, J. split; [exact E|]. split; [exact So|].
  split.
  { replace (at2 offset 0 0) with (nth 0 (data offset) C0)
      by (unfold at2, dim; rewrite So; reflexivity).
    rewrite Do. cbn [nth].
    rewrite !(dot_exact _ n _ _ B B HB HB HB')
      by (try exact Hbb; intros l _;
          first [apply within_im|apply within_re]; apply at2_within; exact By).
    rewrite Csum_add. unfold hdot. apply Csum_ext. intros l Hl. complex_ring. }
  split; [exact Sh|]. split; [exact Lh|]. split; [exact Th|].
  split.
  { intros j Hj. rewrite (Vh j Hj). f_equal.
    apply (dot_exact _ n _ _ B B HB HB HB'); [| |exact Hbb].
    - intros l _. apply within_Cconj, at2_within. exact BF.
    - intros l _. apply at2_within. exact By. }
  split; [exact SJ|]. split; [exact LJ|].
  intros j k Hj Hk. rewrite (VJ j k Hj Hk).
  apply (dot_exact _ n _ _ B B HB HB HB'); [| |exact Hbb].
  - intros l _. apply within_Cconj, at2_within. exact BF.
  - intros l _. apply at2_within. exact BF.
Qed.



Lemma length_real (a : ndarray) : List.length (data (np.real a)) = List.length (data a).
Proof. simpl. apply List.length_map. Qed.

Lemma length_imag (a : ndarray) : List.length (data (np.imag a)) = List.length (data a).
Proof. simpl. apply List.length_map. Qed.

Lemma length_T (a : ndarray) : List.length (data (np.T a)) = size_of (rev (shape a)).
Proof. simpl. rewrite List.length_map, List.length_seq. reflexivity. Qed.

Lemma concatenate0_same (a b : ndarray) (n m : nat) (s : list nat) :
  shape a = n :: s -> shape b = m :: s ->
  np.concatenate0 a b =
  Ok (Array (promote (adtype a) (adtype b)) (n + m :: s) (data a ++ data b)).
Proof.
  intros Ha Hb. unfold np.concatenate0. rewrite Ha, Hb.
  destruct (decide (s = s)) as [_|Hne]; [reflexivity|congruence].
Qed.

Lemma concatenate0_2d (a b : ndarray) (ra rb c : nat) :
  shape a = [ra; c] -> shape b = [rb; c] -> List.length (data a) = ra * c ->
  exists r, np.concatenate0 a b = Ok r /\ shape r = [ra + rb; c] /\
    adtype r = promote (adtype a) (adtype b) /\
    data r = data a ++ data b /\
    forall i j, j < c ->
      at2 r i j = if i <? ra then at2 a i j else at2 b (i - ra) j.
Proof.
  intros Ha Hb La. unfold np.concatenate0. rewrite Ha, Hb.
  destruct (decide ([c] = [c])) as [_|Hne]; [|congruence].
  eexists. split; [reflexivity|]. split; [reflexivity|]. split; [reflexivity|].
  split; [reflexivity|].
  intros i j Hj. unfold at2, dim. simpl. rewrite Ha, Hb. simpl.
  destruct (i <? ra) eqn:E.
  - apply Nat.ltb_lt in E. rewrite app_nth1 by (rewrite La; nia). reflexivity.
  - apply Nat.ltb_ge in E. rewrite app_nth2 by (rewrite La; nia).
    rewrite La. f_equal. nia.
Qed.

Lemma row_of_two (A B : list complex) (ca cb i : nat) :
  i * ca + ca <= List.length A -> i * cb + cb <= List.length B ->
  firstn ca (skipn (i * ca) A) ++ firstn cb (skipn (i * cb) B) =
  List.map (fun j => if j <? ca then nth (i * ca + j) A C0
                     else nth (i * cb + (j - ca)) B C0) (seq 0 (ca + cb)).
Proof.
  intros HA HB.
  assert (LA : List.length (firstn ca (skipn (i * ca) A)) = ca)
    by (rewrite List.length_firstn, List.length_skipn; lia).
  assert (LB : List.length (firstn cb (skipn (i * cb) B)) = cb)
    by (rewrite List.length_firstn, List.length_skipn; lia).
  apply (nth_ext _ _ C0 C0).
  - rewrite List.length_app, List.length_map, List.length_seq. lia.
  - intros j Hj. rewrite List.length_app, LA, LB in Hj.
    rewrite nth_map_seq by exact Hj. simpl.
    destruct (j <? ca) eqn:E.
    + apply Nat.ltb_lt in E. rewrite app_nth1 by lia.
      rewrite nth_firstn. apply Nat.ltb_lt in E. rewrite E.
      rewrite nth_skipn. reflexivity.
    + apply Nat.ltb_ge in E. rewrite app_nth2 by lia. rewrite LA.
      rewrite nth_firstn.
      assert (E' : (j - ca <? cb) = true) by (apply Nat.ltb_lt; lia).
      rewrite E'. rewrite nth_skipn. reflexivity.
Qed.

Lemma flat_map_ext_In {A B} (f g : A -> list B) (l : list A) :
  (forall x, In x l -> f x = g x) -> flat_map f l = flat_map g l.
Proof.
  induction l as [|x l IH]; intros E; simpl; [reflexivity|].
  rewrite E by (left; reflexivity). rewrite IH by (intros; apply E; right; assumption).
  reflexivity.
Qed.

Lemma concatenate1_2d (a b : ndarray) (R ca cb : nat) :
  shape a = [R; ca] -> shape b = [R; cb] ->
  List.length (data a) = R * ca -> List.length (data b) = R * cb ->
  exists r, np.concatenate1 a b = Ok r /\ shape r = [R; ca + cb] /\
    adtype r = promote (adtype a) (adtype b) /\
    forall i j, i < R -> j < ca + cb ->
      at2 r i j = if j <? ca then at2 a i j else at2 b i (j - ca).
Proof.
  intros Ha Hb La Lb. unfold np.concatenate1. rewrite Ha, Hb.
  destruct (decide (R = R /\ [] = [])) as [_|Hne]; [|exfalso; apply Hne; split; reflexivity].
  eexists. split; [reflexivity|]. split; [reflexivity|]. split; [reflexivity|].
  intros i j Hi Hj. unfold at2, dim. simpl. rewrite Ha, Hb. simpl.
  change (size_of []) with 1. rewrite !Nat.mul_1_r.
  erewrite flat_map_ext_In.
  2:{ intros k Hk. apply in_seq in Hk.
      apply row_of_two; rewrite ?La, ?Lb; nia. }
  rewrite (nth_flat_rows (ca + cb)
             (fun i j => if j <? ca then nth (i * ca + j) (data a) C0
                         else nth (i * cb + (j - ca)) (data b) C0)) by assumption.
  reflexivity.
Qed.

Lemma real_of_real (a : ndarray) :
  wf_array a -> adtype a <> complex128 -> np.real a = a.
Proof.
  intros [_ Hre] Hd. specialize (Hre Hd). destruct a as [d s l]. unfold np.real. simpl in *.
  f_equal.
  - destruct d; congruence.
  - induction Hre as [|z l Hz _ IH]; simpl; [reflexivity|].
    rewrite IH. f_equal. destruct z; simpl in *; subst; reflexivity.
Qed.

(** C5 (as the code has it).  For [h] with [n] rows and [J] of shape
    [(n, n)], one of them of dtype complex128, and a modulation other than
    BPSK, [_real_quadratic_form] returns [hR = [Re h; Im h]] and the
    [2n]-by-[2n] matrix [[Re J, Im J^T], [Im J, Re J]]; for BPSK, or when
    neither is complex, it returns the real parts, which for real arrays are
    the arrays themselves. *)
Theorem real_projection_spec (h J : ndarray) (modulation : option string) :
  (forall n s, shape h = n :: s -> shape J = [n; n] ->
     List.length (data J) = n * n ->
     is_modulation modulation "BPSK" = false ->
     adtype h = complex128 \/ adtype J = complex128 ->
     exists hR JR,
       _real_quadratic_form h J modulation = Ok (hR, JR) /\
       adtype hR <> complex128 /\ shape hR = n + n :: s /\
       data hR = List.map (fun z => Cre (re z)) (data h) ++
                 List.map (fun z => Cre (im z)) (data h) /\
       adtype JR <> complex128 /\ shape JR = [n + n; n + n] /\
       forall i j, i < n + n -> j < n + n -> at2 JR i j = stacked n J i j) /\
  (is_modulation modulation "BPSK" = true \/
   (adtype h <> complex128 /\ adtype J <> complex128) ->
     _real_quadratic_form h J modulation = Ok (np.real h, np.real J)) /\
  (wf_array h -> wf_array J -> adtype h <> complex128 -> adtype J <> complex128 ->
     _real_quadratic_form h J modulation = Ok (h, J)).
Proof.
  assert (Helse : is_modulation modulation "BPSK" = true \/
                  (adtype h <> complex128 /\ adtype J <> complex128) ->
                  _real_quadratic_form h J modulation = Ok (np.real h, np.real J)).
  { intros [E|[Eh EJ]]; unfold _real_quadratic_form.
    - rewrite E. reflexivity.
    - destruct (adtype h), (adtype J); try congruence;
        simpl; rewrite ?andb_false_r; reflexivity. }
  split; [|split; [exact Helse|]].
  - intros n s Hh HJ LJ Hm Hc.
    assert (HJr : shape (np.real J) = [n; n]) by exact HJ.
    assert (HJi : shape (np.imag J) = [n; n]) by exact HJ.
    destruct (concatenate0_2d (np.real J) (np.imag J) n n n HJr HJi)
      as (left & El & Sl & Tl & Dl & Vl); [rewrite length_real; exact LJ|].
    destruct (concatenate0_2d (np.T (np.imag J)) (np.real J) n n n
                (shape_T2 _ _ _ HJi) HJr)
      as (right & Er & Sr & Tr & Dr & Vr).
    { rewrite length_T. simpl. rewrite HJ. unfold size_of. simpl. lia. }
    destruct (concatenate1_2d left right (n + n) n n Sl Sr)
      as (JR & EJR & SJR & TJR & VJR).
    { rewrite Dl, List.length_app, length_real, length_imag, LJ. lia. }
    { rewrite Dr, List.length_app, length_T, length_real, LJ. simpl. rewrite HJ.
      unfold size_of. simpl. lia. }
    eexists _, JR. split.
    { unfold _real_quadratic_form. rewrite Hm.
      assert (Ec : dtype_eqb (adtype h) complex128 || dtype_eqb (adtype J) complex128 = true)
        by (destruct Hc as [-> | ->]; simpl; rewrite ?orb_true_r; reflexivity).
      rewrite Ec. simpl.
      rewrite (concatenate0_same (np.real h) (np.imag h) n n s Hh Hh). simpl.
      rewrite El. simpl. rewrite Er. simpl. rewrite EJR. reflexivity. }
    split; [simpl; destruct (adtype h); simpl; discriminate|].
    split; [reflexivity|]. split; [reflexivity|].
    split.
    { rewrite TJR, Tl, Tr. simpl. destruct (adtype J); simpl; discriminate. }
    split; [exact SJR|].
    intros i j Hi Hj. rewrite VJR by assumption.
    unfold stacked, block_entry, re_part, im_part, im_part_T.
    destruct (j <? n) eqn:Ej.
    + apply Nat.ltb_lt in Ej. rewrite Vl by exact Ej.
      destruct (i <? n) eqn:Ei.
      * apply at2_real.
      * apply at2_imag.
    + apply Nat.ltb_ge in Ej. rewrite Vr by lia.
      destruct (i <? n) eqn:Ei.
      * apply Nat.ltb_lt in Ei.
        rewrite (at2_T (np.imag J) n n (j - n) i HJi) by lia. apply at2_imag.
      * apply at2_real.
  - intros Wh WJ Dh DJ. rewrite Helse by (right; split; assumption).
    rewrite (real_of_real h Wh Dh), (real_of_real J WJ DJ). reflexivity.
Qed.

(** C5, the layout as the specification writes it: on the Hermitian
    [J = [[11, 5-i], [5+i, 6]]] the entry in row 0 and column 3 of the
    stacked matrix is [Im J^T [0,1] = 1], not [Im J [0,1] = -1]. *)
Lemma real_projection_layout_counterexample :
  match _real_quadratic_form
          (Array complex128 [2; 1] [Cx (-6) (-8); Cx (-6) 2])
          (Array complex128 [2; 2] [Cx 11 0; Cx 5 (-1); Cx 5 1; Cx 6 0])
          (Some "QPSK"%string) with
  | Ok (_, JR) =>
      at2 JR 0 3 = Cre 1 /\
      stacked_as_written 2 (Array complex128 [2; 2] [Cx 11 0; Cx 5 (-1); Cx 5 1; Cx 6 0]) 0 3
      = Cre (-1) /\
      at2 JR 0 3 <>
      stacked_as_written 2 (Array complex128 [2; 2] [Cx 11 0; Cx 5 (-1); Cx 5 1; Cx 6 0]) 0 3
  | Raise _ => False
  end.
Proof. vm_compute. repeat split; congruence. Qed.

Lemma real_projection_spec_witness :
  exists hR JR,
    _real_quadratic_form
      (Array complex128 [2; 1] [Cx (-6) (-8); Cx (-6) 2])
      (Array complex128 [2; 2] [Cx 11 0; Cx 5 (-1); Cx 5 1; Cx 6 0])
      (Some "QPSK"%string) = Ok (hR, JR) /\
    shape JR = [4; 4] /\
    forall i j, i < 4 -> j < 4 ->
      at2 JR i j =
      stacked 2 (Array complex128 [2; 2] [Cx 11 0; Cx 5 (-1); Cx 5 1; Cx 6 0]) i j.
Proof.
  destruct (proj1 (real_projection_spec
                     (Array complex128 [2; 1] [Cx (-6) (-8); Cx (-6) 2])
                     (Array complex128 [2; 2] [Cx 11 0; Cx 5 (-1); Cx 5 1; Cx 6 0])
                     (Some "QPSK"%string)) 2 [1] eq_refl eq_refl eq_refl eq_refl
                  (or_introl eq_refl))
    as (hR & JR & E & _ & _ & _ & _ & S & V).
  exists hR, JR. split; [exact E|]. split; [exact S|exact V].
Defined.

(** ** The Kronecker product *)

Lemma kron_2d (a b : ndarray) (p q r s : nat) :
  shape a = [p; q] -> shape b = [r; s] ->
  shape (np.kron a b) = [p * r; q * s] /\
  forall i j k l, i < p -> j < q -> k < r -> l < s ->
    at2 (np.kron a b) (i * r + k) (j * s + l) = Cmul (at2 a i j) (at2 b k l).
Proof.
  intros Ha Hb. unfold np.kron, ndim. rewrite Ha, Hb.
  change (np.pad_shape _ [p; q]) with [p; q].
  change (np.pad_shape _ [r; s]) with [r; s].
  cbn [combine List.map fst snd].
  split; [reflexivity|].
  intros i j k l Hi Hj Hk Hl. unfold at2 at 1, dim. cbn [shape data nth].
  assert (B1 : i * r + k < p * r) by nia.
  assert (B2 : j * s + l < q * s) by nia.
  rewrite nth_map_seq by (unfold size_of; cbn [fold_right]; nia).
  rewrite Nat.add_0_l, unravel2 by assumption.
  cbn [combine List.map fst snd].
  rewrite !div_mul_add, !mod_mul_add by assumption.
  unfold ravel, at2, dim. rewrite Ha, Hb. reflexivity.
Qed.

Lemma Cmul_Cre (w : Z) (z : complex) : Cmul (Cre w) z = Cscale w z.
Proof. complex_ring. Qed.

Lemma at2_amps_col (K a : nat) :
  a < K -> K <= 62 -> at2 (np.newaxis_col (np.pow2_arange K)) a 0 = Cre (2 ^ Z.of_nat a).
Proof.
  intros Ha HK. unfold at2, dim. simpl.
  rewrite Nat.add_0_r.
  replace (nth 1 ([K] ++ [1]) 0) with 1 by reflexivity. rewrite Nat.mul_1_r.
  rewrite nth_map_seq by exact Ha. simpl. f_equal.
  unfold np.wrap64.
  assert (0 < 2 ^ Z.of_nat a <= 2 ^ 62)%Z.
  { split; [apply Z.pow_pos_nonneg; lia|apply Z.pow_le_mono_r; lia]. }
  rewrite Z.mod_small by lia. lia.
Qed.

Lemma at2_amps_row (K a : nat) :
  a < K -> K <= 62 -> at2 (np.newaxis_row (np.pow2_arange K)) 0 a = Cre (2 ^ Z.of_nat a).
Proof.
  intros Ha HK. unfold at2, dim. simpl.
  rewrite nth_map_seq by exact Ha. simpl. f_equal.
  unfold np.wrap64.
  assert (0 < 2 ^ Z.of_nat a <= 2 ^ 62)%Z.
  { split; [apply Z.pow_pos_nonneg; lia|apply Z.pow_le_mono_r; lia]. }
  rewrite Z.mod_small by lia. lia.
Qed.

Lemma expand_by_kron (h J : ndarray) (n K : nat) :
  shape h = [n; 1] -> shape J = [n; n] -> K <= 62 ->
  let amps := np.pow2_arange K in
  let hA := np.kron (np.newaxis_col amps) h in
  let JA := np.kron (np.kron (np.newaxis_col amps) (np.newaxis_row amps)) J in
  shape hA = [K * n; 1] /\ shape JA = [K * n; K * n] /\
  (forall a i, a < K -> i < n ->
     at2 hA (a * n + i) 0 = Cscale (2 ^ Z.of_nat a) (at2 h i 0)) /\
  (forall a b i j, a < K -> b < K -> i < n -> j < n ->
     at2 JA (a * n + i) (b * n + j) =
     Cscale (2 ^ Z.of_nat a * 2 ^ Z.of_nat b) (at2 J i j)).
Proof.
  intros Hh HJ HK amps hA JA. subst hA JA amps.
  set (amps := np.pow2_arange K).
  assert (Sc : shape (np.newaxis_col amps) = [K; 1]) by reflexivity.
  assert (Sr : shape (np.newaxis_row amps) = [1; K]) by reflexivity.
  destruct (kron_2d (np.newaxis_col amps) h K 1 n 1 Sc Hh) as [ShA VhA].
  destruct (kron_2d (np.newaxis_col amps) (np.newaxis_row amps) K 1 1 K Sc Sr) as [Sw Vw].
  rewrite Nat.mul_1_r, Nat.mul_1_l in Sw.
  destruct (kron_2d _ J K K n n Sw HJ) as [SJA VJA].
  split; [exact ShA|]. split; [exact SJA|]. split.
  - intros a i Ha Hi.
    specialize (VhA a 0 i 0 Ha ltac:(lia) Hi ltac:(lia)).
    change (0 * 1 + 0) with 0 in VhA. rewrite VhA.
    unfold amps. rewrite at2_amps_col by assumption. apply Cmul_Cre.
  - intros a b i j Ha Hb Hi Hj.
    rewrite VJA by assumption.
    specialize (Vw a 0 0 b Ha ltac:(lia) ltac:(lia) Hb).
    change (0 * K + b) with b in Vw. rewrite Nat.mul_1_r, Nat.add_0_r in Vw. rewrite Vw.
    unfold amps. rewrite at2_amps_col, at2_amps_row by assumption. complex_ring.
Qed.



(** ** Symbols and spins *)

Lemma combine_map_seq {A B} (f : nat -> A) (g : nat -> B) (s n : nat) :
  combine (List.map f (seq s n)) (List.map g (seq s n)) =
  List.map (fun j => (f j, g j)) (seq s n).
Proof.
  revert s. induction n as [|n IH]; intros s; simpl; [reflexivity|].
  rewrite IH. reflexivity.
Qed.

Lemma at2_tabulate2 (d : dtype) (r c : nat) (f : nat -> nat -> complex) (i j : nat) :
  i < r -> j < c -> at2 (Array d [r; c] (tabulate2 r c f)) i j = f i j.
Proof. intros Hi Hj. unfold at2, dim. simpl. apply nth_tabulate2; assumption. Qed.

Ltac run := cbv beta iota zeta delta [mbind result_bind mret result_ret].

Lemma promote_complex_r (d : dtype) : promote d complex128 = complex128.
Proof. destruct d; reflexivity. Qed.

Lemma at2_pow2_col (K i : nat) :
  i < K -> at2 (np.newaxis_col (np.pow2_arange K)) i 0 = Cre (np.wrap64 (2 ^ Z.of_nat i)).
Proof.
  intros Hi. unfold at2, dim. cbn [np.newaxis_col np.pow2_arange shape data app nth].
  rewrite Nat.mul_1_r, Nat.add_0_r. rewrite nth_map_seq by exact Hi. reflexivity.
Qed.

(** The decoding branch of [spins_to_symbols], on [K] planes of width [2n]. *)
Lemma spins_to_symbols_planes (spins : ndarray) (m : option string) (K n : nat)
    (s : list nat) :
  shape spins = K * (2 * n) :: s -> size_of s = 1 -> 0 < n -> K <= 64 ->
  spins_to_symbols spins m (Some n) =
  Ok (Array complex128 [n]
        (List.map (fun j =>
           Cadd (weighted_sum_in (promote int64 (adtype spins)) K
                   (fun i => nth (i * (2 * n) + j) (data spins) C0))
                (Ci_mul (weighted_sum_in (promote int64 (adtype spins)) K
                           (fun i => nth (i * (2 * n) + (n + j)) (data spins) C0))))
           (seq 0 n))).
Proof.
  intros Hs Hs1 Hn HK. unfold spins_to_symbols, np.len. rewrite Hs. run.
  assert (E1 : (n =? K * (2 * n)) = false)
    by (apply Nat.eqb_neq; destruct K; [simpl; lia|nia]).
  assert (E2 : (2 * n =? 0) = false) by (apply Nat.eqb_neq; lia).
  assert (E3 : K * (2 * n) / (2 * n) = K) by (apply Nat.div_mul; lia).
  assert (E4 : (K * (2 * n)) mod (2 * n) = 0) by (apply Nat.Div0.mod_mul).
  assert (E5 : (64 <? K) = false) by (apply Nat.ltb_ge; exact HK).
  rewrite E1, E2, E3, E4, E5. cbn [Nat.eqb negb].
  unfold np.reshape. rewrite Hs.
  assert (E6 : (size_of (K * (2 * n) :: s) =? size_of [K; 2 * n]) = true)
    by (apply Nat.eqb_eq; unfold size_of in *; cbn [fold_right]; rewrite Hs1; lia).
  rewrite E6. run.
  unfold np.slice_cols. cbn [shape]. run.
  replace (Nat.min n (2 * n)) with n by lia.
  replace (Nat.min 0 n) with 0 by lia.
  replace (Nat.min (2 * n) (2 * n)) with (2 * n) by lia.
  replace (Nat.min n (2 * n)) with n by lia.
  replace (n - 0) with n by lia. replace (2 * n - n) with n by lia.
  unfold np.multiply_col. cbn [shape np.newaxis_col np.pow2_arange app].
  rewrite Nat.eqb_refl. run.
  unfold np.sum_axis0. cbn [shape]. run.
  unfold np.add. cbn [shape np.times_1j].
  destruct (decide ([n] = [n])) as [_|Hne]; [|congruence].
  cbn [adtype data]. rewrite promote_complex_r. f_equal. f_equal.
  cbn [data np.times_1j]. rewrite List.map_map, combine_map_seq, List.map_map.
  apply map_ext_in. intros j Hj. apply in_seq in Hj. cbn [fst snd].
  unfold weighted_sum_in. f_equal; [|f_equal]; f_equal;
    apply map_ext_in; intros i Hi; apply in_seq in Hi.
  - rewrite at2_tabulate2 by lia. rewrite at2_tabulate2 by lia.
    rewrite at2_pow2_col by lia. reflexivity.
  - rewrite at2_tabulate2 by lia. rewrite at2_tabulate2 by lia.
    rewrite at2_pow2_col by lia. reflexivity.
Qed.

Lemma Cwrap64_small (z : complex) : within (2 ^ 53) z -> np.Cwrap64 z = z.
Proof.
  intros [Hr Hi]. unfold np.Cwrap64. rewrite !wrap64_small by lia. destruct z; reflexivity.
Qed.

(** With at most three planes and spins of magnitude at most [S], where
    [48 S <= 2^53], the weighted sums are exact. *)
Lemma weighted_sum_in_exact (d : dtype) (K : nat) (f : nat -> complex) (S : Z) :
  K <= 3 -> (0 <= S)%Z -> (forall i, i < K -> within S (f i)) -> (48 * S <= 2 ^ 53)%Z ->
  weighted_sum_in d K f = weighted_sum K f.
Proof.
  intros HK HS Hf Hb.
  assert (Hw : forall i, i < K -> within 8 (Cre (np.wrap64 (2 ^ Z.of_nat i)))).
  { intros i Hi. assert (Hi3 : i = 0 \/ i = 1 \/ i = 2) by lia.
    destruct Hi3 as [->|[->| ->]]; split; vm_compute; discriminate. }
  assert (Hdot : forall d', np.dot d' K (fun i => Cre (np.wrap64 (2 ^ Z.of_nat i))) f
                            = weighted_sum K f).
  { intros d'. apply (dot_exact d' K _ f 8 S); try assumption; try lia.
    nia. }
  destruct d; unfold weighted_sum_in; cbn [np.add_reduce np.multiply];
    try exact (Hdot float64).
  rewrite <- (Hdot int64). cbn [np.dot]. do 2 f_equal.
  apply map_ext_in. intros i Hi. apply in_seq in Hi.
  apply Cwrap64_small. apply (within_mono (2 * 8 * S)); [lia|].
  apply within_Cmul; [apply Hw|apply Hf]; lia.
Qed.

Lemma nth_within (S : Z) (a : ndarray) (p : nat) : entries_within S a -> within S (nth p (data a) C0).
Proof.
  intros [HS Ha].
  destruct (Nat.lt_ge_cases p (List.length (data a))) as [Hlt|Hge].
  - rewrite Forall_forall in Ha. apply Ha, nth_In. exact Hlt.
  - rewrite nth_overflow by exact Hge. split; cbn; lia.
Qed.

(** The decoding branch on at most three planes of bounded spins. *)
Lemma spins_to_symbols_planes_exact (spins : ndarray) (m : option string) (K n : nat)
    (s : list nat) (S : Z) :
  shape spins = K * (2 * n) :: s -> size_of s = 1 -> 0 < n -> K <= 3 ->
  entries_within S spins -> (48 * S <= 2 ^ 53)%Z ->
  spins_to_symbols spins m (Some n) =
  Ok (Array complex128 [n]
        (List.map (fun j =>
           Cadd (weighted_sum K (fun i => nth (i * (2 * n) + j) (data spins) C0))
                (Ci_mul (weighted_sum K (fun i => nth (i * (2 * n) + (n + j)) (data spins) C0))))
           (seq 0 n))).
Proof.
  intros Hs Hs1 Hn HK HS Hb.
  rewrite (spins_to_symbols_planes spins m K n s Hs Hs1 Hn) by lia.
  do 2 f_equal. apply map_ext. intros j.
  rewrite !(weighted_sum_in_exact _ K _ S HK (proj1 HS)) by
    (try exact Hb; intros i _; apply nth_within; exact HS).
  reflexivity.
Qed.

(** At 64 planes the weights and the sums leave the exact range: with
    int64 spins that are [1] but for the real spin of the last plane, the
    real part [2^64 - 1] of the exact sum wraps to [-1]; with float64 spins
    it is rounded to [2^64], and the imaginary part [-1] to [0]. *)
Lemma spins_to_symbols_64_planes :
  let spins d := Array d [128]
                   (flat_map (fun i => [Cre (if i =? 63 then -1 else 1); Cre 1]) (seq 0 64)) in
  spins_to_symbols (spins int64) None (Some 1) = Ok (Array complex128 [1] [Cx (-1) (-1)]) /\
  spins_to_symbols (spins float64) None (Some 1) = Ok (Array complex128 [1] [Cx (2 ^ 64) 0]).
Proof. split; vm_compute; reflexivity. Qed.

(** Spins are within one. *)
Lemma spins_within (a : ndarray) :
  Forall (fun z => z = Cre 1 \/ z = Cre (-1)) (data a) -> entries_within 1 a.
Proof.
  intros Ha. split; [lia|]. eapply Forall_impl; [|exact Ha].
  intros z [-> | ->]; split; cbn; lia.
Qed.


Lemma planes_are_spins (K : nat) (D : list complex) :
  Forall (fun z => z = Cre 1 \/ z = Cre (-1)) (List.map Cre (planes_lsb_first K D)).
Proof.
  apply Forall_forall. intros z Hz. apply in_map_iff in Hz as (x & <- & Hx).
  unfold planes_lsb_first in Hx. apply in_flat_map in Hx as (p & _ & Hx).
  unfold bit_plane in Hx. apply in_app_or in Hx.
  destruct Hx as [Hx|Hx]; apply in_map_iff in Hx as (w & <- & _);
    unfold spin_digit; destruct (Z.testbit _ _); auto.
Qed.

(** C8 (as the code has it).  With a declared transmitter count [t] and
    [L] spins: when [t = L] the spins are returned as they are, whatever [L];
    otherwise the call raises [ZeroDivisionError] for [t = 0], raises
    [ValueError] when [L // (2t) > 64] or when [2t] does not divide [L], and
    returns in every other case. *)
Theorem spins_to_symbols_errors (spins : ndarray) (m : option string) (L t : nat) :
  shape spins = [L] ->
  (t = L -> spins_to_symbols spins m (Some t) = Ok spins) /\
  (t <> L -> t = 0 -> spins_to_symbols spins m (Some t) = Raise ZeroDivisionError) /\
  (t <> L -> t <> 0 -> 64 < L / (2 * t) ->
     exists msg, spins_to_symbols spins m (Some t) = Raise (ValueError msg)) /\
  (t <> L -> t <> 0 -> L mod (2 * t) <> 0 ->
     exists msg, spins_to_symbols spins m (Some t) = Raise (ValueError msg)) /\
  (t <> L -> t <> 0 -> L / (2 * t) <= 64 -> L mod (2 * t) = 0 ->
     returns (spins_to_symbols spins m (Some t))).
Proof.
  intros Hs.
  assert (Hgo : forall P : result ndarray -> Prop,
            t <> L ->
            P (if 2 * t =? 0 then Raise ZeroDivisionError
               else if 64 <? L / (2 * t) then
                 Raise (ValueError "Complex encoding is limited to 64 bits inreal and imaginary parts; num_transmitters istoo small")
               else if negb (L mod (2 * t) =? 0) then
                 Raise (ValueError "num_spins must be divisible by num_transmitters for modulation schemes")
               else spins_to_symbols spins m (Some t)) ->
            P (spins_to_symbols spins m (Some t))).
  { intros P Hne HP. unfold spins_to_symbols, np.len in *. rewrite Hs in *. run.
    revert HP. run.
    assert (E : (t =? L) = false) by (apply Nat.eqb_neq; exact Hne). rewrite E.
    destruct (2 * t =? 0); [exact (fun x => x)|].
    destruct (64 <? L / (2 * t)); [exact (fun x => x)|].
    destruct (negb (L mod (2 * t) =? 0)); exact (fun x => x). }
  split; [|split; [|split; [|split]]].
  - intros ->. unfold spins_to_symbols, np.len. rewrite Hs. run.
    rewrite Nat.eqb_refl. reflexivity.
  - intros Hne ->. apply Hgo; [exact Hne|]. reflexivity.
  - intros Hne Ht Hbig. apply Hgo; [exact Hne|].
    assert (E : (2 * t =? 0) = false) by (apply Nat.eqb_neq; lia). rewrite E.
    assert (E' : (64 <? L / (2 * t)) = true) by (apply Nat.ltb_lt; exact Hbig). rewrite E'.
    eexists; reflexivity.
  - intros Hne Ht Hrem. apply Hgo; [exact Hne|].
    assert (E : (2 * t =? 0) = false) by (apply Nat.eqb_neq; lia). rewrite E.
    assert (E' : (L mod (2 * t) =? 0) = false) by (apply Nat.eqb_neq; exact Hrem). rewrite E'.
    destruct (64 <? L / (2 * t)); eexists; reflexivity.
  - intros Hne Ht Hsmall Hrem.
    assert (HL : L = L / (2 * t) * (2 * t)).
    { pose proof (Nat.div_mod_eq L (2 * t)) as D. rewrite Hrem in D. lia. }
    rewrite HL in Hs.
    rewrite (spins_to_symbols_planes spins m (L / (2 * t)) t [] Hs eq_refl) by lia.
    exact I.
Qed.

(** C8, as the specification writes it: three spins for three declared
    transmitters do not divide by [2 * 3], and the call returns. *)
Lemma spins_to_symbols_errors_counterexample :
  3 mod (2 * 3) <> 0 /\
  spins_to_symbols (Array float64 [3] [Cre 1; Cre (-1); Cre 1]) (Some "BPSK"%string) (Some 3)
  = Ok (Array float64 [3] [Cre 1; Cre (-1); Cre 1]).
Proof. split; [discriminate|reflexivity]. Qed.

Lemma spins_to_symbols_errors_witness :
  returns (spins_to_symbols (Array float64 [4] [Cre 1; Cre (-1); Cre 1; Cre 1])
                            None (Some 1)).
Proof.
  apply (proj2 (proj2 (proj2 (proj2
           (spins_to_symbols_errors (Array float64 [4] [Cre 1; Cre (-1); Cre 1; Cre 1])
                                    None 4 1 eq_refl))))).
  - lia.
  - lia.
  - vm_compute. lia.
  - reflexivity.
Defined.

Lemma mapM_ok {A B} (f : A -> result B) (g : A -> B) (l : list A) :
  (forall x, In x l -> f x = Ok (g x)) -> mapM f l = Ok (List.map g l).
Proof.
  induction l as [|x l IH]; intros E; [reflexivity|].
  specialize (IH (fun x H => E x (or_intror H))).
  change (mapM f (x :: l)) with (y ← f x; k ← mapM f l; mret (y :: k)).
  rewrite E by (left; reflexivity). cbn [mbind result_bind]. rewrite IH. reflexivity.
Qed.

Lemma signed_amplitude_cases (K : nat) (m : string) (amps : ndarray) (x : Z) :
  linear_code m K amps -> signed_amplitude amps x ->
  In x (List.map (fun i => (2 * Z.of_nat i + 1 - 2 ^ Z.of_nat K)%Z) (seq 0 (2 ^ K))).
Proof.
  unfold signed_amplitude.
  intros [(-> & -> & ->)|[(-> & -> & ->)|(-> & -> & ->)]] Hx; simpl in Hx;
    repeat (destruct Hx as [Hx|Hx]; [injection Hx as Hx|]); try contradiction;
    simpl; lia.
Qed.

Lemma lookup_spin_digit (K : nat) (m : string) (amps : ndarray) (p : nat) (x : Z) :
  linear_code m K amps -> signed_amplitude amps x -> p < K -> 2 <= K ->
  lookup_spin (symb_to_spins K) p x = Ok (spin_digit K p x).
Proof.
  intros Hc Hx Hp HK. pose proof (signed_amplitude_cases K m amps x Hc Hx) as Hin.
  destruct Hc as [(-> & -> & ->)|[(-> & -> & ->)|(-> & -> & ->)]]; [lia| |].
  - simpl in Hin.
    repeat (destruct Hin as [<-|Hin]; [destruct p as [|[|p]]; [vm_compute; reflexivity..|lia]|]).
    contradiction.
  - simpl in Hin.
    repeat (destruct Hin as [<-|Hin];
            [destruct p as [|[|[|p]]]; [vm_compute; reflexivity..|lia]|]).
    contradiction.
Qed.

(** The encoding is linear: the spin of plane [p] weighs [2^p]. *)
Lemma spin_digit_sum (K : nat) (m : string) (amps : ndarray) (x : Z) :
  linear_code m K amps -> signed_amplitude amps x ->
  x = Zsum (List.map (fun p => (2 ^ Z.of_nat p * spin_digit K p x)%Z) (seq 0 K)) /\
  weighted_sum K (fun p => Cre (spin_digit K p x)) = Cre x.
Proof.
  intros Hc Hx. pose proof (signed_amplitude_cases K m amps x Hc Hx) as Hin.
  destruct Hc as [(-> & -> & ->)|[(-> & -> & ->)|(-> & -> & ->)]]; simpl in Hin;
    repeat (destruct Hin as [<-|Hin]; [split; vm_compute; reflexivity|]); contradiction.
Qed.

Lemma mapM_ok_map {A B C} (f : B -> result C) (h : A -> B) (g : A -> C) (l : list A) :
  (forall x, In x l -> f (h x) = Ok (g x)) -> mapM f (List.map h l) = Ok (List.map g l).
Proof.
  induction l as [|x l IH]; intros E; [reflexivity|].
  specialize (IH (fun x H => E x (or_intror H))).
  cbn [List.map].
  change (mapM f (h x :: List.map h l))
    with (y ← f (h x); k ← mapM f (List.map h l); mret (y :: k)).
  rewrite E by (left; reflexivity). cbn [mbind result_bind]. rewrite IH. reflexivity.
Qed.

Lemma symbols_to_spins_planes (v : ndarray) (m : string) (K : nat) (amps : ndarray) (n : nat)
    (sh : list nat) :
  linear_code m K amps -> shape v = n :: sh -> List.length (data v) = n ->
  Forall (fun z => signed_amplitude amps (re z) /\ signed_amplitude amps (im z)) (data v) ->
  exists dt so,
    symbols_to_spins v m = Ok (Array dt so (List.map Cre (planes_lsb_first K (data v)))) /\
    (K = 1 -> so = K * (2 * n) :: sh) /\
    (2 <= K -> so = [K * (2 * n)]).
Proof.
  intros Hc Hs Hl Hv. rewrite Forall_forall in Hv.
  assert (Hq : K = 1 -> forall z, In z (data v) ->
                 Cre (re z) = Cre (spin_digit K 0 (re z)) /\
                 Cre (im z) = Cre (spin_digit K 0 (im z))).
  { intros -> z Hz. destruct (Hv z Hz) as [Hr Hi].
    destruct (spin_digit_sum 1 m amps (re z) Hc Hr) as [E1 _].
    destruct (spin_digit_sum 1 m amps (im z) Hc Hi) as [E2 _].
    simpl in E1, E2. split; f_equal; lia. }
  assert (Hplane : 2 <= K -> forall prec, prec < K ->
            (xs ← mapM (lookup_spin (symb_to_spins K) prec)
                       (List.map re (data (np.flatten (np.real v))));
             ys ← mapM (lookup_spin (symb_to_spins K) prec)
                       (List.map re (data (np.flatten (np.imag v))));
             Ok (np.of_int_lists xs ys)) =
            Ok (np.of_int_lists (List.map (fun z => spin_digit K prec (re z)) (data v))
                                (List.map (fun z => spin_digit K prec (im z)) (data v)))).
  { intros HK prec Hp. cbn [np.flatten np.real np.imag data].
    rewrite !List.map_map. cbn [re Cre].
    rewrite (mapM_ok_map _ (fun z : complex => re z) (fun z => spin_digit K prec (re z))).
    2:{ intros z Hz. apply (lookup_spin_digit K m amps); try assumption.
        exact (proj1 (Hv z Hz)). }
    cbn [mbind result_bind].
    rewrite (mapM_ok_map _ (fun z : complex => im z) (fun z => spin_digit K prec (im z))).
    2:{ intros z Hz. apply (lookup_spin_digit K m amps); try assumption.
        exact (proj2 (Hv z Hz)). }
    reflexivity. }
  unfold symbols_to_spins, np.len. rewrite Hs. cbn [mbind result_bind].
  destruct Hc as [(-> & -> & ->)|[(-> & -> & ->)|(-> & -> & ->)]].
  - cbn [String.eqb Ascii.eqb Bool.eqb].
    rewrite (concatenate0_same (np.real v) (np.imag v) n n sh Hs Hs).
    exists (promote (adtype (np.real v)) (adtype (np.imag v))), (n + n :: sh).
    split; [|split; [intros _; f_equal; lia|lia]].
    f_equal. f_equal.
    unfold planes_lsb_first, bit_plane. cbn [seq flat_map data np.real np.imag].
    rewrite List.app_nil_r, List.map_app, !List.map_map.
    f_equal; apply map_ext_in; intros z Hz; apply (Hq eq_refl z Hz).
  - cbn [String.eqb Ascii.eqb Bool.eqb]. cbn [mbind result_bind].
    rewrite (mapM_ok _ (fun prec =>
               np.of_int_lists (List.map (fun z => spin_digit 2 prec (re z)) (data v))
                               (List.map (fun z => spin_digit 2 prec (im z)) (data v)))).
    2:{ intros prec Hp. apply in_seq in Hp. apply Hplane; lia. }
    cbn [mbind result_bind seq List.map].
    unfold np.concatenate0_list. cbn [foldl mbind result_bind].
    unfold np.concatenate0. cbn [shape np.of_int_lists].
    destruct (decide ([] = [])) as [_|Hne]; [|congruence].
    do 2 eexists. split; [|split; [discriminate|intros _; reflexivity]].
    f_equal. f_equal.
    + f_equal. rewrite !List.length_app, !List.length_map, Hl. lia.
    + cbn [data np.of_int_lists]. unfold planes_lsb_first, bit_plane. cbn [seq flat_map].
      rewrite List.app_nil_r, !List.map_app. reflexivity.
  - cbn [String.eqb Ascii.eqb Bool.eqb]. cbn [mbind result_bind].
    rewrite (mapM_ok _ (fun prec =>
               np.of_int_lists (List.map (fun z => spin_digit 3 prec (re z)) (data v))
                               (List.map (fun z => spin_digit 3 prec (im z)) (data v)))).
    2:{ intros prec Hp. apply in_seq in Hp. apply Hplane; lia. }
    cbn [mbind result_bind seq List.map].
    unfold np.concatenate0_list. cbn [foldl mbind result_bind].
    unfold np.concatenate0. cbn [shape np.of_int_lists].
    destruct (decide ([] = [])) as [_|Hne]; [|congruence].
    cbn [mbind result_bind shape].
    destruct (decide ([] = [])) as [_|Hne]; [|congruence].
    do 2 eexists. split; [|split; [discriminate|intros _; reflexivity]].
    f_equal. f_equal.
    + f_equal. rewrite !List.length_app, !List.length_map, Hl. lia.
    + cbn [data np.of_int_lists]. unfold planes_lsb_first, bit_plane. cbn [seq flat_map].
      rewrite List.app_nil_r, !List.map_app, <- !List.app_assoc. reflexivity.
Qed.

Lemma bit_plane_row (K p : nat) (D : list complex) :
  bit_plane K p D =
  List.map (fun c => if c <? List.length D
                     then spin_digit K p (re (nth c D C0))
                     else spin_digit K p (im (nth (c - List.length D) D C0)))
           (seq 0 (2 * List.length D)).
Proof.
  unfold bit_plane. apply (nth_ext _ _ 0%Z 0%Z).
  - rewrite List.length_app, !List.length_map, List.length_seq. lia.
  - intros c Hc. rewrite List.length_app, !List.length_map in Hc.
    rewrite nth_map_seq by lia. cbn [Nat.add].
    destruct (c <? List.length D) eqn:E.
    + apply Nat.ltb_lt in E. rewrite app_nth1 by (rewrite List.length_map; exact E).
      rewrite (nth_indep _ 0%Z (spin_digit K p (re C0))) by (rewrite List.length_map; exact E).
      exact (map_nth (fun z => spin_digit K p (re z)) D C0 c).
    + apply Nat.ltb_ge in E. rewrite app_nth2 by (rewrite List.length_map; exact E).
      rewrite List.length_map.
      rewrite (nth_indep _ 0%Z (spin_digit K p (im C0))) by (rewrite List.length_map; lia).
      exact (map_nth (fun z => spin_digit K p (im z)) D C0 _).
Qed.

Lemma nth_planes (K : nat) (D : list complex) (i c : nat) :
  i < K -> c < 2 * List.length D ->
  nth (i * (2 * List.length D) + c) (List.map Cre (planes_lsb_first K D)) C0 =
  Cre (if c <? List.length D
       then spin_digit K i (re (nth c D C0))
       else spin_digit K i (im (nth (c - List.length D) D C0))).
Proof.
  intros Hi Hc.
  change C0 with (Cre 0) at 1. rewrite (map_nth Cre). f_equal.
  unfold planes_lsb_first.
  rewrite (flat_map_ext _ _ (fun p => bit_plane_row K p D)).
  rewrite (nth_flat_rows (2 * List.length D)
             (fun p c => if c <? List.length D
                         then spin_digit K p (re (nth c D C0))
                         else spin_digit K p (im (nth (c - List.length D) D C0))))
    by assumption.
  reflexivity.
Qed.

Lemma list_as_map_nth {A} (l : list A) (d : A) :
  l = List.map (fun j => nth j l d) (seq 0 (List.length l)).
Proof.
  apply (nth_ext _ _ d d).
  - rewrite List.length_map, List.length_seq. reflexivity.
  - intros j Hj. rewrite nth_map_seq by exact Hj. reflexivity.
Qed.

Lemma weighted_sum_ext (K : nat) (f g : nat -> complex) :
  (forall i, i < K -> f i = g i) -> weighted_sum K f = weighted_sum K g.
Proof. intros E. unfold weighted_sum. apply Csum_ext. intros i Hi. rewrite E by exact Hi. reflexivity. Qed.

Lemma valid_constellation_code (m : string) (v : ndarray) (n K : nat) (amps : ndarray) :
  linear_code m K amps -> valid_constellation m v n ->
  (shape v = [n] \/ shape v = [n; 1]) /\ List.length (data v) = n /\ adtype v = complex128 /\
  Forall (fun z => signed_amplitude amps (re z) /\ signed_amplitude amps (im z)) (data v).
Proof.
  intros Hc (bits & amps' & power & Ep & Hs & Hl & Hv).
  destruct Hc as [(-> & -> & ->)|[(-> & -> & ->)|(-> & -> & ->)]];
    vm_compute in Ep; injection Ep as _ <- _; cbn [String.eqb Ascii.eqb Bool.eqb] in Hv;
    destruct Hv as [Hd Hv]; repeat split; assumption.
Qed.

(** The decoded planes of an encoded symbol vector are the vector. *)
Lemma decode_planes (K : nat) (m : string) (amps : ndarray) (D : list complex) :
  linear_code m K amps ->
  Forall (fun z => signed_amplitude amps (re z) /\ signed_amplitude amps (im z)) D ->
  List.map (fun j =>
     Cadd (weighted_sum K (fun i => nth (i * (2 * List.length D) + j)
                                        (List.map Cre (planes_lsb_first K D)) C0))
          (Ci_mul (weighted_sum K (fun i => nth (i * (2 * List.length D) + (List.length D + j))
                                                (List.map Cre (planes_lsb_first K D)) C0))))
     (seq 0 (List.length D)) = D.
Proof.
  intros Hc Hv. rewrite Forall_forall in Hv.
  etransitivity; [|symmetry; apply (list_as_map_nth D C0)].
  apply map_ext_in. intros j Hj. apply in_seq in Hj.
  assert (Hin : In (nth j D C0) D) by (apply nth_In; lia).
  destruct (Hv _ Hin) as [Hr Hi].
  rewrite (weighted_sum_ext K _ (fun i => Cre (spin_digit K i (re (nth j D C0))))).
  2:{ intros i Hi'. rewrite nth_planes by lia.
      assert (E : (j <? List.length D) = true) by (apply Nat.ltb_lt; lia).
      rewrite E. reflexivity. }
  rewrite (weighted_sum_ext K (fun i => nth (i * (2 * List.length D) + (List.length D + j)) _ _)
             (fun i => Cre (spin_digit K i (im (nth j D C0))))).
  2:{ intros i Hi'. rewrite nth_planes by lia.
      assert (E : (List.length D + j <? List.length D) = false) by (apply Nat.ltb_ge; lia).
      rewrite E. replace (List.length D + j - List.length D) with j by lia. reflexivity. }
  rewrite (proj2 (spin_digit_sum K m amps _ Hc Hr)), (proj2 (spin_digit_sum K m amps _ Hc Hi)).
  destruct (nth j D C0) as [a b]. complex_ring.
Qed.

(** C7 (as the code has it).  For 16QAM and 64QAM the spins of one
    significance are grouped, those of the real parts before those of the
    imaginary parts, and the groups follow each other from the least
    significant plane (weight [2^0]) to the most significant: a symbol
    component [x] is [sum over p of 2^p * (its spin in group p)]. *)
Theorem symbols_to_spins_plane_order (v : ndarray) (m : string) (K n : nat) :
  (m = "16QAM"%string /\ K = 2) \/ (m = "64QAM"%string /\ K = 3) ->
  valid_constellation m v n ->
  exists s, symbols_to_spins v m = Ok s /\ shape s = [K * (2 * n)] /\
    data s = List.map Cre (planes_lsb_first K (data v)) /\
    forall z, In z (data v) ->
      re z = Zsum (List.map (fun p => (2 ^ Z.of_nat p * spin_digit K p (re z))%Z) (seq 0 K)) /\
      im z = Zsum (List.map (fun p => (2 ^ Z.of_nat p * spin_digit K p (im z))%Z) (seq 0 K)).
Proof.
  intros HK Hv.
  assert (Hc : exists amps, linear_code m K amps).
  { destruct HK as [[-> ->]|[-> ->]]; eexists; unfold linear_code;
      [right; left|right; right]; repeat split; reflexivity. }
  destruct Hc as [amps Hc].
  destruct (valid_constellation_code m v n K amps Hc Hv) as (Hs & Hl & Hd & Hall).
  assert (Hs' : exists sh, shape v = n :: sh) by (destruct Hs as [-> | ->]; eauto).
  destruct Hs' as [sh Hs'].
  destruct (symbols_to_spins_planes v m K amps n sh Hc Hs' Hl Hall) as (dt & so & E & _ & So).
  rewrite So in E by (destruct HK as [[_ ->]|[_ ->]]; lia).
  eexists. split; [exact E|]. split; [reflexivity|]. split; [reflexivity|].
  intros z Hz. rewrite Forall_forall in Hall. destruct (Hall z Hz) as [Hr Hi].
  split; [exact (proj1 (spin_digit_sum K m amps _ Hc Hr))
         |exact (proj1 (spin_digit_sum K m amps _ Hc Hi))].
Qed.

(** C7, the order as the specification writes it: for the 16QAM symbol
    [1+3j] the code returns the spins [-1, 1, 1, 1], the plane of weight 1
    first; most significant first they would read [1, 1, -1, 1]. *)
Lemma plane_order_counterexample :
  symbols_to_spins (Array complex128 [1] [Cx 1 3]) "16QAM" =
    Ok (Array int64 [4] [Cre (-1); Cre 1; Cre 1; Cre 1]) /\
  planes_msb_first 2 [Cx 1 3] = [1; 1; -1; 1]%Z /\
  [Cre (-1); Cre 1; Cre 1; Cre 1] <> List.map Cre (planes_msb_first 2 [Cx 1 3]).
Proof. vm_compute. repeat split; congruence. Qed.

Lemma valid_example_16QAM :
  valid_constellation "16QAM" (Array complex128 [2] [Cx 1 3; Cx (-3) (-1)]) 2.
Proof.
  exists 4, (odd_arange 2), (twice_mean_square (odd_arange 2)).
  split; [reflexivity|]. split; [left; reflexivity|]. split; [reflexivity|].
  cbn [String.eqb Ascii.eqb Bool.eqb]. split; [reflexivity|].
  repeat constructor; unfold signed_amplitude; simpl; tauto.
Defined.

Lemma symbols_to_spins_plane_order_witness :
  exists s, symbols_to_spins (Array complex128 [2] [Cx 1 3; Cx (-3) (-1)]) "16QAM" = Ok s /\
    data s = List.map Cre (planes_lsb_first 2 [Cx 1 3; Cx (-3) (-1)]).
Proof.
  destruct (symbols_to_spins_plane_order
              (Array complex128 [2] [Cx 1 3; Cx (-3) (-1)]) "16QAM" 2 2
              (or_introl (conj eq_refl eq_refl)) valid_example_16QAM)
    as (s & E & _ & D & _).
  exists s. split; [exact E|exact D].
Defined.

(** C1.  For BPSK, QPSK, 16QAM and 64QAM and a vector [v] of [n] valid
    constellation symbols, decoding the encoded vector with [len(v)]
    transmitters returns the symbols of [v], in their order.  For a
    one-dimensional [v] that is not empty the result is [v] itself; for BPSK
    it is [v] in every case; a column [(n, 1)] of complex symbols comes back
    as the one-dimensional array of its entries; of an empty vector the
    empty spin array is returned. *)
Theorem spins_round_trip (v : ndarray) (m : string) (n : nat) :
  In m ["BPSK"; "QPSK"; "16QAM"; "64QAM"]%string ->
  valid_constellation m v n ->
  exists s r,
    symbols_to_spins v m = Ok s /\
    spins_to_symbols s (Some m) (Some n) = Ok r /\
    data r = data v /\
    (m = "BPSK"%string -> r = v) /\
    (0 < n -> m <> "BPSK"%string -> r = Array complex128 [n] (data v)) /\
    (shape v = [n] -> shape r = shape v /\ (0 < n -> r = v)).
Proof.
  intros Hm Hv.
  destruct Hm as [<-|Hm].
  - destruct Hv as (bits & amps & power & _ & Hs & _).
    assert (Hlen : np.len v = Ok n) by (unfold np.len; destruct Hs as [-> | ->]; reflexivity).
    exists v, v. unfold symbols_to_spins, spins_to_symbols. rewrite Hlen.
    cbn [mbind result_bind String.eqb Ascii.eqb Bool.eqb]. rewrite Nat.eqb_refl.
    split; [reflexivity|]. split; [reflexivity|]. split; [reflexivity|].
    split; [intros _; reflexivity|]. split; [intros _ C; congruence|].
    intros _. split; [reflexivity|intros _; reflexivity].
  - assert (Hc : exists K amps, linear_code m K amps /\ 1 <= K <= 64).
    { unfold linear_code.
      destruct Hm as [<-|[<-|[<-|[]]]]; do 2 eexists;
        (split; [|shelve]);
        [left|right; left|right; right]; repeat split; reflexivity. Unshelve. all: lia. }
    destruct Hc as (K & amps & Hc & HK).
    assert (Hnb : m <> "BPSK"%string).
    { destruct Hc as [(-> & _)|[(-> & _)|(-> & _)]]; discriminate. }
    destruct (valid_constellation_code m v n K amps Hc Hv) as (Hs & Hl & Hd & Hall).
    assert (Hs' : exists sh, shape v = n :: sh /\ size_of sh = 1)
      by (destruct Hs as [-> | ->]; eexists; (split; [reflexivity|reflexivity])).
    destruct Hs' as (sh & Hs' & Hsz).
    destruct (symbols_to_spins_planes v m K amps n sh Hc Hs' Hl Hall)
      as (dt & so & E & So1 & So2).
    assert (Hso : exists st, so = K * (2 * n) :: st /\ size_of st = 1 /\
                             (shape v = [n] -> st = [])).
    { destruct (Nat.eq_dec K 1) as [K1|K1].
      - exists sh. split; [apply So1; exact K1|]. split; [exact Hsz|].
        intros C. rewrite C in Hs'. injection Hs' as <-. reflexivity.
      - exists []. split; [apply So2; lia|]. split; [reflexivity|]. intros _. reflexivity. }
    destruct Hso as (st & -> & Hst & Hst1).
    exists (Array dt (K * (2 * n) :: st) (List.map Cre (planes_lsb_first K (data v)))).
    rewrite E.
    destruct (Nat.eq_dec n 0) as [->|Hn].
    + eexists. split; [reflexivity|].
      assert (D0 : data v = []) by (destruct (data v); [reflexivity|discriminate]).
      split.
      { unfold spins_to_symbols, np.len. cbn [shape mbind result_bind].
        assert (E0 : (0 =? K * (2 * 0)) = true) by (apply Nat.eqb_eq; lia).
        rewrite E0. reflexivity. }
      rewrite D0. cbn [shape data].
      split.
      { destruct Hc as [(_ & -> & _)|[(_ & -> & _)|(_ & -> & _)]]; reflexivity. }
      split; [intros C; contradiction|]. split; [lia|].
      intros Hv1. rewrite Hv1, (Hst1 Hv1). split; [f_equal; lia|lia].
    + eexists. split; [reflexivity|].
      rewrite (spins_to_symbols_planes_exact
                 (Array dt (K * (2 * n) :: st) (List.map Cre (planes_lsb_first K (data v))))
                 (Some m) K n st 1 eq_refl Hst)
        by first [lia|apply spins_within, planes_are_spins
                 |destruct Hc as [(_ & -> & _)|[(_ & -> & _)|(_ & -> & _)]]; lia].
      cbn [data]. subst n.
      rewrite (decode_planes K m amps (data v) Hc Hall).
      split; [reflexivity|]. cbn [shape data].
      split; [reflexivity|]. split; [intros C; contradiction|].
      split; [intros _ _; reflexivity|].
      intros Hv1. rewrite Hv1. split; [reflexivity|].
      intros _. clear -Hd Hv1. destruct v as [d sv D]. cbn [adtype shape data] in *.
      subst d sv. reflexivity.
Qed.

Lemma spins_round_trip_witness :
  exists s,
    symbols_to_spins (Array complex128 [2] [Cx 1 3; Cx (-3) (-1)]) "16QAM" = Ok s /\
    spins_to_symbols s (Some "16QAM"%string) (Some 2) =
    Ok (Array complex128 [2] [Cx 1 3; Cx (-3) (-1)]).
Proof.
  destruct (spins_round_trip (Array complex128 [2] [Cx 1 3; Cx (-3) (-1)]) "16QAM" 2
              ltac:(simpl; auto) valid_example_16QAM)
    as (s & r & E1 & E2 & _ & _ & _ & Hr).
  exists s. split; [exact E1|]. rewrite E2.
  rewrite (proj2 (Hr eq_refl) ltac:(lia)). reflexivity.
Defined.

(** C1, as the specification writes it ("returns v exactly"): a column of
    one valid QPSK symbol, the shape [create_transmitted_symbols] gives its
    vectors, does not come back as itself but as the one-dimensional array
    of its entry. *)
Lemma round_trip_column_counterexample :
  valid_constellation "QPSK" (Array complex128 [1; 1] [Cx 1 (-1)]) 1 /\
  exists s r,
    symbols_to_spins (Array complex128 [1; 1] [Cx 1 (-1)]) "QPSK" = Ok s /\
    spins_to_symbols s (Some "QPSK"%string) (Some 1) = Ok r /\
    r = Array complex128 [1] [Cx 1 (-1)] /\
    r <> Array complex128 [1; 1] [Cx 1 (-1)].
Proof.
  split.
  - exists 2, ones1, (twice_mean_square ones1).
    split; [reflexivity|]. split; [right; reflexivity|]. split; [reflexivity|].
    cbn [String.eqb Ascii.eqb Bool.eqb]. split; [reflexivity|].
    repeat constructor; unfold signed_amplitude; simpl; tauto.
  - do 2 eexists. split; [vm_compute; reflexivity|].
    split; [vm_compute; reflexivity|]. split; [reflexivity|]. discriminate.
Qed.

(** A column of two QPSK symbols comes back as the vector of its entries. *)
Lemma round_trip_of_a_column :
  (s ← symbols_to_spins (Array complex128 [2; 1] [Cx 1 1; Cx (-1) 1]) "QPSK";
   spins_to_symbols s (Some "QPSK"%string) (Some 2))
  = Ok (Array complex128 [2] [Cx 1 1; Cx (-1) 1]).
Proof. vm_compute. reflexivity. Qed.


(** ** The cooperative model *)

Lemma attrs_add_edges_from (es : list (label * label)) (G : Graph) :
  G_attrs (add_edges_from G es) = G_attrs G.
Proof.
  unfold add_edges_from. revert G. induction es as [|e es IH]; intros G; [reflexivity|].
  cbn [foldl]. rewrite IH. unfold add_edge, add_node.
  repeat (destruct (bool_decide _) || destruct (has_edge _ _ _)); reflexivity.
Qed.

Lemma attrs_remove_nodes_from (ns : list label) (G : Graph) :
  G_attrs (remove_nodes_from G ns) = G_attrs G.
Proof.
  unfold remove_nodes_from. revert G. induction ns as [|n ns IH]; intros G; [reflexivity|].
  cbn [foldl]. rewrite IH. reflexivity.
Qed.

(** The honeycomb is built with the operations of the container alone. *)
Lemma attrs_make_honeycomb (L : nat) : G_attrs (_make_honeycomb L) = ∅.
Proof.
  unfold _make_honeycomb. cbv zeta.
  rewrite !attrs_remove_nodes_from, !attrs_add_edges_from. reflexivity.
Qed.

Lemma spread_SNRb_no_attribute (G : Graph) (q : Q) :
  G_attrs G !! "num_edges"%string = None -> spread_SNRb G (Finite q) = Raise AttributeError.
Proof. intros E. unfold spread_SNRb, getattr. rewrite E. reflexivity. Qed.

Lemma spread_SNRb_run (G : Graph) (q : Q) :
  counts_set G -> G_nodes G <> [] -> (0 < q)%Q ->
  exists q',
    spread_SNRb G (Finite q) = Ok (Finite q') /\
    (q' == q / (1 + inject_Z (2 * Z.of_nat (number_of_edges G))
                    / inject_Z (Z.of_nat (number_of_nodes G))))%Q /\
    (q' == q * inject_Z (Z.of_nat (number_of_nodes G))
           / inject_Z (Z.of_nat (number_of_nodes G) + 2 * Z.of_nat (number_of_edges G)))%Q /\
    (0 < q')%Q.
Proof.
  intros [AE AN] Hn Hq.
  assert (N0 : number_of_nodes G <> 0)
    by (unfold number_of_nodes; destruct (G_nodes G); [congruence|discriminate]).
  set (N := inject_Z (Z.of_nat (number_of_nodes G))).
  set (E := inject_Z (2 * Z.of_nat (number_of_edges G))).
  assert (HN : (0 < N)%Q) by (unfold N, Qlt; simpl; lia).
  assert (HE : (0 <= E)%Q) by (unfold E, Qle; simpl; lia).
  assert (HNE : (N + E == inject_Z (Z.of_nat (number_of_nodes G)
                                    + 2 * Z.of_nat (number_of_edges G)))%Q)
    by (unfold N, E; rewrite inject_Z_plus; reflexivity).
  assert (Hpos : (0 < N + E)%Q).
  { apply (Qlt_le_trans _ (N + 0)); [rewrite Qplus_0_r; exact HN|apply Qplus_le_r; exact HE]. }
  assert (Hclosed : (q / (1 + E / N) == q * N / (N + E))%Q).
  { field. split; intros C; [rewrite C in Hpos; apply (Qlt_irrefl 0), Hpos
                            |rewrite C in HN; apply (Qlt_irrefl 0), HN]. }
  assert (Hq' : (0 < q / (1 + E / N))%Q).
  { rewrite Hclosed. apply Qlt_shift_div_l; [exact Hpos|].
    rewrite Qmult_0_l. apply Qmult_lt_0_compat; assumption. }
  assert (Hd : Qeq_bool (1 + E / N) 0 = false).
  { destruct (Qeq_bool (1 + E / N) 0) eqn:C; [|reflexivity].
    apply Qeq_bool_iff in C. exfalso.
    assert (Hdiv : (N + E == (1 + E / N) * N)%Q).
    { field. intros C'. rewrite C' in HN. apply (Qlt_irrefl 0), HN. }
    rewrite Hdiv, C, Qmult_0_l in Hpos. apply (Qlt_irrefl 0), Hpos. }
  exists (q / (1 + E / N))%Q.
  split.
  { unfold spread_SNRb, getattr. rewrite AE, AN. cbn [mbind result_bind].
    assert (Z0 : (Z.of_nat (number_of_nodes G) =? 0)%Z = false) by (apply Z.eqb_neq; lia).
    rewrite Z0. fold N. fold E. rewrite Hd. reflexivity. }
  split; [reflexivity|].
  split; [rewrite Hclosed, HNE; reflexivity|exact Hq'].
Qed.

Section Composition.
Context `{NumpyRandom}.

(** C3, on the code.  [lattice.num_edges] and [lattice.num_nodes] are not
    attributes of the graph container: on a lattice built with its
    operations, supplied by the caller or made for an integer scale, and
    with a finite [SNRb], [spin_encoded_comp] raises [AttributeError] where
    it means to divide, for BPSK and for QPSK, before any cell is
    composed. *)
Theorem comp_finite_SNRb_raises (nodes : list label) (edges : list (label * label)) (L : nat)
    (ys Fs : option (gmap label (option ndarray))) (channel_noise : option ndarray)
    (num_transmitters num_receivers : option nat) (q : Q) (seed : option Z)
    (F_distribution : option (list string)) (use_offset : bool) (w : world) :
  let call lattice modulation :=
    spin_encoded_comp lattice modulation ys Fs None channel_noise
                      num_transmitters num_receivers (Finite q) seed F_distribution
                      use_offset w in
  call (inr (MkGraph nodes edges ∅)) "BPSK"%string = Raise AttributeError /\
  call (inr (MkGraph nodes edges ∅)) "QPSK"%string = Raise AttributeError /\
  call (inl L) "BPSK"%string = Raise AttributeError /\
  call (inl L) "QPSK"%string = Raise AttributeError.
Proof.
  cbv zeta.
  assert (Hplain : forall G m,
            G_attrs G = ∅ -> m = "BPSK"%string \/ m = "QPSK"%string ->
            forall lattice, G = match lattice with inl L' => _make_honeycomb L' | inr G' => G' end ->
            spin_encoded_comp lattice m ys Fs None channel_noise
                              num_transmitters num_receivers (Finite q) seed F_distribution
                              use_offset w = Raise AttributeError).
  { intros G m HG Hm lattice ->. unfold spin_encoded_comp.
    rewrite spread_SNRb_no_attribute by (rewrite HG; apply lookup_empty).
    destruct Hm as [-> | ->]; reflexivity. }
  split; [|split; [|split]].
  - apply (Hplain (MkGraph nodes edges ∅)); [reflexivity|left; reflexivity|reflexivity].
  - apply (Hplain (MkGraph nodes edges ∅)); [reflexivity|right; reflexivity|reflexivity].
  - apply (Hplain (_make_honeycomb L)); [apply attrs_make_honeycomb|left; reflexivity|reflexivity].
  - apply (Hplain (_make_honeycomb L)); [apply attrs_make_honeycomb|right; reflexivity|reflexivity].
Qed.

(** What the division would hand over: on a lattice that carries the two
    attributes, set to its counts, the value passed to every single-cell
    call is [SNRb / (1 + 2|E|/|N|)], that is [SNRb * |N| / (|N| + 2|E|)]. *)
Lemma comp_spreads_SNRb (G : Graph) (modulation : string)
    (ys Fs : option (gmap label (option ndarray))) (channel_noise : option ndarray)
    (num_transmitters num_receivers : option nat) (q : Q) (seed : option Z)
    (F_distribution : option (list string)) (use_offset : bool) :
  counts_set G -> G_nodes G <> [] -> (0 < q)%Q ->
  modulation = "BPSK"%string \/ modulation = "QPSK"%string ->
  exists q',
    spread_SNRb G (Finite q) = Ok (Finite q') /\
    (q' == q / (1 + inject_Z (2 * Z.of_nat (number_of_edges G))
                    / inject_Z (Z.of_nat (number_of_nodes G))))%Q /\
    (q' == q * inject_Z (Z.of_nat (number_of_nodes G))
           / inject_Z (Z.of_nat (number_of_nodes G) + 2 * Z.of_nat (number_of_edges G)))%Q /\
    (0 < q')%Q /\
    spin_encoded_comp (inr G) modulation ys Fs None channel_noise
                      num_transmitters num_receivers (Finite q) seed F_distribution use_offset
    = comp_loop (comp_step G modulation ys Fs None channel_noise
                           (default 1 num_transmitters) (default 1 num_receivers)
                           (Finite q') seed F_distribution use_offset)
                (G_nodes G) (BQM_empty "SPIN") /\
    forall bs c,
      cell_call_of G ys Fs (default 1 num_transmitters) (default 1 num_receivers)
                   (Finite q') bs = Ok c ->
      cell_SNRb c = Finite q'.
Proof.
  intros Hc Hn Hq Hm.
  destruct (spread_SNRb_run G q Hc Hn Hq) as (q' & E & F1 & F2 & Hpos).
  exists q'. split; [exact E|]. split; [exact F1|]. split; [exact F2|]. split; [exact Hpos|].
  split.
  { destruct Hm as [-> | ->]; unfold spin_encoded_comp; rewrite E; reflexivity. }
  intros bs c Hcell. unfold cell_call_of in Hcell.
  destruct (per_node ys bs); [|discriminate]. destruct (per_node Fs bs); [|discriminate].
  cbn [mbind result_bind] in Hcell. injection Hcell as <-. reflexivity.
Qed.

End Composition.

(** On the path of two nodes that carries its counts, [SNRb = 3] is spread
    to [3 * 2 / 4]. *)
Lemma comp_spreads_SNRb_example :
  exists q',
    spread_SNRb path_graph_2_counted (Finite 3) = Ok (Finite q') /\ (q' == 3 * 2 / 4)%Q.
Proof.
  assert (Hc : counts_set path_graph_2_counted) by (split; vm_compute; reflexivity).
  destruct (@comp_spreads_SNRb counter_random path_graph_2_counted "BPSK" None None None
              None None 3 None None false Hc
              ltac:(discriminate) ltac:(reflexivity) (or_introl eq_refl))
    as (q' & E & _ & Hq & _).
  exists q'. split; [exact E|exact Hq].
Defined.

(** ** Running the generators *)

Section Pipeline.
Context `{NumpyRandom}.

Lemma run_bind {A B} (m : M A) (k : A -> M B) (w : world) :
  (m ≫= k) w = match m w with
               | Ok (a, w') => k a w'
               | Raise e => Raise e
               end.
Proof. reflexivity. Qed.

Lemma lift_Ok {A} (a : A) (w : world) : lift (Ok a) w = Ok (a, w).
Proof. reflexivity. Qed.

Lemma or_new_object (s : rng_state) (w : world) :
  or_new_RandomState (RSObject s) w = Ok (RSObject s, w).
Proof. reflexivity. Qed.

End Pipeline.

Ltac msimpl :=
  repeat (rewrite run_bind || rewrite lift_Ok || rewrite or_new_object ||
          (progress (cbn [mret M_ret log])) || (progress (cbv beta iota))).

Section Draws.
Context `{NumpyRandom}.

Lemma RandomState_run (seed : option Z) (w : world) :
  exists s w', RandomState seed w = Ok (s, w') /\ trace w' = trace w /\
               np_random w' = np_random w.
Proof. destruct seed; simpl; eauto. Qed.

Lemma rs_normal_run (s : rng_state) (n : nat) (w : world) :
  exists xs s', rs_normal (RSObject s) n w =
                Ok ((xs, RSObject s'),
                    World (np_random w) (urandom w) (trace w ++ [Draw Explicit n])).
Proof.
  unfold rs_normal. msimpl. destruct (draws next_normal n s) as [xs s']. eauto.
Qed.

Lemma rs_randint_run (s : rng_state) (high n : nat) (w : world) :
  exists xs s', rs_randint (RSObject s) high n w =
                Ok ((xs, RSObject s'),
                    World (np_random w) (urandom w) (trace w ++ [Draw Explicit n])).
Proof.
  unfold rs_randint. msimpl. destruct (draws (next_below high) n s) as [xs s']. eauto.
Qed.

End Draws.

Ltac run_normal :=
  msimpl;
  match goal with
  | |- context [rs_normal (RSObject ?s) ?n ?w] =>
      let xs := fresh "xs" in let s' := fresh "s" in let E := fresh "E" in
      destruct (rs_normal_run s n w) as (xs & s' & E); rewrite E; clear E; msimpl
  end.

Ltac run_randint :=
  msimpl;
  match goal with
  | |- context [rs_randint (RSObject ?s) ?h ?n ?w] =>
      let xs := fresh "xs" in let s' := fresh "s" in let E := fresh "E" in
      destruct (rs_randint_run s h n w) as (xs & s' & E); rewrite E; clear E; msimpl
  end.

Section Runs.
Context `{NumpyRandom}.

Lemma np_random_choice_run (amps : ndarray) (n : nat) (w : world) :
  data amps <> [] ->
  exists a g, np_random_choice amps n w =
              Ok (a, World g (urandom w) (trace w ++ [Draw ProcessWide n])) /\
              shape a = [n; 1] /\ adtype a = adtype amps.
Proof.
  intros Ha. unfold np_random_choice. destruct (data amps) as [|z l] eqn:E; [congruence|].
  destruct (draws _ n (np_random w)) as [idx g]. eauto.
Qed.

Lemma only_draws_1 (src : source) (n : nat) : only_draws src [Draw src n].
Proof. repeat constructor. eauto. Qed.

Lemma only_draws_2 (src : source) (n1 n2 : nat) : only_draws src [Draw src n1; Draw src n2].
Proof. repeat constructor; eauto. Qed.

Lemma create_channel_run (nr nt : nat) (Fd : option (list string)) (s : rng_state) (w : world) :
  known_distribution Fd ->
  exists F cp s' w' evs,
    create_channel nr nt Fd (RSObject s) w = Ok ((F, cp, RSObject s'), w') /\
    shape F = [nr; nt] /\
    (cp = nt \/ cp = 2 * nt) /\
    (complex_distribution Fd -> cp = 2 * nt /\ adtype F = complex128) /\
    np_random w' = np_random w /\
    trace w' = trace w ++ evs /\ only_draws Explicit evs.
Proof.
  intros Hk. unfold create_channel. msimpl.
  assert (Hd : exists a b, (Fd = None /\ a = "Normal"%string /\ b = "Complex"%string \/
                            Fd = Some [a; b]) /\
                           (a = "Normal"%string \/ a = "Binary"%string)).
  { destruct Hk as [->|(a & b & -> & Ha)]; [exists "Normal"%string, "Complex"%string|exists a, b];
      split; auto. }
  destruct Hd as (a & b & HFd & Ha).
  assert (Hstep : forall w0,
            (match Fd with
             | None => mret ["Normal"; "Complex"]%string
             | Some [a; b] => mret [a; b]
             | Some _ => raise (ValueError "F_distribution should be a tuple of strings or None")
             end) w0 = Ok ([a; b], w0)).
  { intros w0. destruct HFd as [(-> & -> & ->)| ->]; reflexivity. }
  rewrite Hstep. msimpl. cbn [nth].
  assert (Hcx : complex_distribution Fd -> b <> "Real"%string).
  { intros [->|(a' & b' & -> & _ & Hb)].
    - destruct HFd as [(_ & _ & ->)|C]; [discriminate|discriminate].
    - destruct HFd as [(C & _)|C]; [discriminate|]. injection C as _ <-. exact Hb. }
  assert (Hb : String.eqb b "Real" = true \/ (String.eqb b "Real" = false /\ b <> "Real"%string)).
  { destruct (String.eqb_spec b "Real"); [left|right]; auto. }
  destruct Ha as [-> | ->]; cbn [String.eqb Ascii.eqb Bool.eqb];
    destruct Hb as [Eb|[Eb Hb]]; rewrite Eb.
  - run_normal.
    do 5 eexists. split; [reflexivity|]. split; [reflexivity|]. split; [left; lia|].
    split; [intros Hc; exfalso; apply (Hcx Hc), String.eqb_eq, Eb|].
    split; [reflexivity|]. split; [reflexivity|]. apply only_draws_1.
  - run_normal. run_normal. unfold np.add. cbn [shape real_matrix np.times_1j].
    destruct (decide ([nr; nt] = [nr; nt])) as [_|Hne]; [|congruence]. msimpl.
    do 5 eexists. split; [reflexivity|]. split; [reflexivity|]. split; [right; lia|].
    split; [intros _; split; [lia|reflexivity]|].
    split; [reflexivity|]. split; [cbn [trace]; rewrite <- List.app_assoc; reflexivity|].
    apply only_draws_2.
  - run_randint.
    do 5 eexists. split; [reflexivity|]. split; [reflexivity|]. split; [left; lia|].
    split; [intros Hc; exfalso; apply (Hcx Hc), String.eqb_eq, Eb|].
    split; [reflexivity|]. split; [reflexivity|]. apply only_draws_1.
  - run_randint. run_randint. unfold np.add. cbn [shape real_matrix np.times_1j].
    destruct (decide ([nr; nt] = [nr; nt])) as [_|Hne]; [|congruence]. msimpl.
    do 5 eexists. split; [reflexivity|]. split; [reflexivity|]. split; [right; lia|].
    split; [intros _; split; [lia|reflexivity]|].
    split; [reflexivity|]. split; [cbn [trace]; rewrite <- List.app_assoc; reflexivity|].
    apply only_draws_2.
Qed.

Lemma constellation_supported (m : string) :
  supported m ->
  exists bits amps power,
    constellation_properties m = Ok (bits, amps, power) /\ data amps <> [] /\ 0 < bits.
Proof.
  intros [<-|[<-|[<-|[<-|[]]]]]; vm_compute; do 3 eexists;
    (split; [reflexivity|split; [discriminate|lia]]).
Qed.

Lemma materialize_run (rs : random_state_arg) (w : world) :
  (forall z, rs <> RSInt z) ->
  exists s w',
    or_new_RandomState rs w = Ok (RSObject s, w') /\
    trace w' = trace w /\ np_random w' = np_random w.
Proof.
  intros Hrs. destruct rs as [|z|s].
  - do 2 eexists. split; [reflexivity|]. split; reflexivity.
  - exfalso. apply (Hrs z). reflexivity.
  - do 2 eexists. split; [reflexivity|]. split; reflexivity.
Qed.

Lemma create_transmitted_symbols_run (n : nat) (amps : ndarray) (quadrature : bool) (w : world) :
  data amps <> [] ->
  exists v w' evs,
    create_transmitted_symbols n amps quadrature w = Ok (v, w') /\
    shape v = [n; 1] /\ trace w' = trace w ++ evs /\ evs <> [] /\
    Forall (fun e => e = Draw ProcessWide n) evs.
Proof.
  intros Ha. unfold create_transmitted_symbols. destruct quadrature; cbn [negb].
  - destruct (np_random_choice_run amps n w Ha) as (a & g & Ea & Sa & _).
    msimpl. rewrite Ea. msimpl.
    match goal with |- context [np_random_choice amps n ?w1] =>
      destruct (np_random_choice_run amps n w1 Ha) as (b & g' & Eb & Sb & _) end.
    rewrite Eb. msimpl.
    unfold lift, np.add. cbn [shape np.times_1j]. rewrite Sa, Sb.
    destruct (decide ([n; 1] = [n; 1])) as [_|Hne]; [|congruence].
    do 3 eexists. split; [reflexivity|]. split; [reflexivity|].
    split; [cbn [trace]; rewrite <- List.app_assoc; reflexivity|].
    split; [discriminate|]. repeat constructor.
  - destruct (np_random_choice_run amps n w Ha) as (a & g & Ea & Sa & _).
    rewrite Ea. do 3 eexists. split; [reflexivity|]. split; [exact Sa|].
    split; [reflexivity|]. split; [discriminate|]. repeat constructor.
Qed.

Lemma create_signal_run (F : ndarray) (nr nt cp : nat) (m : string) (SNRb : snr)
    (rs : random_state_arg) (w : world) :
  shape F = [nr; nt] -> supported m -> (forall z, rs <> RSInt z) -> usable_SNRb SNRb ->
  exists y v noise rs' w' evs,
    create_signal F None None SNRb m (Some cp) rs w = Ok ((y, v, noise, rs'), w') /\
    shape y = [nr; 1] /\ trace w' = trace w ++ evs /\
    signal_events nt (density_of m cp SNRb) evs.
Proof.
  intros HF Hm Hrs Hq. unfold create_signal, density_of. rewrite HF.
  destruct (constellation_supported m Hm) as (bits & amps & power & Ec & Ha & Hb).
  rewrite Ec. msimpl.
  destruct (materialize_run rs w Hrs) as (s & w1 & E1 & T1 & _). rewrite E1. msimpl.
  assert (Hsym : exists v w2 evs,
            (if String.eqb m "BPSK"
             then create_transmitted_symbols nt amps false
             else create_transmitted_symbols nt amps true) w1 = Ok (v, w2) /\
            shape v = [nt; 1] /\ trace w2 = trace w1 ++ evs /\ evs <> [] /\
            Forall (fun e => e = Draw ProcessWide nt) evs).
  { destruct (String.eqb m "BPSK"); apply create_transmitted_symbols_run; exact Ha. }
  destruct Hsym as (v & w2 & ev1 & E2 & Sv & T2 & N1 & D1).
  rewrite E2. msimpl. rewrite T1 in T2.
  destruct (matmul_2d F v nr nt 1 HF Sv) as (Fv & EFv & SFv & _).
  destruct SNRb as [q|]; cbn [snr_nonpositive].
  - cbn [usable_SNRb] in Hq.
    assert (Eq : Qle_bool q 0 = false).
    { destruct (Qle_bool q 0) eqn:E; [|reflexivity].
      apply Qle_bool_iff in E. exfalso. apply (Qlt_irrefl 0), (Qlt_le_trans _ q); assumption. }
    rewrite Eq. msimpl.
    set (N0 := (inject_Z (Z.of_nat cp) * power / inject_Z (Z.of_nat bits) / q)%Q).
    destruct (dtype_eqb (adtype v) float64 && dtype_eqb (adtype F) float64).
    + run_normal. rewrite EFv. msimpl.
      unfold lift, np.add. cbn [shape real_matrix]. rewrite SFv.
      destruct (decide ([nr; 1] = [nr; 1])) as [_|Hne]; [|congruence].
      do 6 eexists. split; [reflexivity|]. split; [reflexivity|].
      split; [cbn [trace]; rewrite T2, <- !List.app_assoc; reflexivity|].
      exists ev1, [NoiseVariance N0; Draw Explicit nr].
      split; [reflexivity|]. split; [exact N1|]. split; [exact D1|].
      eexists. split; [reflexivity|]. apply only_draws_1.
    + run_normal. run_normal.
      unfold np.add at 1. cbn [shape real_matrix np.times_1j].
      destruct (decide ([nr; 1] = [nr; 1])) as [_|Hne]; [|congruence]. msimpl.
      rewrite EFv. msimpl.
      unfold lift, np.add. cbn [shape]. rewrite SFv.
      destruct (decide ([nr; 1] = [nr; 1])) as [_|Hne]; [|congruence].
      do 6 eexists. split; [reflexivity|]. split; [reflexivity|].
      split; [cbn [trace]; rewrite T2, <- !List.app_assoc; reflexivity|].
      exists ev1, [NoiseVariance N0; Draw Explicit nr; Draw Explicit nr].
      split; [reflexivity|]. split; [exact N1|]. split; [exact D1|].
      eexists. split; [reflexivity|]. apply only_draws_2.
  - rewrite EFv. msimpl.
    do 6 eexists. split; [reflexivity|]. split; [exact SFv|].
    split; [exact T2|].
    exists ev1, []. split; [rewrite List.app_nil_r; reflexivity|].
    split; [exact N1|]. split; [exact D1|reflexivity].
Qed.


(** ** Shapes through the quadratic form *)

Lemma concatenate1_shape (a b : ndarray) (R ca cb : nat) :
  shape a = [R; ca] -> shape b = [R; cb] ->
  exists r, np.concatenate1 a b = Ok r /\ shape r = [R; ca + cb].
Proof.
  intros Ha Hb. unfold np.concatenate1. rewrite Ha, Hb.
  destruct (decide (R = R /\ [] = [])) as [_|Hne]; [|exfalso; apply Hne; split; reflexivity].
  eexists. split; reflexivity.
Qed.

Lemma real_projection_shapes (h J : ndarray) (n : nat) (m : string) :
  shape h = [n; 1] -> shape J = [n; n] ->
  exists hR JR n',
    _real_quadratic_form h J (Some m) = Ok (hR, JR) /\
    shape hR = [n'; 1] /\ shape JR = [n'; n'] /\
    (m = "BPSK"%string -> n' = n) /\
    (m <> "BPSK"%string -> adtype h = complex128 -> n' = n + n).
Proof.
  intros Hh HJ. unfold _real_quadratic_form.
  destruct (negb (is_modulation (Some m) "BPSK") &&
            (dtype_eqb (adtype h) complex128 || dtype_eqb (adtype J) complex128)) eqn:Ec.
  - rewrite (concatenate0_same (np.real h) (np.imag h) n n [1] Hh Hh).
    rewrite (concatenate0_same (np.real J) (np.imag J) n n [n] HJ HJ).
    assert (HT : shape (np.T (np.imag J)) = [n; n]) by (apply shape_T2; exact HJ).
    rewrite (concatenate0_same (np.T (np.imag J)) (np.real J) n n [n] HT HJ).
    cbn [mbind result_bind].
    destruct (concatenate1_shape
                (Array (promote (adtype (np.real J)) (adtype (np.imag J))) [n + n; n]
                       (data (np.real J) ++ data (np.imag J)))
                (Array (promote (adtype (np.T (np.imag J))) (adtype (np.real J))) [n + n; n]
                       (data (np.T (np.imag J)) ++ data (np.real J)))
                (n + n) n n eq_refl eq_refl) as (JR & EJR & SJR).
    rewrite EJR. cbn [mbind result_bind].
    do 3 eexists. split; [reflexivity|]. split; [reflexivity|]. split; [exact SJR|].
    split; [|intros; reflexivity].
    intros ->. apply andb_true_iff in Ec as [Ec _]. discriminate.
  - do 3 eexists. split; [reflexivity|]. split; [exact Hh|]. split; [exact HJ|].
    split; [intros; reflexivity|].
    intros Hm Hc. exfalso. rewrite Hc in Ec. cbn [dtype_eqb orb] in Ec.
    rewrite andb_true_r in Ec. apply negb_false_iff in Ec. cbn [is_modulation] in Ec.
    apply String.eqb_eq in Ec. contradiction.
Qed.

Lemma amplitude_shapes (h J : ndarray) (n : nat) (m : string) :
  shape h = [n; 1] -> shape J = [n; n] -> supported m ->
  exists hA JA n',
    _amplitude_modulated_quadratic_form h J m = Ok (hA, JA) /\
    shape hA = [n'; 1] /\ shape JA = [n'; n'] /\
    ((m = "BPSK"%string \/ m = "QPSK"%string) -> n' = n).
Proof.
  intros Hh HJ [<-|[<-|[<-|[<-|[]]]]].
  - exists h, J, n. repeat split; auto.
  - exists h, J, n. repeat split; auto.
  - destruct (expand_by_kron h J n 2 Hh HJ ltac:(lia)) as (ShA & SJA & _).
    do 3 eexists. split; [reflexivity|]. split; [exact ShA|]. split; [exact SJA|].
    intros [C|C]; discriminate.
  - destruct (expand_by_kron h J n 3 Hh HJ ltac:(lia)) as (ShA & SJA & _).
    do 3 eexists. split; [reflexivity|]. split; [exact ShA|]. split; [exact SJA|].
    intros [C|C]; discriminate.
Qed.

Lemma quadratic_form_shapes (y F : ndarray) (nr nt : nat) :
  shape y = [nr; 1] -> shape F = [nr; nt] ->
  exists off h J,
    _quadratic_form y F = Ok (off, h, J) /\
    shape h = [nt; 1] /\ shape J = [nt; nt] /\
    adtype h = promote (adtype F) (adtype y).
Proof.
  intros Hy HF.
  assert (Hyi : shape (np.imag y) = [nr; 1]) by exact Hy.
  assert (Hyr : shape (np.real y) = [nr; 1]) by exact Hy.
  assert (HFt : shape (np.conj (np.T F)) = [nt; nr]) by (simpl; rewrite HF; reflexivity).
  destruct (matmul_2d (np.T (np.imag y)) (np.imag y) 1 nr 1 (shape_T2 _ _ _ Hyi) Hyi)
    as (oi & Eoi & Soi & _).
  destruct (matmul_2d (np.T (np.real y)) (np.real y) 1 nr 1 (shape_T2 _ _ _ Hyr) Hyr)
    as (or & Eor & Sor & _).
  destruct (matmul_2d (np.conj (np.T F)) y nt nr 1 HFt Hy) as (Fy & EFy & SFy & TFy & _).
  destruct (matmul_2d (np.conj (np.T F)) F nt nr nt HFt HF) as (J & EJ & SJ & _).
  unfold _quadratic_form, ndim, dim. rewrite Hy, HF. cbn [List.length nth].
  rewrite !Nat.eqb_refl. cbn [negb orb].
  rewrite Eoi, Eor. cbn [mbind result_bind]. unfold np.add. rewrite Soi, Sor.
  destruct (decide ([1; 1] = [1; 1])) as [_|Hne]; [|congruence].
  cbn [mbind result_bind]. rewrite EFy. cbn [mbind result_bind]. rewrite EJ.
  cbn [mbind result_bind].
  do 3 eexists. split; [reflexivity|]. split; [exact SFy|]. split; [exact SJ|].
  cbn [np.scale adtype]. rewrite TFy. reflexivity.
Qed.

Lemma yF_to_hJ_shapes (y F : ndarray) (nr nt : nat) (m : string) :
  shape y = [nr; 1] -> shape F = [nr; nt] -> supported m ->
  exists h J off n',
    _yF_to_hJ y F m = Ok (h, J, off) /\
    shape h = [n'; 1] /\ shape J = [n'; n'] /\
    (m = "BPSK"%string -> n' = nt) /\
    (m = "QPSK"%string -> adtype y = complex128 \/ adtype F = complex128 -> n' = nt + nt).
Proof.
  intros Hy HF Hm. unfold _yF_to_hJ.
  destruct (quadratic_form_shapes y F nr nt Hy HF) as (off & h & J & E & Sh & SJ & Th).
  rewrite E. cbn [mbind result_bind].
  destruct (real_projection_shapes h J nt m Sh SJ) as (hR & JR & n1 & E1 & ShR & SJR & B1 & Q1).
  rewrite E1. cbn [mbind result_bind].
  destruct (amplitude_shapes hR JR n1 m ShR SJR Hm) as (hA & JA & n2 & E2 & ShA & SJA & B2).
  rewrite E2. cbn [mbind result_bind].
  exists hA, JA, off, n2. split; [reflexivity|]. split; [exact ShA|]. split; [exact SJA|].
  split.
  - intros ->. rewrite B2 by (left; reflexivity). apply B1. reflexivity.
  - intros -> Hc. rewrite B2 by (right; reflexivity). apply Q1; [discriminate|].
    rewrite Th. destruct Hc as [-> | ->]; [apply promote_complex_r|reflexivity].
Qed.

(** ** The quadratic model container *)

Lemma fmap_is_map {A B} (f : A -> B) (l : list A) : f <$> l = List.map f l.
Proof. induction l as [|x l IH]; [reflexivity|]. cbn. rewrite <- IH. reflexivity. Qed.

Lemma variables_BQM_of_arrays (h J : ndarray) (vt : string) (off : Z) :
  variables (BQM_of_arrays h J vt off) = list_to_set (List.map LIdx (seq 0 (dim 0 h))).
Proof.
  unfold variables, BQM_of_arrays. cbn [linear].
  rewrite dom_list_to_map_L. f_equal.
  rewrite fmap_is_map, List.map_map. reflexivity.
Qed.

(** ** The single-cell model *)

Lemma mimo_model_run (y F : ndarray) (nr nt : nat) (m : string) (use_offset : bool) (w : world) :
  shape y = [nr; 1] -> shape F = [nr; nt] -> supported m ->
  exists b n',
    ('(h, J, offset) ← lift (_yF_to_hJ y F m);
     h0 ← lift (np.column0 h);
     if use_offset then
       mret (BQM_of_arrays h0 J "SPIN" (re (at2 offset 0 0)))
     else
       J ← lift (np.fill_diagonal0 J);
       mret (BQM_of_arrays h0 J "SPIN" 0%Z)) w = Ok (b, w) /\
    variables b = list_to_set (List.map LIdx (seq 0 n')) /\
    (m = "BPSK"%string -> n' = nt) /\
    (m = "QPSK"%string -> adtype y = complex128 \/ adtype F = complex128 -> n' = nt + nt).
Proof.
  intros Hy HF Hm.
  destruct (yF_to_hJ_shapes y F nr nt m Hy HF Hm) as (h & J & off & n' & E & Sh & SJ & B & Q).
  rewrite E. msimpl. unfold np.column0. rewrite Sh. cbn [Nat.eqb]. msimpl.
  exists (if use_offset
          then BQM_of_arrays (Array (adtype h) [n'] (List.map (fun i => at2 h i 0) (seq 0 n')))
                             J "SPIN" (re (at2 off 0 0))
          else BQM_of_arrays (Array (adtype h) [n'] (List.map (fun i => at2 h i 0) (seq 0 n')))
                             (Array (adtype J) [n'; n']
                                (tabulate2 n' n' (fun i j => if i =? j then C0 else at2 J i j)))
                             "SPIN" 0%Z), n'.
  split.
  - destruct use_offset; [reflexivity|].
    unfold np.fill_diagonal0. rewrite SJ. msimpl. reflexivity.
  - split; [|split; assumption].
    destruct use_offset; rewrite variables_BQM_of_arrays; reflexivity.
Qed.

Lemma spin_encoded_mimo_generated (m : string) (nt nr : nat) (SNRb : snr) (seed : option Z)
    (Fd : option (list string)) (use_offset : bool) (w : world) :
  supported m -> 0 < nt -> 0 < nr -> usable_SNRb SNRb -> known_distribution Fd ->
  exists b w' n' cp evc evs,
    spin_encoded_mimo m None None None None (Some nt) (Some nr) SNRb seed Fd use_offset w
    = Ok (b, w') /\
    variables b = list_to_set (List.map LIdx (seq 0 n')) /\
    (m = "BPSK"%string -> n' = nt) /\
    trace w' = trace w ++ evc ++ evs /\
    only_draws Explicit evc /\ signal_events nt (density_of m cp SNRb) evs /\
    (cp = nt \/ cp = 2 * nt) /\ (complex_distribution Fd -> cp = 2 * nt).
Proof.
  intros Hm Hnt Hnr Hq Hk. unfold spin_encoded_mimo. msimpl.
  assert (E1 : (0 <? nt) = true) by (apply Nat.ltb_lt; exact Hnt).
  assert (E2 : (0 <? nr) = true) by (apply Nat.ltb_lt; exact Hnr).
  rewrite E1, E2. cbn [negb]. msimpl.
  destruct (RandomState_run seed w) as (s & w1 & Es & T1 & _). rewrite Es. msimpl.
  destruct (create_channel_run nr nt Fd s w1 Hk)
    as (F & cp & s' & w2 & evc & Ec & SF & Hcp & Hcx & _ & T2 & Dc).
  rewrite Ec. msimpl.
  destruct (create_signal_run F nr nt cp m SNRb (RSObject s') w2 SF Hm ltac:(discriminate) Hq)
    as (y & v & noise & rs' & w3 & evs & Ey & Sy & T3 & Hev).
  rewrite Ey. msimpl.
  destruct (mimo_model_run y F nr nt m use_offset w3 Sy SF Hm) as (b & n' & Eb & Vb & Bb & _).
  revert Eb. msimpl. intros Eb. rewrite Eb.
  exists b, w3, n', cp, evc, evs. split; [reflexivity|]. split; [exact Vb|].
  split; [exact Bb|]. split; [rewrite T3, T2, T1, List.app_assoc; reflexivity|].
  split; [exact Dc|]. split; [exact Hev|]. split; [exact Hcp|].
  intros Hc. apply (Hcx Hc).
Qed.

Lemma spin_encoded_mimo_supplied (F : ndarray) (m : string) (nr nt : nat) (SNRb : snr)
    (Fd : option (list string)) (use_offset : bool) (w : world) :
  shape F = [nr; nt] -> supported m -> 0 < nt -> 0 < nr -> usable_SNRb SNRb ->
  exists b w' evs,
    spin_encoded_mimo m None (Some F) None None None None SNRb None Fd use_offset w
    = Ok (b, w') /\
    trace w' = trace w ++ evs /\ signal_events nt (density_of m nt SNRb) evs.
Proof.
  intros SF Hm Hnt Hnr Hq. unfold spin_encoded_mimo. rewrite SF. msimpl.
  assert (E1 : (0 <? nt) = true) by (apply Nat.ltb_lt; exact Hnt).
  assert (E2 : (0 <? nr) = true) by (apply Nat.ltb_lt; exact Hnr).
  rewrite E1, E2. cbn [negb seed_arg]. msimpl.
  destruct (create_signal_run F nr nt nt m SNRb RSNone w SF Hm ltac:(discriminate) Hq)
    as (y & v & noise & rs' & w3 & evs & Ey & Sy & T3 & Hev).
  rewrite Ey. msimpl.
  destruct (mimo_model_run y F nr nt m use_offset w3 Sy SF Hm) as (b & n' & Eb & _).
  revert Eb. msimpl. intros Eb. rewrite Eb. exists b, w3, evs. split; [reflexivity|]. split; assumption.
Qed.

End Runs.

(** ** Labels of the cooperative model *)

Lemma LIdx_inj (i j : nat) : LIdx i = LIdx j -> i = j.
Proof. unfold LIdx. intros E. injection E as E. lia. Qed.

Lemma enumerate_from (labels : list label) (k : nat) (d : gmap label label) (i : nat) :
  foldl (fun d p => <[ fst p := snd p ]> d) d
        (imap (fun idx l => (LIdx (k + idx), l)) labels) !! LIdx i =
  if decide (k <= i < k + List.length labels) then labels !! (i - k) else d !! LIdx i.
Proof.
  revert k d. induction labels as [|l ls IH]; intros k d.
  - cbn. destruct (decide _) as [Hd|_]; [lia|reflexivity].
  - cbn [imap foldl fst snd List.length].
    rewrite (imap_ext _ (fun idx l0 => (LIdx (S k + idx), l0))).
    2:{ intros idx x _. cbn. do 2 f_equal. lia. }
    rewrite IH.
    destruct (decide (S k <= i < S k + List.length ls)) as [H1|H1];
      destruct (decide (k <= i < k + S (List.length ls))) as [H2|H2]; try lia.
    + replace (i - k) with (S (i - S k)) by lia. reflexivity.
    + assert (i = k) by lia. subst i. rewrite Nat.add_0_r, lookup_insert_eq.
      rewrite Nat.sub_diag. reflexivity.
    + rewrite lookup_insert_ne; [reflexivity|].
      intros C. apply LIdx_inj in C. lia.
Qed.

Lemma enumerate_map_lookup (labels : list label) (i : nat) :
  enumerate_map labels !! LIdx i = labels !! i.
Proof.
  unfold enumerate_map.
  rewrite (imap_ext _ (fun idx l0 => (LIdx (0 + idx), l0))) by reflexivity.
  rewrite enumerate_from. rewrite Nat.sub_0_r.
  destruct (decide _) as [_|Hd]; [reflexivity|].
  rewrite lookup_empty. symmetry. apply lookup_ge_None. lia.
Qed.

Lemma elem_of_relabelled (mp : gmap label label) (b : bqm) (x : label) :
  x ∈ variables (relabel_variables mp b) <-> exists v, v ∈ variables b /\ x = relabel mp v.
Proof.
  unfold variables, relabel_variables. cbn [linear].
  rewrite dom_list_to_map_L, elem_of_list_to_set, fmap_is_map, List.map_map.
  cbn [fst]. rewrite <- fmap_is_map, list_elem_of_fmap.
  split.
  - intros ([v c] & -> & Hin). apply elem_of_map_to_list in Hin.
    exists v. split; [|reflexivity]. apply elem_of_dom. eauto.
  - intros (v & Hv & ->). apply elem_of_dom in Hv as [c Hc].
    exists (v, c). split; [reflexivity|]. apply elem_of_map_to_list. exact Hc.
Qed.

Lemma variables_relabel_cell (labels : list label) (b : bqm) :
  variables b = list_to_set (List.map LIdx (seq 0 (List.length labels))) ->
  variables (relabel_variables (enumerate_map labels) b) = list_to_set labels.
Proof.
  intros Hb. apply set_eq. intros x. rewrite elem_of_relabelled, elem_of_list_to_set.
  split.
  - intros (v & Hv & ->). rewrite Hb, elem_of_list_to_set, list_elem_of_In in Hv.
    apply in_map_iff in Hv as (i & <- & Hi). apply in_seq in Hi.
    unfold relabel. rewrite enumerate_map_lookup.
    destruct (lookup_lt_is_Some_2 labels i ltac:(lia)) as [l Hl]. rewrite Hl. cbn.
    apply list_elem_of_lookup. eauto.
  - intros Hx. apply list_elem_of_lookup in Hx as [i Hi].
    exists (LIdx i). split.
    + rewrite Hb, elem_of_list_to_set, list_elem_of_In. apply in_map, in_seq.
      apply lookup_lt_Some in Hi. lia.
    + unfold relabel. rewrite enumerate_map_lookup, Hi. reflexivity.
Qed.

Lemma variables_bqm_add (a b : bqm) : variables (bqm_add a b) = variables a ∪ variables b.
Proof.
  unfold variables, bqm_add. cbn [linear]. apply set_eq. intros x.
  rewrite elem_of_union, !elem_of_dom, lookup_union_with.
  destruct (linear a !! x), (linear b !! x); cbn; split;
    intros Hx; try (destruct Hx as [Hx|Hx]); try (inversion Hx; discriminate); eauto.
Qed.

Lemma degree_neighbors (G : Graph) (bs : label) :
  (forall e, In e (G_edges G) -> fst e <> snd e) ->
  degree G bs = List.length (neighbors G bs).
Proof.
  unfold degree, neighbors. induction (G_edges G) as [|e es IH]; intros Hs; [reflexivity|].
  specialize (IH (fun e' H' => Hs e' (or_intror H'))).
  pose proof (Hs e (or_introl eq_refl)) as He.
  cbn [List.filter flat_map]. rewrite List.length_app.
  destruct (decide (fst e = bs)) as [E1|E1].
  - rewrite (bool_decide_eq_true_2 _ E1).
    rewrite (bool_decide_eq_false_2 (snd e = bs)) by congruence.
    cbn [List.length]. lia.
  - rewrite (bool_decide_eq_false_2 _ E1).
    destruct (decide (snd e = bs)) as [E2|E2].
    + rewrite (bool_decide_eq_true_2 _ E2). cbn [List.length]. lia.
    + rewrite (bool_decide_eq_false_2 _ E2). cbn [List.length]. lia.
Qed.

Lemma length_geometric_labels (G : Graph) (t : nat) (bs : label) :
  List.length (geometric_labels G t bs) = t * (1 + List.length (neighbors G bs)).
Proof.
  unfold geometric_labels, range. rewrite List.length_app, List.length_map, List.length_seq.
  rewrite Nat.sub_0_r.
  rewrite (flat_map_constant_length (c := t)).
  2:{ intros x _. rewrite List.length_map, List.length_seq. reflexivity. }
  lia.
Qed.

Lemma neighbors_in_nodes (G : Graph) (bs x : label) :
  simple_graph G -> In x (neighbors G bs) -> In x (G_nodes G).
Proof.
  intros [_ Hs] Hx. unfold neighbors in Hx. apply in_flat_map in Hx as (e & He & Hx).
  destruct (Hs e He) as (H1 & H2 & _).
  destruct (decide (fst e = bs)); [destruct Hx as [<-|[]]; exact H2|].
  destruct (decide (snd e = bs)); [destruct Hx as [<-|[]]; exact H1|destruct Hx].
Qed.

Lemma geometric_labels_in (G : Graph) (t : nat) (bs x : label) :
  simple_graph G -> In bs (G_nodes G) ->
  In x (geometric_labels G t bs) -> In x (lattice_variables G t).
Proof.
  intros HG Hbs Hx. unfold geometric_labels, range in Hx. rewrite Nat.sub_0_r in Hx.
  unfold lattice_variables. apply in_flat_map.
  apply in_app_or in Hx as [Hx|Hx].
  - exists bs. split; [exact Hbs|exact Hx].
  - apply in_flat_map in Hx as (neigh & Hn & Hx).
    exists neigh. split; [apply (neighbors_in_nodes G bs); assumption|exact Hx].
Qed.

Lemma lattice_variables_covered (G : Graph) (t : nat) (x : label) :
  In x (lattice_variables G t) ->
  exists bs, In bs (G_nodes G) /\ In x (geometric_labels G t bs).
Proof.
  unfold lattice_variables. intros Hx. apply in_flat_map in Hx as (bs & Hbs & Hx).
  exists bs. split; [exact Hbs|]. unfold geometric_labels, range. rewrite Nat.sub_0_r.
  apply in_or_app. left. exact Hx.
Qed.

Lemma NoDup_lattice_variables (G : Graph) (t : nat) :
  NoDup (G_nodes G) -> NoDup (lattice_variables G t).
Proof.
  unfold lattice_variables. induction 1 as [|bs nodes Hbs _ IH]; [constructor|].
  cbn [flat_map]. apply List.NoDup_app.
  - apply NoDup_map_NoDup_ForallPairs; [|apply List.seq_NoDup].
    intros i j _ _ E. injection E as E. lia.
  - exact IH.
  - intros x Hx Hx'.
    apply in_map_iff in Hx as (i & <- & _).
    apply in_flat_map in Hx' as (bs' & Hbs' & Hx').
    apply in_map_iff in Hx' as (j & E & _). injection E as -> _.
    apply Hbs, Hbs'.
Qed.

Lemma length_lattice_variables (G : Graph) (t : nat) :
  List.length (lattice_variables G t) = number_of_nodes G * t.
Proof.
  unfold lattice_variables, number_of_nodes.
  apply flat_map_constant_length. intros x _.
  rewrite List.length_map, List.length_seq. reflexivity.
Qed.

Section Cooperative.
Context `{NumpyRandom}.

Lemma comp_step_run (G : Graph) (t nr : nat) (SNRb : snr) (seed : option Z)
    (Fd : option (list string)) (use_offset : bool) (acc : bqm) (bs : label) (w : world) :
  simple_graph G -> 0 < t -> 0 < nr -> usable_SNRb SNRb -> known_distribution Fd ->
  exists b w',
    comp_step G "BPSK" None None None None t nr SNRb seed Fd use_offset acc bs w = Ok (b, w') /\
    variables b = variables acc ∪ list_to_set (geometric_labels G t bs).
Proof.
  intros HG Ht Hnr Hq Hk. unfold comp_step, cell_call_of, per_node.
  cbn [mbind result_bind]. msimpl.
  cbn [cell_y cell_F cell_num_transmitters cell_num_receivers cell_SNRb].
  destruct (spin_encoded_mimo_generated "BPSK" (t * (1 + degree G bs)) nr SNRb seed Fd
              use_offset w ltac:(left; reflexivity) ltac:(nia) Hnr Hq Hk)
    as (b & w' & n' & cp & evc & evs & E & Vb & Bn & _).
  rewrite E. msimpl.
  eexists _, w'. split; [reflexivity|].
  rewrite variables_bqm_add. f_equal.
  apply variables_relabel_cell.
  rewrite Vb, (Bn eq_refl), length_geometric_labels.
  rewrite (degree_neighbors G bs) by (intros e He; apply (proj2 HG e He)).
  reflexivity.
Qed.

Lemma comp_loop_run (step : bqm -> label -> M bqm) (L : label -> gset label)
    (nodes : list label) :
  (forall acc bs w, In bs nodes ->
     exists b w', step acc bs w = Ok (b, w') /\ variables b = variables acc ∪ L bs) ->
  forall acc w,
    exists b w', comp_loop step nodes acc w = Ok (b, w') /\
      forall x, x ∈ variables b <-> x ∈ variables acc \/ exists bs, In bs nodes /\ x ∈ L bs.
Proof.
  induction nodes as [|bs nodes IH]; intros Hstep acc w.
  - exists acc, w. split; [reflexivity|]. intros x. split; [auto|].
    intros [Hx|(bs & [] & _)]. exact Hx.
  - destruct (Hstep acc bs w (or_introl eq_refl)) as (b1 & w1 & E1 & V1).
    destruct (IH (fun a b' w' Hb => Hstep a b' w' (or_intror Hb)) b1 w1)
      as (b & w' & E & V).
    exists b, w'. split.
    + cbn [comp_loop]. msimpl. rewrite E1. exact E.
    + intros x. rewrite V, V1, elem_of_union. split.
      * intros [[Hx|Hx]|(bs' & Hb & Hx)]; [left; exact Hx| |].
        -- right. exists bs. split; [left; reflexivity|exact Hx].
        -- right. exists bs'. split; [right; exact Hb|exact Hx].
      * intros [Hx|(bs' & [<-|Hb] & Hx)]; [left; left; exact Hx|left; right; exact Hx|].
        right. exists bs'. split; assumption.
Qed.

(** The BPSK case of C2.  On a simple graph of basestations,
    with [t >= 1] transmitters per node, generated channels and signals and
    the default symbols, the joint BPSK model has the variables [(node, i)],
    for each node and [0 <= i < t], each once: [|nodes| * t] of them.  The
    ratio [SNRb] is infinite (the default), or finite on a lattice that
    carries the attributes the division reads. *)
Theorem comp_variables (G : Graph) (t nr : nat) (SNRb : snr) (seed : option Z)
    (Fd : option (list string)) (use_offset : bool) (w : world) :
  simple_graph G -> 0 < t -> 0 < nr -> usable_SNRb SNRb -> known_distribution Fd ->
  SNRb = Inf \/ (counts_set G /\ G_nodes G <> []) ->
  exists b w',
    spin_encoded_comp (inr G) "BPSK" None None None None (Some t) (Some nr) SNRb seed Fd
                      use_offset w = Ok (b, w') /\
    variables b = list_to_set (lattice_variables G t) /\
    NoDup (lattice_variables G t) /\
    num_variables b = number_of_nodes G * t.
Proof.
  intros HG Ht Hnr Hq Hk Hne.
  assert (Hs : exists SNRb', spread_SNRb G SNRb = Ok SNRb' /\ usable_SNRb SNRb').
  { destruct SNRb as [q|]; [|exists Inf; split; [reflexivity|exact I]].
    destruct Hne as [C|[Hc Hne]]; [discriminate|].
    destruct (spread_SNRb_run G q Hc Hne Hq) as (q' & E & _ & _ & Hpos).
    exists (Finite q'). split; [exact E|exact Hpos]. }
  destruct Hs as (SNRb' & Es & Hq').
  destruct (comp_loop_run
              (comp_step G "BPSK" None None None None t nr SNRb' seed Fd use_offset)
              (fun bs => list_to_set (geometric_labels G t bs)) (G_nodes G)
              (fun acc bs w0 _ => comp_step_run G t nr SNRb' seed Fd use_offset acc bs w0
                                    HG Ht Hnr Hq' Hk)
              (BQM_empty "SPIN") w) as (b & w' & E & V).
  assert (Vb : variables b = list_to_set (lattice_variables G t)).
  { apply set_eq. intros x. rewrite V, elem_of_list_to_set, list_elem_of_In. split.
    - intros [Hx|(bs & Hbs & Hx)].
      + unfold variables, BQM_empty in Hx. cbn [linear] in Hx. rewrite dom_empty_L in Hx.
        apply not_elem_of_empty in Hx. destruct Hx.
      + rewrite elem_of_list_to_set, list_elem_of_In in Hx.
        apply (geometric_labels_in G t bs); assumption.
    - intros Hx. right. destruct (lattice_variables_covered G t x Hx) as (bs & Hbs & Hx').
      exists bs. split; [exact Hbs|]. rewrite elem_of_list_to_set, list_elem_of_In. exact Hx'. }
  exists b, w'. split.
  { unfold spin_encoded_comp. cbn [default String.eqb Ascii.eqb Bool.eqb negb andb orb].
    rewrite Es. msimpl. exact E. }
  split; [exact Vb|]. split; [apply NoDup_lattice_variables, HG|].
  unfold num_variables. rewrite Vb, size_list_to_set.
  - apply length_lattice_variables.
  - apply NoDup_ListNoDup, NoDup_lattice_variables, HG.
Qed.

End Cooperative.

(** C2, the smallest QPSK instance: one node without neighbours and one
    transmitter give a model of two variables, the relabelled [(0, 0)] and
    the index [1] that no label was made for. *)
Lemma comp_variables_QPSK_counterexample :
  match @spin_encoded_comp counter_random (inr (MkGraph [LIdx 0] [] ∅)) "QPSK"
          None None None None (Some 1) (Some 1) Inf (Some 0%Z) None false
          (@World counter_random 0 0 []) with
  | Ok (b, _) =>
      num_variables b = 2 /\
      num_variables b <> number_of_nodes (MkGraph [LIdx 0] [] ∅) * 1 /\
      elements (variables b) = [LPair (LIdx 0) (LIdx 0); LIdx 1]
  | Raise _ => False
  end.
Proof. vm_compute. repeat split; congruence. Qed.

Lemma comp_variables_witness :
  exists b w',
    @spin_encoded_comp counter_random (inr path_graph_2_counted) "BPSK" None None None None
       (Some 2) (Some 1) (Finite 3) (Some 0%Z) None false (@World counter_random 0 0 [])
    = Ok (b, w') /\
    num_variables b = 4.
Proof.
  assert (HG : simple_graph path_graph_2_counted).
  { split.
    - repeat constructor; simpl; intuition discriminate.
    - intros e [<-|[]]. simpl. repeat split; auto; discriminate. }
  assert (H1 : 0 < 2) by lia.
  assert (H2 : 0 < 1) by lia.
  assert (H3 : usable_SNRb (Finite 3)) by reflexivity.
  assert (H4 : known_distribution None) by (left; reflexivity).
  assert (H5 : Finite 3 = Inf \/
               (counts_set path_graph_2_counted /\ G_nodes path_graph_2_counted <> [])).
  { right. split; [split; vm_compute; reflexivity|discriminate]. }
  pose proof (@comp_variables counter_random path_graph_2_counted 2 1 (Finite 3) (Some 0%Z)
                None false (@World counter_random 0 0 []) HG H1 H2 H3 H4 H5) as P.
  destruct P as (b & w' & E & _ & _ & N).
  exists b, w'.
  split; [exact E|exact N].
Defined.

(** ** Noise and the channel power *)

Lemma density_supported (m : string) (cp : nat) (q : Q) :
  supported m ->
  exists bits amps power,
    constellation_properties m = Ok (bits, amps, power) /\ 0 < bits /\
    density_of m cp (Finite q) =
    Some (inject_Z (Z.of_nat cp) * power / inject_Z (Z.of_nat bits) / q)%Q.
Proof.
  intros Hm. unfold density_of.
  destruct Hm as [<-|[<-|[<-|[<-|[]]]]];
    do 3 eexists; (split; [reflexivity|split; [lia|reflexivity]]).
Qed.

Lemma noise_entries (f : Z -> Z) (xs ys : list Z) :
  List.map (fun p => Cadd (fst p) (snd p))
           (combine (List.map Cre (List.map f xs))
                    (List.map Ci_mul (List.map Cre (List.map f ys)))) =
  List.map (fun p => Cx (f (fst p)) (f (snd p))) (combine xs ys).
Proof.
  revert ys. induction xs as [|x xs IH]; intros [|y ys]; cbn; try reflexivity.
  rewrite IH. f_equal. complex_ring.
Qed.

Section Noise.
Context `{NumpyRandom}.

Lemma rs_normal_draws (s : rng_state) (n : nat) (w : world) :
  rs_normal (RSObject s) n w =
  Ok ((fst (draws next_normal n s), RSObject (snd (draws next_normal n s))),
      World (np_random w) (urandom w) (trace w ++ [Draw Explicit n])).
Proof.
  unfold rs_normal. msimpl. destruct (draws next_normal n s) as [xs s']. reflexivity.
Qed.

(** [create_signal] with a finite [SNRb] and no noise given: the noise it
    makes and adds. *)
Lemma create_signal_noise (F : ndarray) (nr nt cp : nat) (m : string) (q : Q)
    (rs : random_state_arg) (w : world) :
  shape F = [nr; nt] -> supported m -> (forall z, rs <> RSInt z) -> (0 < q)%Q ->
  exists bits amps power s w1 y v rs' w' Fv,
    constellation_properties m = Ok (bits, amps, power) /\
    or_new_RandomState rs w = Ok (RSObject s, w1) /\
    create_signal F None None (Finite q) m (Some cp) rs w
    = Ok ((y, v,
           Some (scaled_noise
                   (inject_Z (Z.of_nat cp) * power / inject_Z (Z.of_nat bits) / q / 2)
                   (negb (dtype_eqb (adtype v) float64 && dtype_eqb (adtype F) float64))
                   nr s), rs'), w') /\
    shape y = [nr; 1] /\
    np.matmul F v = Ok Fv /\
    np.add (scaled_noise
              (inject_Z (Z.of_nat cp) * power / inject_Z (Z.of_nat bits) / q / 2)
              (negb (dtype_eqb (adtype v) float64 && dtype_eqb (adtype F) float64))
              nr s) Fv = Ok y.
Proof.
  intros HF Hm Hrs Hq. unfold create_signal. rewrite HF.
  destruct (constellation_supported m Hm) as (bits & amps & power & Ec & Ha & Hb).
  rewrite Ec. msimpl.
  destruct (materialize_run rs w Hrs) as (s & w1 & E1 & T1 & _). rewrite E1. msimpl.
  assert (Hsym : exists v w2 evs,
            (if String.eqb m "BPSK"
             then create_transmitted_symbols nt amps false
             else create_transmitted_symbols nt amps true) w1 = Ok (v, w2) /\
            shape v = [nt; 1] /\ trace w2 = trace w1 ++ evs /\ evs <> [] /\
            Forall (fun e => e = Draw ProcessWide nt) evs).
  { destruct (String.eqb m "BPSK"); apply create_transmitted_symbols_run; exact Ha. }
  destruct Hsym as (v & w2 & ev1 & E2 & Sv & _). rewrite E2. msimpl.
  destruct (matmul_2d F v nr nt 1 HF Sv) as (Fv & EFv & SFv & _).
  cbn [snr_nonpositive].
  assert (Eq : Qle_bool q 0 = false).
  { destruct (Qle_bool q 0) eqn:E; [|reflexivity].
    apply Qle_bool_iff in E. exfalso. apply (Qlt_irrefl 0), (Qlt_le_trans _ q); assumption. }
  rewrite Eq. msimpl.
  exists bits, amps, power, s, w1.
  unfold scaled_noise.
  destruct (dtype_eqb (adtype v) float64 && dtype_eqb (adtype F) float64) eqn:Eb.
  - msimpl. rewrite rs_normal_draws. msimpl. rewrite EFv. msimpl.
    unfold real_matrix. rewrite List.map_map.
    unfold lift, np.add. cbn [shape]. rewrite SFv.
    destruct (decide ([nr; 1] = [nr; 1])) as [_|Hne]; [|congruence].
    eexists _, v, _, _, Fv. rewrite Eb. cbn [negb shape].
    split; [reflexivity|]. split; [reflexivity|].
    split; [reflexivity|]. split; [reflexivity|]. split; [exact EFv|].
    rewrite SFv. destruct (decide ([nr; 1] = [nr; 1])) as [_|Hne]; [|congruence].
    reflexivity.
  - msimpl. rewrite rs_normal_draws. msimpl. rewrite rs_normal_draws. msimpl.
    unfold np.add at 1. cbn [shape real_matrix np.times_1j].
    destruct (decide ([nr; 1] = [nr; 1])) as [_|Hne]; [|congruence]. msimpl.
    unfold real_matrix, np.times_1j. cbn [data adtype promote]. rewrite noise_entries.
    rewrite EFv. msimpl.
    unfold lift, np.add. cbn [shape]. rewrite SFv.
    destruct (decide ([nr; 1] = [nr; 1])) as [_|Hne]; [|congruence].
    eexists _, v, _, _, Fv. rewrite Eb. cbn [negb shape].
    split; [reflexivity|]. split; [reflexivity|].
    split; [reflexivity|]. split; [reflexivity|]. split; [exact EFv|].
    rewrite SFv. destruct (decide ([nr; 1] = [nr; 1])) as [_|Hne]; [|congruence].
    reflexivity.
Qed.

(** With a supplied channel and an integer seed the noise cannot be drawn:
    the integer is handed on as the random source, and [create_signal]
    calls [normal] on it. *)
Lemma supplied_channel_seed_raises (F : ndarray) (m : string) (nr nt : nat) (q : Q) (z : Z)
    (Fd : option (list string)) (use_offset : bool) (w : world) :
  shape F = [nr; nt] -> supported m -> 0 < nt -> 0 < nr -> (0 < q)%Q ->
  spin_encoded_mimo m None (Some F) None None None None (Finite q) (Some z) Fd use_offset w
  = Raise AttributeError.
Proof.
  intros SF Hm Hnt Hnr Hq. unfold spin_encoded_mimo. rewrite SF. msimpl.
  assert (E1 : (0 <? nt) = true) by (apply Nat.ltb_lt; exact Hnt).
  assert (E2 : (0 <? nr) = true) by (apply Nat.ltb_lt; exact Hnr).
  rewrite E1, E2. cbn [negb seed_arg]. msimpl.
  unfold create_signal. rewrite SF. msimpl.
  destruct (constellation_supported m Hm) as (bits & amps & power & Ec & Ha & Hb).
  rewrite Ec. msimpl. cbn [or_new_RandomState]. msimpl.
  assert (Hsym : exists v w2,
            (if String.eqb m "BPSK"
             then create_transmitted_symbols nt amps false
             else create_transmitted_symbols nt amps true) w = Ok (v, w2)).
  { destruct (String.eqb m "BPSK").
    - destruct (create_transmitted_symbols_run nt amps false w Ha) as (v & w2 & evs & Ev & _).
      eauto.
    - destruct (create_transmitted_symbols_run nt amps true w Ha) as (v & w2 & evs & Ev & _).
      eauto. }
  destruct Hsym as (v & w2 & Ev). rewrite Ev. msimpl.
  cbn [snr_nonpositive].
  assert (Eq : Qle_bool q 0 = false).
  { destruct (Qle_bool q 0) eqn:E; [|reflexivity].
    apply Qle_bool_iff in E. exfalso. apply (Qlt_irrefl 0), (Qlt_le_trans _ q); assumption. }
  rewrite Eq. msimpl. cbn [or_new_RandomState]. msimpl.
  destruct (dtype_eqb (adtype v) float64 && dtype_eqb (adtype F) float64); reflexivity.
Qed.

(** C10, on the code.  With a channel [F] of shape [(nr, nt)] supplied by
    the caller, whatever its dtype, and [seed=None], the noise that
    [create_signal] adds to [F v] is [sqrt(Ns / 2)] times standard normal
    draws of a fresh [RandomState], where the density [Ns] is computed from
    [channel_power = nt]; the model returned is the model of that noisy
    signal.  With a generated channel of a complex distribution the noise
    is [sqrt(Ng / 2)] times standard normal draws of the seeded generator,
    with [Ng] computed from [channel_power = 2 nt]; and [Ns = Ng / 2].  With
    an integer seed the call with a supplied channel returns no model: the
    integer is used as the random source and [AttributeError] is raised. *)
Theorem supplied_channel_noise_halved (F : ndarray) (m : string) (nr nt : nat) (q : Q)
    (seed : option Z) (Fd Fd' : option (list string)) (use_offset : bool) (w : world) :
  shape F = [nr; nt] -> supported m -> 0 < nt -> 0 < nr -> (0 < q)%Q ->
  complex_distribution Fd ->
  exists Ns Ng,
    density_of m nt (Finite q) = Some Ns /\
    density_of m (2 * nt) (Finite q) = Some Ng /\
    (Ns == Ng / 2)%Q /\
    (exists ys vs rss ws bs Fv,
       create_signal F None None (Finite q) m (Some nt) RSNone w
       = Ok ((ys, vs,
              Some (scaled_noise (Ns / 2)
                      (negb (dtype_eqb (adtype vs) float64 && dtype_eqb (adtype F) float64))
                      nr (entropy_state (urandom w))), rss), ws) /\
       np.matmul F vs = Ok Fv /\
       np.add (scaled_noise (Ns / 2)
                 (negb (dtype_eqb (adtype vs) float64 && dtype_eqb (adtype F) float64))
                 nr (entropy_state (urandom w))) Fv = Ok ys /\
       spin_encoded_mimo m None (Some F) None None None None (Finite q) None Fd' use_offset w
       = Ok (bs, ws) /\
       spin_encoded_mimo m (Some ys) (Some F) None None None None (Finite q) None Fd'
                         use_offset ws = Ok (bs, ws)) /\
    (forall z,
       spin_encoded_mimo m None (Some F) None None None None (Finite q) (Some z) Fd'
                         use_offset w = Raise AttributeError) /\
    (exists s w1 Fg s' w2 yg vg rsg wg bg Fv,
       RandomState seed w = Ok (s, w1) /\
       create_channel nr nt Fd (RSObject s) w1 = Ok ((Fg, 2 * nt, RSObject s'), w2) /\
       adtype Fg = complex128 /\
       create_signal Fg None None (Finite q) m (Some (2 * nt)) (RSObject s') w2
       = Ok ((yg, vg, Some (scaled_noise (Ng / 2) true nr s'), rsg), wg) /\
       np.matmul Fg vg = Ok Fv /\
       np.add (scaled_noise (Ng / 2) true nr s') Fv = Ok yg /\
       spin_encoded_mimo m None None None None (Some nt) (Some nr) (Finite q) seed Fd
                         use_offset w = Ok (bg, wg) /\
       spin_encoded_mimo m (Some yg) (Some Fg) None None (Some nt) (Some nr) (Finite q) seed
                         Fd use_offset wg = Ok (bg, wg)).
Proof.
  intros SF Hm Hnt Hnr Hq Hc.
  assert (Hk : known_distribution Fd).
  { destruct Hc as [->|(a & b & -> & Ha & _)]; [left; reflexivity|right; eauto]. }
  assert (E1 : (0 <? nt) = true) by (apply Nat.ltb_lt; exact Hnt).
  assert (E2 : (0 <? nr) = true) by (apply Nat.ltb_lt; exact Hnr).
  destruct (density_supported m nt q Hm) as (bits & amps & power & Ec & Hb & Ds).
  destruct (density_supported m (2 * nt) q Hm) as (bits' & amps' & power' & Ec' & _ & Dg).
  rewrite Ec in Ec'. injection Ec' as <- <- <-.
  eexists _, _. split; [exact Ds|]. split; [exact Dg|]. split.
  { rewrite Nat2Z.inj_mul, inject_Z_mult. change (inject_Z (Z.of_nat 2)) with 2%Q.
    assert (Hb' : (0 < inject_Z (Z.of_nat bits))%Q) by (unfold Qlt; simpl; lia).
    field. split; intros C;
      first [apply (Qlt_not_eq _ _ Hq); symmetry; exact C
            |apply (Qlt_not_eq _ _ Hb'); symmetry; exact C]. }
  split.
  { destruct (create_signal_noise F nr nt nt m q RSNone w SF Hm ltac:(discriminate) Hq)
      as (bits1 & amps1 & power1 & s & w1 & ys & vs & rss & ws & Fv &
          Ec1 & Es & Ey & Sy & EFv & Eadd).
    rewrite Ec in Ec1. injection Ec1 as <- <- <-.
    cbn in Es. injection Es as <- _.
    destruct (mimo_model_run ys F nr nt m use_offset ws Sy SF Hm) as (b & n' & Eb & _).
    exists ys, vs, rss, ws, b, Fv.
    split; [exact Ey|]. split; [exact EFv|]. split; [exact Eadd|]. split.
    - unfold spin_encoded_mimo. rewrite SF. msimpl. rewrite E1, E2. cbn [negb seed_arg]. msimpl.
      rewrite Ey. msimpl. revert Eb. msimpl. intros Eb. exact Eb.
    - unfold spin_encoded_mimo. rewrite SF. msimpl. rewrite E1, E2. cbn [negb seed_arg]. msimpl.
      revert Eb. msimpl. intros Eb. exact Eb. }
  split.
  { intros z. apply (supplied_channel_seed_raises F m nr nt q z Fd' use_offset w); assumption. }
  destruct (RandomState_run seed w) as (s & w1 & Es & _).
  destruct (create_channel_run nr nt Fd s w1 Hk)
    as (Fg & cp & s' & w2 & evc & Ecr & SFg & _ & Hcx & _).
  destruct (Hcx Hc) as [-> TFg].
  destruct (create_signal_noise Fg nr nt (2 * nt) m q (RSObject s') w2 SFg Hm
              ltac:(discriminate) Hq)
    as (bits1 & amps1 & power1 & s1 & w1' & yg & vg & rsg & wg & Fv &
        Ec1 & Es1 & Ey & Sy & EFv & Eadd).
  rewrite Ec in Ec1. injection Ec1 as <- <- <-.
  cbn in Es1. injection Es1 as <- _.
  rewrite TFg in Ey, Eadd. cbn [dtype_eqb] in Ey, Eadd.
  rewrite andb_false_r in Ey, Eadd. cbn [negb] in Ey, Eadd.
  destruct (mimo_model_run yg Fg nr nt m use_offset wg Sy SFg Hm) as (b & n' & Eb & _).
  exists s, w1, Fg, s', w2, yg, vg, rsg, wg, b, Fv.
  split; [exact Es|]. split; [exact Ecr|]. split; [exact TFg|]. split; [exact Ey|].
  split; [exact EFv|]. split; [exact Eadd|]. split.
  - unfold spin_encoded_mimo. msimpl. rewrite E1, E2. cbn [negb]. msimpl.
    rewrite Es. msimpl. rewrite Ecr. msimpl. rewrite Ey. msimpl.
    revert Eb. msimpl. intros Eb. exact Eb.
  - unfold spin_encoded_mimo. msimpl. rewrite E1, E2. cbn [negb]. msimpl.
    revert Eb. msimpl. intros Eb. exact Eb.
Qed.

(** Every call that generates its symbols draws them from the generator
    of the process, under every seed. *)
Lemma generated_symbols_from_process_generator (m : string) (nt nr : nat) (SNRb : snr)
    (seed : option Z) (Fd : option (list string)) (use_offset : bool) (w : world) :
  supported m -> 0 < nt -> 0 < nr -> usable_SNRb SNRb -> known_distribution Fd ->
  exists b w',
    spin_encoded_mimo m None None None None (Some nt) (Some nr) SNRb seed Fd use_offset w
    = Ok (b, w') /\
    In (Draw ProcessWide nt) (trace w').
Proof.
  intros Hm Hnt Hnr Hq Hk.
  destruct (spin_encoded_mimo_generated m nt nr SNRb seed Fd use_offset w Hm Hnt Hnr Hq Hk)
    as (b & w' & n' & cp & evc & evs & E & _ & _ & T & _ & (ev1 & ev2 & -> & N1 & D1 & _) & _).
  exists b, w'. split; [exact E|]. rewrite T.
  apply in_or_app. right. apply in_or_app. right. apply in_or_app. left.
  destruct ev1 as [|e ev1]; [congruence|]. left.
  apply (Forall_inv D1).
Qed.

End Noise.

Lemma supplied_channel_noise_halved_witness :
  (exists bs ws,
     @spin_encoded_mimo counter_random "QPSK" None
        (Some (Array complex128 [1; 1] [Cx 1 1])) None None None None (Finite 2) None None
        false (@World counter_random 0 0 []) = Ok (bs, ws)) /\
  (exists bg wg,
     @spin_encoded_mimo counter_random "QPSK" None None None None (Some 1) (Some 1) (Finite 2)
        (Some 0%Z) None false (@World counter_random 0 0 []) = Ok (bg, wg)) /\
  @spin_encoded_mimo counter_random "QPSK" None
     (Some (Array complex128 [1; 1] [Cx 1 1])) None None None None (Finite 2) (Some 0%Z) None
     false (@World counter_random 0 0 []) = Raise AttributeError.
Proof.
  assert (H1 : shape (Array complex128 [1; 1] [Cx 1 1]) = [1; 1]) by reflexivity.
  assert (H2 : supported "QPSK") by (right; left; reflexivity).
  assert (H3 : 0 < 1) by lia.
  assert (H4 : (0 < 2)%Q) by reflexivity.
  assert (H5 : complex_distribution None) by (left; reflexivity).
  pose proof (@supplied_channel_noise_halved counter_random
                (Array complex128 [1; 1] [Cx 1 1]) "QPSK" 1 1 2 (Some 0%Z) None None false
                (@World counter_random 0 0 []) H1 H2 H3 H3 H4 H5) as P.
  destruct P as (Ns & Ng & _ & _ & _ & Hs & Hz & Hg).
  destruct Hs as (ys & vs & rss & ws & bs & Fv & _ & _ & _ & Es & _).
  destruct Hg as (s & w1 & Fg & s' & w2 & yg & vg & rsg & wg & bg & Fv' &
                  _ & _ & _ & _ & _ & _ & Eg & _).
  split; [exists bs, ws; exact Es|]. split; [exists bg, wg; exact Eg|].
  apply (Hz 0%Z).
Defined.

(** C10, the call of the claim with an integer seed: no noise, no model. *)
Lemma supplied_channel_seed_counterexample :
  @spin_encoded_mimo counter_random "QPSK" None
     (Some (Array complex128 [1; 1] [Cx 1 1])) None None None None (Finite 2) (Some 0%Z) None
     false (@World counter_random 0 0 []) = Raise AttributeError.
Proof. vm_compute. reflexivity. Qed.

(** C9, on the code.  Two successive calls with the seed 0 and the same
    arguments (64QAM, one transmitter, one receiver, a binary real channel,
    no noise), under the counter generator: the first call draws its symbols
    from the generator of the process and leaves it in another state, the
    second call starts there, and the two models differ in the bias of
    their first spin. *)
Lemma two_calls_one_seed_differ :
  first_bias (call_64QAM_seed0 (@World counter_random 0 0 [])) = Some (-2)%Z /\
  first_bias (call_64QAM_seed0
                (state_after (call_64QAM_seed0 (@World counter_random 0 0 []))
                             (@World counter_random 0 0 []))) = Some (-10)%Z /\
  trace (state_after (call_64QAM_seed0 (@World counter_random 0 0 []))
                     (@World counter_random 0 0 []))
  = [Draw Explicit 1; Draw ProcessWide 1; Draw ProcessWide 1] /\
  np_random (state_after (call_64QAM_seed0 (@World counter_random 0 0 []))
                         (@World counter_random 0 0 [])) = 2.
Proof.
  split; [vm_compute; reflexivity|].
  split; [vm_compute; reflexivity|].
  split; vm_compute; reflexivity.
Qed.

(** * Further properties of the code *)

(** ** The energy of the quadratic forms *)

Lemma Csum_ext_in {A} (f g : A -> complex) (l : list A) :
  (forall x, In x l -> f x = g x) -> Csum (List.map f l) = Csum (List.map g l).
Proof. intros E. f_equal. apply map_ext_in. exact E. Qed.

Lemma Cmul_Csum_l {A} (c : complex) (f : A -> complex) (l : list A) :
  Cmul c (Csum (List.map f l)) = Csum (List.map (fun x => Cmul c (f x)) l).
Proof.
  induction l as [|x l IH]; simpl; [complex_ring|].
  rewrite <- IH. complex_ring.
Qed.

Lemma Cmul_Csum_r {A} (c : complex) (f : A -> complex) (l : list A) :
  Cmul (Csum (List.map f l)) c = Csum (List.map (fun x => Cmul (f x) c) l).
Proof.
  induction l as [|x l IH]; simpl; [complex_ring|].
  rewrite <- IH. complex_ring.
Qed.

Lemma Cconj_Csum {A} (f : A -> complex) (l : list A) :
  Cconj (Csum (List.map f l)) = Csum (List.map (fun x => Cconj (f x)) l).
Proof.
  induction l as [|x l IH]; simpl; [complex_ring|].
  rewrite <- IH. complex_ring.
Qed.

Lemma Cscale_Csum {A} (k : Z) (f : A -> complex) (l : list A) :
  Cscale k (Csum (List.map f l)) = Csum (List.map (fun x => Cscale k (f x)) l).
Proof.
  induction l as [|x l IH]; simpl; [complex_ring|].
  rewrite <- IH. complex_ring.
Qed.

Lemma Cre_re_Csum {A} (f : A -> complex) (l : list A) :
  Cre (re (Csum (List.map f l))) = Csum (List.map (fun x => Cre (re (f x))) l).
Proof.
  induction l as [|x l IH]; simpl; [reflexivity|].
  rewrite <- IH. complex_ring.
Qed.

Lemma Csum_swap {A B} (f : A -> B -> complex) (l1 : list A) (l2 : list B) :
  Csum (List.map (fun i => Csum (List.map (fun j => f i j) l2)) l1) =
  Csum (List.map (fun j => Csum (List.map (fun i => f i j) l1)) l2).
Proof.
  induction l1 as [|x l1 IH]; simpl.
  - symmetry. apply Csum_zero. reflexivity.
  - rewrite IH. apply Csum_add.
Qed.

Lemma hdot_self_nonneg (n : nat) (u : nat -> complex) : (0 <= re (hdot n u u))%Z.
Proof.
  unfold hdot. generalize (seq 0 n) as l.
  induction l as [|i l IH]; [simpl; lia|].
  cbn [List.map]. unfold Csum in *. cbn [fold_right].
  set (r := fold_right _ _ _) in *. unfold Cadd, Cmul, Cconj. cbn [re im]. nia.
Qed.

Lemma residual_expansion (y F offset h J : ndarray) (n m : nat) (v : nat -> complex) :
  at2 offset 0 0 = hdot n (fun i => at2 y i 0) (fun i => at2 y i 0) ->
  (forall j, j < m ->
     at2 h j 0 = Cscale (-2) (hdot n (fun i => at2 F i j) (fun i => at2 y i 0))) ->
  (forall j k, j < m -> k < m ->
     at2 J j k = hdot n (fun i => at2 F i j) (fun i => at2 F i k)) ->
  form_value m offset h J v = residual n m y F v.
Proof.
  intros Voff Vh VJ. unfold form_value, residual. rewrite Voff.
  assert (HV : hdot m (fun j => at2 h j 0) v =
               Csum (List.map (fun i => Cscale (-2)
                        (Cmul (Cconj (at2 y i 0)) (matvec m F v i))) (seq 0 n))).
  { unfold hdot at 1.
    rewrite (Csum_ext _ (fun j => Csum (List.map
               (fun i => Cscale (-2) (Cmul (Cconj (at2 y i 0))
                                           (Cmul (at2 F i j) (v j)))) (seq 0 n)))).
    2:{ intros j Hj. rewrite Vh by exact Hj. unfold hdot.
        rewrite Cscale_Csum, Cconj_Csum, Cmul_Csum_r.
        apply Csum_ext. intros i Hi. complex_ring. }
    rewrite Csum_swap. apply Csum_ext. intros i Hi.
    unfold matvec. rewrite Cmul_Csum_l, Cscale_Csum. reflexivity. }
  assert (HJ : hdot m v (matvec m J v) =
               Csum (List.map (fun i => Cmul (Cconj (matvec m F v i)) (matvec m F v i))
                              (seq 0 n))).
  { unfold hdot at 1.
    rewrite (Csum_ext _ (fun j => Csum (List.map
               (fun i => Cmul (Cconj (Cmul (at2 F i j) (v j))) (matvec m F v i))
               (seq 0 n)))).
    2:{ intros j Hj. unfold matvec at 1.
        rewrite (Csum_ext _ (fun k => Csum (List.map
                   (fun i => Cmul (Cmul (Cconj (at2 F i j)) (at2 F i k)) (v k)) (seq 0 n)))).
        2:{ intros k Hk. rewrite VJ by assumption. unfold hdot.
            rewrite Cmul_Csum_r. reflexivity. }
        rewrite Csum_swap, Cmul_Csum_l.
        apply Csum_ext. intros i Hi. unfold matvec.
        rewrite !Cmul_Csum_l. apply Csum_ext. intros k Hk. complex_ring. }
    rewrite Csum_swap. apply Csum_ext. intros i Hi.
    rewrite <- Cmul_Csum_r. f_equal. unfold matvec.
    rewrite Cconj_Csum. reflexivity. }
  rewrite HV, HJ, Cre_re_Csum. unfold hdot. rewrite !Csum_add.
  apply Csum_ext. intros i Hi. unfold Csub.
  generalize (matvec m F v i) as a. generalize (at2 y i 0) as b. intros b a.
  complex_ring.
Qed.

Lemma gram_hermitian (F J : ndarray) (n m : nat) :
  (forall j k, j < m -> k < m ->
     at2 J j k = hdot n (fun i => at2 F i j) (fun i => at2 F i k)) ->
  forall j k, j < m -> k < m -> at2 J k j = Cconj (at2 J j k).
Proof.
  intros VJ j k Hj Hk. rewrite !VJ by assumption. unfold hdot.
  rewrite Cconj_Csum. apply Csum_ext. intros i Hi. complex_ring.
Qed.


(** X1.  The quadratic form of [_quadratic_form] is the least-squares
    objective: for [y] a column of length [n] and [F] of shape [(n, m)],
    with integer entries of magnitude at most [B] and [2 n B^2 <= 2^53] (so
    that no product is rounded or wraps), [offset + Re(h^H v) + v^H J v]
    equals [||y - F v||^2] at every complex vector [v]; the value is real
    and not negative. *)
Theorem quadratic_form_energy (y F : ndarray) (n m : nat) (B : Z) (v : nat -> complex) :
  shape y = [n; 1] -> shape F = [n; m] ->
  entries_within B y -> entries_within B F -> (2 * Z.of_nat n * B * B <= 2 ^ 53)%Z ->
  exists offset h J,
    _quadratic_form y F = Ok (offset, h, J) /\
    form_value m offset h J v = residual n m y F v /\
    im (residual n m y F v) = 0%Z /\ (0 <= re (residual n m y F v))%Z.
Proof.
  intros Hy HF By BF Hb.
  destruct (quadratic_form_entries y F n m B Hy HF By BF Hb)
    as (offset & h & J & E & _ & Voff & _ & _ & _ & Vh & _ & _ & VJ).
  exists offset, h, J. split; [exact E|]. split.
  - apply residual_expansion; assumption.
  - split; [apply hdot_self_real|apply hdot_self_nonneg].
Qed.










(** Sums of integers *)

Lemma Zsum_ext (f g : nat -> Z) (s n : nat) :
  (forall i, s <= i < s + n -> f i = g i) ->
  Zsum (List.map f (seq s n)) = Zsum (List.map g (seq s n)).
Proof.
  intros E. f_equal. apply map_ext_in. intros i Hi. apply in_seq in Hi. apply E. lia.
Qed.

Lemma Zsum_add {A} (f g : A -> Z) (l : list A) :
  (Zsum (List.map f l) + Zsum (List.map g l))%Z = Zsum (List.map (fun x => (f x + g x)%Z) l).
Proof. induction l as [|x l IH]; simpl; [reflexivity|]. rewrite <- IH. ring. Qed.

Lemma Zsum_scale {A} (c : Z) (f : A -> Z) (l : list A) :
  (c * Zsum (List.map f l))%Z = Zsum (List.map (fun x => (c * f x)%Z) l).
Proof. induction l as [|x l IH]; simpl; [ring|]. rewrite <- IH. ring. Qed.

Lemma Zsum_app (l1 l2 : list Z) : Zsum (l1 ++ l2) = (Zsum l1 + Zsum l2)%Z.
Proof. induction l1 as [|x l1 IH]; simpl; [reflexivity|]. rewrite IH. ring. Qed.

Lemma Zsum_swap {A B} (f : A -> B -> Z) (l1 : list A) (l2 : list B) :
  Zsum (List.map (fun i => Zsum (List.map (fun j => f i j) l2)) l1) =
  Zsum (List.map (fun j => Zsum (List.map (fun i => f i j) l1)) l2).
Proof.
  induction l1 as [|x l1 IH]; simpl.
  - induction l2 as [|y l2 IH2]; simpl; [reflexivity|]. rewrite <- IH2. reflexivity.
  - rewrite IH. apply Zsum_add.
Qed.

Lemma re_Csum {A} (f : A -> complex) (l : list A) :
  re (Csum (List.map f l)) = Zsum (List.map (fun x => re (f x)) l).
Proof. induction l as [|x l IH]; simpl; [reflexivity|]. rewrite <- IH. reflexivity. Qed.

Lemma im_Csum {A} (f : A -> complex) (l : list A) :
  im (Csum (List.map f l)) = Zsum (List.map (fun x => im (f x)) l).
Proof. induction l as [|x l IH]; simpl; [reflexivity|]. rewrite <- IH. reflexivity. Qed.

Lemma map_seq_from {A} (f : nat -> A) (s n : nat) :
  List.map f (seq s n) = List.map (fun j => f (s + j)) (seq 0 n).
Proof.
  revert f s. induction n as [|n IH]; intros f s; [reflexivity|].
  cbn [seq List.map]. rewrite Nat.add_0_r. f_equal.
  rewrite (IH f), (IH (fun j => f (s + j)) 1). apply map_ext. intros j. f_equal. lia.
Qed.

(** A sum over [n + n] indices, in two halves *)
Lemma Zsum_halves (f : nat -> Z) (n : nat) :
  Zsum (List.map f (seq 0 (n + n))) =
  (Zsum (List.map f (seq 0 n)) + Zsum (List.map (fun j => f (n + j)%nat) (seq 0 n)))%Z.
Proof.
  rewrite seq_app, List.map_app, Zsum_app. f_equal.
  rewrite (map_seq_from f (0 + n) n). reflexivity.
Qed.

(** A sum over [K * n] indices, block by block *)
Lemma Zsum_blocks (f : nat -> Z) (K n : nat) :
  Zsum (List.map f (seq 0 (K * n))) =
  Zsum (List.map (fun a => Zsum (List.map (fun i => f (a * n + i)%nat) (seq 0 n))) (seq 0 K)).
Proof.
  induction K as [|K IH]; [reflexivity|].
  replace (S K * n) with (K * n + n) by lia.
  rewrite seq_app, List.map_app, Zsum_app, IH.
  rewrite seq_S, List.map_app, Zsum_app. cbn [List.map Zsum fold_right].
  rewrite (map_seq_from f (0 + K * n) n). cbn [Nat.add]. ring.
Qed.

Lemma real_projection_entries (h J : ndarray) (n : nat) (m : option string) :
  shape h = [n; 1] -> shape J = [n; n] ->
  List.length (data h) = n -> List.length (data J) = n * n ->
  is_modulation m "BPSK" = false ->
  adtype h = complex128 \/ adtype J = complex128 ->
  exists hR JR,
    _real_quadratic_form h J m = Ok (hR, JR) /\
    shape hR = [n + n; 1] /\ shape JR = [n + n; n + n] /\
    List.length (data hR) = n + n /\
    adtype hR <> complex128 /\ adtype JR <> complex128 /\
    (forall p, p < n + n ->
       at2 hR p 0 = if p <? n then Cre (re (at2 h p 0)) else Cre (im (at2 h (p - n) 0))) /\
    (forall i j, i < n + n -> j < n + n -> at2 JR i j = stacked n J i j).
Proof.
  intros Hh HJ Lh LJ Hm Hc.
  assert (Hhr : shape (np.real h) = [n; 1]) by exact Hh.
  assert (Hhi : shape (np.imag h) = [n; 1]) by exact Hh.
  assert (HJr : shape (np.real J) = [n; n]) by exact HJ.
  assert (HJi : shape (np.imag J) = [n; n]) by exact HJ.
  destruct (concatenate0_2d (np.real h) (np.imag h) n n 1 Hhr Hhi)
    as (hR & Eh & Sh & Th & Dh & Vh); [rewrite length_real; lia|].
  destruct (concatenate0_2d (np.real J) (np.imag J) n n n HJr HJi)
    as (left & El & Sl & Tl & Dl & Vl); [rewrite length_real; exact LJ|].
  destruct (concatenate0_2d (np.T (np.imag J)) (np.real J) n n n
              (shape_T2 _ _ _ HJi) HJr)
    as (right & Er & Sr & Tr & Dr & Vr).
  { rewrite length_T. simpl. rewrite HJ. unfold size_of. simpl. lia. }
  destruct (concatenate1_2d left right (n + n) n n Sl Sr)
    as (JR & EJR & SJR & TJR & VJR).
  { rewrite Dl, List.length_app, length_real, length_imag, LJ. lia. }
  { rewrite Dr, List.length_app, length_T, length_real, LJ. simpl. rewrite HJ.
    unfold size_of. simpl. lia. }
  exists hR, JR. split.
  { unfold _real_quadratic_form. rewrite Hm.
    assert (Ec : dtype_eqb (adtype h) complex128 || dtype_eqb (adtype J) complex128 = true)
      by (destruct Hc as [-> | ->]; simpl; rewrite ?orb_true_r; reflexivity).
    rewrite Ec. cbn [negb andb].
    rewrite Eh. cbn [mbind result_bind]. rewrite El. cbn [mbind result_bind].
    rewrite Er. cbn [mbind result_bind]. rewrite EJR. reflexivity. }
  split; [exact Sh|]. split; [exact SJR|].
  split; [rewrite Dh, List.length_app, length_real, length_imag; lia|].
  split; [rewrite Th; simpl; destruct (adtype h); simpl; discriminate|].
  split; [rewrite TJR, Tl, Tr; simpl; destruct (adtype J); simpl; discriminate|].
  split.
  { intros p Hp. rewrite Vh by lia.
    destruct (p <? n); [apply at2_real|apply at2_imag]. }
  intros i j Hi Hj. rewrite VJR by assumption.
  unfold stacked, block_entry, re_part, im_part, im_part_T.
  destruct (j <? n) eqn:Ej.
  + apply Nat.ltb_lt in Ej. rewrite Vl by exact Ej.
    destruct (i <? n) eqn:Ei.
    * apply at2_real.
    * apply at2_imag.
  + apply Nat.ltb_ge in Ej. rewrite Vr by lia.
    destruct (i <? n) eqn:Ei.
    * apply Nat.ltb_lt in Ei.
      rewrite (at2_T (np.imag J) n n (j - n) i HJi) by lia. apply at2_imag.
    * apply at2_real.
Qed.

Lemma stacked_energy (h J hR JR : ndarray) (n : nat) (v : nat -> complex) :
  (forall p, p < n + n ->
     at2 hR p 0 = if p <? n then Cre (re (at2 h p 0)) else Cre (im (at2 h (p - n) 0))) ->
  (forall i j, i < n + n -> j < n + n -> at2 JR i j = stacked n J i j) ->
  (forall j k, j < n -> k < n -> at2 J k j = Cconj (at2 J j k)) ->
  ising_value (n + n) hR JR (stack_re_im n v) =
  (re (hdot n (fun j => at2 h j 0) v) + re (hdot n v (matvec n J v)))%Z.
Proof.
  intros VhR VJR Herm.
  unfold ising_value. f_equal.
  - rewrite Zsum_halves, Zsum_add. unfold hdot. rewrite re_Csum.
    apply Zsum_ext. intros j Hj.
    rewrite (VhR j), (VhR (n + j)) by lia. unfold stack_re_im.
    assert (E1 : (j <? n) = true) by (apply Nat.ltb_lt; lia).
    assert (E2 : (n + j <? n) = false) by (apply Nat.ltb_ge; lia).
    rewrite E1, E2. replace (n + j - n) with j by lia.
    unfold Cmul, Cconj, Cre. cbn [re im]. ring.
  - unfold hdot. rewrite re_Csum.
    rewrite Zsum_halves, Zsum_add.
    apply Zsum_ext. intros j Hj.
    rewrite !Zsum_halves, !Zsum_add.
    unfold matvec.
    transitivity (Zsum (List.map (fun k => re (Cmul (Cconj (v j)) (Cmul (at2 J j k) (v k))))
                                 (seq 0 n))).
    2:{ rewrite <- re_Csum, Cmul_Csum_l. reflexivity. }
    apply Zsum_ext. intros k Hk.
    rewrite !VJR by lia. unfold stacked, block_entry, re_part, im_part, im_part_T, stack_re_im.
    assert (E1 : (j <? n) = true) by (apply Nat.ltb_lt; lia).
    assert (E2 : (n + j <? n) = false) by (apply Nat.ltb_ge; lia).
    assert (E3 : (k <? n) = true) by (apply Nat.ltb_lt; lia).
    assert (E4 : (n + k <? n) = false) by (apply Nat.ltb_ge; lia).
    rewrite E1, E2, E3, E4.
    replace (n + j - n) with j by lia. replace (n + k - n) with k by lia.
    rewrite (Herm j k) by lia.
    unfold Cmul, Cconj, Cre. cbn [re im]. ring.
Qed.

(** On real symbols the real parts of [h] and [J] carry the whole form. *)
Lemma real_part_energy (h J : ndarray) (n : nat) (v : nat -> complex) :
  (forall k, k < n -> im (v k) = 0%Z) ->
  ising_value n (np.real h) (np.real J) (fun p => re (v p)) =
  (re (hdot n (fun j => at2 h j 0) v) + re (hdot n v (matvec n J v)))%Z.
Proof.
  intros Hv. unfold ising_value. f_equal.
  - unfold hdot. rewrite re_Csum. apply Zsum_ext. intros j Hj.
    rewrite at2_real. unfold Cmul, Cconj, Cre. cbn [re im]. rewrite (Hv j) by lia. ring.
  - unfold hdot. rewrite re_Csum. apply Zsum_ext. intros j Hj.
    unfold matvec. rewrite Cmul_Csum_l, re_Csum. apply Zsum_ext. intros k Hk.
    rewrite at2_real. unfold Cmul, Cconj, Cre. cbn [re im].
    rewrite (Hv j), (Hv k) by lia. ring.
Qed.

(** X3.  [_real_quadratic_form] keeps the energy.  For a Hermitian [J]:
    when the modulation is not BPSK and [h] or [J] is complex, the stacked
    real form, at the real parts of [v] followed by its imaginary parts, has
    the value [Re(h^H v) + Re(v^H J v)]; for BPSK the form of the real parts
    of [h] and [J] has that value at every real [v]. *)
Theorem real_projection_energy (h J : ndarray) (n : nat) (m : option string)
    (v : nat -> complex) :
  shape h = [n; 1] -> shape J = [n; n] ->
  List.length (data h) = n -> List.length (data J) = n * n ->
  (forall j k, j < n -> k < n -> at2 J k j = Cconj (at2 J j k)) ->
  (is_modulation m "BPSK" = false ->
   adtype h = complex128 \/ adtype J = complex128 ->
   exists hR JR,
     _real_quadratic_form h J m = Ok (hR, JR) /\
     shape hR = [n + n; 1] /\ shape JR = [n + n; n + n] /\
     ising_value (n + n) hR JR (stack_re_im n v) =
     (re (hdot n (fun j => at2 h j 0) v) + re (hdot n v (matvec n J v)))%Z) /\
  (is_modulation m "BPSK" = true -> (forall k, k < n -> im (v k) = 0%Z) ->
   exists hR JR,
     _real_quadratic_form h J m = Ok (hR, JR) /\
     shape hR = [n; 1] /\ shape JR = [n; n] /\
     ising_value n hR JR (fun p => re (v p)) =
     (re (hdot n (fun j => at2 h j 0) v) + re (hdot n v (matvec n J v)))%Z).
Proof.
  intros Hh HJ Lh LJ Herm. split.
  - intros Hm Hc.
    destruct (real_projection_entries h J n m Hh HJ Lh LJ Hm Hc)
      as (hR & JR & E & Sh & SJ & _ & _ & _ & VhR & VJR).
    exists hR, JR. split; [exact E|]. split; [exact Sh|]. split; [exact SJ|].
    apply (stacked_energy h J hR JR n v VhR VJR Herm).
  - intros Hm Hv. exists (np.real h), (np.real J).
    split; [unfold _real_quadratic_form; rewrite Hm; reflexivity|].
    split; [exact Hh|]. split; [exact HJ|].
    apply real_part_energy. exact Hv.
Qed.

Lemma Zsum_mul_l {A} (c : Z) (f : A -> Z) (l : list A) :
  (Zsum (List.map f l) * c)%Z = Zsum (List.map (fun x => (f x * c)%Z) l).
Proof. induction l as [|x l IH]; simpl; [ring|]. rewrite <- IH. ring. Qed.

Lemma expanded_energy (h J hA JA : ndarray) (n K : nat) (s : nat -> Z) :
  (forall a i, a < K -> i < n ->
     at2 hA (a * n + i) 0 = Cscale (2 ^ Z.of_nat a) (at2 h i 0)) ->
  (forall a b i j, a < K -> b < K -> i < n -> j < n ->
     at2 JA (a * n + i) (b * n + j) =
     Cscale (2 ^ Z.of_nat a * 2 ^ Z.of_nat b) (at2 J i j)) ->
  ising_value (K * n) hA JA s = ising_value n h J (amplitude_sum K n s).
Proof.
  intros VhA VJA. unfold ising_value. f_equal.
  - rewrite Zsum_blocks.
    rewrite (Zsum_ext _ (fun a => Zsum (List.map
               (fun i => (re (at2 h i 0) * (2 ^ Z.of_nat a * s (a * n + i)%nat))%Z)
               (seq 0 n)))).
    2:{ intros a Ha. apply Zsum_ext. intros i Hi. rewrite VhA by lia.
        unfold Cscale. cbn [re]. ring. }
    rewrite Zsum_swap. apply Zsum_ext. intros i Hi.
    unfold amplitude_sum. rewrite Zsum_scale. reflexivity.
  - set (T := fun a i b j =>
                (s (a * n + i)%nat * (2 ^ Z.of_nat a * 2 ^ Z.of_nat b * re (at2 J i j))
                 * s (b * n + j)%nat)%Z).
    transitivity (Zsum (List.map (fun a => Zsum (List.map (fun i =>
                   Zsum (List.map (fun b => Zsum (List.map (fun j => T a i b j) (seq 0 n)))
                                  (seq 0 K))) (seq 0 n))) (seq 0 K))).
    { rewrite Zsum_blocks. apply Zsum_ext. intros a Ha. apply Zsum_ext. intros i Hi.
      rewrite Zsum_blocks. apply Zsum_ext. intros b Hb. apply Zsum_ext. intros j Hj.
      rewrite VJA by lia. unfold T, Cscale. cbn [re]. ring. }
    transitivity (Zsum (List.map (fun i => Zsum (List.map (fun j =>
                   Zsum (List.map (fun a => Zsum (List.map (fun b => T a i b j) (seq 0 K)))
                                  (seq 0 K))) (seq 0 n))) (seq 0 n))).
    2:{ apply Zsum_ext. intros i Hi. apply Zsum_ext. intros j Hj.
        unfold amplitude_sum. rewrite !Zsum_mul_l.
        apply Zsum_ext. intros a Ha. rewrite Zsum_scale.
        apply Zsum_ext. intros b Hb. unfold T. ring. }
    (* a i b j  ->  i j a b *)
    rewrite (Zsum_swap (fun a i => Zsum (List.map (fun b =>
                          Zsum (List.map (fun j => T a i b j) (seq 0 n))) (seq 0 K)))).
    apply Zsum_ext. intros i Hi.
    rewrite (Zsum_ext _ (fun a => Zsum (List.map (fun j =>
               Zsum (List.map (fun b => T a i b j) (seq 0 K))) (seq 0 n)))).
    2:{ intros a Ha. apply (Zsum_swap (fun b j => T a i b j)). }
    apply (Zsum_swap (fun a j => Zsum (List.map (fun b => T a i b j) (seq 0 K)))).
Qed.


Lemma ising_value_ext (n : nat) (h J : ndarray) (s s' : nat -> Z) :
  (forall p, p < n -> s p = s' p) -> ising_value n h J s = ising_value n h J s'.
Proof.
  intros E. unfold ising_value. f_equal.
  - apply Zsum_ext. intros j Hj. rewrite E by lia. reflexivity.
  - apply Zsum_ext. intros j Hj. apply Zsum_ext. intros k Hk.
    rewrite (E j), (E k) by lia. reflexivity.
Qed.

Lemma matvec_ext (m : nat) (F : ndarray) (v v' : nat -> complex) (i : nat) :
  (forall k, k < m -> v k = v' k) -> matvec m F v i = matvec m F v' i.
Proof. intros E. unfold matvec. apply Csum_ext. intros k Hk. rewrite E by exact Hk. reflexivity. Qed.

Lemma residual_ext (n m : nat) (y F : ndarray) (v v' : nat -> complex) :
  (forall k, k < m -> v k = v' k) -> residual n m y F v = residual n m y F v'.
Proof.
  intros E. unfold residual, hdot. apply Csum_ext. intros i Hi.
  rewrite (matvec_ext m F v v' i E). reflexivity.
Qed.

Lemma weighted_sum_real (K : nat) (f : nat -> complex) :
  K <= 62 -> (forall i, i < K -> im (f i) = 0%Z) ->
  weighted_sum K f = Cre (Zsum (List.map (fun i => (2 ^ Z.of_nat i * re (f i))%Z) (seq 0 K))).
Proof.
  intros HK Hf. unfold weighted_sum. apply complex_eq.
  - rewrite re_Csum. cbn [Cre re]. apply Zsum_ext. intros i Hi.
    assert (W : np.wrap64 (2 ^ Z.of_nat i) = (2 ^ Z.of_nat i)%Z).
    { unfold np.wrap64.
      assert (0 < 2 ^ Z.of_nat i <= 2 ^ 62)%Z.
      { split; [apply Z.pow_pos_nonneg; lia|apply Z.pow_le_mono_r; lia]. }
      rewrite Z.mod_small by lia. lia. }
    rewrite W. unfold Cmul, Cre. cbn [re im]. ring.
  - rewrite im_Csum. cbn [Cre im]. 
    transitivity (Zsum (List.map (fun _ : nat => 0%Z) (seq 0 K))).
    + apply Zsum_ext. intros i Hi. unfold Cmul, Cre. cbn [re im].
      rewrite (Hf i) by lia. ring.
    + generalize (seq 0 K) as l. induction l as [|x l IH]; simpl; [reflexivity|exact IH].
Qed.

Lemma amplitude_entries (h J : ndarray) (n K : nat) (m : string) (amps : ndarray) :
  shape h = [n; 1] -> shape J = [n; n] -> linear_code m K amps ->
  exists hA JA,
    _amplitude_modulated_quadratic_form h J m = Ok (hA, JA) /\
    shape hA = [K * n; 1] /\ shape JA = [K * n; K * n] /\
    (forall a i, a < K -> i < n ->
       at2 hA (a * n + i) 0 = Cscale (2 ^ Z.of_nat a) (at2 h i 0)) /\
    (forall a b i j, a < K -> b < K -> i < n -> j < n ->
       at2 JA (a * n + i) (b * n + j) =
       Cscale (2 ^ Z.of_nat a * 2 ^ Z.of_nat b) (at2 J i j)).
Proof.
  intros Hh HJ [(-> & -> & _)|[(-> & -> & _)|(-> & -> & _)]].
  - exists h, J. split; [reflexivity|].
    split; [rewrite Hh; f_equal; lia|]. split; [rewrite HJ; repeat f_equal; lia|].
    split.
    + intros a i Ha Hi. assert (a = 0) by lia. subst a. cbn [Nat.mul Nat.add].
      change (2 ^ Z.of_nat 0)%Z with 1%Z. complex_ring.
    + intros a b i j Ha Hb Hi Hj. assert (a = 0) by lia. assert (b = 0) by lia. subst a b.
      cbn [Nat.mul Nat.add]. change (2 ^ Z.of_nat 0 * 2 ^ Z.of_nat 0)%Z with 1%Z.
      complex_ring.
  - destruct (expand_by_kron h J n 2 Hh HJ ltac:(lia)) as (ShA & SJA & VhA & VJA).
    do 2 eexists. split; [reflexivity|]. split; [exact ShA|]. split; [exact SJA|].
    split; assumption.
  - destruct (expand_by_kron h J n 3 Hh HJ ltac:(lia)) as (ShA & SJA & VhA & VJA).
    do 2 eexists. split; [reflexivity|]. split; [exact ShA|]. split; [exact SJA|].
    split; assumption.
Qed.

Lemma nth_real (D : list complex) (p : nat) :
  Forall (fun z => im z = 0%Z) D -> im (nth p D C0) = 0%Z.
Proof.
  intros H. revert p. induction H as [|z l Hz _ IH]; intros [|p]; simpl; auto.
Qed.

Lemma coded_energy (y F spins : ndarray) (nr nt K : nat) (m : string)
    (amps : ndarray) (st : list nat) (B : Z) :
  shape y = [nr; 1] -> shape F = [nr; nt] ->
  entries_within B y -> entries_within B F -> (2 * Z.of_nat nr * B * B <= 2 ^ 53)%Z ->
  0 < nt ->
  linear_code m K amps ->
  adtype y = complex128 \/ adtype F = complex128 ->
  shape spins = K * (2 * nt) :: st -> size_of st = 1 ->
  Forall (fun z => im z = 0%Z) (data spins) ->
  exists h J offset,
    _yF_to_hJ y F m = Ok (h, J, offset) /\
    shape h = [K * (2 * nt); 1] /\ shape J = [K * (2 * nt); K * (2 * nt)] /\
    (forall S, entries_within S spins -> (48 * S <= 2 ^ 53)%Z ->
     spins_to_symbols spins (Some m) (Some nt) =
       Ok (Array complex128 [nt]
             (List.map (fun j =>
                Cadd (weighted_sum K (fun i => nth (i * (2 * nt) + j) (data spins) C0))
                     (Ci_mul (weighted_sum K
                                (fun i => nth (i * (2 * nt) + (nt + j)) (data spins) C0))))
                (seq 0 nt)))) /\
    forall v, (forall k, k < nt ->
                 v k = Cadd (weighted_sum K (fun i => nth (i * (2 * nt) + k) (data spins) C0))
                            (Ci_mul (weighted_sum K
                               (fun i => nth (i * (2 * nt) + (nt + k)) (data spins) C0)))) ->
      (re (at2 offset 0 0) + ising_value (K * (2 * nt)) h J (spin_values spins))%Z
      = re (residual nr nt y F v).
Proof.
  intros Hy HF By BF Hb Hnt Hcode Hc Hs Hst Hreal.
  assert (HK : 1 <= K <= 3)
    by (destruct Hcode as [(_ & -> & _)|[(_ & -> & _)|(_ & -> & _)]]; lia).
  assert (Hm : is_modulation (Some m) "BPSK" = false)
    by (destruct Hcode as [(-> & _)|[(-> & _)|(-> & _)]]; reflexivity).
  destruct (quadratic_form_entries y F nr nt B Hy HF By BF Hb)
    as (offset & h0 & J0 & E0 & _ & Voff & Sh0 & Lh0 & Th0 & Vh0 & SJ0 & LJ0 & VJ0).
  assert (Hc0 : adtype h0 = complex128 \/ adtype J0 = complex128).
  { left. rewrite Th0. destruct Hc as [-> | ->]; [apply promote_complex_r|reflexivity]. }
  destruct (real_projection_entries h0 J0 nt (Some m) Sh0 SJ0 Lh0 LJ0 Hm Hc0)
    as (hR & JR & E1 & ShR & SJR & _ & _ & _ & VhR & VJR).
  destruct (amplitude_entries hR JR (nt + nt) K m amps ShR SJR Hcode)
    as (hA & JA & E2 & ShA & SJA & VhA & VJA).
  assert (Ev : forall S, entries_within S spins -> (48 * S <= 2 ^ 53)%Z ->
            spins_to_symbols spins (Some m) (Some nt) =
              Ok (Array complex128 [nt]
                    (List.map (fun j =>
                       Cadd (weighted_sum K (fun i => nth (i * (2 * nt) + j) (data spins) C0))
                            (Ci_mul (weighted_sum K
                                       (fun i => nth (i * (2 * nt) + (nt + j)) (data spins) C0))))
                       (seq 0 nt)))).
  { intros S HS HbS.
    apply (spins_to_symbols_planes_exact spins (Some m) K nt st S Hs Hst Hnt ltac:(lia) HS HbS). }
  replace (2 * nt) with (nt + nt) in * by lia.
  set (D := data spins) in *.
  set (s := spin_values spins).
  set (vs := fun k => Cx (amplitude_sum K (nt + nt) s k)
                         (amplitude_sum K (nt + nt) s (nt + k))).
  exists hA, JA, offset.
  split; [unfold _yF_to_hJ; rewrite E0; cbn [mbind result_bind]; rewrite E1;
          cbn [mbind result_bind]; rewrite E2; reflexivity|].
  split; [exact ShA|]. split; [exact SJA|].
  split; [exact Ev|].
  intros v Hv.
  assert (Hvs : forall k, k < nt -> v k = vs k).
  { intros k Hk. rewrite (Hv k Hk).
    rewrite !weighted_sum_real by (try lia; intros; apply nth_real; exact Hreal).
    unfold vs, amplitude_sum, s, spin_values. fold D.
    apply complex_eq; unfold Cadd, Ci_mul, Cre; cbn [re im]; ring. }
  rewrite (residual_ext nr nt y F v vs Hvs).
  rewrite <- (residual_expansion y F offset h0 J0 nr nt vs Voff Vh0 VJ0).
  unfold form_value. cbn [Cadd Cre re]. f_equal.
  rewrite <- (stacked_energy h0 J0 hR JR nt vs VhR VJR (gram_hermitian F J0 nr nt VJ0)).
  rewrite (expanded_energy hR JR hA JA (nt + nt) K s VhA VJA).
  apply ising_value_ext. intros p Hp. unfold stack_re_im, vs.
  destruct (p <? nt) eqn:Ep; cbn [re im]; [reflexivity|].
  apply Nat.ltb_ge in Ep. replace (nt + (p - nt)) with p by lia. reflexivity.
Qed.

Lemma bpsk_energy (y F : ndarray) (nr nt : nat) (v : nat -> complex) (B : Z) :
  shape y = [nr; 1] -> shape F = [nr; nt] ->
  entries_within B y -> entries_within B F -> (2 * Z.of_nat nr * B * B <= 2 ^ 53)%Z ->
  (forall k, k < nt -> im (v k) = 0%Z) ->
  exists h J offset,
    _yF_to_hJ y F "BPSK" = Ok (h, J, offset) /\
    shape h = [nt; 1] /\ shape J = [nt; nt] /\
    (re (at2 offset 0 0) + ising_value nt h J (fun p => re (v p)))%Z
    = re (residual nr nt y F v).
Proof.
  intros Hy HF By BF Hb Hv.
  destruct (quadratic_form_entries y F nr nt B Hy HF By BF Hb)
    as (offset & h0 & J0 & E0 & _ & Voff & Sh0 & Lh0 & Th0 & Vh0 & SJ0 & LJ0 & VJ0).
  exists (np.real h0), (np.real J0), offset.
  split; [unfold _yF_to_hJ; rewrite E0; reflexivity|].
  split; [exact Sh0|]. split; [exact SJ0|].
  rewrite <- (residual_expansion y F offset h0 J0 nr nt v Voff Vh0 VJ0).
  unfold form_value. cbn [Cadd Cre re]. f_equal.
  apply real_part_energy. exact Hv.
Qed.

Lemma spin_energy_core (y F spins : ndarray) (nr nt bits : nat) (m : string)
    (amps : ndarray) (power : Q) (B S : Z) :
  shape y = [nr; 1] -> shape F = [nr; nt] ->
  entries_within B y -> entries_within B F -> (2 * Z.of_nat nr * B * B <= 2 ^ 53)%Z ->
  0 < nt ->
  supported m -> constellation_properties m = Ok (bits, amps, power) ->
  (m <> "BPSK"%string -> adtype y = complex128 \/ adtype F = complex128) ->
  shape spins = [bits * nt] ->
  Forall (fun z => im z = 0%Z) (data spins) ->
  entries_within S spins -> (48 * S <= 2 ^ 53)%Z ->
  exists h J offset v,
    _yF_to_hJ y F m = Ok (h, J, offset) /\
    shape h = [bits * nt; 1] /\ shape J = [bits * nt; bits * nt] /\
    spins_to_symbols spins (Some m) (Some nt) = Ok v /\
    (re (at2 offset 0 0) + ising_value (bits * nt) h J (spin_values spins))%Z
    = re (residual nr nt y F (symbol_values v)).
Proof.
  intros Hy HF By BF Hb Hnt Hm Hcp Hc Hs Hreal HS HbS.
  assert (Hcases : (m = "BPSK"%string /\ bits = 1) \/
                   exists K amps', linear_code m K amps' /\ bits = 2 * K).
  { destruct Hm as [<-|[<-|[<-|[<-|[]]]]]; vm_compute in Hcp; injection Hcp as <- _ _.
    - left. split; reflexivity.
    - right. exists 1, ones1. split; [left; repeat split|reflexivity].
    - right. exists 2, (odd_arange 2). split; [right; left; repeat split|reflexivity].
    - right. exists 3, (odd_arange 4). split; [right; right; repeat split|reflexivity]. }
  destruct Hcases as [[-> ->]|(K & amps' & Hcode & ->)].
  - rewrite Nat.mul_1_l in *.
    destruct (bpsk_energy y F nr nt (symbol_values spins) B Hy HF By BF Hb)
      as (h & J & offset & E & Sh & SJ & En).
    { intros k _. apply nth_real. exact Hreal. }
    exists h, J, offset, spins. split; [exact E|]. split; [exact Sh|]. split; [exact SJ|].
    split.
    { unfold spins_to_symbols, np.len. rewrite Hs. cbn [mbind result_bind].
      rewrite Nat.eqb_refl. reflexivity. }
    exact En.
  - replace (2 * K * nt) with (K * (2 * nt)) in * by lia.
    assert (Hc' : adtype y = complex128 \/ adtype F = complex128).
    { apply Hc. destruct Hcode as [(-> & _)|[(-> & _)|(-> & _)]]; discriminate. }
    destruct (coded_energy y F spins nr nt K m amps' [] B Hy HF By BF Hb Hnt Hcode Hc' Hs
                eq_refl Hreal)
      as (h & J & offset & E & Sh & SJ & Ev & En).
    eexists h, J, offset, _. split; [exact E|]. split; [exact Sh|]. split; [exact SJ|].
    split; [exact (Ev S HS HbS)|].
    apply En. intros k Hk. unfold symbol_values. cbn [data].
    rewrite nth_map_seq by exact Hk. reflexivity.
Qed.


(** The energy of the model is a squared distance, whatever the real
    spins. *)
Lemma spin_energy_nonneg (y F spins : ndarray) (nr nt bits : nat) (m : string)
    (amps : ndarray) (power : Q) (B : Z) :
  shape y = [nr; 1] -> shape F = [nr; nt] ->
  entries_within B y -> entries_within B F -> (2 * Z.of_nat nr * B * B <= 2 ^ 53)%Z ->
  0 < nt ->
  supported m -> constellation_properties m = Ok (bits, amps, power) ->
  (m <> "BPSK"%string -> adtype y = complex128 \/ adtype F = complex128) ->
  shape spins = [bits * nt] ->
  Forall (fun z => im z = 0%Z) (data spins) ->
  exists h J offset,
    _yF_to_hJ y F m = Ok (h, J, offset) /\
    (0 <= re (at2 offset 0 0) + ising_value (bits * nt) h J (spin_values spins))%Z.
Proof.
  intros Hy HF By BF Hb Hnt Hm Hcp Hc Hs Hreal.
  assert (Hcases : (m = "BPSK"%string /\ bits = 1) \/
                   exists K amps', linear_code m K amps' /\ bits = 2 * K).
  { destruct Hm as [<-|[<-|[<-|[<-|[]]]]]; vm_compute in Hcp; injection Hcp as <- _ _.
    - left. split; reflexivity.
    - right. exists 1, ones1. split; [left; repeat split|reflexivity].
    - right. exists 2, (odd_arange 2). split; [right; left; repeat split|reflexivity].
    - right. exists 3, (odd_arange 4). split; [right; right; repeat split|reflexivity]. }
  destruct Hcases as [[-> ->]|(K & amps' & Hcode & ->)].
  - rewrite Nat.mul_1_l in *.
    destruct (bpsk_energy y F nr nt (symbol_values spins) B Hy HF By BF Hb)
      as (h & J & offset & E & _ & _ & En).
    { intros k _. apply nth_real. exact Hreal. }
    exists h, J, offset. split; [exact E|].
    unfold spin_values. unfold symbol_values in En. rewrite En. apply hdot_self_nonneg.
  - replace (2 * K * nt) with (K * (2 * nt)) in * by lia.
    assert (Hc' : adtype y = complex128 \/ adtype F = complex128).
    { apply Hc. destruct Hcode as [(-> & _)|[(-> & _)|(-> & _)]]; discriminate. }
    destruct (coded_energy y F spins nr nt K m amps' [] B Hy HF By BF Hb Hnt Hcode Hc' Hs
                eq_refl Hreal)
      as (h & J & offset & E & _ & _ & _ & En).
    exists h, J, offset. split; [exact E|].
    rewrite (En _ (fun k _ => eq_refl)). apply hdot_self_nonneg.
Qed.

(** X5.  The model that [_yF_to_hJ] builds is the least-squares objective
    on the decoded spins: for each of the four modulations (with [y] or [F]
    complex unless the modulation is BPSK), for [y] and [F] with integer
    entries of magnitude at most [B] and [2 nr B^2 <= 2^53], and for every
    real vector [s] of [bits * nt] integer spins of magnitude at most [S]
    with [48 S <= 2^53] (no product or sum is rounded or wraps),
    [offset + h.s + s.J.s] equals [||y - F v||^2] for
    [v = spins_to_symbols(s, modulation, nt)], and is not negative. *)
Theorem spin_energy_is_residual (y F spins : ndarray) (nr nt bits : nat) (m : string)
    (amps : ndarray) (power : Q) (B S : Z) :
  shape y = [nr; 1] -> shape F = [nr; nt] ->
  entries_within B y -> entries_within B F -> (2 * Z.of_nat nr * B * B <= 2 ^ 53)%Z ->
  0 < nt ->
  supported m -> constellation_properties m = Ok (bits, amps, power) ->
  (m <> "BPSK"%string -> adtype y = complex128 \/ adtype F = complex128) ->
  shape spins = [bits * nt] ->
  Forall (fun z => im z = 0%Z) (data spins) ->
  entries_within S spins -> (48 * S <= 2 ^ 53)%Z ->
  exists h J offset v,
    _yF_to_hJ y F m = Ok (h, J, offset) /\
    shape h = [bits * nt; 1] /\ shape J = [bits * nt; bits * nt] /\
    spins_to_symbols spins (Some m) (Some nt) = Ok v /\
    (re (at2 offset 0 0) + ising_value (bits * nt) h J (spin_values spins))%Z
    = re (residual nr nt y F (symbol_values v)) /\
    (0 <= re (residual nr nt y F (symbol_values v)))%Z.
Proof.
  intros Hy HF By BF Hb Hnt Hm Hcp Hc Hs Hreal HS HbS.
  destruct (spin_energy_core y F spins nr nt bits m amps power B S Hy HF By BF Hb Hnt Hm Hcp
              Hc Hs Hreal HS HbS)
    as (h & J & offset & v & E & Sh & SJ & Ev & En).
  exists h, J, offset, v. split; [exact E|]. split; [exact Sh|]. split; [exact SJ|].
  split; [exact Ev|]. split; [exact En|apply hdot_self_nonneg].
Qed.

Lemma length_planes (K : nat) (D : list complex) :
  List.length (planes_lsb_first K D) = K * (2 * List.length D).
Proof.
  unfold planes_lsb_first.
  rewrite (flat_map_constant_length (c := 2 * List.length D)).
  - rewrite List.length_seq. lia.
  - intros p _. unfold bit_plane. rewrite List.length_app, !List.length_map. lia.
Qed.

Lemma residual_zero (n m : nat) (y F : ndarray) (v : nat -> complex) :
  (forall i, i < n -> at2 y i 0 = matvec m F v i) -> residual n m y F v = C0.
Proof.
  intros E. unfold residual, hdot. apply Csum_zero. intros i Hi. apply in_seq in Hi.
  rewrite E by lia. unfold Csub. complex_ring.
Qed.

(** A supported modulation is BPSK with one bit, or has a linear code of
    [K] planes and [2K] bits. *)
Lemma supported_cases (m : string) (bits : nat) (amps : ndarray) (power : Q) :
  supported m -> constellation_properties m = Ok (bits, amps, power) ->
  (m = "BPSK"%string /\ bits = 1 /\ amps = ones1) \/
  (exists K, linear_code m K amps /\ bits = 2 * K).
Proof.
  intros Hm Hcp.
  destruct Hm as [<-|[<-|[<-|[<-|[]]]]]; vm_compute in Hcp; injection Hcp as <- <- _.
  - left. repeat split.
  - right. exists 1. split; [left; repeat split|reflexivity].
  - right. exists 2. split; [right; left; repeat split|reflexivity].
  - right. exists 3. split; [right; right; repeat split|reflexivity].
Qed.


(** X6.  On a vector of [n] constellation symbols [symbols_to_spins]
    returns [bits * n] entries, each of them [1] or [-1]. *)
Theorem symbols_to_spins_are_spins (v : ndarray) (m : string) (n bits : nat)
    (amps : ndarray) (power : Q) :
  supported m -> constellation_properties m = Ok (bits, amps, power) ->
  valid_constellation m v n ->
  exists s,
    symbols_to_spins v m = Ok s /\
    List.length (data s) = bits * n /\
    Forall (fun z => z = Cre 1 \/ z = Cre (-1)) (data s).
Proof.
  intros Hm Hcp Hv.
  destruct (supported_cases m bits amps power Hm Hcp) as [(-> & -> & ->)|(K & Hcode & ->)].
  - destruct Hv as (b & a & p & Ep & Hs & Hl & Hval).
    vm_compute in Ep. injection Ep as <- <- <-.
    cbn [String.eqb Ascii.eqb Bool.eqb] in Hval. destruct Hval as [_ Hval].
    exists v. split.
    { unfold symbols_to_spins, np.len. destruct Hs as [-> | ->]; reflexivity. }
    split; [lia|].
    eapply Forall_impl; [|exact Hval]. intros z [Hz Hi]. cbn beta in Hz, Hi.
    unfold signed_amplitude in Hz. cbn in Hz. destruct Hz as [Hz|[]].
    injection Hz as Hz. destruct z as [a b]. cbn [re im] in *. subst b.
    unfold Cre. destruct (Z.abs_spec a) as [[_ E]|[_ E]]; [left|right]; f_equal; lia.
  - destruct (valid_constellation_code m v n K amps Hcode Hv) as (Hs & Hl & Hd & Hall).
    assert (Hs' : exists sh, shape v = n :: sh) by (destruct Hs as [-> | ->]; eauto).
    destruct Hs' as [sh Hs'].
    destruct (symbols_to_spins_planes v m K amps n sh Hcode Hs' Hl Hall)
      as (dt & so & E & _ & _).
    eexists. split; [exact E|]. cbn [data]. split.
    + rewrite List.length_map, length_planes, Hl. lia.
    + apply planes_are_spins.
Qed.

Lemma transmitted_energy_core (y F v : ndarray) (nr nt bits : nat) (m : string)
    (amps : ndarray) (power : Q) (B : Z) :
  shape y = [nr; 1] -> shape F = [nr; nt] ->
  entries_within B y -> entries_within B F -> (2 * Z.of_nat nr * B * B <= 2 ^ 53)%Z ->
  0 < nt ->
  supported m -> constellation_properties m = Ok (bits, amps, power) ->
  (m <> "BPSK"%string -> adtype y = complex128 \/ adtype F = complex128) ->
  valid_constellation m v nt ->
  exists h J offset s,
    _yF_to_hJ y F m = Ok (h, J, offset) /\
    symbols_to_spins v m = Ok s /\
    (re (at2 offset 0 0) + ising_value (bits * nt) h J (spin_values s))%Z
    = re (residual nr nt y F (symbol_values v)) /\
    ((forall i, i < nr -> at2 y i 0 = matvec nt F (symbol_values v) i) ->
     (re (at2 offset 0 0) + ising_value (bits * nt) h J (spin_values s))%Z = 0%Z).
Proof.
  intros Hy HF By BF Hb Hnt Hm Hcp Hc Hv.
  assert (Hzero : forall e : Z,
            e = re (residual nr nt y F (symbol_values v)) ->
            e = re (residual nr nt y F (symbol_values v)) /\
            ((forall i, i < nr -> at2 y i 0 = matvec nt F (symbol_values v) i) -> e = 0%Z)).
  { intros e ->. split; [reflexivity|]. intros Hy0.
    rewrite (residual_zero nr nt y F _ Hy0). reflexivity. }
  destruct (supported_cases m bits amps power Hm Hcp) as [(-> & -> & ->)|(K & Hcode & ->)].
  - destruct Hv as (b & a & p & Ep & Hs & Hl & Hval).
    cbn [String.eqb Ascii.eqb Bool.eqb] in Hval. destruct Hval as [_ Hval].
    destruct (bpsk_energy y F nr nt (symbol_values v) B Hy HF By BF Hb)
      as (h & J & offset & E & Sh & SJ & En).
    { intros k _. unfold symbol_values.
      apply nth_real. eapply Forall_impl; [|exact Hval]. intros z [_ Hz]. exact Hz. }
    exists h, J, offset, v. split; [exact E|].
    split; [unfold symbols_to_spins, np.len; destruct Hs as [-> | ->]; reflexivity|].
    rewrite Nat.mul_1_l. apply Hzero. exact En.
  - destruct (valid_constellation_code m v nt K amps Hcode Hv) as (Hs & Hl & Hd & Hall).
    assert (Hs' : exists sh, shape v = nt :: sh /\ size_of sh = 1)
      by (destruct Hs as [-> | ->]; eexists; (split; [reflexivity|reflexivity])).
    destruct Hs' as (sh & Hs' & Hsz).
    destruct (symbols_to_spins_planes v m K amps nt sh Hcode Hs' Hl Hall)
      as (dt & so & E & So1 & So2).
    assert (Hso : exists st, so = K * (2 * nt) :: st /\ size_of st = 1).
    { destruct (Nat.eq_dec K 1) as [K1|K1].
      - exists sh. split; [apply So1; exact K1|exact Hsz].
      - exists []. split; [apply So2|reflexivity].
        destruct Hcode as [(_ & -> & _)|[(_ & -> & _)|(_ & -> & _)]]; lia. }
    destruct Hso as (st & -> & Hst).
    assert (Hc' : adtype y = complex128 \/ adtype F = complex128).
    { apply Hc. destruct Hcode as [(-> & _)|[(-> & _)|(-> & _)]]; discriminate. }
    destruct (coded_energy y F
                (Array dt (K * (2 * nt) :: st) (List.map Cre (planes_lsb_first K (data v))))
                nr nt K m amps st B Hy HF By BF Hb Hnt Hcode Hc' eq_refl Hst)
      as (h & J & offset & E0 & Sh & SJ & Ev & En).
    { cbn [data]. apply Forall_forall. intros z Hz.
      apply in_map_iff in Hz as (x & <- & _). reflexivity. }
    eexists h, J, offset, _. split; [exact E0|]. split; [exact E|].
    replace (2 * K * nt) with (K * (2 * nt)) by lia.
    apply Hzero. apply En. intros k Hk. cbn [data]. unfold symbol_values.
    pose proof (decode_planes K m amps (data v) Hcode Hall) as Hd'.
    rewrite Hl in Hd'.
    rewrite <- Hd' at 1. rewrite nth_map_seq by exact Hk. reflexivity.
Qed.


(** X7.  At the spins that encode a vector [v] of constellation symbols
    the model of [(y, F)] has the energy [||y - F v||^2]; it is zero when
    [y = F v].  The entries of [y] and [F] are integers of magnitude at most
    [B] with [2 nr B^2 <= 2^53], so that no product is rounded or wraps. *)
Theorem transmitted_symbols_energy (y F v : ndarray) (nr nt bits : nat) (m : string)
    (amps : ndarray) (power : Q) (B : Z) :
  shape y = [nr; 1] -> shape F = [nr; nt] ->
  entries_within B y -> entries_within B F -> (2 * Z.of_nat nr * B * B <= 2 ^ 53)%Z ->
  0 < nt ->
  supported m -> constellation_properties m = Ok (bits, amps, power) ->
  (m <> "BPSK"%string -> adtype y = complex128 \/ adtype F = complex128) ->
  valid_constellation m v nt ->
  exists h J offset s,
    _yF_to_hJ y F m = Ok (h, J, offset) /\
    symbols_to_spins v m = Ok s /\
    (re (at2 offset 0 0) + ising_value (bits * nt) h J (spin_values s))%Z
    = re (residual nr nt y F (symbol_values v)) /\
    ((forall i, i < nr -> at2 y i 0 = matvec nt F (symbol_values v) i) ->
     (re (at2 offset 0 0) + ising_value (bits * nt) h J (spin_values s))%Z = 0%Z).
Proof.
  intros Hy HF By BF Hb Hnt Hm Hcp Hc Hv.
  destruct (transmitted_energy_core y F v nr nt bits m amps power B Hy HF By BF Hb Hnt Hm Hcp
              Hc Hv)
    as (h & J & offset & s & E & Es & En & Hz).
  exists h, J, offset, s. split; [exact E|]. split; [exact Es|]. split; [exact En|exact Hz].
Qed.

Ltac entries_bound := split; [lia|repeat constructor; cbn; lia].

Lemma quadratic_form_energy_witness :
  exists offset h J,
    _quadratic_form y_example F_example = Ok (offset, h, J) /\
    form_value 1 offset h J (fun _ => Cx (-1) 1) =
    residual 2 1 y_example F_example (fun _ => Cx (-1) 1).
Proof.
  destruct (quadratic_form_energy y_example F_example 2 1 5 (fun _ => Cx (-1) 1)
              eq_refl eq_refl ltac:(entries_bound) ltac:(entries_bound) ltac:(cbn; lia))
    as (offset & h & J & E & En & _).
  exists offset, h, J. split; [exact E|exact En].
Defined.


Lemma J_example_hermitian (j k : nat) :
  j < 2 -> k < 2 -> at2 J_example k j = Cconj (at2 J_example j k).
Proof.
  intros Hj Hk. destruct j as [|[|j]]; [| |lia]; (destruct k as [|[|k]]; [| |lia]); reflexivity.
Defined.

Lemma real_projection_energy_witness :
  exists hR JR,
    _real_quadratic_form h_example J_example (Some "QPSK"%string) = Ok (hR, JR) /\
    ising_value 4 hR JR (stack_re_im 2 (fun k => nth k [Cx 1 (-1); Cx (-1) 1] C0)) =
    (re (hdot 2 (fun j => at2 h_example j 0) (fun k => nth k [Cx 1 (-1); Cx (-1) 1] C0)) +
     re (hdot 2 (fun k => nth k [Cx 1 (-1); Cx (-1) 1] C0)
              (matvec 2 J_example (fun k => nth k [Cx 1 (-1); Cx (-1) 1] C0))))%Z.
Proof.
  destruct (proj1 (real_projection_energy h_example J_example 2 (Some "QPSK"%string)
                     (fun k => nth k [Cx 1 (-1); Cx (-1) 1] C0)
                     eq_refl eq_refl eq_refl eq_refl J_example_hermitian)
                  eq_refl (or_introl eq_refl))
    as (hR & JR & E & _ & _ & En).
  exists hR, JR. split; [exact E|exact En].
Defined.


Lemma spin_energy_is_residual_witness :
  exists h J offset v,
    _yF_to_hJ y_example F_example "16QAM" = Ok (h, J, offset) /\
    spins_to_symbols spins_example (Some "16QAM"%string) (Some 1) = Ok v /\
    (re (at2 offset 0 0) + ising_value 4 h J (spin_values spins_example))%Z
    = re (residual 2 1 y_example F_example (symbol_values v)).
Proof.
  assert (Hr : Forall (fun z => im z = 0%Z) (data spins_example))
    by (repeat constructor).
  assert (Hm : supported "16QAM") by (right; right; left; reflexivity).
  destruct (spin_energy_is_residual y_example F_example spins_example 2 1 4 "16QAM"
              (odd_arange 2) (twice_mean_square (odd_arange 2)) 5 1
              eq_refl eq_refl ltac:(entries_bound) ltac:(entries_bound) ltac:(cbn; lia)
              ltac:(lia) Hm eq_refl
              (fun _ => or_introl eq_refl) eq_refl Hr ltac:(entries_bound) ltac:(cbn; lia))
    as (h & J & offset & v & E & _ & _ & Ev & En & _).
  exists h, J, offset, v. split; [exact E|]. split; [exact Ev|exact En].
Defined.

Lemma symbols_to_spins_are_spins_witness :
  exists s,
    symbols_to_spins (Array complex128 [2] [Cx 1 3; Cx (-3) (-1)]) "16QAM" = Ok s /\
    List.length (data s) = 8.
Proof.
  assert (Hm : supported "16QAM") by (right; right; left; reflexivity).
  destruct (symbols_to_spins_are_spins (Array complex128 [2] [Cx 1 3; Cx (-3) (-1)])
              "16QAM" 2 4 (odd_arange 2) (twice_mean_square (odd_arange 2))
              Hm eq_refl valid_example_16QAM)
    as (s & E & L & _).
  exists s. split; [exact E|exact L].
Defined.

Lemma valid_v_example : valid_constellation "16QAM" v_example 1.
Proof.
  exists 4, (odd_arange 2), (twice_mean_square (odd_arange 2)).
  split; [reflexivity|]. split; [left; reflexivity|]. split; [reflexivity|].
  cbn [String.eqb Ascii.eqb Bool.eqb]. split; [reflexivity|].
  repeat constructor; unfold signed_amplitude; simpl; tauto.
Defined.

Lemma transmitted_symbols_energy_witness :
  exists h J offset s,
    _yF_to_hJ Fv_example F_example "16QAM" = Ok (h, J, offset) /\
    symbols_to_spins v_example "16QAM" = Ok s /\
    (re (at2 offset 0 0) + ising_value 4 h J (spin_values s))%Z = 0%Z.
Proof.
  assert (Hm : supported "16QAM") by (right; right; left; reflexivity).
  assert (Hy : forall i, i < 2 ->
             at2 Fv_example i 0 = matvec 1 F_example (symbol_values v_example) i).
  { intros i Hi. destruct i as [|[|i]]; [reflexivity|reflexivity|lia]. }
  destruct (transmitted_symbols_energy Fv_example F_example v_example 2 1 4 "16QAM"
              (odd_arange 2) (twice_mean_square (odd_arange 2)) 5
              eq_refl eq_refl ltac:(entries_bound) ltac:(entries_bound) ltac:(cbn; lia)
              ltac:(lia) Hm eq_refl
              (fun _ => or_introl eq_refl) valid_v_example)
    as (h & J & offset & s & E & Es & _ & Z0).
  exists h, J, offset, s. split; [exact E|]. split; [exact Es|]. apply Z0. exact Hy.
Defined.

(** ** Encoding and decoding *)

Lemma symb_to_spins_2 :
  symb_to_spins 2 =
  <[ 3%Z := [1; 1]%Z ]> (<[ (-1)%Z := [1; -1]%Z ]> (<[ 1%Z := [-1; 1]%Z ]>
    (<[ (-3)%Z := [-1; -1]%Z ]> ∅))).
Proof. reflexivity. Qed.

Lemma symb_to_spins_3 :
  symb_to_spins 3 =
  <[ 7%Z := [1; 1; 1]%Z ]> (<[ (-1)%Z := [1; 1; -1]%Z ]> (<[ 3%Z := [1; -1; 1]%Z ]>
  (<[ (-5)%Z := [1; -1; -1]%Z ]> (<[ 5%Z := [-1; 1; 1]%Z ]> (<[ (-3)%Z := [-1; 1; -1]%Z ]>
  (<[ 1%Z := [-1; -1; 1]%Z ]> (<[ (-7)%Z := [-1; -1; -1]%Z ]> ∅))))))).
Proof. reflexivity. Qed.

(** The keys of the dictionary are the signed amplitudes; any other
    symbol is a missing key. *)
Lemma lookup_spin_missing (K : nat) (m : string) (amps : ndarray) (prec : nat) (x : Z) :
  linear_code m K amps -> 2 <= K -> ~ signed_amplitude amps x ->
  lookup_spin (symb_to_spins K) prec x = Raise KeyError.
Proof.
  intros Hc HK Hx. unfold lookup_spin, signed_amplitude in *.
  destruct Hc as [(_ & -> & _)|[(_ & -> & ->)|(_ & -> & ->)]]; [lia| |].
  - assert (Hne : x <> 3%Z /\ x <> (-1)%Z /\ x <> 1%Z /\ x <> (-3)%Z).
    { repeat split; intros ->; apply Hx; simpl; auto. }
    rewrite symb_to_spins_2, !lookup_insert_ne, lookup_empty by (intros C; lia).
    reflexivity.
  - assert (Hne : x <> 7%Z /\ x <> (-1)%Z /\ x <> 3%Z /\ x <> (-5)%Z /\
                  x <> 5%Z /\ x <> (-3)%Z /\ x <> 1%Z /\ x <> (-7)%Z).
    { repeat split; intros ->; apply Hx; simpl; auto 6. }
    rewrite symb_to_spins_3, !lookup_insert_ne, lookup_empty by (intros C; lia).
    reflexivity.
Qed.

Lemma lookup_spin_total (K : nat) (m : string) (amps : ndarray) (prec : nat) (x : Z) :
  linear_code m K amps -> 2 <= K -> prec < K ->
  (exists s, lookup_spin (symb_to_spins K) prec x = Ok s) \/
  lookup_spin (symb_to_spins K) prec x = Raise KeyError.
Proof.
  intros Hc HK Hp.
  assert (Hdec : signed_amplitude amps x \/ ~ signed_amplitude amps x).
  { unfold signed_amplitude.
    destruct (In_dec (fun a b : complex =>
                        ltac:(decide equality; apply Z.eq_dec) : {a = b} + {a <> b})
                     (Cre (Z.abs x)) (data amps)); auto. }
  destruct Hdec as [Hx|Hx].
  - left. eexists. apply (lookup_spin_digit K m amps); assumption.
  - right. apply (lookup_spin_missing K m amps); assumption.
Qed.

Lemma mapM_raise {A B} (f : A -> result B) (e : exn) (l : list A) :
  (forall x, In x l -> (exists y, f x = Ok y) \/ f x = Raise e) ->
  (exists ys, mapM f l = Ok ys /\ forall x, In x l -> exists y, f x = Ok y) \/
  mapM f l = Raise e.
Proof.
  induction l as [|x l IH]; intros H.
  - left. exists []. split; [reflexivity|]. intros x [].
  - change (mapM f (x :: l)) with (y ← f x; k ← mapM f l; mret (y :: k)).
    destruct (H x (or_introl eq_refl)) as [[y Ey]|Ex].
    + rewrite Ey. cbn [mbind result_bind].
      destruct (IH (fun x' Hx' => H x' (or_intror Hx'))) as [(ys & E & Hall)|E].
      * left. rewrite E. eexists. split; [reflexivity|].
        intros x' [<-|Hx']; [eauto|apply Hall; exact Hx'].
      * right. rewrite E. reflexivity.
    + right. rewrite Ex. reflexivity.
Qed.


(** X8.  For 16QAM and 64QAM a symbol whose real or imaginary part is not
    a signed amplitude of the constellation is a missing key of the
    dictionary: [symbols_to_spins] raises [KeyError]. *)
Theorem symbols_to_spins_key_error (v : ndarray) (m : string) (K : nat) (amps : ndarray)
    (n : nat) (sh : list nat) :
  linear_code m K amps -> 2 <= K -> shape v = n :: sh ->
  Exists (fun z => ~ signed_amplitude amps (re z) \/ ~ signed_amplitude amps (im z)) (data v) ->
  symbols_to_spins v m = Raise KeyError.
Proof.
  intros Hc HK Hs Hbad.
  assert (Hplane :
    (xs ← mapM (lookup_spin (symb_to_spins K) 0)
               (List.map re (data (np.flatten (np.real v))));
     ys ← mapM (lookup_spin (symb_to_spins K) 0)
               (List.map re (data (np.flatten (np.imag v))));
     Ok (np.of_int_lists xs ys)) = Raise KeyError).
  { cbn [np.flatten np.real np.imag data]. rewrite !List.map_map. cbn [re Cre].
    destruct (mapM_raise (lookup_spin (symb_to_spins K) 0) KeyError
                (List.map (fun z : complex => re z) (data v)))
      as [(xs & Ex & Hall)|Ex].
    { intros x _. apply (lookup_spin_total K m amps); [assumption|assumption|lia]. }
    2:{ rewrite Ex. reflexivity. }
    rewrite Ex. cbn [mbind result_bind].
    destruct (mapM_raise (lookup_spin (symb_to_spins K) 0) KeyError
                (List.map (fun z : complex => im z) (data v)))
      as [(ys & Ey & Hall')|Ey].
    { intros x _. apply (lookup_spin_total K m amps); [assumption|assumption|lia]. }
    2:{ rewrite Ey. reflexivity. }
    exfalso. apply Exists_exists in Hbad as (z & Hz & [Hr|Hi]).
    - destruct (Hall (re z)) as [y Ey']; [apply in_map; exact Hz|].
      rewrite (lookup_spin_missing K m amps 0 (re z) Hc HK Hr) in Ey'. discriminate.
    - destruct (Hall' (im z)) as [y Ey']; [apply in_map; exact Hz|].
      rewrite (lookup_spin_missing K m amps 0 (im z) Hc HK Hi) in Ey'. discriminate. }
  unfold symbols_to_spins, np.len. rewrite Hs. cbn [mbind result_bind].
  destruct Hc as [(_ & -> & _)|[(-> & -> & _)|(-> & -> & _)]]; [lia| |];
    cbn [String.eqb Ascii.eqb Bool.eqb mbind result_bind].
  - change (seq 0 2) with (0 :: seq 1 1).
    match goal with |- context [mapM ?f (0 :: ?l)] =>
      change (mapM f (0 :: l)) with (y ← f 0; k ← mapM f l; mret (y :: k)) end.
    cbv beta. rewrite Hplane. reflexivity.
  - change (seq 0 3) with (0 :: seq 1 2).
    match goal with |- context [mapM ?f (0 :: ?l)] =>
      change (mapM f (0 :: l)) with (y ← f 0; k ← mapM f l; mret (y :: k)) end.
    cbv beta. rewrite Hplane. reflexivity.
Qed.

(** BPSK and QPSK encode without looking at the symbols. *)
Lemma symbols_to_spins_unchecked (v : ndarray) (n : nat) (sh : list nat) :
  shape v = n :: sh ->
  symbols_to_spins v "BPSK" = Ok v /\
  symbols_to_spins v "QPSK" =
    Ok (Array (promote (adtype (np.real v)) (adtype (np.imag v))) (n + n :: sh)
              (data (np.real v) ++ data (np.imag v))).
Proof.
  intros Hs. unfold symbols_to_spins, np.len. rewrite Hs.
  cbn [mbind result_bind String.eqb Ascii.eqb Bool.eqb].
  split; [reflexivity|].
  apply (concatenate0_same (np.real v) (np.imag v) n n sh Hs Hs).
Qed.

(** A sum of [K] weighted spins is a signed amplitude, and its digits are
    the spins. *)
Lemma spin_digit_of_code (K : nat) (m : string) (amps : ndarray) (f : nat -> Z) :
  linear_code m K amps ->
  (forall a, a < K -> f a = 1%Z \/ f a = (-1)%Z) ->
  signed_amplitude amps (Zsum (List.map (fun a => (2 ^ Z.of_nat a * f a)%Z) (seq 0 K))) /\
  forall i, i < K ->
    spin_digit K i (Zsum (List.map (fun a => (2 ^ Z.of_nat a * f a)%Z) (seq 0 K))) = f i.
Proof.
  intros Hc Hf. unfold signed_amplitude.
  destruct Hc as [(_ & -> & ->)|[(_ & -> & ->)|(_ & -> & ->)]]; cbn [seq List.map].
  - destruct (Hf 0 ltac:(lia)) as [E0|E0]; rewrite E0;
      (split; [vm_compute; tauto|]);
      intros i Hi; (destruct i as [|i]; [|lia]); rewrite E0; vm_compute; reflexivity.
  - destruct (Hf 0 ltac:(lia)) as [E0|E0]; destruct (Hf 1 ltac:(lia)) as [E1|E1];
      rewrite E0, E1; (split; [vm_compute; tauto|]);
      intros i Hi; (destruct i as [|[|i]]; [| |lia]); rewrite ?E0, ?E1; vm_compute; reflexivity.
  - destruct (Hf 0 ltac:(lia)) as [E0|E0]; destruct (Hf 1 ltac:(lia)) as [E1|E1];
      destruct (Hf 2 ltac:(lia)) as [E2|E2];
      rewrite E0, E1, E2; (split; [vm_compute; tauto|]);
      intros i Hi; (destruct i as [|[|[|i]]]; [| | |lia]); rewrite ?E0, ?E1, ?E2;
      vm_compute; reflexivity.
Qed.

Lemma nth_spin (D : list complex) (q : nat) :
  Forall (fun z => z = Cre 1 \/ z = Cre (-1)) D -> q < List.length D ->
  (re (nth q D C0) = 1%Z \/ re (nth q D C0) = (-1)%Z) /\
  nth q D C0 = Cre (re (nth q D C0)).
Proof.
  intros H Hq. rewrite Forall_forall in H.
  destruct (H (nth q D C0) (nth_In D C0 Hq)) as [-> | ->]; split; auto.
Qed.

Lemma spins_are_real (D : list complex) :
  Forall (fun z => z = Cre 1 \/ z = Cre (-1)) D -> Forall (fun z => im z = 0%Z) D.
Proof. apply Forall_impl. intros z [-> | ->]; reflexivity. Qed.


(** X9.  The round trip from the spins: for QPSK, 16QAM and 64QAM a vector
    of [K * 2n] spins [1], [-1] decodes to a vector of [n] constellation
    symbols, and encoding that vector gives the spins back. *)
Theorem spins_round_trip_back (spins : ndarray) (m : string) (K : nat) (amps : ndarray)
    (n : nat) :
  linear_code m K amps -> 0 < n ->
  shape spins = [K * (2 * n)] -> List.length (data spins) = K * (2 * n) ->
  Forall (fun z => z = Cre 1 \/ z = Cre (-1)) (data spins) ->
  exists v s,
    spins_to_symbols spins (Some m) (Some n) = Ok v /\
    valid_constellation m v n /\
    symbols_to_spins v m = Ok s /\
    shape s = shape spins /\ data s = data spins.
Proof.
  intros Hc Hn Hs Hl Hsp.
  assert (HK : 1 <= K <= 3)
    by (destruct Hc as [(_ & -> & _)|[(_ & -> & _)|(_ & -> & _)]]; lia).
  pose proof (spins_are_real _ Hsp) as Hreal.
  pose proof (spins_to_symbols_planes_exact spins (Some m) K n [] 1 Hs eq_refl Hn ltac:(lia)
                (spins_within _ Hsp) ltac:(lia)) as Ev.
  set (D := data spins) in *.
  set (f := fun c a => re (nth (a * (2 * n) + c) D C0)).
  assert (Hf : forall c a, c < 2 * n -> a < K -> f c a = 1%Z \/ f c a = (-1)%Z).
  { intros c a Hc' Ha. unfold f. apply nth_spin; [exact Hsp|]. rewrite Hl. nia. }
  set (Dv := List.map (fun j =>
                 Cadd (weighted_sum K (fun i => nth (i * (2 * n) + j) D C0))
                      (Ci_mul (weighted_sum K (fun i => nth (i * (2 * n) + (n + j)) D C0))))
               (seq 0 n)) in *.
  assert (HDv : forall j, j < n ->
            nth j Dv C0 =
            Cx (Zsum (List.map (fun a => (2 ^ Z.of_nat a * f j a)%Z) (seq 0 K)))
               (Zsum (List.map (fun a => (2 ^ Z.of_nat a * f (n + j)%nat a)%Z) (seq 0 K)))).
  { intros j Hj. unfold Dv. rewrite nth_map_seq by exact Hj. cbn [Nat.add].
    rewrite !weighted_sum_real by (try lia; intros; apply nth_real; exact Hreal).
    unfold f. apply complex_eq; unfold Cadd, Ci_mul, Cre; cbn [re im]; ring. }
  assert (LDv : List.length Dv = n) by (unfold Dv; rewrite List.length_map, List.length_seq; reflexivity).
  assert (Hall : Forall (fun z => signed_amplitude amps (re z) /\ signed_amplitude amps (im z)) Dv).
  { apply Forall_forall. intros z Hz.
    apply (In_nth _ _ C0) in Hz as (j & Hj & <-). rewrite LDv in Hj.
    rewrite (HDv j Hj). cbn [re im].
    split; apply (spin_digit_of_code K m amps); try assumption; intros a Ha; apply Hf; lia. }
  destruct (symbols_to_spins_planes (Array complex128 [n] Dv) m K amps n [] Hc eq_refl LDv Hall)
    as (dt & so & E & So1 & So2).
  assert (Hso : so = [K * (2 * n)]).
  { destruct (Nat.eq_dec K 1) as [K1|K1]; [apply So1; exact K1|apply So2; lia]. }
  subst so. cbn [data] in E.
  exists (Array complex128 [n] Dv), (Array dt [K * (2 * n)] (List.map Cre (planes_lsb_first K Dv))).
  split; [exact Ev|]. split.
  { assert (Hcp : exists bits power, constellation_properties m = Ok (bits, amps, power)).
    { destruct Hc as [(-> & _ & ->)|[(-> & _ & ->)|(-> & _ & ->)]]; do 2 eexists; reflexivity. }
    destruct Hcp as (bits & power & Hcp).
    exists bits, amps, power. split; [exact Hcp|]. split; [left; reflexivity|].
    split; [exact LDv|].
    assert (Hb : String.eqb m "BPSK" = false)
      by (destruct Hc as [(-> & _)|[(-> & _)|(-> & _)]]; reflexivity).
    rewrite Hb. split; [reflexivity|exact Hall]. }
  split; [exact E|]. split; [rewrite Hs; reflexivity|].
  cbn [data]. apply (nth_ext _ _ C0 C0).
  { rewrite List.length_map, length_planes, LDv. fold D. rewrite Hl. reflexivity. }
  intros q Hq. rewrite List.length_map, length_planes, LDv in Hq.
  assert (H2n : 0 < 2 * n) by lia.
  set (i := q / (2 * n)). set (c := q mod (2 * n)).
  assert (Hqic : q = i * (2 * n) + c).
  { unfold i, c. rewrite (Nat.div_mod_eq q (2 * n)) at 1. lia. }
  assert (Hi : i < K).
  { unfold i. apply Nat.Div0.div_lt_upper_bound. lia. }
  assert (Hcn : c < 2 * n) by (unfold c; apply Nat.mod_upper_bound; lia).
  rewrite Hqic. rewrite <- LDv at 1.
  rewrite nth_planes by (rewrite ?LDv; assumption). rewrite LDv.
  destruct (nth_spin D (i * (2 * n) + c) Hsp ltac:(rewrite Hl; nia)) as [_ ->].
  f_equal.
  destruct (c <? n) eqn:Ec.
  - apply Nat.ltb_lt in Ec. rewrite (HDv c Ec). cbn [re].
    rewrite (proj2 (spin_digit_of_code K m amps (f c) Hc (fun a Ha => Hf c a Hcn Ha)) i Hi).
    reflexivity.
  - apply Nat.ltb_ge in Ec. rewrite (HDv (c - n)) by lia. cbn [im].
    replace (n + (c - n)) with c by lia.
    rewrite (proj2 (spin_digit_of_code K m amps (f c) Hc (fun a Ha => Hf c a Hcn Ha)) i Hi).
    reflexivity.
Qed.

Lemma inferred_count (spins : ndarray) (m : string) (K : nat) (amps : ndarray) (L : nat)
    (st : list nat) :
  linear_code m K amps -> shape spins = L :: st ->
  spins_to_symbols spins (Some m) None = spins_to_symbols spins (Some m) (Some (L / (2 * K))).
Proof.
  intros Hc Hs. unfold spins_to_symbols, np.len. rewrite Hs. cbn [mbind result_bind].
  destruct Hc as [(-> & -> & _)|[(-> & -> & _)|(-> & -> & _)]];
    cbn [is_modulation String.eqb Ascii.eqb Bool.eqb mbind result_bind]; reflexivity.
Qed.


(** X10.  The round trip without the transmitter count:
    [spins_to_symbols(symbols_to_spins(v, m), m)] infers the count from the
    modulation and returns the entries of [v]. *)
Theorem round_trip_inferred_count (v : ndarray) (m : string) (n : nat) :
  supported m -> valid_constellation m v n -> 0 < n ->
  exists s r,
    symbols_to_spins v m = Ok s /\
    spins_to_symbols s (Some m) None = Ok r /\
    data r = data v.
Proof.
  intros Hm Hv Hn.
  destruct Hm as [<-|Hm].
  - destruct Hv as (bits & amps & power & _ & Hs & _).
    assert (Hlen : np.len v = Ok n) by (unfold np.len; destruct Hs as [-> | ->]; reflexivity).
    exists v, v. unfold symbols_to_spins, spins_to_symbols, np.copy. rewrite Hlen.
    cbn [mbind result_bind is_modulation String.eqb Ascii.eqb Bool.eqb].
    rewrite Nat.eqb_refl. repeat split; reflexivity.
  - assert (Hc : exists K amps, linear_code m K amps /\ 1 <= K <= 3).
    { unfold linear_code.
      destruct Hm as [<-|[<-|[<-|[]]]]; do 2 eexists;
        (split; [|shelve]);
        [left|right; left|right; right]; repeat split; reflexivity. Unshelve. all: lia. }
    destruct Hc as (K & amps & Hc & HK).
    destruct (valid_constellation_code m v n K amps Hc Hv) as (Hs & Hl & Hd & Hall).
    assert (Hs' : exists sh, shape v = n :: sh /\ size_of sh = 1)
      by (destruct Hs as [-> | ->]; eexists; (split; [reflexivity|reflexivity])).
    destruct Hs' as (sh & Hs' & Hsz).
    destruct (symbols_to_spins_planes v m K amps n sh Hc Hs' Hl Hall)
      as (dt & so & E & So1 & So2).
    assert (Hso : exists st, so = K * (2 * n) :: st /\ size_of st = 1).
    { destruct (Nat.eq_dec K 1) as [K1|K1].
      - exists sh. split; [apply So1; exact K1|exact Hsz].
      - exists []. split; [apply So2; lia|reflexivity]. }
    destruct Hso as (st & -> & Hst).
    set (S := Array dt (K * (2 * n) :: st) (List.map Cre (planes_lsb_first K (data v)))) in *.
    eexists S, _. split; [exact E|].
    rewrite (inferred_count S m K amps (K * (2 * n)) st Hc eq_refl).
    replace (K * (2 * n) / (2 * K)) with n
      by (replace (K * (2 * n)) with (n * (2 * K)) by lia; symmetry; apply Nat.div_mul; lia).
    rewrite (spins_to_symbols_planes_exact S (Some m) K n st 1 eq_refl Hst)
      by first [lia|apply spins_within, planes_are_spins
               |destruct Hc as [(_ & -> & _)|[(_ & -> & _)|(_ & -> & _)]]; lia].
    split; [reflexivity|]. cbn [data]. subst n.
    apply (decode_planes K m amps (data v) Hc Hall).
Qed.


(** X11.  [spins_to_symbols] without a transmitter count, for QPSK, 16QAM
    and 64QAM: an empty vector of spins is returned as it is; some spins but
    fewer than [2K] infer zero transmitters, and the division raises
    [ZeroDivisionError]; without a modulation the call raises
    [ValueError]. *)
Theorem spins_to_symbols_inferred_edges (spins : ndarray) (m : string) (K : nat)
    (amps : ndarray) (L : nat) :
  linear_code m K amps -> shape spins = [L] ->
  (L = 0 -> spins_to_symbols spins (Some m) None = Ok spins) /\
  (0 < L < 2 * K -> spins_to_symbols spins (Some m) None = Raise ZeroDivisionError) /\
  spins_to_symbols spins None None = Raise (ValueError "Unsupported modulation").
Proof.
  intros Hc Hs. split; [|split].
  - intros ->. rewrite (inferred_count spins m K amps 0 [] Hc Hs).
    unfold spins_to_symbols, np.len. rewrite Hs. cbn [mbind result_bind].
    rewrite Nat.Div0.div_0_l. reflexivity.
  - intros HL. rewrite (inferred_count spins m K amps L [] Hc Hs).
    rewrite Nat.div_small by lia.
    unfold spins_to_symbols, np.len. rewrite Hs. cbn [mbind result_bind].
    assert (E : (0 =? L) = false) by (apply Nat.eqb_neq; lia). rewrite E. reflexivity.
  - unfold spins_to_symbols, np.len. rewrite Hs. reflexivity.
Qed.

(** ** The marginal estimator *)

Lemma nearest_odd (x : Z) :
  let r := (2 * np_round (inject_Z (x - 1) / 2) + 1)%Z in
  Z.odd r = true /\ (Z.abs (r - x) <= 1)%Z /\ (Z.odd x = true -> r = x).
Proof.
  cbv zeta. unfold np_round.
  change (Qnum (inject_Z (x - 1) / 2)) with ((x - 1) * 1)%Z.
  change (Zpos (Qden (inject_Z (x - 1) / 2))) with 2%Z.
  rewrite Z.mul_1_r.
  pose proof (Z.div_mod (x - 1) 2 ltac:(lia)) as Hdm.
  pose proof (Z.mod_pos_bound (x - 1) 2 ltac:(lia)) as Hb.
  set (f := ((x - 1) / 2)%Z) in *. set (r := ((x - 1) mod 2)%Z) in *.
  assert (Hodd : forall g : Z, Z.odd (2 * g + 1) = true).
  { intros g. rewrite Z.add_comm, Z.odd_add_mul_2. reflexivity. }
  assert (Hx : Z.odd x = true -> r = 0%Z).
  { intros Ho. apply Z.odd_spec in Ho as [k Hk]. lia. }
  destruct (2 * r <? 2)%Z eqn:E1.
  - apply Z.ltb_lt in E1. split; [apply Hodd|]. split; lia.
  - apply Z.ltb_ge in E1. assert (r = 1%Z) by lia.
    assert (E2 : (2 <? 2 * r)%Z = false) by (apply Z.ltb_ge; lia). rewrite E2.
    destruct (Z.even f); (split; [apply Hodd|]); (split; [lia|intros Ho; specialize (Hx Ho); lia]).
Qed.

Lemma nearest_amplitude_spec (M x : Z) :
  Z.odd M = true -> (0 < M)%Z ->
  Z.odd (nearest_amplitude M x) = true /\
  (Z.abs (nearest_amplitude M x) <= M)%Z /\
  (Z.odd x = true -> (Z.abs x <= M)%Z -> nearest_amplitude M x = x) /\
  (forall a, Z.odd a = true -> (Z.abs a <= M)%Z ->
     (Z.abs (nearest_amplitude M x - x) <= Z.abs (a - x))%Z).
Proof.
  intros HM HM0. unfold nearest_amplitude.
  destruct (nearest_odd x) as (Hr & Hd & Hfix). cbv zeta in Hr, Hd, Hfix.
  set (r := (2 * np_round (inject_Z (x - 1) / 2) + 1)%Z) in *.
  assert (HmM : Z.odd (- M) = true) by (rewrite Z.odd_opp; exact HM).
  assert (Hpar : forall a, Z.odd a = true -> Z.odd x = false -> (1 <= Z.abs (a - x))%Z).
  { intros a Ha Hx. apply Z.odd_spec in Ha as [k Hk].
    assert (He : Z.even x = true) by (rewrite <- Z.negb_odd, Hx; reflexivity).
    apply Z.even_spec in He as [j Hj]. lia. }
  destruct (r <? - M)%Z eqn:E1.
  - apply Z.ltb_lt in E1.
    assert (E2 : (M <? - M)%Z = false) by (apply Z.ltb_ge; lia). rewrite E2.
    split; [exact HmM|]. split; [lia|]. split; [intros Ho Hb; specialize (Hfix Ho); lia|].
    intros a Ha Hb. lia.
  - apply Z.ltb_ge in E1. destruct (M <? r)%Z eqn:E2.
    + apply Z.ltb_lt in E2. split; [exact HM|]. split; [lia|].
      split; [intros Ho Hb; specialize (Hfix Ho); lia|]. intros a Ha Hb. lia.
    + apply Z.ltb_ge in E2. split; [exact Hr|]. split; [lia|].
      split; [intros Ho _; exact (Hfix Ho)|].
      intros a Ha Hb. destruct (Z.odd x) eqn:Ex.
      * rewrite (Hfix eq_refl). lia.
      * specialize (Hpar a Ha eq_refl). lia.
Qed.

Lemma odd_amplitudes (l : list Z) (M : Z) (c : Z) :
  (l = [1]%Z /\ M = 1%Z) \/ (l = [1; 3]%Z /\ M = 3%Z) \/ (l = [1; 3; 5; 7]%Z /\ M = 7%Z) ->
  In (Cre (Z.abs c)) (List.map Cre l) <-> Z.odd c = true /\ (Z.abs c <= M)%Z.
Proof.
  intros Hl. split.
  - intros H. apply in_map_iff in H as (a & Ha & Hin). injection Ha as Ha.
    assert (Hc : (c = a \/ c = - a)%Z) by lia.
    destruct Hl as [[-> ->]|[[-> ->]|[-> ->]]]; cbn [In] in Hin;
      repeat (destruct Hin as [<-|Hin]); try contradiction;
      destruct Hc as [-> | ->]; split; (reflexivity || lia).
  - intros [Ho Hb]. apply Z.odd_spec in Ho as [k ->].
    apply in_map.
    destruct Hl as [[-> ->]|[[-> ->]|[-> ->]]]; cbn [In]; lia.
Qed.

(** The largest amplitude of each supported constellation; a signed
    amplitude is an odd integer up to it. *)
Lemma amplitude_bound (m : string) (bits : nat) (amps : ndarray) (power : Q) :
  supported m -> constellation_properties m = Ok (bits, amps, power) ->
  exists M : Z,
    (if String.eqb m "BPSK" || String.eqb m "QPSK" then Ok 1%Z
     else if String.eqb m "16QAM" then Ok 3%Z
     else if String.eqb m "64QAM" then Ok 7%Z
     else if String.eqb m "128QAM" then Ok 15%Z
     else Raise (ValueError "Unknown modulation")) = Ok M /\
    Z.odd M = true /\ (0 < M)%Z /\
    forall c, signed_amplitude amps c <-> Z.odd c = true /\ (Z.abs c <= M)%Z.
Proof.
  intros Hm Hcp.
  destruct Hm as [<-|[<-|[<-|[<-|[]]]]]; vm_compute in Hcp; injection Hcp as _ <- _;
    eexists; (split; [reflexivity|]); (split; [reflexivity|]); (split; [lia|]);
    intros c; unfold signed_amplitude.
  - apply (odd_amplitudes [1]%Z 1 c). auto.
  - apply (odd_amplitudes [1]%Z 1 c). auto.
  - apply (odd_amplitudes [1; 3]%Z 3 c). auto.
  - apply (odd_amplitudes [1; 3; 5; 7]%Z 7 c). auto.
Qed.

Lemma estimator_run (x : ndarray) (m : string) (bits : nat) (amps : ndarray) (power : Q) :
  supported m -> constellation_properties m = Ok (bits, amps, power) ->
  exists (M : Z) (r : ndarray),
    filter_marginal_estimator x (Some m) = Ok (Some r) /\
    shape r = shape x /\
    Z.odd M = true /\ (0 < M)%Z /\
    (forall c, signed_amplitude amps c <-> Z.odd c = true /\ (Z.abs c <= M)%Z) /\
    ((m = "BPSK"%string /\ adtype r = float64 /\
      data r = List.map (fun z => Cre (nearest_amplitude M (re z))) (data x)) \/
     (m <> "BPSK"%string /\ adtype r = complex128 /\
      data r = List.map (fun z => Cx (nearest_amplitude M (re z))
                                      (nearest_amplitude M (im z))) (data x))).
Proof.
  intros Hm Hcp.
  destruct (amplitude_bound m bits amps power Hm Hcp) as (M & EM & HM & HM0 & Hamp).
  unfold filter_marginal_estimator. rewrite EM. cbn [mbind result_bind].
  destruct (String.eqb_spec m "BPSK") as [->|Hb]; cbn [negb].
  - exists M. eexists. split; [reflexivity|]. split; [reflexivity|].
    split; [exact HM|]. split; [exact HM0|]. split; [exact Hamp|].
    left. split; [reflexivity|]. split; [reflexivity|].
    cbn [estimate_part np.real data].
    generalize (data x) as l. induction l as [|z l IH]; [reflexivity|].
    cbn [List.map]. rewrite IH. reflexivity.
  - unfold np.add. cbn [estimate_part np.real np.imag np.times_1j shape].
    destruct (decide (shape x = shape x)) as [_|Hne]; [|congruence].
    cbn [mbind result_bind].
    exists M. eexists. split; [reflexivity|]. split; [reflexivity|].
    split; [exact HM|]. split; [exact HM0|]. split; [exact Hamp|].
    right. split; [exact Hb|]. split; [reflexivity|].
    cbn [data adtype estimate_part np.real np.imag np.times_1j].
    generalize (data x) as l. induction l as [|z l IH]; [reflexivity|].
    cbn [List.map combine fst snd]. rewrite IH. f_equal.
    apply complex_eq; unfold Cadd, Ci_mul, Cre; cbn [re im]; ring.
Qed.


(** X12.  [filter_marginal_estimator] maps a vector (of integer values, as
    the arrays of the embedding are) to a vector of constellation symbols of
    the modulation, of the same shape. *)
Theorem estimator_projects (x : ndarray) (m : string) (n bits : nat) (amps : ndarray)
    (power : Q) :
  supported m -> constellation_properties m = Ok (bits, amps, power) ->
  shape x = [n] \/ shape x = [n; 1] -> List.length (data x) = n ->
  exists r,
    filter_marginal_estimator x (Some m) = Ok (Some r) /\
    shape r = shape x /\ valid_constellation m r n.
Proof.
  intros Hm Hcp Hs Hl.
  destruct (estimator_run x m bits amps power Hm Hcp)
    as (M & r & E & Sr & HM & HM0 & Hamp & Hr).
  exists r. split; [exact E|]. split; [exact Sr|].
  exists bits, amps, power. split; [exact Hcp|]. split; [rewrite Sr; exact Hs|].
  destruct Hr as [(-> & Tr & Dr)|(Hb & Tr & Dr)].
  - split; [rewrite Dr, List.length_map; exact Hl|].
    cbn [String.eqb Ascii.eqb Bool.eqb]. split; [rewrite Tr; discriminate|].
    rewrite Dr. apply Forall_forall. intros z Hz.
    apply in_map_iff in Hz as (w & <- & _). cbn [Cre re im]. split; [|reflexivity].
    apply Hamp. destruct (nearest_amplitude_spec M (re w) HM HM0) as (H1 & H2 & _).
    split; assumption.
  - split; [rewrite Dr, List.length_map; exact Hl|].
    apply String.eqb_neq in Hb. rewrite Hb. split; [exact Tr|].
    rewrite Dr. apply Forall_forall. intros z Hz.
    apply in_map_iff in Hz as (w & <- & _). cbn [re im].
    destruct (nearest_amplitude_spec M (re w) HM HM0) as (H1 & H2 & _).
    destruct (nearest_amplitude_spec M (im w) HM HM0) as (H3 & H4 & _).
    split; apply Hamp; split; assumption.
Qed.


(** X13.  Constellation symbols are fixed points of
    [filter_marginal_estimator]. *)
Theorem estimator_fixes_symbols (v : ndarray) (m : string) (n : nat) :
  supported m -> valid_constellation m v n ->
  exists r,
    filter_marginal_estimator v (Some m) = Ok (Some r) /\
    shape r = shape v /\ data r = data v /\
    (adtype v <> int64 -> r = v).
Proof.
  intros Hm (bits & amps & power & Hcp & Hs & Hl & Hv).
  destruct (estimator_run v m bits amps power Hm Hcp)
    as (M & r & E & Sr & HM & HM0 & Hamp & Hr).
  exists r. split; [exact E|]. split; [exact Sr|].
  assert (Hfix : forall c, signed_amplitude amps c -> nearest_amplitude M c = c).
  { intros c Hc. apply Hamp in Hc as [Ho Hb].
    apply (nearest_amplitude_spec M c HM HM0); assumption. }
  assert (Hd : data r = data v /\ (adtype v <> int64 -> adtype r = adtype v)).
  { destruct Hr as [(-> & Tr & Dr)|(Hb & Tr & Dr)].
    - cbn [String.eqb Ascii.eqb Bool.eqb] in Hv. destruct Hv as [Hd Hv]. split.
      + rewrite Dr. rewrite <- (List.map_id (data v)) at 2.
        apply map_ext_in. intros z Hz. rewrite Forall_forall in Hv.
        destruct (Hv z Hz) as [Ha Hi]. rewrite (Hfix _ Ha).
        destruct z as [a b]. cbn [re im] in *. subst b. reflexivity.
      + intros Hi. rewrite Tr. destruct (adtype v); congruence.
    - apply String.eqb_neq in Hb. rewrite Hb in Hv. destruct Hv as [Hd Hv]. split.
      + rewrite Dr. rewrite <- (List.map_id (data v)) at 2.
        apply map_ext_in. intros z Hz. rewrite Forall_forall in Hv.
        destruct (Hv z Hz) as [Ha Hi]. rewrite (Hfix _ Ha), (Hfix _ Hi).
        destruct z; reflexivity.
      + intros _. rewrite Tr, Hd. reflexivity. }
  destruct Hd as [Hd Ht]. split; [exact Hd|].
  intros Hi. specialize (Ht Hi). destruct r as [rt rs rd], v as [vt vs vd].
  cbn [adtype shape data] in *. subst. reflexivity.
Qed.




(** ** Channels and symbols *)

Lemma draws_length {S A} (step : S -> A * S) (n : nat) (s : S) :
  List.length (fst (draws step n s)) = n.
Proof.
  revert s. induction n as [|n IH]; intros s; [reflexivity|].
  cbn [draws]. destruct (step s) as [x s1]. specialize (IH s1).
  destruct (draws step n s1) as [xs s2]. cbn [fst List.length] in *. lia.
Qed.

Section Sources.
Context `{NumpyRandom}.

Lemma rs_normal_values (s : rng_state) (n : nat) (w : world) :
  exists xs s', rs_normal (RSObject s) n w =
                Ok ((xs, RSObject s'),
                    World (np_random w) (urandom w) (trace w ++ [Draw Explicit n])) /\
                List.length xs = n.
Proof.
  unfold rs_normal. msimpl. pose proof (draws_length next_normal n s) as L.
  destruct (draws next_normal n s) as [xs s']. eauto.
Qed.

Lemma rs_randint_values (s : rng_state) (n : nat) (w : world) :
  exists xs s', rs_randint (RSObject s) 2 n w =
                Ok ((xs, RSObject s'),
                    World (np_random w) (urandom w) (trace w ++ [Draw Explicit n])) /\
                List.length xs = n /\ Forall (fun b => b < 2) xs.
Proof.
  unfold rs_randint. msimpl. pose proof (draws_length (next_below 2) n s) as L.
  destruct (draws (next_below 2) n s) as [xs s']. cbn [fst] in L.
  do 2 eexists. split; [reflexivity|]. split; [rewrite List.length_map; exact L|].
  apply Forall_forall. intros b Hb. apply in_map_iff in Hb as (x & <- & _).
  apply Nat.mod_upper_bound. lia.
Qed.

End Sources.

Lemma binary_signs (xs : list nat) :
  Forall (fun b => b < 2) xs ->
  Forall (fun z => (re z = 1%Z \/ re z = (-1)%Z) /\ im z = 0%Z)
         (List.map Cre (List.map (fun b => (1 - 2 * Z.of_nat b)%Z) xs)).
Proof.
  intros H. apply Forall_forall. intros z Hz.
  apply in_map_iff in Hz as (c & <- & Hc). apply in_map_iff in Hc as (b & <- & Hb).
  rewrite Forall_forall in H. specialize (H b Hb). cbn [Cre re im].
  split; [|reflexivity]. destruct b as [|[|b]]; [left|right|lia]; reflexivity.
Qed.

Lemma combine_entries (P Q R : complex -> Prop) (la lb : list complex) :
  (forall a b, P a -> Q b -> R (Cadd a (Ci_mul b))) ->
  Forall P la -> Forall Q lb ->
  Forall R (List.map (fun p => Cadd (fst p) (snd p)) (combine la (List.map Ci_mul lb))).
Proof.
  intros HR Ha. revert lb. induction Ha as [|a la Pa _ IH]; intros lb Hb; [constructor|].
  destruct Hb as [|b lb Qb Hb]; [constructor|].
  cbn [List.map combine fst snd]. constructor; [apply HR; assumption|apply IH; exact Hb].
Qed.

Section Channel.
Context `{NumpyRandom}.

Lemma materialize_entropy (rs : random_state_arg) (w : world) :
  (forall z, rs <> RSInt z) ->
  exists s w',
    or_new_RandomState rs w = Ok (RSObject s, w') /\
    trace w' = trace w /\ np_random w' = np_random w /\
    (rs = RSNone -> urandom w' = S (urandom w)) /\
    (rs <> RSNone -> urandom w' = urandom w).
Proof.
  intros Hrs. destruct rs as [|z|s].
  - do 2 eexists. split; [reflexivity|]. repeat split; try reflexivity. congruence.
  - exfalso. apply (Hrs z). reflexivity.
  - do 2 eexists. split; [reflexivity|]. repeat split; try reflexivity. discriminate.
Qed.

Ltac draw_normal xs L :=
  msimpl;
  match goal with
  | |- context [rs_normal (RSObject ?s) ?n ?w] =>
      let s' := fresh "s" in let E := fresh "E" in
      destruct (rs_normal_values s n w) as (xs & s' & E & L); rewrite E; clear E; msimpl
  end.

Ltac draw_randint xs L Hx :=
  msimpl;
  match goal with
  | |- context [rs_randint (RSObject ?s) 2 ?n ?w] =>
      let s' := fresh "s" in let E := fresh "E" in
      destruct (rs_randint_values s n w) as (xs & s' & E & L & Hx); rewrite E; clear E; msimpl
  end.


(** X15.  [create_channel] with a known distribution and a source that is
    [None] or a [RandomState]: the channel has shape [(nr, nt)] and
    [nr * nt] entries; the power is [2 nt] for a complex channel and [nt]
    for a real one; the generator of the process is left as it was and every
    draw is from the explicit source; a fresh source is made (one read of
    the system's entropy) exactly when none was given; a binary channel has
    the entries [+-1], and [+-1 +- i] when complex. *)
Theorem create_channel_sources (nr nt : nat) (Fd : option (list string))
    (rs : random_state_arg) (w : world) :
  known_distribution Fd -> (forall z, rs <> RSInt z) ->
  exists F cp rs' w' evs,
    create_channel nr nt Fd rs w = Ok ((F, cp, rs'), w') /\
    shape F = [nr; nt] /\ List.length (data F) = nr * nt /\
    (adtype F = complex128 -> cp = 2 * nt) /\
    (adtype F <> complex128 -> cp = nt) /\
    np_random w' = np_random w /\
    trace w' = trace w ++ evs /\ only_draws Explicit evs /\
    (rs = RSNone -> urandom w' = S (urandom w)) /\
    (rs <> RSNone -> urandom w' = urandom w) /\
    (forall b, Fd = Some ["Binary"; b]%string ->
       Forall (binary_entry (negb (String.eqb b "Real"))) (data F)).
Proof.
  intros Hk Hrs. unfold create_channel. rewrite run_bind.
  destruct (materialize_entropy rs w Hrs) as (s & w1 & E1 & T1 & N1 & U1 & U2).
  rewrite E1. msimpl.
  assert (Hd : exists a b, (Fd = None /\ a = "Normal"%string /\ b = "Complex"%string \/
                            Fd = Some [a; b]) /\
                           (a = "Normal"%string \/ a = "Binary"%string)).
  { destruct Hk as [->|(a & b & -> & Ha)]; [exists "Normal"%string, "Complex"%string|exists a, b];
      split; auto. }
  destruct Hd as (a & b & HFd & Ha).
  assert (Hstep : forall w0,
            (match Fd with
             | None => mret ["Normal"; "Complex"]%string
             | Some [a; b] => mret [a; b]
             | Some _ => raise (ValueError "F_distribution should be a tuple of strings or None")
             end) w0 = Ok ([a; b], w0)).
  { intros w0. destruct HFd as [(-> & -> & ->)| ->]; reflexivity. }
  rewrite Hstep. msimpl. cbn [nth].
  assert (Hbin : forall b', Fd = Some ["Binary"; b']%string ->
                   a = "Binary"%string /\ b' = b).
  { intros b' ->. destruct HFd as [(C & _)|C]; [discriminate|].
    injection C as <- <-. split; reflexivity. }
  destruct (String.eqb b "Real") eqn:Eb;
    destruct Ha as [-> | ->]; cbn [String.eqb Ascii.eqb Bool.eqb].
  - draw_normal xs L.
    do 5 eexists. split; [reflexivity|]. split; [reflexivity|].
    split; [cbn [real_matrix data]; rewrite List.length_map; exact L|].
    split; [discriminate|]. split; [intros _; lia|]. split; [exact N1|].
    split; [cbn [trace]; rewrite T1; reflexivity|]. split; [apply only_draws_1|].
    split; [exact U1|]. split; [exact U2|].
    intros b' Hb'. destruct (Hbin b' Hb') as [C _]. discriminate.
  - draw_randint xs L Hx.
    do 5 eexists. split; [reflexivity|]. split; [reflexivity|].
    split; [cbn [real_matrix data]; rewrite !List.length_map; exact L|].
    split; [discriminate|]. split; [intros _; lia|]. split; [exact N1|].
    split; [cbn [trace]; rewrite T1; reflexivity|]. split; [apply only_draws_1|].
    split; [exact U1|]. split; [exact U2|].
    intros b' Hb'. destruct (Hbin b' Hb') as [_ ->]. rewrite Eb. cbn [negb real_matrix data].
    eapply Forall_impl; [|apply (binary_signs xs Hx)].
    intros z [Hr Hi]. split; assumption.
  - draw_normal xs L. draw_normal ys L'.
    unfold np.add. cbn [shape real_matrix np.times_1j].
    destruct (decide ([nr; nt] = [nr; nt])) as [_|Hne]; [|congruence]. msimpl.
    do 5 eexists. split; [reflexivity|]. split; [reflexivity|].
    split.
    { cbn [data real_matrix np.times_1j].
      rewrite List.length_map, length_combine, !List.length_map, L, L'. lia. }
    split; [intros _; lia|]. split; [intros C; exfalso; apply C; reflexivity|].
    split; [exact N1|].
    split; [cbn [trace]; rewrite T1, <- List.app_assoc; reflexivity|].
    split; [apply only_draws_2|]. split; [exact U1|]. split; [exact U2|].
    intros b' Hb'. destruct (Hbin b' Hb') as [C _]. discriminate.
  - draw_randint xs L Hx. draw_randint ys L' Hy.
    unfold np.add. cbn [shape real_matrix np.times_1j].
    destruct (decide ([nr; nt] = [nr; nt])) as [_|Hne]; [|congruence]. msimpl.
    do 5 eexists. split; [reflexivity|]. split; [reflexivity|].
    split.
    { cbn [data real_matrix np.times_1j].
      rewrite List.length_map, length_combine, !List.length_map, L, L'. lia. }
    split; [intros _; lia|]. split; [intros C; exfalso; apply C; reflexivity|].
    split; [exact N1|].
    split; [cbn [trace]; rewrite T1, <- List.app_assoc; reflexivity|].
    split; [apply only_draws_2|]. split; [exact U1|]. split; [exact U2|].
    intros b' Hb'. destruct (Hbin b' Hb') as [_ ->]. rewrite Eb.
    cbn [negb data real_matrix np.times_1j].
    apply (combine_entries
             (fun z => (re z = 1%Z \/ re z = (-1)%Z) /\ im z = 0%Z)
             (fun z => (re z = 1%Z \/ re z = (-1)%Z) /\ im z = 0%Z));
      [|apply (binary_signs xs Hx)|apply (binary_signs ys Hy)].
    intros z1 z2 [Ra Ia] [Rb Ib].
    unfold binary_entry, Cadd, Ci_mul. cbn [re im]. rewrite Ia, Ib. split; lia.
Qed.

End Channel.

Section ChannelErrors.
Context `{NumpyRandom}.

Lemma or_new_total (rs : random_state_arg) (w : world) :
  exists rs' w', or_new_RandomState rs w = Ok (rs', w') /\
                 (forall z, rs = RSInt z -> rs' = RSInt z).
Proof.
  destruct rs as [|z|s]; do 2 eexists; (split; [reflexivity|]); intros z' C;
    try discriminate; exact C.
Qed.


(** X16.  What [create_channel] raises: [ValueError] for a distribution
    that is not a pair; [UnboundLocalError] for a pair whose first name is
    neither ['Normal'] nor ['Binary'] (the channel is never assigned);
    [AttributeError] for an integer [random_state]. *)
Theorem create_channel_errors (nr nt : nat) (rs : random_state_arg) (w : world) :
  (forall l, List.length l <> 2 ->
     exists msg, create_channel nr nt (Some l) rs w = Raise (ValueError msg)) /\
  (forall a b, a <> "Normal"%string -> a <> "Binary"%string ->
     create_channel nr nt (Some [a; b]) rs w = Raise UnboundLocalError) /\
  (forall z Fd, rs = RSInt z -> known_distribution Fd ->
     create_channel nr nt Fd rs w = Raise AttributeError).
Proof.
  destruct (or_new_total rs w) as (rs' & w' & E & Hint).
  split; [|split].
  - intros l Hl. unfold create_channel. rewrite run_bind, E. msimpl.
    destruct l as [|a [|b [|c l]]]; cbn [List.length] in Hl; try lia;
      try rewrite run_bind; eexists; reflexivity.
  - intros a b Ha Hb. unfold create_channel. rewrite run_bind, E. msimpl. cbn [nth].
    apply String.eqb_neq in Ha, Hb. rewrite Ha, Hb. reflexivity.
  - intros z Fd -> Hk. unfold create_channel. rewrite run_bind.
    cbn [or_new_RandomState]. msimpl.
    destruct Hk as [->|(a & b & -> & Ha)]; msimpl; cbn [nth].
    + cbn [String.eqb Ascii.eqb Bool.eqb]. try rewrite run_bind. reflexivity.
    + destruct Ha as [-> | ->]; cbn [String.eqb Ascii.eqb Bool.eqb];
        destruct (String.eqb b "Real"); try rewrite run_bind; reflexivity.
Qed.

End ChannelErrors.

Lemma choice_entries (amps : ndarray) (idx : list nat) :
  data amps <> [] ->
  Forall (fun z => In z (data amps))
         (List.map (fun i => at1 amps (i mod List.length (data amps))) idx).
Proof.
  intros Ha. apply Forall_forall. intros z Hz. apply in_map_iff in Hz as (i & <- & _).
  unfold at1. apply nth_In. apply Nat.mod_upper_bound.
  destruct (data amps); [congruence|discriminate].
Qed.

Section Symbols.
Context `{NumpyRandom}.

Lemma np_random_choice_values (amps : ndarray) (n : nat) (w : world) :
  data amps <> [] ->
  exists a g, np_random_choice amps n w =
              Ok (a, World g (urandom w) (trace w ++ [Draw ProcessWide n])) /\
              shape a = [n; 1] /\ adtype a = adtype amps /\
              List.length (data a) = n /\ Forall (fun z => In z (data amps)) (data a).
Proof.
  intros Ha. unfold np_random_choice. destruct (data amps) as [|z l] eqn:E; [congruence|].
  pose proof (draws_length (next_below (List.length (z :: l))) n (np_random w)) as L.
  destruct (draws _ n (np_random w)) as [idx g]. cbn [fst] in L.
  do 2 eexists. split; [reflexivity|]. split; [reflexivity|]. split; [reflexivity|].
  cbn [data]. split; [rewrite List.length_map; exact L|].
  rewrite <- E. apply choice_entries. rewrite E. discriminate.
Qed.

Lemma generated_symbols_core (m : string) (bits : nat) (amps : ndarray) (power : Q)
    (n : nat) (w : world) :
  supported m -> constellation_properties m = Ok (bits, amps, power) ->
  exists v w',
    create_transmitted_symbols n amps (negb (String.eqb m "BPSK")) w = Ok (v, w') /\
    shape v = [n; 1] /\ valid_constellation m v n /\
    Forall (fun z => (0 < re z)%Z /\ (0 <= im z)%Z) (data v) /\
    urandom w' = urandom w.
Proof.
  intros Hm Hcp.
  assert (Hamps : data amps <> [] /\ adtype amps <> complex128 /\
                  forall z, In z (data amps) ->
                    (0 < re z)%Z /\ im z = 0%Z /\ signed_amplitude amps (re z)).
  { unfold signed_amplitude.
    destruct Hm as [<-|[<-|[<-|[<-|[]]]]]; vm_compute in Hcp; injection Hcp as _ <- _;
      (split; [discriminate|]); (split; [discriminate|]);
      intros z Hz; cbn [data] in *;
      repeat (destruct Hz as [<-|Hz]; [cbn; intuition lia|]); destruct Hz. }
  destruct Hamps as (Ha & Ht & Hin).
  unfold create_transmitted_symbols.
  destruct (String.eqb m "BPSK") eqn:Eb; cbn [negb].
  - destruct (np_random_choice_values amps n w Ha) as (a & g & Ea & Sa & Ta & La & Da).
    rewrite Ea. do 2 eexists. split; [reflexivity|]. split; [exact Sa|].
    split.
    + exists bits, amps, power. split; [exact Hcp|]. split; [right; exact Sa|].
      split; [exact La|]. rewrite Eb. split; [rewrite Ta; exact Ht|].
      eapply Forall_impl; [|exact Da]. intros z Hz.
      destruct (Hin z Hz) as (_ & Hi & Hs). split; assumption.
    + split; [|reflexivity].
      eapply Forall_impl; [|exact Da]. intros z Hz.
      destruct (Hin z Hz) as (Hp & Hi & _). split; [exact Hp|lia].
  - destruct (np_random_choice_values amps n w Ha) as (a & g & Ea & Sa & Ta & La & Da).
    msimpl. rewrite Ea. msimpl.
    match goal with |- context [np_random_choice amps n ?w1] =>
      destruct (np_random_choice_values amps n w1 Ha) as (b & g' & Eb' & Sb & Tb & Lb & Db) end.
    rewrite Eb'. msimpl.
    unfold lift, np.add. cbn [shape np.times_1j]. rewrite Sa, Sb.
    destruct (decide ([n; 1] = [n; 1])) as [_|Hne]; [|congruence].
    do 2 eexists. split; [reflexivity|]. split; [reflexivity|].
    assert (Hall : Forall (fun z => ((0 < re z)%Z /\ (0 <= im z)%Z) /\
                                    signed_amplitude amps (re z) /\
                                    signed_amplitude amps (im z))
                     (List.map (fun p => Cadd (fst p) (snd p))
                               (combine (data a) (List.map Ci_mul (data b))))).
    { apply (combine_entries (fun z => In z (data amps)) (fun z => In z (data amps)));
        [|exact Da|exact Db].
      intros z1 z2 H1 H2. destruct (Hin z1 H1) as (P1 & I1 & S1).
      destruct (Hin z2 H2) as (P2 & I2 & S2).
      unfold Cadd, Ci_mul. cbn [re im]. rewrite I1, I2.
      replace (re z1 + - 0)%Z with (re z1) by lia. replace (0 + re z2)%Z with (re z2) by lia.
      repeat split; try assumption; lia. }
    split.
    + exists bits, amps, power. split; [exact Hcp|]. split; [right; reflexivity|].
      split.
      { cbn [data np.times_1j].
        rewrite List.length_map, length_combine, List.length_map, La, Lb. lia. }
      rewrite Eb. split; [cbn [adtype np.times_1j]; apply promote_complex_r|].
      cbn [data np.times_1j]. eapply Forall_impl; [|exact Hall]. intros z [_ Hz]. exact Hz.
    + split; [|reflexivity].
      cbn [data np.times_1j]. eapply Forall_impl; [|exact Hall]. intros z [Hz _]. exact Hz.
Qed.


(** X17.  [create_transmitted_symbols], called as [create_signal] calls it
    for one of the four modulations, returns a vector of [n] constellation
    symbols that [symbols_to_spins] encodes; the amplitudes it draws from
    are unsigned, so every symbol has a positive real part and an imaginary
    part that is not negative. *)
Theorem generated_symbols_valid (m : string) (bits : nat) (amps : ndarray) (power : Q)
    (n : nat) (w : world) :
  supported m -> constellation_properties m = Ok (bits, amps, power) ->
  exists v w',
    create_transmitted_symbols n amps (negb (String.eqb m "BPSK")) w = Ok (v, w') /\
    valid_constellation m v n /\
    Forall (fun z => (0 < re z)%Z /\ (0 <= im z)%Z) (data v) /\
    (exists s, symbols_to_spins v m = Ok s).
Proof.
  intros Hm Hcp.
  destruct (generated_symbols_core m bits amps power n w Hm Hcp)
    as (v & w' & E & Sv & Hv & Hpos & _).
  exists v, w'. split; [exact E|]. split; [exact Hv|]. split; [exact Hpos|].
  destruct (supported_cases m bits amps power Hm Hcp) as [(-> & _ & _)|(K & Hcode & _)].
  - exists v. unfold symbols_to_spins, np.len. rewrite Sv. reflexivity.
  - destruct (valid_constellation_code m v n K amps Hcode Hv) as (_ & Hl & _ & Hall).
    destruct (symbols_to_spins_planes v m K amps n [1] Hcode Sv Hl Hall) as (dt & so & Es & _).
    eexists. exact Es.
Qed.

End Symbols.

(** ** Signals and single-cell models *)

Lemma symbol_values_column (v : ndarray) (n l : nat) :
  shape v = [n; 1] -> at2 v l 0 = symbol_values v l.
Proof.
  intros Sv. unfold at2, symbol_values, dim. rewrite Sv. cbn [nth]. f_equal. lia.
Qed.

Lemma valid_symbols_within (m : string) (v : ndarray) (n : nat) :
  supported m -> valid_constellation m v n -> entries_within 7 v.
Proof.
  intros Hm (b & a & p & Ecp & _ & _ & Hval).
  destruct (amplitude_bound m b a p Hm Ecp) as (M & EM & _ & _ & Hsa).
  assert (HM : (M <= 7)%Z).
  { destruct Hm as [<-|[<-|[<-|[<-|[]]]]]; cbn in EM; injection EM as <-; lia. }
  split; [lia|].
  destruct (String.eqb m "BPSK"); destruct Hval as [_ Hval];
    (eapply Forall_impl; [|exact Hval]); intros z [Hr Hi]; cbn beta in Hr, Hi.
  - apply Hsa in Hr. split; [lia|rewrite Hi; cbn; lia].
  - apply Hsa in Hr. apply Hsa in Hi. split; lia.
Qed.

Lemma column_within (y : ndarray) (nr : nat) (M : Z) :
  shape y = [nr; 1] -> List.length (data y) = nr -> (0 <= M)%Z ->
  (forall i, i < nr -> within M (at2 y i 0)) -> entries_within M y.
Proof.
  intros Sy Ly HM Hy. split; [exact HM|]. apply Forall_forall. intros z Hz.
  apply (In_nth _ _ C0) in Hz as (p & Hp & <-).
  specialize (Hy p ltac:(lia)). unfold at2, dim in Hy. rewrite Sy in Hy. cbn [nth] in Hy.
  replace (p * 1 + 0) with p in Hy by lia. exact Hy.
Qed.

(** The product [F v] of a channel with entries of magnitude at most [B] and
    a vector of constellation symbols, whose parts are at most [7]. *)
Lemma matvec_symbols (F v Fv : ndarray) (nr nt : nat) (m : string) (B : Z) :
  shape F = [nr; nt] -> shape v = [nt; 1] -> supported m -> valid_constellation m v nt ->
  entries_within B F -> (14 * Z.of_nat nt * B <= 2 ^ 53)%Z ->
  (forall i, i < nr ->
     at2 Fv i 0 = np.dot (promote (adtype F) (adtype v)) nt
                    (fun l => at2 F i l) (fun l => at2 v l 0)) ->
  forall i, i < nr ->
    at2 Fv i 0 = matvec nt F (symbol_values v) i /\
    within (14 * Z.of_nat nt * B) (at2 Fv i 0).
Proof.
  intros SF Sv Hm Hv BF Hb VFv i Hi.
  pose proof (valid_symbols_within m v nt Hm Hv) as Bv.
  assert (HB : (0 <= B)%Z) by apply BF.
  assert (E : at2 Fv i 0 = matvec nt F (symbol_values v) i).
  { rewrite (VFv i Hi).
    rewrite (dot_exact _ nt _ _ B 7 HB ltac:(lia)).
    - unfold matvec. apply Csum_ext. intros l Hl.
      rewrite (symbol_values_column v nt l Sv). reflexivity.
    - intros Hnt. split; [nia|lia].
    - intros l _. apply at2_within. exact BF.
    - intros l _. apply at2_within. exact Bv.
    - lia. }
  split; [exact E|]. rewrite E. unfold matvec.
  replace (14 * Z.of_nat nt * B)%Z
    with (Z.of_nat (List.length (List.map (fun k => Cmul (at2 F i k) (symbol_values v k))
                                          (seq 0 nt))) * (2 * B * 7))%Z
    by (rewrite List.length_map, List.length_seq; ring).
  apply within_Csum; [lia|]. apply Forall_forall. intros z Hz.
  apply in_map_iff in Hz as (l & <- & Hl). apply in_seq in Hl.
  apply within_Cmul; [apply at2_within; exact BF|].
  rewrite <- (symbol_values_column v nt l Sv). apply at2_within. exact Bv.
Qed.

Section Signal.
Context `{NumpyRandom}.

Lemma create_signal_values (F : ndarray) (nr nt cp bits : nat) (m : string)
    (amps : ndarray) (power : Q) (SNRb : snr) (rs : random_state_arg) (w : world) :
  shape F = [nr; nt] -> supported m -> constellation_properties m = Ok (bits, amps, power) ->
  (SNRb <> Inf -> forall z, rs <> RSInt z) -> usable_SNRb SNRb ->
  exists y v noise rs' w',
    create_signal F None None SNRb m (Some cp) rs w = Ok ((y, v, noise, rs'), w') /\
    shape y = [nr; 1] /\ valid_constellation m v nt /\ shape v = [nt; 1] /\
    (m <> "BPSK"%string -> adtype y = complex128) /\
    (SNRb = Inf ->
     noise = None /\ List.length (data y) = nr /\
     forall i, i < nr ->
       at2 y i 0 = np.dot (promote (adtype F) (adtype v)) nt
                     (fun l => at2 F i l) (fun l => at2 v l 0)).
Proof.
  intros HF Hm Ec Hrs Hq. unfold create_signal. rewrite HF, Ec. msimpl.
  destruct (or_new_total rs w) as (rs1 & w1 & E1 & Hint). rewrite E1. msimpl.
  assert (Hsym : exists v w2,
            (if String.eqb m "BPSK"
             then create_transmitted_symbols nt amps false
             else create_transmitted_symbols nt amps true) w1 = Ok (v, w2) /\
            shape v = [nt; 1] /\ valid_constellation m v nt).
  { destruct (generated_symbols_core m bits amps power nt w1 Hm Ec)
      as (v & w2 & E & Sv & Hv & _).
    exists v, w2. split; [|split; assumption].
    destruct (String.eqb m "BPSK"); exact E. }
  destruct Hsym as (v & w2 & E2 & Sv & Hv). rewrite E2. msimpl.
  destruct (matmul_2d F v nr nt 1 HF Sv) as (Fv & EFv & SFv & TFv & DFv & VFv).
  assert (Hcx : m <> "BPSK"%string -> adtype Fv = complex128).
  { intros Hb. rewrite TFv.
    destruct Hv as (b & a & p & _ & _ & _ & Hval).
    apply String.eqb_neq in Hb. rewrite Hb in Hval. destruct Hval as [-> _].
    apply promote_complex_r. }
  destruct SNRb as [q|]; cbn [snr_nonpositive].
  - cbn [usable_SNRb] in Hq.
    assert (Eq : Qle_bool q 0 = false).
    { destruct (Qle_bool q 0) eqn:E; [|reflexivity].
      apply Qle_bool_iff in E. exfalso. apply (Qlt_irrefl 0), (Qlt_le_trans _ q); assumption. }
    rewrite Eq. msimpl.
    assert (Hobj : exists s, rs1 = RSObject s).
    { destruct rs as [|z|s]; cbn in E1.
      - injection E1 as <- _. eauto.
      - exfalso. apply (Hrs ltac:(discriminate) z). reflexivity.
      - injection E1 as <- _. eauto. }
    destruct Hobj as [s ->]. cbn [or_new_RandomState]. msimpl.
    destruct (dtype_eqb (adtype v) float64 && dtype_eqb (adtype F) float64).
    + run_normal. rewrite EFv. msimpl.
      unfold lift, np.add. cbn [shape real_matrix]. rewrite SFv.
      destruct (decide ([nr; 1] = [nr; 1])) as [_|Hne]; [|congruence].
      do 5 eexists. split; [reflexivity|]. split; [reflexivity|].
      split; [exact Hv|]. split; [exact Sv|].
      split; [|intros C; discriminate].
      intros Hb. cbn [adtype]. rewrite (Hcx Hb). apply promote_complex_r.
    + run_normal. run_normal.
      unfold np.add at 1. cbn [shape real_matrix np.times_1j].
      destruct (decide ([nr; 1] = [nr; 1])) as [_|Hne]; [|congruence]. msimpl.
      rewrite EFv. msimpl.
      unfold lift, np.add. cbn [shape]. rewrite SFv.
      destruct (decide ([nr; 1] = [nr; 1])) as [_|Hne]; [|congruence].
      do 5 eexists. split; [reflexivity|]. split; [reflexivity|].
      split; [exact Hv|]. split; [exact Sv|].
      split; [|intros C; discriminate].
      intros Hb. cbn [adtype]. rewrite (Hcx Hb). apply promote_complex_r.
  - rewrite EFv. msimpl.
    do 5 eexists. split; [reflexivity|]. split; [exact SFv|].
    split; [exact Hv|]. split; [exact Sv|]. split; [exact Hcx|].
    intros _. split; [reflexivity|].
    split; [rewrite DFv, length_tabulate2; lia|].
    intros i Hi. apply (VFv i 0 Hi). lia.
Qed.

End Signal.

Lemma yF_to_hJ_coded_shapes (y F : ndarray) (nr nt bits : nat) (m : string)
    (amps : ndarray) (power : Q) :
  shape y = [nr; 1] -> shape F = [nr; nt] -> 0 < nt ->
  supported m -> constellation_properties m = Ok (bits, amps, power) ->
  (m <> "BPSK"%string -> adtype y = complex128 \/ adtype F = complex128) ->
  exists h J offset,
    _yF_to_hJ y F m = Ok (h, J, offset) /\
    shape h = [bits * nt; 1] /\ shape J = [bits * nt; bits * nt].
Proof.
  intros Hy HF Hnt Hm Hcp Hc.
  destruct (quadratic_form_run y F nr nt Hy HF)
    as (offset & h0 & J0 & E0 & _ & _ & _ & Sh0 & Lh0 & Th0 & _ & SJ0 & LJ0 & _).
  destruct (supported_cases m bits amps power Hm Hcp) as [(-> & -> & ->)|(K & Hcode & ->)].
  - exists (np.real h0), (np.real J0), offset.
    split; [unfold _yF_to_hJ; rewrite E0; reflexivity|].
    rewrite Nat.mul_1_l. split; [exact Sh0|exact SJ0].
  - assert (Hb : is_modulation (Some m) "BPSK" = false)
      by (destruct Hcode as [(-> & _)|[(-> & _)|(-> & _)]]; reflexivity).
    assert (Hc0 : adtype h0 = complex128 \/ adtype J0 = complex128).
    { left. rewrite Th0.
      destruct Hc as [-> | ->]; [|apply promote_complex_r|reflexivity].
      destruct Hcode as [(-> & _)|[(-> & _)|(-> & _)]]; discriminate. }
    destruct (real_projection_entries h0 J0 nt (Some m) Sh0 SJ0 Lh0 LJ0 Hb Hc0)
      as (hR & JR & E1 & ShR & SJR & _).
    destruct (amplitude_entries hR JR (nt + nt) K m amps ShR SJR Hcode)
      as (hA & JA & E2 & ShA & SJA & _).
    exists hA, JA, offset.
    split; [unfold _yF_to_hJ; rewrite E0; cbn [mbind result_bind]; rewrite E1;
            cbn [mbind result_bind]; rewrite E2; reflexivity|].
    replace (2 * K * nt) with (K * (nt + nt)) by lia.
    split; [exact ShA|exact SJA].
Qed.

Lemma NoDup_LIdx (n : nat) : base.NoDup (List.map LIdx (seq 0 n)).
Proof.
  rewrite <- fmap_is_map. apply NoDup_fmap_2; [intros i j; apply LIdx_inj|apply NoDup_seq].
Qed.

Section Model.
Context `{NumpyRandom}.

Lemma mimo_model_count (y F : ndarray) (nr nt bits : nat) (m : string)
    (amps : ndarray) (power : Q) (use_offset : bool) (w : world) :
  shape y = [nr; 1] -> shape F = [nr; nt] -> 0 < nt ->
  supported m -> constellation_properties m = Ok (bits, amps, power) ->
  (m <> "BPSK"%string -> adtype y = complex128 \/ adtype F = complex128) ->
  exists b,
    ('(h, J, offset) ← lift (_yF_to_hJ y F m);
     h0 ← lift (np.column0 h);
     if use_offset then
       mret (BQM_of_arrays h0 J "SPIN" (re (at2 offset 0 0)))
     else
       J ← lift (np.fill_diagonal0 J);
       mret (BQM_of_arrays h0 J "SPIN" 0%Z)) w = Ok (b, w) /\
    variables b = list_to_set (List.map LIdx (seq 0 (bits * nt))).
Proof.
  intros Hy HF Hnt Hm Hcp Hc.
  destruct (yF_to_hJ_coded_shapes y F nr nt bits m amps power Hy HF Hnt Hm Hcp Hc)
    as (h & J & off & E & Sh & SJ).
  rewrite E. msimpl. unfold np.column0. rewrite Sh. cbn [Nat.eqb]. msimpl.
  destruct use_offset.
  - eexists. split; [reflexivity|]. rewrite variables_BQM_of_arrays. reflexivity.
  - unfold np.fill_diagonal0. rewrite SJ. msimpl.
    eexists. split; [reflexivity|]. rewrite variables_BQM_of_arrays. reflexivity.
Qed.


Lemma generated_model_core (m : string) (bits : nat) (amps : ndarray) (power : Q)
    (nt nr : nat) (SNRb : snr) (seed : option Z) (Fd : option (list string))
    (use_offset : bool) (w : world) :
  supported m -> constellation_properties m = Ok (bits, amps, power) ->
  0 < nt -> 0 < nr -> usable_SNRb SNRb -> known_distribution Fd ->
  exists b w',
    spin_encoded_mimo m None None None None (Some nt) (Some nr) SNRb seed Fd use_offset w
    = Ok (b, w') /\
    variables b = list_to_set (List.map LIdx (seq 0 (bits * nt))) /\
    num_variables b = bits * nt.
Proof.
  intros Hm Hcp Hnt Hnr Hq Hk. unfold spin_encoded_mimo. msimpl.
  assert (E1 : (0 <? nt) = true) by (apply Nat.ltb_lt; exact Hnt).
  assert (E2 : (0 <? nr) = true) by (apply Nat.ltb_lt; exact Hnr).
  rewrite E1, E2. cbn [negb]. msimpl.
  destruct (RandomState_run seed w) as (s & w1 & Es & T1 & _). rewrite Es. msimpl.
  destruct (create_channel_run nr nt Fd s w1 Hk)
    as (F & cp & s' & w2 & evc & Ec & SF & _).
  rewrite Ec. msimpl.
  destruct (create_signal_values F nr nt cp bits m amps power SNRb (RSObject s') w2
              SF Hm Hcp ltac:(intros _ z; discriminate) Hq)
    as (y & v & noise & rs' & w3 & Ey & Sy & _ & _ & Ty & _).
  rewrite Ey. msimpl.
  destruct (mimo_model_count y F nr nt bits m amps power use_offset w3 Sy SF Hnt Hm Hcp
              ltac:(intros Hb; left; apply Ty; exact Hb)) as (b & Eb & Vb).
  revert Eb. msimpl. intros Eb. rewrite Eb.
  exists b, w3. split; [reflexivity|]. split; [exact Vb|].
  unfold num_variables. rewrite Vb.
  rewrite size_list_to_set by apply NoDup_LIdx.
  rewrite length_map, length_seq. reflexivity.
Qed.

(** X18.  A generated problem has one spin per bit of each transmitter: for
    each of the four modulations [spin_encoded_mimo] with [nt] transmitters
    returns a model on the variables [0 .. bits * nt - 1]. *)
Theorem generated_model_variables (m : string) (bits : nat) (amps : ndarray) (power : Q)
    (nt nr : nat) (SNRb : snr) (seed : option Z) (Fd : option (list string))
    (use_offset : bool) (w : world) :
  supported m -> constellation_properties m = Ok (bits, amps, power) ->
  0 < nt -> 0 < nr -> usable_SNRb SNRb -> known_distribution Fd ->
  exists b w',
    spin_encoded_mimo m None None None None (Some nt) (Some nr) SNRb seed Fd use_offset w
    = Ok (b, w') /\
    variables b = list_to_set (List.map LIdx (seq 0 (bits * nt))) /\
    num_variables b = bits * nt.
Proof.
  intros Hm Hcp Hnt Hnr Hq Hk.
  exact (generated_model_core m bits amps power nt nr SNRb seed Fd use_offset w
           Hm Hcp Hnt Hnr Hq Hk).
Qed.


(** X19.  Without noise ([SNRb] infinite) the transmitted symbols are a
    ground state: the model of the signal that [create_signal] returns has
    the energy zero at the spins of the transmitted symbols, and no real
    assignment has a negative energy.  The channel has integer entries of
    magnitude at most [B]; the parts of the symbols are at most [7], the
    entries of [y = F v] at most [14 nt B], and with
    [2 nr (14 nt B)^2 <= 2^53] no product is rounded or wraps. *)
Theorem noiseless_ground_state (F : ndarray) (nr nt cp bits : nat) (m : string)
    (amps : ndarray) (power : Q) (rs : random_state_arg) (w : world) (B : Z) :
  shape F = [nr; nt] -> 0 < nt ->
  supported m -> constellation_properties m = Ok (bits, amps, power) ->
  entries_within B F ->
  (2 * Z.of_nat nr * (14 * Z.of_nat nt * B) * (14 * Z.of_nat nt * B) <= 2 ^ 53)%Z ->
  exists y v rs' w' h J offset s,
    create_signal F None None Inf m (Some cp) rs w = Ok ((y, v, None, rs'), w') /\
    _yF_to_hJ y F m = Ok (h, J, offset) /\
    symbols_to_spins v m = Ok s /\
    (re (at2 offset 0 0) + ising_value (bits * nt) h J (spin_values s))%Z = 0%Z /\
    forall spins, shape spins = [bits * nt] -> Forall (fun z => im z = 0%Z) (data spins) ->
      (0 <= re (at2 offset 0 0) + ising_value (bits * nt) h J (spin_values spins))%Z.
Proof.
  intros HF Hnt Hm Hcp BF Hb.
  destruct (create_signal_values F nr nt cp bits m amps power Inf rs w
              HF Hm Hcp ltac:(intros C; contradiction) I)
    as (y & v & noise & rs' & w' & Ey & Sy & Hv & Sv & Ty & Hinf).
  destruct (Hinf eq_refl) as (-> & Ly & Vy).
  assert (HB : (0 <= B)%Z) by apply BF.
  set (M := (14 * Z.of_nat nt * B)%Z) in *.
  assert (HM : (B <= M)%Z) by (unfold M; nia).
  assert (Hy0 : forall i, i < nr ->
            at2 y i 0 = matvec nt F (symbol_values v) i /\ within M (at2 y i 0)).
  { intros i Hi. apply (matvec_symbols F v y nr nt m B HF Sv Hm Hv BF); [|exact Vy|exact Hi].
    fold M. nia. }
  assert (By : entries_within M y).
  { apply (column_within y nr M Sy Ly); [lia|]. intros i Hi. apply (Hy0 i Hi). }
  assert (BF' : entries_within M F).
  { split; [lia|]. eapply Forall_impl; [|apply BF]. intros z. apply within_mono. exact HM. }
  assert (Hc : m <> "BPSK"%string -> adtype y = complex128 \/ adtype F = complex128)
    by (intros Hb'; left; apply Ty; exact Hb').
  destruct (transmitted_energy_core y F v nr nt bits m amps power M Sy HF By BF' Hb Hnt Hm Hcp
              Hc Hv)
    as (h & J & offset & s & E & Es & _ & Hz).
  exists y, v, rs', w', h, J, offset, s.
  split; [exact Ey|]. split; [exact E|]. split; [exact Es|].
  split; [apply Hz; intros i Hi; apply (Hy0 i Hi)|].
  intros spins Hs Hreal.
  destruct (spin_energy_nonneg y F spins nr nt bits m amps power M Sy HF By BF' Hb Hnt Hm Hcp
              Hc Hs Hreal)
    as (h' & J' & offset' & E' & En).
  rewrite E in E'. injection E' as <- <- <-. exact En.
Qed.

End Model.

(** *** The cooperative model with QPSK *)

Lemma variables_relabel_partial (labels : list label) (extra : nat) (b : bqm) :
  variables b = list_to_set (List.map LIdx (seq 0 (List.length labels + extra))) ->
  variables (relabel_variables (enumerate_map labels) b) =
  list_to_set labels ∪ list_to_set (List.map LIdx (seq (List.length labels) extra)).
Proof.
  intros Hb. apply set_eq. intros x.
  rewrite elem_of_relabelled, elem_of_union, !elem_of_list_to_set.
  split.
  - intros (v & Hv & ->). rewrite Hb, elem_of_list_to_set, list_elem_of_In in Hv.
    apply in_map_iff in Hv as (i & <- & Hi). apply in_seq in Hi.
    unfold relabel. rewrite enumerate_map_lookup.
    destruct (Nat.lt_ge_cases i (List.length labels)) as [Hlt|Hge].
    + destruct (lookup_lt_is_Some_2 labels i Hlt) as [l Hl]. rewrite Hl. cbn.
      left. apply list_elem_of_lookup. eauto.
    + rewrite (proj2 (lookup_ge_None labels i) Hge). cbn.
      right. apply list_elem_of_In, in_map, in_seq. lia.
  - intros [Hx|Hx].
    + apply list_elem_of_lookup in Hx as [i Hi].
      exists (LIdx i). split.
      * rewrite Hb, elem_of_list_to_set, list_elem_of_In. apply in_map, in_seq.
        apply lookup_lt_Some in Hi. lia.
      * unfold relabel. rewrite enumerate_map_lookup, Hi. reflexivity.
    + apply list_elem_of_In, in_map_iff in Hx as (i & <- & Hi). apply in_seq in Hi.
      exists (LIdx i). split.
      * rewrite Hb, elem_of_list_to_set, list_elem_of_In. apply in_map, in_seq. lia.
      * unfold relabel. rewrite enumerate_map_lookup.
        rewrite (proj2 (lookup_ge_None labels i)) by lia. reflexivity.
Qed.

Lemma lattice_variables_pairs (G : Graph) (t i : nat) : ~ In (LIdx i) (lattice_variables G t).
Proof.
  unfold lattice_variables. intros Hx. apply in_flat_map in Hx as (bs & _ & Hx).
  apply in_map_iff in Hx as (j & E & _). discriminate E.
Qed.

Section CooperativeQPSK.
Context `{NumpyRandom}.

Lemma comp_step_QPSK (G : Graph) (t nr : nat) (SNRb : snr) (seed : option Z)
    (Fd : option (list string)) (use_offset : bool) (acc : bqm) (bs : label) (w : world) :
  simple_graph G -> 0 < t -> 0 < nr -> usable_SNRb SNRb -> known_distribution Fd ->
  exists b w',
    comp_step G "QPSK" None None None None t nr SNRb seed Fd use_offset acc bs w = Ok (b, w') /\
    variables b =
      variables acc ∪
      (list_to_set (geometric_labels G t bs) ∪
       list_to_set (List.map LIdx (seq (t * (1 + degree G bs)) (t * (1 + degree G bs))))).
Proof.
  intros HG Ht Hnr Hq Hk. unfold comp_step, cell_call_of, per_node.
  cbn [mbind result_bind]. msimpl.
  cbn [cell_y cell_F cell_num_transmitters cell_num_receivers cell_SNRb].
  destruct (generated_model_core "QPSK" 2 ones1 (twice_mean_square ones1)
              (t * (1 + degree G bs)) nr SNRb seed Fd use_offset w
              ltac:(right; left; reflexivity) eq_refl ltac:(nia) Hnr Hq Hk)
    as (b & w' & E & Vb & _).
  rewrite E. msimpl.
  eexists _, w'. split; [reflexivity|].
  rewrite variables_bqm_add. f_equal.
  assert (L : List.length (geometric_labels G t bs) = t * (1 + degree G bs)).
  { rewrite length_geometric_labels.
    rewrite (degree_neighbors G bs) by (intros e He; apply (proj2 HG e He)). reflexivity. }
  rewrite <- L. apply variables_relabel_partial.
  rewrite Vb, L. do 3 f_equal. lia.
Qed.

(** C2, on the code.  With QPSK, which [spin_encoded_comp] accepts, the
    model of a cell has two spins for each of its [t (1 + degree)]
    transmitters, and the labels [(node, i)] are made for the first half of
    them only.  On a simple graph of basestations with [t >= 1], generated
    channels and signals, and [SNRb] infinite (or finite on a lattice that
    carries the attributes the division reads), the joint model has the
    variables [(node, i)] and, for each node [bs], the integers from
    [t (1 + degree bs)] up to [2 t (1 + degree bs) - 1] that no label
    replaced; integers of different cells that coincide are merged.  On a
    graph with a node the variables are therefore not the [|nodes| * t]
    identifiers [(node, i)]: there are more of them. *)
Theorem comp_QPSK_unlabelled_spins (G : Graph) (t nr : nat) (SNRb : snr) (seed : option Z)
    (Fd : option (list string)) (use_offset : bool) (w : world) :
  simple_graph G -> 0 < t -> 0 < nr -> usable_SNRb SNRb -> known_distribution Fd ->
  SNRb = Inf \/ (counts_set G /\ G_nodes G <> []) ->
  exists b w',
    spin_encoded_comp (inr G) "QPSK" None None None None (Some t) (Some nr) SNRb seed Fd
                      use_offset w = Ok (b, w') /\
    (forall x, x ∈ variables b <->
       In x (lattice_variables G t) \/
       exists bs i, In bs (G_nodes G) /\ x = LIdx i /\
         t * (1 + degree G bs) <= i < 2 * (t * (1 + degree G bs))) /\
    (G_nodes G <> [] ->
     variables b <> list_to_set (lattice_variables G t) /\
     number_of_nodes G * t < num_variables b).
Proof.
  intros HG Ht Hnr Hq Hk Hne.
  assert (Hs : exists SNRb', spread_SNRb G SNRb = Ok SNRb' /\ usable_SNRb SNRb').
  { destruct SNRb as [q|]; [|exists Inf; split; [reflexivity|exact I]].
    destruct Hne as [C|[Hc Hne]]; [discriminate|].
    destruct (spread_SNRb_run G q Hc Hne Hq) as (q' & E & _ & _ & Hpos).
    exists (Finite q'). split; [exact E|exact Hpos]. }
  destruct Hs as (SNRb' & Es & Hq').
  destruct (comp_loop_run
              (comp_step G "QPSK" None None None None t nr SNRb' seed Fd use_offset)
              (fun bs => list_to_set (geometric_labels G t bs) ∪
                         list_to_set (List.map LIdx (seq (t * (1 + degree G bs))
                                                         (t * (1 + degree G bs)))))
              (G_nodes G)
              (fun acc bs w0 _ => comp_step_QPSK G t nr SNRb' seed Fd use_offset acc bs w0
                                    HG Ht Hnr Hq' Hk)
              (BQM_empty "SPIN") w) as (b & w' & E & V).
  assert (Vb : forall x, x ∈ variables b <->
             In x (lattice_variables G t) \/
             exists bs i, In bs (G_nodes G) /\ x = LIdx i /\
               t * (1 + degree G bs) <= i < 2 * (t * (1 + degree G bs))).
  { intros x. rewrite V. split.
    - intros [Hx|(bs & Hbs & Hx)].
      + unfold variables, BQM_empty in Hx. cbn [linear] in Hx. rewrite dom_empty_L in Hx.
        apply not_elem_of_empty in Hx. destruct Hx.
      + apply elem_of_union in Hx as [Hx|Hx];
          rewrite elem_of_list_to_set, list_elem_of_In in Hx.
        * left. apply (geometric_labels_in G t bs); assumption.
        * right. apply in_map_iff in Hx as (i & <- & Hi). apply in_seq in Hi.
          exists bs, i. split; [exact Hbs|]. split; [reflexivity|lia].
    - intros [Hx|(bs & i & Hbs & -> & Hi)]; right.
      + destruct (lattice_variables_covered G t x Hx) as (bs & Hbs & Hx').
        exists bs. split; [exact Hbs|]. apply elem_of_union. left.
        rewrite elem_of_list_to_set, list_elem_of_In. exact Hx'.
      + exists bs. split; [exact Hbs|]. apply elem_of_union. right.
        rewrite elem_of_list_to_set, list_elem_of_In. apply in_map, in_seq. lia. }
  exists b, w'. split.
  { unfold spin_encoded_comp. cbn [default String.eqb Ascii.eqb Bool.eqb negb andb orb].
    rewrite Es. msimpl. exact E. }
  split; [exact Vb|].
  intros Hnodes.
  assert (Hbs0 : exists bs0, In bs0 (G_nodes G)).
  { destruct (G_nodes G) as [|bs0 rest]; [congruence|]. exists bs0. left. reflexivity. }
  destruct Hbs0 as [bs0 Hbs0].
  set (i0 := t * (1 + degree G bs0)).
  assert (Hi0 : LIdx i0 ∈ variables b).
  { apply Vb. right. exists bs0, i0.
    split; [exact Hbs0|]. split; [reflexivity|]. unfold i0. nia. }
  assert (Hout : LIdx i0 ∉ (list_to_set (lattice_variables G t) : gset label)).
  { rewrite elem_of_list_to_set, list_elem_of_In. apply lattice_variables_pairs. }
  split.
  - intros C. rewrite C in Hi0. exact (Hout Hi0).
  - unfold num_variables.
    assert (Hsub : list_to_set (lattice_variables G t) ∪ {[ LIdx i0 ]} ⊆ variables b).
    { intros x Hx. apply elem_of_union in Hx as [Hx|Hx].
      - apply Vb. left. rewrite elem_of_list_to_set, list_elem_of_In in Hx. exact Hx.
      - apply elem_of_singleton in Hx. subst x. exact Hi0. }
    apply subseteq_size in Hsub.
    rewrite size_union in Hsub by (apply disjoint_singleton_r; exact Hout).
    rewrite size_singleton, size_list_to_set in Hsub
      by (apply NoDup_ListNoDup, NoDup_lattice_variables, HG).
    rewrite length_lattice_variables in Hsub. lia.
Qed.

End CooperativeQPSK.

(** *** Dropping the offset *)






(** *** Real data *)

Lemma matmul_dtype (a b c : ndarray) :
  np.matmul a b = Ok c -> adtype c = promote (adtype a) (adtype b).
Proof.
  unfold np.matmul. intros E.
  destruct (shape a) as [|n [|k [|? ?]]]; try discriminate;
    destruct (shape b) as [|k' [|m' [|? ?]]]; try discriminate.
  destruct (k =? k'); [|discriminate]. injection E as <-. reflexivity.
Qed.

Lemma quadratic_form_dtypes (y F off h J : ndarray) :
  _quadratic_form y F = Ok (off, h, J) ->
  adtype h = promote (adtype F) (adtype y) /\ adtype J = promote (adtype F) (adtype F).
Proof.
  unfold _quadratic_form. intros E.
  destruct (negb (ndim y =? 2) || negb (dim 1 y =? 1)); [discriminate|].
  destruct (negb (ndim F =? 2) || negb (dim 0 F =? dim 0 y)); [discriminate|].
  destruct (np.matmul (np.T (np.imag y)) (np.imag y)) as [oi|]; [|discriminate].
  cbn [mbind result_bind] in E.
  destruct (np.matmul (np.T (np.real y)) (np.real y)) as [or|]; [|discriminate].
  cbn [mbind result_bind] in E.
  destruct (np.add oi or) as [o|]; [|discriminate]. cbn [mbind result_bind] in E.
  destruct (np.matmul (np.conj (np.T F)) y) as [Fy|] eqn:EFy; [|discriminate].
  cbn [mbind result_bind] in E.
  destruct (np.matmul (np.conj (np.T F)) F) as [J'|] eqn:EJ; [|discriminate].
  cbn [mbind result_bind] in E. injection E as _ <- <-.
  apply matmul_dtype in EFy, EJ. split; [exact EFy|exact EJ].
Qed.

Lemma real_data_same_form (y F : ndarray) :
  adtype y <> complex128 -> adtype F <> complex128 ->
  _yF_to_hJ y F "QPSK" = _yF_to_hJ y F "BPSK".
Proof.
  intros Hy HF. unfold _yF_to_hJ.
  destruct (_quadratic_form y F) as [[[off h] J]|e] eqn:E; [|reflexivity].
  cbn [mbind result_bind].
  destruct (quadratic_form_dtypes y F off h J E) as [Th TJ].
  unfold _real_quadratic_form.
  assert (Hr : dtype_eqb (adtype h) complex128 || dtype_eqb (adtype J) complex128 = false).
  { rewrite Th, TJ. destruct (adtype y), (adtype F); try reflexivity; congruence. }
  rewrite Hr, !andb_false_r. reflexivity.
Qed.

Section Supplied.
Context `{NumpyRandom}.

Lemma mimo_model_pure (y F : ndarray) (nr nt : nat) (m : string) (use_offset : bool) :
  shape y = [nr; 1] -> shape F = [nr; nt] -> supported m ->
  exists b n',
    (forall w,
       ('(h, J, offset) ← lift (_yF_to_hJ y F m);
        h0 ← lift (np.column0 h);
        if use_offset then
          mret (BQM_of_arrays h0 J "SPIN" (re (at2 offset 0 0)))
        else
          J ← lift (np.fill_diagonal0 J);
          mret (BQM_of_arrays h0 J "SPIN" 0%Z)) w = Ok (b, w)) /\
    variables b = list_to_set (List.map LIdx (seq 0 n')) /\
    (m = "BPSK"%string -> n' = nt).
Proof.
  intros Hy HF Hm.
  destruct (yF_to_hJ_shapes y F nr nt m Hy HF Hm) as (h & J & off & n' & E & Sh & SJ & B & _).
  exists (if use_offset
          then BQM_of_arrays (Array (adtype h) [n'] (List.map (fun i => at2 h i 0) (seq 0 n')))
                             J "SPIN" (re (at2 off 0 0))
          else BQM_of_arrays (Array (adtype h) [n'] (List.map (fun i => at2 h i 0) (seq 0 n')))
                             (Array (adtype J) [n'; n']
                                (tabulate2 n' n' (fun i j => if i =? j then C0 else at2 J i j)))
                             "SPIN" 0%Z), n'.
  split.
  - intros w. rewrite E. msimpl. unfold np.column0. rewrite Sh. cbn [Nat.eqb]. msimpl.
    destruct use_offset; [reflexivity|].
    unfold np.fill_diagonal0. rewrite SJ. msimpl. reflexivity.
  - split; [|exact B].
    destruct use_offset; rewrite variables_BQM_of_arrays; reflexivity.
Qed.


(** X21.  With [y] and [F] given, [spin_encoded_mimo] draws nothing and
    leaves the state as it was; the model does not depend on the symbols,
    the noise, [SNRb], the seed or the distribution passed with them. *)
Theorem supplied_signal_is_pure (y F : ndarray) (nr nt : nat) (m : string)
    (use_offset : bool) :
  shape y = [nr; 1] -> shape F = [nr; nt] -> 0 < nt -> 0 < nr -> supported m ->
  exists b,
    forall (ts noise : option ndarray) (SNRb : snr) (seed : option Z)
           (Fd : option (list string)) (w : world),
      spin_encoded_mimo m (Some y) (Some F) ts noise None None SNRb seed Fd use_offset w
      = Ok (b, w).
Proof.
  intros Hy HF Hnt Hnr Hm.
  destruct (mimo_model_pure y F nr nt m use_offset Hy HF Hm) as (b & n' & Eb & _).
  exists b. intros ts noise SNRb seed Fd w.
  unfold spin_encoded_mimo. rewrite HF. msimpl.
  assert (E1 : (0 <? nt) = true) by (apply Nat.ltb_lt; exact Hnt).
  assert (E2 : (0 <? nr) = true) by (apply Nat.ltb_lt; exact Hnr).
  rewrite E1, E2. cbn [negb]. msimpl.
  specialize (Eb w). revert Eb. msimpl. intros Eb. exact Eb.
Qed.


(** X22.  On real-valued [y] and [F] the QPSK model is the BPSK model: it
    has [nt] variables, not [2 nt]. *)
Theorem real_data_drops_quadrature (y F : ndarray) (nr nt : nat)
    (ts noise : option ndarray) (SNRb : snr) (seed : option Z)
    (Fd : option (list string)) (use_offset : bool) (w : world) :
  shape y = [nr; 1] -> shape F = [nr; nt] -> 0 < nt -> 0 < nr ->
  adtype y <> complex128 -> adtype F <> complex128 ->
  exists b,
    spin_encoded_mimo "QPSK" (Some y) (Some F) ts noise None None SNRb seed Fd use_offset w
    = Ok (b, w) /\
    spin_encoded_mimo "BPSK" (Some y) (Some F) ts noise None None SNRb seed Fd use_offset w
    = Ok (b, w) /\
    variables b = list_to_set (List.map LIdx (seq 0 nt)).
Proof.
  intros Hy HF Hnt Hnr Ty TF.
  destruct (mimo_model_pure y F nr nt "BPSK" use_offset Hy HF ltac:(left; reflexivity))
    as (b & n' & Eb & Vb & Bn).
  rewrite (Bn eq_refl) in Vb.
  exists b.
  assert (E1 : (0 <? nt) = true) by (apply Nat.ltb_lt; exact Hnt).
  assert (E2 : (0 <? nr) = true) by (apply Nat.ltb_lt; exact Hnr).
  specialize (Eb w). revert Eb. msimpl. intros Eb.
  split; [|split; [|exact Vb]].
  - unfold spin_encoded_mimo. rewrite HF. msimpl. rewrite E1, E2. cbn [negb]. msimpl.
    rewrite (real_data_same_form y F Ty TF). exact Eb.
  - unfold spin_encoded_mimo. rewrite HF. msimpl. rewrite E1, E2. cbn [negb]. msimpl.
    exact Eb.
Qed.

End Supplied.

(** *** What is rejected *)

Lemma constellation_amps_nonempty (m : string) (bits : nat) (amps : ndarray) (power : Q) :
  constellation_properties m = Ok (bits, amps, power) -> data amps <> [].
Proof.
  unfold constellation_properties. intros E.
  destruct (String.eqb m "BPSK"); [injection E as _ <- _; discriminate|].
  destruct (String.eqb m "QPSK");
    [cbn [mbind result_bind] in E; injection E as _ <- _; discriminate|].
  destruct (String.eqb m "16QAM");
    [cbn [mbind result_bind] in E; injection E as _ <- _; discriminate|].
  destruct (String.eqb m "64QAM");
    [cbn [mbind result_bind] in E; injection E as _ <- _; discriminate|].
  destruct (String.eqb m "256QAM");
    [cbn [mbind result_bind] in E; injection E as _ <- _; discriminate|].
  discriminate.
Qed.

Lemma constellation_raises (m : string) (e : exn) :
  constellation_properties m = Raise e -> e = ValueError "Unsupported modulation method".
Proof.
  unfold constellation_properties. intros E.
  destruct (String.eqb m "BPSK"); [discriminate|].
  destruct (String.eqb m "QPSK"); [discriminate|].
  destruct (String.eqb m "16QAM"); [discriminate|].
  destruct (String.eqb m "64QAM"); [discriminate|].
  destruct (String.eqb m "256QAM"); [discriminate|].
  cbn [mbind result_bind] in E. injection E as <-. reflexivity.
Qed.

Lemma unsupported_eqb (m : string) :
  ~ supported m ->
  String.eqb m "BPSK" = false /\ String.eqb m "QPSK" = false /\
  String.eqb m "16QAM" = false /\ String.eqb m "64QAM" = false.
Proof.
  intros Hm. repeat split; apply String.eqb_neq; intros ->; apply Hm; unfold supported;
    cbn [In]; auto.
Qed.

Lemma yF_to_hJ_unsupported (y F : ndarray) (nr nt : nat) (m : string) :
  shape y = [nr; 1] -> shape F = [nr; nt] -> ~ supported m ->
  _yF_to_hJ y F m = Raise (ValueError "unknown modulation").
Proof.
  intros Hy HF Hm. unfold _yF_to_hJ.
  destruct (quadratic_form_shapes y F nr nt Hy HF) as (off & h & J & E & Sh & SJ & _).
  rewrite E. cbn [mbind result_bind].
  destruct (real_projection_shapes h J nt m Sh SJ) as (hR & JR & n1 & E1 & _).
  rewrite E1. cbn [mbind result_bind].
  destruct (unsupported_eqb m Hm) as (B1 & B2 & B3 & B4).
  unfold _amplitude_modulated_quadratic_form. rewrite B1, B2, B3, B4. reflexivity.
Qed.

Section Errors.
Context `{NumpyRandom}.

Lemma symbols_drawn (m : string) (nt : nat) (amps : ndarray) (w : world) :
  data amps <> [] ->
  exists v w',
    (if String.eqb m "BPSK"
     then create_transmitted_symbols nt amps false
     else create_transmitted_symbols nt amps true) w = Ok (v, w') /\
    shape v = [nt; 1].
Proof.
  intros Ha.
  destruct (String.eqb m "BPSK");
    [destruct (create_transmitted_symbols_run nt amps false w Ha) as (v & w' & evs & E & Sv & _)
    |destruct (create_transmitted_symbols_run nt amps true w Ha) as (v & w' & evs & E & Sv & _)];
    eauto.
Qed.


(** X23.  [create_signal] raises [ValueError] for a ratio [SNRb <= 0],
    whether or not symbols and noise are given. *)
Theorem nonpositive_SNRb_rejected (F : ndarray) (r c : nat) (rest : list nat)
    (ts noise : option ndarray) (q : Q) (m : string) (cp : option nat)
    (rs : random_state_arg) (w : world) (bits : nat) (amps : ndarray) (power : Q) :
  shape F = r :: c :: rest -> constellation_properties m = Ok (bits, amps, power) ->
  (q <= 0)%Q ->
  exists msg, create_signal F ts noise (Finite q) m cp rs w = Raise (ValueError msg).
Proof.
  intros HF Ec Hq. unfold create_signal. rewrite HF, Ec. msimpl.
  assert (Eq : Qle_bool q 0 = true) by (apply Qle_bool_iff; exact Hq).
  destruct ts as [v|].
  - msimpl. cbn [snr_nonpositive]. rewrite Eq. eexists. reflexivity.
  - msimpl. destruct (or_new_total rs w) as (rs1 & w1 & E1 & _). rewrite E1. msimpl.
    destruct (symbols_drawn m c amps w1 (constellation_amps_nonempty m bits amps power Ec))
      as (v & w2 & E2 & _).
    rewrite E2. msimpl. cbn [snr_nonpositive]. rewrite Eq. eexists. reflexivity.
Qed.

Lemma create_signal_total (F : ndarray) (nr nt cp bits : nat) (m : string)
    (amps : ndarray) (power : Q) (SNRb : snr) (s : rng_state) (w : world) :
  shape F = [nr; nt] -> constellation_properties m = Ok (bits, amps, power) ->
  usable_SNRb SNRb ->
  exists y v noise rs' w',
    create_signal F None None SNRb m (Some cp) (RSObject s) w = Ok ((y, v, noise, rs'), w') /\
    shape y = [nr; 1].
Proof.
  intros HF Ec Hq. unfold create_signal. rewrite HF, Ec. msimpl.
  destruct (symbols_drawn m nt amps w (constellation_amps_nonempty m bits amps power Ec))
    as (v & w2 & E2 & Sv).
  rewrite E2. msimpl.
  destruct (matmul_2d F v nr nt 1 HF Sv) as (Fv & EFv & SFv & _).
  destruct SNRb as [q|]; cbn [snr_nonpositive].
  - cbn [usable_SNRb] in Hq.
    assert (Eq : Qle_bool q 0 = false).
    { destruct (Qle_bool q 0) eqn:E; [|reflexivity].
      apply Qle_bool_iff in E. exfalso. apply (Qlt_irrefl 0), (Qlt_le_trans _ q); assumption. }
    rewrite Eq. msimpl.
    destruct (dtype_eqb (adtype v) float64 && dtype_eqb (adtype F) float64).
    + run_normal. rewrite EFv. msimpl.
      unfold lift, np.add. cbn [shape real_matrix]. rewrite SFv.
      destruct (decide ([nr; 1] = [nr; 1])) as [_|Hne]; [|congruence].
      do 5 eexists. split; reflexivity.
    + run_normal. run_normal.
      unfold np.add at 1. cbn [shape real_matrix np.times_1j].
      destruct (decide ([nr; 1] = [nr; 1])) as [_|Hne]; [|congruence]. msimpl.
      rewrite EFv. msimpl.
      unfold lift, np.add. cbn [shape]. rewrite SFv.
      destruct (decide ([nr; 1] = [nr; 1])) as [_|Hne]; [|congruence].
      do 5 eexists. split; reflexivity.
  - rewrite EFv. msimpl. do 5 eexists. split; [reflexivity|exact SFv].
Qed.


(** X24.  A modulation outside BPSK, QPSK, 16QAM and 64QAM is refused with
    [ValueError] by [_yF_to_hJ], by [symbols_to_spins], and by
    [spin_encoded_mimo] when it generates the problem; this includes
    256QAM, which [constellation_properties] knows. *)
Theorem unsupported_modulation_rejected (m : string) :
  ~ supported m ->
  (forall y F nr nt, shape y = [nr; 1] -> shape F = [nr; nt] ->
     _yF_to_hJ y F m = Raise (ValueError "unknown modulation")) /\
  (forall v n sh, shape v = n :: sh ->
     symbols_to_spins v m = Raise (ValueError "Unsupported modulation")) /\
  (forall nt nr SNRb seed Fd use_offset w,
     0 < nt -> 0 < nr -> usable_SNRb SNRb -> known_distribution Fd ->
     exists msg,
       spin_encoded_mimo m None None None None (Some nt) (Some nr) SNRb seed Fd use_offset w
       = Raise (ValueError msg)).
Proof.
  intros Hm. destruct (unsupported_eqb m Hm) as (B1 & B2 & B3 & B4).
  split; [|split].
  - intros y F nr nt Hy HF. apply (yF_to_hJ_unsupported y F nr nt m Hy HF Hm).
  - intros v n sh Sv. unfold symbols_to_spins, np.len. rewrite Sv.
    cbn [mbind result_bind]. rewrite B1, B2, B3, B4. reflexivity.
  - intros nt nr SNRb seed Fd use_offset w Hnt Hnr Hq Hk.
    unfold spin_encoded_mimo. msimpl.
    assert (E1 : (0 <? nt) = true) by (apply Nat.ltb_lt; exact Hnt).
    assert (E2 : (0 <? nr) = true) by (apply Nat.ltb_lt; exact Hnr).
    rewrite E1, E2. cbn [negb]. msimpl.
    destruct (RandomState_run seed w) as (s & w1 & Es & _). rewrite Es. msimpl.
    destruct (create_channel_run nr nt Fd s w1 Hk) as (F & cp & s' & w2 & evc & Ec & SF & _).
    rewrite Ec. msimpl.
    destruct (constellation_properties m) as [[[bits amps] power]|e] eqn:Ecp.
    + destruct (create_signal_total F nr nt cp bits m amps power SNRb s' w2 SF Ecp Hq)
        as (y & v & noise & rs' & w3 & Ey & Sy).
      rewrite Ey. msimpl. rewrite (yF_to_hJ_unsupported y F nr nt m Sy SF Hm).
      eexists. reflexivity.
    + apply constellation_raises in Ecp as Ee. subst e.
      assert (Ey : create_signal F None None SNRb m (Some cp) (RSObject s') w2
                   = Raise (ValueError "Unsupported modulation method")).
      { unfold create_signal. rewrite SF, Ecp. msimpl. reflexivity. }
      rewrite Ey. eexists. reflexivity.
Qed.

End Errors.

(** *** Supplied noise *)

Lemma nth_add (a b : list complex) (p : nat) :
  p < List.length a -> p < List.length b ->
  nth p (List.map (fun q => Cadd (fst q) (snd q)) (combine a b)) C0
  = Cadd (nth p a C0) (nth p b C0).
Proof.
  revert b p. induction a as [|x a IH]; intros [|y b] [|p] Ha Hb; cbn [List.length] in *;
    try lia; cbn [combine List.map nth fst snd]; [reflexivity|].
  apply IH; lia.
Qed.

Section Noise.
Context `{NumpyRandom}.


(** X25.  With the noise [n] given, [create_signal] returns [y = n + F v],
    and the model of [y] has, at the spins of the transmitted symbols [v],
    the energy [||n||^2].  The channel and the noise have integer entries
    of magnitude at most [B]; the entries of [y] are then at most
    [(14 nt + 1) B], and with [2 nr ((14 nt + 1) B)^2 <= 2^53] no product is
    rounded or wraps. *)
Theorem supplied_noise_energy (F n : ndarray) (nr nt cp bits : nat) (m : string)
    (amps : ndarray) (power : Q) (q : Q) (rs : random_state_arg) (w : world) (B : Z) :
  shape F = [nr; nt] -> 0 < nt ->
  supported m -> constellation_properties m = Ok (bits, amps, power) -> (0 < q)%Q ->
  shape n = [nr; 1] -> List.length (data n) = nr ->
  entries_within B F -> entries_within B n ->
  (2 * Z.of_nat nr * ((14 * Z.of_nat nt + 1) * B) * ((14 * Z.of_nat nt + 1) * B)
   <= 2 ^ 53)%Z ->
  exists y v rs' w' h J offset s,
    create_signal F None (Some n) (Finite q) m (Some cp) rs w = Ok ((y, v, Some n, rs'), w') /\
    _yF_to_hJ y F m = Ok (h, J, offset) /\
    symbols_to_spins v m = Ok s /\
    (re (at2 offset 0 0) + ising_value (bits * nt) h J (spin_values s))%Z
    = re (hdot nr (fun i => at2 n i 0) (fun i => at2 n i 0)).
Proof.
  intros HF Hnt Hm Ec Hq Sn Ln BF Bn Hb.
  assert (Hsig : exists y v rs' w' Fv,
            create_signal F None (Some n) (Finite q) m (Some cp) rs w
            = Ok ((y, v, Some n, rs'), w') /\
            shape y = [nr; 1] /\ List.length (data y) = nr /\
            valid_constellation m v nt /\ shape v = [nt; 1] /\
            (m <> "BPSK"%string -> adtype y = complex128) /\
            (forall i, i < nr ->
               at2 Fv i 0 = np.dot (promote (adtype F) (adtype v)) nt
                              (fun l => at2 F i l) (fun l => at2 v l 0)) /\
            forall i, i < nr -> at2 y i 0 = Cadd (at2 n i 0) (at2 Fv i 0)).
  { unfold create_signal. rewrite HF, Ec. msimpl.
    destruct (or_new_total rs w) as (rs1 & w1 & E1 & _). rewrite E1. msimpl.
    destruct (generated_symbols_core m bits amps power nt w1 Hm Ec)
      as (v & w2 & E2 & Sv & Hv & _).
    assert (E2' : (if String.eqb m "BPSK"
                   then create_transmitted_symbols nt amps false
                   else create_transmitted_symbols nt amps true) w1 = Ok (v, w2))
      by (destruct (String.eqb m "BPSK"); exact E2).
    rewrite E2'. msimpl.
    destruct (matmul_2d F v nr nt 1 HF Sv) as (Fv & EFv & SFv & TFv & DFv & VFv).
    cbn [snr_nonpositive].
    assert (Eq : Qle_bool q 0 = false).
    { destruct (Qle_bool q 0) eqn:E; [|reflexivity].
      apply Qle_bool_iff in E. exfalso. apply (Qlt_irrefl 0), (Qlt_le_trans _ q); assumption. }
    rewrite Eq. msimpl. rewrite EFv. msimpl.
    unfold lift, np.add. rewrite Sn, SFv.
    destruct (decide ([nr; 1] = [nr; 1])) as [_|Hne]; [|congruence].
    do 4 eexists. exists Fv. split; [reflexivity|]. split; [reflexivity|].
    split.
    { cbn [data]. rewrite List.length_map, List.length_combine, Ln, DFv, length_tabulate2.
      lia. }
    split; [exact Hv|]. split; [exact Sv|].
    split.
    - intros Hb'. cbn [adtype]. rewrite TFv.
      destruct Hv as (b & a & p & _ & _ & _ & Hval).
      apply String.eqb_neq in Hb'. rewrite Hb' in Hval. destruct Hval as [-> _].
      rewrite promote_complex_r. apply promote_complex_r.
    - split; [intros i Hi; apply (VFv i 0 Hi); lia|].
      intros i Hi. unfold at2 at 1, dim. cbn [shape data nth].
      rewrite nth_add by (rewrite ?DFv, ?length_tabulate2; lia).
      f_equal.
      + unfold at2, dim. rewrite Sn. reflexivity.
      + unfold at2, dim. rewrite SFv. reflexivity. }
  destruct Hsig as (y & v & rs' & w' & Fv & Ey & Sy & Ly & Hv & Sv & Ty & VFv & Vy).
  assert (HB : (0 <= B)%Z) by apply BF.
  set (M := ((14 * Z.of_nat nt + 1) * B)%Z) in *.
  assert (HM : (B <= M)%Z) by (unfold M; nia).
  assert (HFv : forall i, i < nr ->
            at2 Fv i 0 = matvec nt F (symbol_values v) i /\
            within (14 * Z.of_nat nt * B) (at2 Fv i 0)).
  { intros i Hi. apply (matvec_symbols F v Fv nr nt m B HF Sv Hm Hv BF); [|exact VFv|exact Hi].
    assert (14 * Z.of_nat nt * B <= M)%Z by (unfold M; nia). nia. }
  assert (By : entries_within M y).
  { apply (column_within y nr M Sy Ly); [lia|]. intros i Hi. rewrite (Vy i Hi).
    replace M with (B + 14 * Z.of_nat nt * B)%Z by (unfold M; ring).
    apply within_Cadd; [apply at2_within; exact Bn|apply (HFv i Hi)]. }
  assert (BF' : entries_within M F).
  { split; [lia|]. eapply Forall_impl; [|apply BF]. intros z. apply within_mono. exact HM. }
  assert (Hc : m <> "BPSK"%string -> adtype y = complex128 \/ adtype F = complex128)
    by (intros Hb'; left; apply Ty; exact Hb').
  destruct (transmitted_energy_core y F v nr nt bits m amps power M Sy HF By BF' Hb Hnt Hm Ec
              Hc Hv)
    as (h & J & offset & s & E & Es & En & _).
  exists y, v, rs', w', h, J, offset, s.
  split; [exact Ey|]. split; [exact E|]. split; [exact Es|].
  rewrite En. f_equal. unfold residual, hdot. apply Csum_ext. intros i Hi.
  rewrite (Vy i Hi), (proj1 (HFv i Hi)). unfold Csub. complex_ring.
Qed.

End Noise.

(** ** The honeycomb lattice *)

(** *** The graph container *)

Lemma in_range (lo hi i : nat) : In i (range lo hi) <-> lo <= i < hi.
Proof. unfold range. rewrite in_seq. lia. Qed.

Lemma coord_inj (x y x' y' : nat) : coord x y = coord x' y' -> x = x' /\ y = y'.
Proof.
  unfold coord. intros E. injection E as E1 E2. split; lia.
Qed.

Lemma nodes_add_node (G : Graph) (a n : label) :
  In n (G_nodes (add_node G a)) <-> In n (G_nodes G) \/ n = a.
Proof.
  unfold add_node. destruct (bool_decide_reflect (a ∈ G_nodes G)) as [Ha|Ha].
  - split; [auto|]. intros [Hn| ->]; [exact Hn|]. apply list_elem_of_In. exact Ha.
  - cbn [G_nodes]. rewrite in_app_iff. cbn [In]. intuition (subst; auto).
Qed.

Lemma edges_add_node (G : Graph) (a : label) : G_edges (add_node G a) = G_edges G.
Proof. unfold add_node. destruct (bool_decide _); reflexivity. Qed.

Lemma NoDup_add_node (G : Graph) (a : label) :
  NoDup (G_nodes G) -> NoDup (G_nodes (add_node G a)).
Proof.
  intros HG. unfold add_node. destruct (bool_decide_reflect (a ∈ G_nodes G)) as [Ha|Ha];
    [exact HG|].
  cbn [G_nodes]. apply List.NoDup_app; [exact HG|repeat constructor; intros []|].
  intros x Hx [<-|[]]. apply Ha, list_elem_of_In, Hx.
Qed.

Lemma has_edge_spec (G : Graph) (u v : label) :
  has_edge G u v = true <-> In (u, v) (G_edges G) \/ In (v, u) (G_edges G).
Proof.
  unfold has_edge. rewrite existsb_exists. split.
  - intros (e & He & Hb). apply orb_true_iff in Hb as [Hb|Hb];
      apply bool_decide_eq_true in Hb; subst e; auto.
  - intros [Hin|Hin]; eexists; (split; [exact Hin|]); apply orb_true_iff;
      [left|right]; apply bool_decide_eq_true; reflexivity.
Qed.

Lemma nodes_add_edge (G : Graph) (e : label * label) (n : label) :
  In n (G_nodes (add_edge G e)) <-> In n (G_nodes G) \/ n = fst e \/ n = snd e.
Proof.
  unfold add_edge. cbv zeta.
  destruct (has_edge _ _ _); cbn [G_nodes]; rewrite !nodes_add_node; tauto.
Qed.

Lemma NoDup_add_edge (G : Graph) (e : label * label) :
  NoDup (G_nodes G) -> NoDup (G_nodes (add_edge G e)).
Proof.
  intros HG. unfold add_edge. cbv zeta.
  destruct (has_edge _ _ _); cbn [G_nodes]; apply NoDup_add_node, NoDup_add_node, HG.
Qed.

Lemma edges_add_edge (G : Graph) (e x : label * label) :
  In x (G_edges (add_edge G e)) -> In x (G_edges G) \/ x = e.
Proof.
  unfold add_edge. cbv zeta.
  destruct (has_edge _ _ _); cbn [G_edges]; rewrite ?in_app_iff, !edges_add_node; cbn [In];
    intuition auto.
Qed.

Lemma edges_add_edge_mono (G : Graph) (e x : label * label) :
  In x (G_edges G) -> In x (G_edges (add_edge G e)).
Proof.
  unfold add_edge. cbv zeta.
  destruct (has_edge _ _ _); cbn [G_edges]; rewrite ?in_app_iff, !edges_add_node; auto.
Qed.

Lemma has_edge_add_edge (G : Graph) (e : label * label) :
  has_edge (add_edge G e) (fst e) (snd e) = true.
Proof.
  unfold add_edge. cbv zeta.
  destruct (has_edge (add_node (add_node G (fst e)) (snd e)) (fst e) (snd e)) eqn:E;
    [exact E|].
  apply has_edge_spec. left. cbn [G_edges]. apply in_or_app. right. left.
  destruct e; reflexivity.
Qed.

Lemma nodes_add_edges_from (es : list (label * label)) (G : Graph) (n : label) :
  In n (G_nodes (add_edges_from G es)) <->
  In n (G_nodes G) \/ exists e, In e es /\ (n = fst e \/ n = snd e).
Proof.
  unfold add_edges_from. revert G. induction es as [|e es IH]; intros G; cbn [foldl].
  - split; [auto|]. intros [Hn|(e & [] & _)]. exact Hn.
  - rewrite IH, nodes_add_edge. split.
    + intros [[Hn|Hn]|(e' & He' & Hn)]; [auto|right; exists e; split; [left; reflexivity|exact Hn]|].
      right. exists e'. split; [right; exact He'|exact Hn].
    + intros [Hn|(e' & [<-|He'] & Hn)]; [auto|auto|]. right. eauto.
Qed.

Lemma NoDup_add_edges_from (es : list (label * label)) (G : Graph) :
  NoDup (G_nodes G) -> NoDup (G_nodes (add_edges_from G es)).
Proof.
  unfold add_edges_from. revert G. induction es as [|e es IH]; intros G HG; cbn [foldl];
    [exact HG|]. apply IH, NoDup_add_edge, HG.
Qed.

Lemma edges_add_edges_from (es : list (label * label)) (G : Graph) (x : label * label) :
  In x (G_edges (add_edges_from G es)) -> In x (G_edges G) \/ In x es.
Proof.
  unfold add_edges_from. revert G. induction es as [|e es IH]; intros G; cbn [foldl];
    [auto|].
  intros Hx. apply IH in Hx as [Hx|Hx]; [|right; right; exact Hx].
  apply edges_add_edge in Hx as [Hx|Hx]; [left; exact Hx|right; left; symmetry; exact Hx].
Qed.

Lemma edges_add_edges_from_mono (es : list (label * label)) (G : Graph) (x : label * label) :
  In x (G_edges G) -> In x (G_edges (add_edges_from G es)).
Proof.
  unfold add_edges_from. revert G. induction es as [|e es IH]; intros G; cbn [foldl];
    [auto|].
  intros Hx. apply IH, edges_add_edge_mono, Hx.
Qed.

Lemma has_edge_mono (G G' : Graph) (u v : label) :
  (forall x, In x (G_edges G) -> In x (G_edges G')) ->
  has_edge G u v = true -> has_edge G' u v = true.
Proof.
  intros Hsub Huv. apply has_edge_spec in Huv. apply has_edge_spec.
  destruct Huv as [Huv|Huv]; [left|right]; apply Hsub, Huv.
Qed.

Lemma has_edge_add_edges_from (es : list (label * label)) (G : Graph) (e : label * label) :
  In e es -> has_edge (add_edges_from G es) (fst e) (snd e) = true.
Proof.
  unfold add_edges_from. revert G. induction es as [|e' es IH]; intros G; cbn [foldl];
    [intros []|].
  intros [-> |He]; [|apply IH, He].
  apply (has_edge_mono (add_edge G e)); [|apply has_edge_add_edge].
  intros x Hx. apply (edges_add_edges_from_mono es), Hx.
Qed.

Lemma nodes_remove_nodes_from (ns : list label) (G : Graph) (n : label) :
  In n (G_nodes (remove_nodes_from G ns)) <-> In n (G_nodes G) /\ ~ In n ns.
Proof.
  unfold remove_nodes_from. revert G. induction ns as [|a ns IH]; intros G; cbn [foldl].
  - cbn [In]. tauto.
  - rewrite IH. unfold remove_node. cbn [G_nodes In]. rewrite filter_In, negb_true_iff.
    rewrite bool_decide_eq_false. intuition congruence.
Qed.

Lemma NoDup_remove_nodes_from (ns : list label) (G : Graph) :
  NoDup (G_nodes G) -> NoDup (G_nodes (remove_nodes_from G ns)).
Proof.
  unfold remove_nodes_from. revert G. induction ns as [|a ns IH]; intros G HG; cbn [foldl];
    [exact HG|]. apply IH. unfold remove_node. cbn [G_nodes]. apply List.NoDup_filter, HG.
Qed.

Lemma edges_remove_nodes_from (ns : list label) (G : Graph) (x : label * label) :
  In x (G_edges (remove_nodes_from G ns)) <->
  In x (G_edges G) /\ ~ In (fst x) ns /\ ~ In (snd x) ns.
Proof.
  unfold remove_nodes_from. revert G. induction ns as [|a ns IH]; intros G; cbn [foldl].
  - cbn [In]. tauto.
  - rewrite IH. unfold remove_node. cbn [G_edges In].
    rewrite filter_In, andb_true_iff, !negb_true_iff, !bool_decide_eq_false.
    intuition congruence.
Qed.

(** *** The honeycomb *)

Lemma in_grid {A} (f : nat -> nat -> A) (lo : nat -> nat) (X Y : nat) (e : A) :
  In e (flat_map (fun x => List.map (fun y => f x y) (range (lo x) Y)) (range 0 X)) <->
  exists x y, x < X /\ lo x <= y < Y /\ e = f x y.
Proof.
  rewrite in_flat_map. split.
  - intros (x & Hx & He). apply in_map_iff in He as (y & <- & Hy).
    apply in_range in Hx, Hy. exists x, y. repeat split; lia.
  - intros (x & y & Hx & Hy & ->). exists x. split; [apply in_range; lia|].
    apply in_map_iff. exists y. split; [reflexivity|apply in_range; lia].
Qed.

(** The square grid with its three families of edges, before the corners
    are cut *)
Lemma grid_nodes (L : nat) (n : label) :
  In n (G_nodes
    (add_edges_from
      (add_edges_from
        (add_edges_from (MkGraph [] [] ∅)
          (flat_map (fun x => List.map (fun y => (coord x y, coord x (y + 1)))
                                       (range 0 (2 * L))) (range 0 (2 * L + 1))))
        (flat_map (fun x => List.map (fun y => (coord x y, coord (x + 1) y))
                                     (range 0 (2 * L + 1))) (range 0 (2 * L))))
      (flat_map (fun x => List.map (fun y => (coord x y, coord (x + 1) (y + 1)))
                                   (range 0 (2 * L))) (range 0 (2 * L))))) <->
  exists x y, n = coord x y /\ 0 < L /\ x <= 2 * L /\ y <= 2 * L.
Proof.
  rewrite !nodes_add_edges_from. cbn [G_nodes In].
  split.
  - intros [[[[]|(e & He & Hn)]|(e & He & Hn)]|(e & He & Hn)].
    + apply (in_grid (fun x y => (coord x y, coord x (y + 1))) (fun _ => 0)) in He
        as (x & y & Hx & Hy & ->).
      cbn [fst snd] in Hn. destruct Hn as [-> | ->]; eexists _, _;
        (split; [reflexivity|lia]).
    + apply (in_grid (fun x y => (coord x y, coord (x + 1) y)) (fun _ => 0)) in He
        as (x & y & Hx & Hy & ->).
      cbn [fst snd] in Hn. destruct Hn as [-> | ->]; eexists _, _;
        (split; [reflexivity|lia]).
    + apply (in_grid (fun x y => (coord x y, coord (x + 1) (y + 1))) (fun _ => 0)) in He
        as (x & y & Hx & Hy & ->).
      cbn [fst snd] in Hn. destruct Hn as [-> | ->]; eexists _, _;
        (split; [reflexivity|lia]).
  - intros (x & y & -> & HL & Hx & Hy). left. left. right.
    destruct (Nat.eq_dec y (2 * L)) as [->|Hne].
    + exists (coord x (2 * L - 1), coord x (2 * L - 1 + 1)). split.
      * apply (in_grid (fun x y => (coord x y, coord x (y + 1))) (fun _ => 0)).
        exists x, (2 * L - 1). repeat split; lia.
      * right. cbn [snd]. f_equal. unfold LIdx. f_equal. lia.
    + exists (coord x y, coord x (y + 1)). split.
      * apply (in_grid (fun x y => (coord x y, coord x (y + 1))) (fun _ => 0)).
        exists x, y. repeat split; lia.
      * left. reflexivity.
Qed.

Lemma grid_edges (L : nat) (u v : label) :
  In (u, v) (G_edges
    (add_edges_from
      (add_edges_from
        (add_edges_from (MkGraph [] [] ∅)
          (flat_map (fun x => List.map (fun y => (coord x y, coord x (y + 1)))
                                       (range 0 (2 * L))) (range 0 (2 * L + 1))))
        (flat_map (fun x => List.map (fun y => (coord x y, coord (x + 1) y))
                                     (range 0 (2 * L + 1))) (range 0 (2 * L))))
      (flat_map (fun x => List.map (fun y => (coord x y, coord (x + 1) (y + 1)))
                                   (range 0 (2 * L))) (range 0 (2 * L))))) ->
  exists x y x' y', u = coord x y /\ v = coord x' y' /\ lattice_step x y x' y'.
Proof.
  intros He.
  apply edges_add_edges_from in He as [He|He];
    [apply edges_add_edges_from in He as [He|He];
     [apply edges_add_edges_from in He as [[]|He]|]|].
  - apply (in_grid (fun x y => (coord x y, coord x (y + 1))) (fun _ => 0)) in He
      as (x & y & _ & _ & E). injection E as -> ->.
    exists x, y, x, (y + 1). repeat split. left. split; reflexivity.
  - apply (in_grid (fun x y => (coord x y, coord (x + 1) y)) (fun _ => 0)) in He
      as (x & y & _ & _ & E). injection E as -> ->.
    exists x, y, (x + 1), y. repeat split. right. left. split; reflexivity.
  - apply (in_grid (fun x y => (coord x y, coord (x + 1) (y + 1))) (fun _ => 0)) in He
      as (x & y & _ & _ & E). injection E as -> ->.
    exists x, y, (x + 1), (y + 1). repeat split. right. right. split; reflexivity.
Qed.

Lemma grid_has_edge (L x y x' y' : nat) :
  x' <= 2 * L -> y' <= 2 * L -> lattice_step x y x' y' ->
  has_edge
    (add_edges_from
      (add_edges_from
        (add_edges_from (MkGraph [] [] ∅)
          (flat_map (fun x => List.map (fun y => (coord x y, coord x (y + 1)))
                                       (range 0 (2 * L))) (range 0 (2 * L + 1))))
        (flat_map (fun x => List.map (fun y => (coord x y, coord (x + 1) y))
                                     (range 0 (2 * L + 1))) (range 0 (2 * L))))
      (flat_map (fun x => List.map (fun y => (coord x y, coord (x + 1) (y + 1)))
                                   (range 0 (2 * L))) (range 0 (2 * L))))
    (coord x y) (coord x' y') = true.
Proof.
  intros Hx' Hy' [[-> ->]|[[-> ->]|[-> ->]]].
  - eapply has_edge_mono; [intros e He; apply edges_add_edges_from_mono; exact He|].
    eapply has_edge_mono; [intros e He; apply edges_add_edges_from_mono; exact He|].
    apply (has_edge_add_edges_from _ _ (coord x y, coord x (y + 1))).
    apply (in_grid (fun x y => (coord x y, coord x (y + 1))) (fun _ => 0)).
    exists x, y. repeat split; lia.
  - eapply has_edge_mono; [intros e He; apply edges_add_edges_from_mono; exact He|].
    apply (has_edge_add_edges_from _ _ (coord x y, coord (x + 1) y)).
    apply (in_grid (fun x y => (coord x y, coord (x + 1) y)) (fun _ => 0)).
    exists x, y. repeat split; lia.
  - apply (has_edge_add_edges_from _ _ (coord x y, coord (x + 1) (y + 1))).
    apply (in_grid (fun x y => (coord x y, coord (x + 1) (y + 1))) (fun _ => 0)).
    exists x, y. repeat split; lia.
Qed.

Lemma cut_corners (L x y : nat) :
  x <= 2 * L -> y <= 2 * L ->
  (~ In (coord x y)
        (flat_map (fun j => List.map (fun i => coord i j) (range (L + 1 + j) (2 * L + 1)))
                  (range 0 L)) /\
   ~ In (coord x y)
        (flat_map (fun i => List.map (fun j => coord i j) (range (L + 1 + i) (2 * L + 1)))
                  (range 0 L))) <->
  x <= y + L /\ y <= x + L.
Proof.
  intros Hx Hy.
  rewrite (in_grid (fun j i => coord i j) (fun j => L + 1 + j)).
  rewrite (in_grid (fun i j => coord i j) (fun i => L + 1 + i)).
  split.
  - intros [H1 H2]. split.
    + destruct (le_lt_dec x (y + L)) as [Hle|Hgt]; [exact Hle|].
      exfalso. apply H1. exists y, x. repeat split; lia.
    + destruct (le_lt_dec y (x + L)) as [Hle|Hgt]; [exact Hle|].
      exfalso. apply H2. exists x, y. repeat split; lia.
  - intros [H1 H2]. split.
    + intros (j & i & Hj & Hi & E). apply coord_inj in E as [-> ->]. lia.
    + intros (i & j & Hi & Hj & E). apply coord_inj in E as [-> ->]. lia.
Qed.

Lemma honeycomb_nodes (L : nat) (n : label) :
  In n (G_nodes (_make_honeycomb L)) <-> exists x y, n = coord x y /\ honeycomb_site L x y.
Proof.
  unfold _make_honeycomb. cbv zeta.
  rewrite !nodes_remove_nodes_from, grid_nodes. unfold honeycomb_site. split.
  - intros [[(x & y & -> & HL & Hx & Hy) H1] H2].
    exists x, y. split; [reflexivity|].
    pose proof (proj1 (cut_corners L x y Hx Hy) (conj H1 H2)). lia.
  - intros (x & y & -> & HL & Hx & Hy & H1 & H2).
    destruct (proj2 (cut_corners L x y Hx Hy) (conj H1 H2)) as [C1 C2].
    split; [split; [|exact C1]|exact C2]. exists x, y. repeat split; lia.
Qed.

Lemma honeycomb_edges (L : nat) (u v : label) :
  In (u, v) (G_edges (_make_honeycomb L)) ->
  exists x y x' y',
    u = coord x y /\ v = coord x' y' /\ lattice_step x y x' y' /\
    In u (G_nodes (_make_honeycomb L)) /\ In v (G_nodes (_make_honeycomb L)).
Proof.
  intros He. assert (He' := He). revert He'.
  unfold _make_honeycomb at 1. cbv zeta.
  rewrite !edges_remove_nodes_from. cbn [fst snd].
  intros [[Hg [Hu1 Hv1]] [Hu2 Hv2]].
  destruct (grid_edges L u v Hg) as (x & y & x' & y' & -> & -> & Hstep).
  exists x, y, x', y'. split; [reflexivity|]. split; [reflexivity|]. split; [exact Hstep|].
  assert (Hends : forall n, n = coord x y \/ n = coord x' y' ->
            In n (G_nodes
              (add_edges_from
                (add_edges_from
                  (add_edges_from (MkGraph [] [] ∅)
                    (flat_map (fun x => List.map (fun y => (coord x y, coord x (y + 1)))
                                                 (range 0 (2 * L))) (range 0 (2 * L + 1))))
                  (flat_map (fun x => List.map (fun y => (coord x y, coord (x + 1) y))
                                               (range 0 (2 * L + 1))) (range 0 (2 * L))))
                (flat_map (fun x => List.map (fun y => (coord x y, coord (x + 1) (y + 1)))
                                             (range 0 (2 * L))) (range 0 (2 * L)))))).
  { intros n Hn.
    apply edges_add_edges_from in Hg as [Hg|Hg];
      [apply edges_add_edges_from in Hg as [Hg|Hg];
       [apply edges_add_edges_from in Hg as [[]|Hg]|]|].
    - apply nodes_add_edges_from. left. apply nodes_add_edges_from. left.
      apply nodes_add_edges_from. right. eexists. split; [exact Hg|]. exact Hn.
    - apply nodes_add_edges_from. left. apply nodes_add_edges_from. right.
      eexists. split; [exact Hg|]. exact Hn.
    - apply nodes_add_edges_from. right. eexists. split; [exact Hg|]. exact Hn. }
  unfold _make_honeycomb. cbv zeta. rewrite !nodes_remove_nodes_from.
  split; (split; [split|]); auto.
Qed.

Lemma honeycomb_simple (L : nat) : simple_graph (_make_honeycomb L).
Proof.
  split.
  - unfold _make_honeycomb. cbv zeta.
    do 2 apply NoDup_remove_nodes_from. do 3 apply NoDup_add_edges_from. constructor.
  - intros [u v] He. cbn [fst snd].
    destruct (honeycomb_edges L u v He) as (x & y & x' & y' & -> & -> & Hstep & Hu & Hv).
    split; [exact Hu|]. split; [exact Hv|].
    intros E. apply coord_inj in E as [-> ->].
    destruct Hstep as [[_ C]|[[C _]|[C _]]]; lia.
Qed.


(** X26.  [_make_honeycomb(L)] is a simple graph.  Its nodes are the points
    [(x, y)] with [x, y <= 2L], [x <= y + L] and [y <= x + L] when
    [L >= 1], and there is none when [L = 0]; every edge joins a point to
    its neighbour in the direction [(0,1)], [(1,0)] or [(1,1)], and every
    two nodes that are such neighbours are joined. *)
Theorem honeycomb_lattice (L : nat) :
  simple_graph (_make_honeycomb L) /\
  (forall n, In n (G_nodes (_make_honeycomb L)) <->
             exists x y, n = coord x y /\ honeycomb_site L x y) /\
  (forall u v, In (u, v) (G_edges (_make_honeycomb L)) ->
     exists x y x' y', u = coord x y /\ v = coord x' y' /\ lattice_step x y x' y') /\
  (forall x y x' y',
     honeycomb_site L x y -> honeycomb_site L x' y' -> lattice_step x y x' y' ->
     has_edge (_make_honeycomb L) (coord x y) (coord x' y') = true).
Proof.
  split; [|split; [|split]].
  - apply honeycomb_simple.
  - apply honeycomb_nodes.
  - intros u v He.
    destruct (honeycomb_edges L u v He) as (x & y & x' & y' & Hu & Hv & Hstep & _).
    exists x, y, x', y'. auto.
  - intros x y x' y' Hs Hs' Hstep.
    pose proof (grid_has_edge L x y x' y'
                  ltac:(unfold honeycomb_site in Hs'; lia)
                  ltac:(unfold honeycomb_site in Hs'; lia) Hstep) as Hg.
    apply has_edge_spec in Hg. apply has_edge_spec.
    assert (Hkeep : forall e, (e = (coord x y, coord x' y') \/ e = (coord x' y', coord x y)) ->
              In e (G_edges
                (add_edges_from
                  (add_edges_from
                    (add_edges_from (MkGraph [] [] ∅)
                      (flat_map (fun x => List.map (fun y => (coord x y, coord x (y + 1)))
                                                   (range 0 (2 * L))) (range 0 (2 * L + 1))))
                    (flat_map (fun x => List.map (fun y => (coord x y, coord (x + 1) y))
                                                 (range 0 (2 * L + 1))) (range 0 (2 * L))))
                  (flat_map (fun x => List.map (fun y => (coord x y, coord (x + 1) (y + 1)))
                                               (range 0 (2 * L))) (range 0 (2 * L))))) ->
              In e (G_edges (_make_honeycomb L))).
    { intros e He Hin.
      destruct Hs as (HL & Hx & Hy & H1 & H2). destruct Hs' as (_ & Hx' & Hy' & H1' & H2').
      destruct (proj2 (cut_corners L x y Hx Hy) (conj H1 H2)) as [C1 C2].
      destruct (proj2 (cut_corners L x' y' Hx' Hy') (conj H1' H2')) as [C1' C2'].
      unfold _make_honeycomb. cbv zeta. rewrite !edges_remove_nodes_from.
      destruct He as [-> | ->]; cbn [fst snd]; repeat split; assumption. }
    destruct Hg as [Hg|Hg]; [left|right]; (apply Hkeep; [|exact Hg]); auto.
Qed.

(** *** The number of basestations *)

Lemma NoDup_columns (a c : nat -> nat) (l : list nat) :
  NoDup l -> NoDup (flat_map (fun x => List.map (coord x) (seq (a x) (c x))) l).
Proof.
  induction 1 as [|x l Hx _ IH]; [constructor|].
  cbn [flat_map]. apply List.NoDup_app.
  - apply NoDup_map_NoDup_ForallPairs; [|apply List.seq_NoDup].
    intros i j _ _ E. apply coord_inj in E as [_ E]. exact E.
  - exact IH.
  - intros n Hn Hn'.
    apply in_map_iff in Hn as (i & <- & _).
    apply in_flat_map in Hn' as (x' & Hx' & Hn').
    apply in_map_iff in Hn' as (j & E & _). apply coord_inj in E as [-> _].
    apply Hx, Hx'.
Qed.

Lemma twice_sum_up (c n : nat) :
  2 * list_sum (List.map (fun x => x + c) (seq 0 n)) + n = n * n + 2 * n * c.
Proof.
  induction n as [|n IH]; [reflexivity|].
  rewrite seq_S, List.map_app, list_sum_app. cbn [List.map].
  unfold list_sum in *. cbn [fold_right]. set (s := fold_right _ _ _) in *. lia.
Qed.

Lemma twice_sum_down (L k : nat) :
  k <= L ->
  2 * list_sum (List.map (fun x => 3 * L + 1 - x) (seq (L + 1) k)) + k * k = 4 * L * k + k.
Proof.
  induction k as [|k IH]; intros Hk; [cbn [seq List.map list_sum fold_right]; lia|].
  rewrite seq_S, List.map_app, list_sum_app. cbn [List.map].
  specialize (IH ltac:(lia)).
  unfold list_sum in *. cbn [fold_right]. set (s := fold_right _ _ _) in *.
  replace (3 * L + 1 - (L + 1 + k) + 0) with (2 * L - k) by lia.
  assert (E : 2 * L - k + k = 2 * L) by lia.
  set (d := 2 * L - k) in *. clearbody d s. lia.
Qed.


(** X27.  The honeycomb of scale [L >= 1] has [3 L (L + 1) + 1] nodes;
    the one of scale [0] has none. *)
Theorem honeycomb_number_of_nodes (L : nat) :
  number_of_nodes (_make_honeycomb L) = if L =? 0 then 0 else 3 * L * (L + 1) + 1.
Proof.
  destruct (Nat.eqb_spec L 0) as [->|HL]; [reflexivity|].
  unfold number_of_nodes.
  set (a := fun x => x - L).
  set (c := fun x => Nat.min (2 * L) (x + L) + 1 - (x - L)).
  assert (HP : Permutation (G_nodes (_make_honeycomb L))
                 (flat_map (fun x => List.map (coord x) (seq (a x) (c x)))
                           (seq 0 (2 * L + 1)))).
  { apply Permutation.NoDup_Permutation.
    - unfold _make_honeycomb. cbv zeta.
      do 2 apply NoDup_remove_nodes_from. do 3 apply NoDup_add_edges_from. constructor.
    - apply NoDup_columns, List.seq_NoDup.
    - intros n. rewrite honeycomb_nodes, in_flat_map. unfold honeycomb_site. split.
      + intros (x & y & -> & _ & Hx & Hy & H1 & H2).
        exists x. split; [apply in_seq; lia|].
        apply in_map_iff. exists y. split; [reflexivity|].
        apply in_seq. unfold a, c. lia.
      + intros (x & Hx & Hn). apply in_map_iff in Hn as (y & <- & Hy).
        apply in_seq in Hx, Hy. unfold a, c in Hy.
        exists x, y. split; [reflexivity|]. lia. }
  rewrite (Permutation_length HP), length_flat_map.
  replace (2 * L + 1) with ((L + 1) + L) by lia.
  rewrite seq_app, List.map_app, list_sum_app. rewrite Nat.add_0_l.
  rewrite (List.map_ext_in _ (fun x => x + (L + 1)) (seq 0 (L + 1)))
    by (intros x Hx; apply in_seq in Hx; rewrite List.length_map, List.length_seq;
        unfold c; lia).
  rewrite (List.map_ext_in _ (fun x => 3 * L + 1 - x) (seq (L + 1) L))
    by (intros x Hx; apply in_seq in Hx; rewrite List.length_map, List.length_seq;
        unfold c; lia).
  pose proof (twice_sum_up (L + 1) (L + 1)) as H1.
  pose proof (twice_sum_down L L ltac:(lia)) as H2.
  nia.
Qed.

(** *** The cooperative model on the honeycomb *)

Section OnHoneycomb.
Context `{NumpyRandom}.


(** X28.  [spin_encoded_comp] with an integer lattice [L] builds the BPSK
    model of the honeycomb: its variables are [((x, y), i)] for the sites
    [(x, y)] of the honeycomb and [0 <= i < t], one per site and
    transmitter. *)
Theorem comp_honeycomb_variables (L t nr : nat) (seed : option Z)
    (Fd : option (list string)) (use_offset : bool) (w : world) :
  0 < t -> 0 < nr -> known_distribution Fd ->
  exists b w',
    spin_encoded_comp (inl L) "BPSK" None None None None (Some t) (Some nr) Inf seed Fd
                      use_offset w = Ok (b, w') /\
    (forall v, v ∈ variables b <->
       exists x y i, v = LPair (coord x y) (LIdx i) /\ honeycomb_site L x y /\ i < t) /\
    num_variables b = number_of_nodes (_make_honeycomb L) * t.
Proof.
  intros Ht Hnr Hk.
  set (G := _make_honeycomb L).
  assert (HG : simple_graph G) by apply honeycomb_simple.
  destruct (comp_loop_run
              (comp_step G "BPSK" None None None None t nr Inf seed Fd use_offset)
              (fun bs => list_to_set (geometric_labels G t bs)) (G_nodes G)
              (fun acc bs w0 _ => comp_step_run G t nr Inf seed Fd use_offset acc bs w0
                                    HG Ht Hnr I Hk)
              (BQM_empty "SPIN") w) as (b & w' & E & V).
  assert (Vb : variables b = list_to_set (lattice_variables G t)).
  { apply set_eq. intros x. rewrite V, elem_of_list_to_set, list_elem_of_In. split.
    - intros [Hx|(bs & Hbs & Hx)].
      + unfold variables, BQM_empty in Hx. cbn [linear] in Hx. rewrite dom_empty_L in Hx.
        apply not_elem_of_empty in Hx. destruct Hx.
      + rewrite elem_of_list_to_set, list_elem_of_In in Hx.
        apply (geometric_labels_in G t bs); assumption.
    - intros Hx. right. destruct (lattice_variables_covered G t x Hx) as (bs & Hbs & Hx').
      exists bs. split; [exact Hbs|]. rewrite elem_of_list_to_set, list_elem_of_In. exact Hx'. }
  exists b, w'. split.
  { unfold spin_encoded_comp. cbn [default String.eqb Ascii.eqb Bool.eqb negb andb orb].
    cbn [spread_SNRb]. msimpl. exact E. }
  split.
  - intros v. rewrite Vb, elem_of_list_to_set, list_elem_of_In.
    unfold lattice_variables. rewrite in_flat_map. split.
    + intros (node & Hn & Hv). apply in_map_iff in Hv as (i & <- & Hi).
      apply in_seq in Hi. apply honeycomb_nodes in Hn as (x & y & -> & Hs).
      exists x, y, i. split; [reflexivity|]. split; [exact Hs|lia].
    + intros (x & y & i & -> & Hs & Hi). exists (coord x y). split.
      * apply honeycomb_nodes. eauto.
      * apply in_map_iff. exists i. split; [reflexivity|apply in_seq; lia].
  - unfold num_variables. rewrite Vb, size_list_to_set.
    + apply length_lattice_variables.
    + apply NoDup_ListNoDup, NoDup_lattice_variables, HG.
Qed.

End OnHoneycomb.

(** ** The cooperative model of supplied data *)

Section SuppliedCells.
Context `{NumpyRandom}.

Lemma comp_loop_pure (step : bqm -> label -> M bqm) (L : label -> gset label)
    (nodes : list label) :
  (forall acc bs, In bs nodes ->
     exists b, (forall w, step acc bs w = Ok (b, w)) /\ variables b = variables acc ∪ L bs) ->
  forall acc,
    exists b, (forall w, comp_loop step nodes acc w = Ok (b, w)) /\
      forall x, x ∈ variables b <-> x ∈ variables acc \/ exists bs, In bs nodes /\ x ∈ L bs.
Proof.
  induction nodes as [|bs nodes IH]; intros Hstep acc.
  - exists acc. split; [reflexivity|]. intros x. split; [auto|].
    intros [Hx|(bs & [] & _)]. exact Hx.
  - destruct (Hstep acc bs (or_introl eq_refl)) as (b1 & E1 & V1).
    destruct (IH (fun a b' Hb => Hstep a b' (or_intror Hb)) b1) as (b & E & V).
    exists b. split.
    + intros w. cbn [comp_loop]. msimpl. rewrite E1. apply E.
    + intros x. rewrite V, V1, elem_of_union. split.
      * intros [[Hx|Hx]|(bs' & Hb & Hx)]; [left; exact Hx| |].
        -- right. exists bs. split; [left; reflexivity|exact Hx].
        -- right. exists bs'. split; [right; exact Hb|exact Hx].
      * intros [Hx|(bs' & [<-|Hb] & Hx)]; [left; left; exact Hx|left; right; exact Hx|].
        right. exists bs'. split; assumption.
Qed.

Lemma comp_step_supplied (G : Graph) (t nr : nat) (dy dF : gmap label (option ndarray))
    (y F : ndarray) (SNRb : snr) (seed : option Z) (Fd : option (list string))
    (use_offset : bool) (acc : bqm) (bs : label) :
  simple_graph G -> 0 < t -> 0 < nr ->
  dy !! bs = Some (Some y) -> dF !! bs = Some (Some F) ->
  shape y = [nr; 1] -> shape F = [nr; t * (1 + degree G bs)] ->
  exists b,
    (forall w, comp_step G "BPSK" (Some dy) (Some dF) None None t nr SNRb seed Fd use_offset
                         acc bs w = Ok (b, w)) /\
    variables b = variables acc ∪ list_to_set (geometric_labels G t bs).
Proof.
  intros HG Ht Hnr Ey EF Sy SF.
  destruct (mimo_model_pure y F nr (t * (1 + degree G bs)) "BPSK" use_offset Sy SF
              ltac:(left; reflexivity)) as (b & n' & Eb & Vb & Bn).
  rewrite (Bn eq_refl) in Vb.
  exists (bqm_add acc (relabel_variables (enumerate_map (geometric_labels G t bs)) b)).
  split.
  - intros w. unfold comp_step, cell_call_of, per_node. rewrite Ey, EF.
    cbn [mbind result_bind]. msimpl.
    cbn [cell_y cell_F cell_num_transmitters cell_num_receivers cell_SNRb].
    unfold spin_encoded_mimo. msimpl.
    assert (E1 : (0 <? t * (1 + degree G bs)) = true) by (apply Nat.ltb_lt; nia).
    assert (E2 : (0 <? nr) = true) by (apply Nat.ltb_lt; exact Hnr).
    rewrite E1, E2. cbn [negb]. msimpl.
    specialize (Eb w). revert Eb. msimpl. intros Eb. rewrite Eb. reflexivity.
  - rewrite variables_bqm_add. f_equal.
    apply variables_relabel_cell.
    rewrite Vb, length_geometric_labels.
    rewrite (degree_neighbors G bs) by (intros e He; apply (proj2 HG e He)).
    reflexivity.
Qed.


(** X29.  The cooperative BPSK model of supplied data: when the
    dictionaries hold, for every node, a signal of shape [(nr, 1)] and a
    channel of shape [(nr, t * (1 + degree))], [spin_encoded_comp] draws
    nothing, leaves the state as it was, and returns a model on the
    variables [(node, i)], [0 <= i < t]. *)
Theorem comp_supplied_data (G : Graph) (t nr : nat) (dy dF : gmap label (option ndarray))
    (seed : option Z) (Fd : option (list string)) (use_offset : bool) :
  simple_graph G -> 0 < t -> 0 < nr ->
  (forall bs, In bs (G_nodes G) ->
     exists y F, dy !! bs = Some (Some y) /\ dF !! bs = Some (Some F) /\
                 shape y = [nr; 1] /\ shape F = [nr; t * (1 + degree G bs)]) ->
  exists b,
    (forall w, spin_encoded_comp (inr G) "BPSK" (Some dy) (Some dF) None None (Some t)
                 (Some nr) Inf seed Fd use_offset w = Ok (b, w)) /\
    variables b = list_to_set (lattice_variables G t) /\
    num_variables b = number_of_nodes G * t.
Proof.
  intros HG Ht Hnr Hcells.
  destruct (comp_loop_pure
              (comp_step G "BPSK" (Some dy) (Some dF) None None t nr Inf seed Fd use_offset)
              (fun bs => list_to_set (geometric_labels G t bs)) (G_nodes G))
    with (acc := BQM_empty "SPIN") as (b & E & V).
  { intros acc bs Hbs. destruct (Hcells bs Hbs) as (y & F & Ey & EF & Sy & SF).
    apply (comp_step_supplied G t nr dy dF y F Inf seed Fd use_offset acc bs
             HG Ht Hnr Ey EF Sy SF). }
  assert (Vb : variables b = list_to_set (lattice_variables G t)).
  { apply set_eq. intros x. rewrite V, elem_of_list_to_set, list_elem_of_In. split.
    - intros [Hx|(bs & Hbs & Hx)].
      + unfold variables, BQM_empty in Hx. cbn [linear] in Hx. rewrite dom_empty_L in Hx.
        apply not_elem_of_empty in Hx. destruct Hx.
      + rewrite elem_of_list_to_set, list_elem_of_In in Hx.
        apply (geometric_labels_in G t bs); assumption.
    - intros Hx. right. destruct (lattice_variables_covered G t x Hx) as (bs & Hbs & Hx').
      exists bs. split; [exact Hbs|]. rewrite elem_of_list_to_set, list_elem_of_In. exact Hx'. }
  exists b. split.
  { intros w. unfold spin_encoded_comp.
    cbn [default String.eqb Ascii.eqb Bool.eqb negb andb orb].
    cbn [spread_SNRb]. msimpl. apply E. }
  split; [exact Vb|].
  unfold num_variables. rewrite Vb, size_list_to_set.
  - apply length_lattice_variables.
  - apply NoDup_ListNoDup, NoDup_lattice_variables, HG.
Qed.

Lemma comp_loop_raises (step : bqm -> label -> M bqm) (nodes : list label) (e : exn)
    (bad : label -> Prop) :
  (forall acc bs w, In bs nodes -> bad bs -> step acc bs w = Raise e) ->
  (forall acc bs, In bs nodes -> ~ bad bs -> exists b, forall w, step acc bs w = Ok (b, w)) ->
  (forall bs, In bs nodes -> bad bs \/ ~ bad bs) ->
  (exists bs, In bs nodes /\ bad bs) ->
  forall acc w, comp_loop step nodes acc w = Raise e.
Proof.
  induction nodes as [|bs nodes IH]; intros Hbad Hgood Hdec (bs0 & Hin & Hb0) acc w;
    [destruct Hin|].
  cbn [comp_loop]. rewrite run_bind.
  destruct (Hdec bs (or_introl eq_refl)) as [Hb|Hb].
  - rewrite (Hbad acc bs w (or_introl eq_refl) Hb). reflexivity.
  - destruct (Hgood acc bs (or_introl eq_refl) Hb) as (b & Eb). rewrite Eb.
    apply IH.
    + intros a b' w' Hb'. apply Hbad. right. exact Hb'.
    + intros a b' Hb'. apply Hgood. right. exact Hb'.
    + intros b' Hb'. apply Hdec. right. exact Hb'.
    + exists bs0. split; [|exact Hb0].
      destruct Hin as [<-|Hin]; [contradiction|exact Hin].
Qed.


(** X30.  A dictionary that lacks a node never gives a model: when every
    node has well-shaped entries or lacks one in [ys] or in [Fs], and some
    node lacks one, [spin_encoded_comp] raises [KeyError]. *)
Theorem comp_missing_entry (G : Graph) (t nr : nat) (dy dF : gmap label (option ndarray))
    (seed : option Z) (Fd : option (list string)) (use_offset : bool) (w : world) :
  simple_graph G -> 0 < t -> 0 < nr ->
  (forall bs, In bs (G_nodes G) ->
     (dy !! bs = None \/ dF !! bs = None) \/
     exists y F, dy !! bs = Some (Some y) /\ dF !! bs = Some (Some F) /\
                 shape y = [nr; 1] /\ shape F = [nr; t * (1 + degree G bs)]) ->
  (exists bs, In bs (G_nodes G) /\ (dy !! bs = None \/ dF !! bs = None)) ->
  spin_encoded_comp (inr G) "BPSK" (Some dy) (Some dF) None None (Some t) (Some nr) Inf
                    seed Fd use_offset w = Raise KeyError.
Proof.
  intros HG Ht Hnr Hcells Hmiss. unfold spin_encoded_comp.
  cbn [default String.eqb Ascii.eqb Bool.eqb negb andb orb].
  cbn [spread_SNRb]. msimpl.
  apply (comp_loop_raises _ _ KeyError (fun bs => dy !! bs = None \/ dF !! bs = None)).
  - intros acc bs w0 _ Hb. unfold comp_step. rewrite run_bind.
    unfold cell_call_of, per_node.
    destruct Hb as [E|E]; rewrite E; [reflexivity|].
    destruct (dy !! bs); reflexivity.
  - intros acc bs Hbs Hb.
    destruct (Hcells bs Hbs) as [C|(y & F & Ey & EF & Sy & SF)]; [contradiction|].
    destruct (comp_step_supplied G t nr dy dF y F Inf seed Fd use_offset acc bs
                HG Ht Hnr Ey EF Sy SF) as (b & Eb & _).
    exists b. exact Eb.
  - intros bs Hbs.
    destruct (Hcells bs Hbs) as [C|(y & F & Ey & EF & _)]; [left; exact C|].
    right. intros [C|C]; congruence.
  - exact Hmiss.
Qed.

End SuppliedCells.

(** ** The further properties on concrete inputs *)

Lemma supported_16QAM : supported "16QAM".
Proof. right; right; left; reflexivity. Defined.

Lemma code_16QAM : linear_code "16QAM" 2 (odd_arange 2).
Proof. right; left. repeat split. Defined.

Lemma spins_example_signs :
  Forall (fun z => z = Cre 1 \/ z = Cre (-1)) (data spins_example).
Proof.
  repeat (constructor; [first [left; reflexivity|right; reflexivity]|]). constructor.
Defined.

Lemma symbols_to_spins_key_error_witness :
  symbols_to_spins (Array complex128 [1] [Cx 5 1]) "16QAM" = Raise KeyError.
Proof.
  apply (symbols_to_spins_key_error (Array complex128 [1] [Cx 5 1]) "16QAM" 2
           (odd_arange 2) 1 [] code_16QAM); [lia|reflexivity|].
  apply Exists_cons_hd. left. unfold signed_amplitude. simpl.
  intros [C|[C|[]]]; discriminate.
Defined.

Lemma spins_round_trip_back_witness :
  exists v s,
    spins_to_symbols spins_example (Some "16QAM"%string) (Some 1) = Ok v /\
    symbols_to_spins v "16QAM" = Ok s /\
    data s = data spins_example.
Proof.
  destruct (spins_round_trip_back spins_example "16QAM" 2 (odd_arange 2) 1
              code_16QAM ltac:(lia) eq_refl eq_refl spins_example_signs)
    as (v & s & Ev & _ & Es & _ & Ed).
  exists v, s. split; [exact Ev|]. split; [exact Es|exact Ed].
Defined.

Lemma round_trip_inferred_count_witness :
  exists s r,
    symbols_to_spins v_example "16QAM" = Ok s /\
    spins_to_symbols s (Some "16QAM"%string) None = Ok r /\
    data r = data v_example.
Proof.
  apply (round_trip_inferred_count v_example "16QAM" 1 supported_16QAM valid_v_example).
  lia.
Defined.

Lemma spins_to_symbols_inferred_edges_witness :
  spins_to_symbols (Array float64 [2] [Cre 1; Cre 1]) (Some "16QAM"%string) None
  = Raise ZeroDivisionError.
Proof.
  apply (proj1 (proj2 (spins_to_symbols_inferred_edges (Array float64 [2] [Cre 1; Cre 1])
                         "16QAM" 2 (odd_arange 2) 2 code_16QAM eq_refl))).
  lia.
Defined.

Lemma estimator_projects_witness :
  exists r,
    filter_marginal_estimator x_example (Some "16QAM"%string) = Ok (Some r) /\
    valid_constellation "16QAM" r 2.
Proof.
  destruct (estimator_projects x_example "16QAM" 2 4 (odd_arange 2)
              (twice_mean_square (odd_arange 2))
              supported_16QAM eq_refl (or_introl eq_refl) eq_refl)
    as (r & E & _ & Hv).
  exists r. split; [exact E|exact Hv].
Defined.

Lemma estimator_fixes_symbols_witness :
  filter_marginal_estimator v_example (Some "16QAM"%string) = Ok (Some v_example).
Proof.
  destruct (estimator_fixes_symbols v_example "16QAM" 1 supported_16QAM valid_v_example)
    as (r & E & _ & _ & Hr).
  rewrite E. rewrite (Hr ltac:(discriminate)). reflexivity.
Defined.


Lemma binary_real_known : known_distribution (Some ["Binary"; "Real"]%string).
Proof. right. exists "Binary"%string, "Real"%string. split; [reflexivity|right; reflexivity]. Defined.

Lemma create_channel_sources_witness :
  exists F cp rs' w',
    @create_channel counter_random 2 2 (Some ["Binary"; "Real"]%string) RSNone
       (@World counter_random 0 0 []) = Ok ((F, cp, rs'), w') /\
    shape F = [2; 2] /\ @urandom counter_random w' = 1 /\
    Forall (binary_entry false) (data F).
Proof.
  destruct (@create_channel_sources counter_random 2 2 (Some ["Binary"; "Real"]%string)
              RSNone (@World counter_random 0 0 []) binary_real_known
              ltac:(intros z; discriminate))
    as (F & cp & rs' & w' & evs & E & SF & _ & _ & _ & _ & _ & _ & U & _ & B).
  exists F, cp, rs', w'. split; [exact E|]. split; [exact SF|].
  split; [exact (U eq_refl)|]. exact (B "Real"%string eq_refl).
Defined.

Lemma generated_symbols_valid_witness :
  exists v w',
    @create_transmitted_symbols counter_random 2 (odd_arange 2) true
       (@World counter_random 0 0 []) = Ok (v, w') /\
    valid_constellation "16QAM" v 2.
Proof.
  destruct (@generated_symbols_valid counter_random "16QAM" 4 (odd_arange 2)
              (twice_mean_square (odd_arange 2)) 2 (@World counter_random 0 0 [])
              supported_16QAM eq_refl)
    as (v & w' & E & Hv & _).
  exists v, w'. split; [exact E|exact Hv].
Defined.

Lemma generated_model_variables_witness :
  exists b w',
    @spin_encoded_mimo counter_random "16QAM" None None None None (Some 2) (Some 2) Inf
       (Some 0%Z) None false (@World counter_random 0 0 []) = Ok (b, w') /\
    num_variables b = 8.
Proof.
  destruct (@generated_model_variables counter_random "16QAM" 4 (odd_arange 2)
              (twice_mean_square (odd_arange 2)) 2 2 Inf (Some 0%Z) None false
              (@World counter_random 0 0 []) supported_16QAM eq_refl
              ltac:(lia) ltac:(lia) I (or_introl eq_refl))
    as (b & w' & E & _ & N).
  exists b, w'. split; [exact E|exact N].
Defined.

Lemma noiseless_ground_state_witness :
  exists y v rs' w' h J offset s,
    @create_signal counter_random F_example None None Inf "16QAM" (Some 1) RSNone
       (@World counter_random 0 0 []) = Ok ((y, v, None, rs'), w') /\
    _yF_to_hJ y F_example "16QAM" = Ok (h, J, offset) /\
    symbols_to_spins v "16QAM" = Ok s /\
    (re (at2 offset 0 0) + ising_value 4 h J (spin_values s))%Z = 0%Z.
Proof.
  destruct (@noiseless_ground_state counter_random F_example 2 1 1 4 "16QAM" (odd_arange 2)
              (twice_mean_square (odd_arange 2)) RSNone (@World counter_random 0 0 []) 2
              eq_refl ltac:(lia) supported_16QAM eq_refl
              ltac:(entries_bound) ltac:(cbn; lia))
    as (y & v & rs' & w' & h & J & offset & s & Ey & E & Es & Z0 & _).
  exists y, v, rs', w', h, J, offset, s.
  split; [exact Ey|]. split; [exact E|]. split; [exact Es|exact Z0].
Defined.


Lemma supplied_signal_is_pure_witness :
  exists b,
    forall (ts noise : option ndarray) (SNRb : snr) (seed : option Z)
           (Fd : option (list string)) (w : @world counter_random),
      @spin_encoded_mimo counter_random "16QAM" (Some y_example) (Some F_example) ts noise
         None None SNRb seed Fd true w = Ok (b, w).
Proof.
  apply (@supplied_signal_is_pure counter_random y_example F_example 2 1 "16QAM" true
           eq_refl eq_refl ltac:(lia) ltac:(lia) supported_16QAM).
Defined.

Lemma real_data_drops_quadrature_witness :
  exists b,
    @spin_encoded_mimo counter_random "QPSK" (Some yR_example) (Some FR_example) None None
       None None Inf None None false (@World counter_random 0 0 [])
    = Ok (b, @World counter_random 0 0 []) /\
    @spin_encoded_mimo counter_random "BPSK" (Some yR_example) (Some FR_example) None None
       None None Inf None None false (@World counter_random 0 0 [])
    = Ok (b, @World counter_random 0 0 []) /\
    num_variables b = 1.
Proof.
  destruct (@real_data_drops_quadrature counter_random yR_example FR_example 2 1 None None
              Inf None None false (@World counter_random 0 0 [])
              eq_refl eq_refl ltac:(lia) ltac:(lia) ltac:(discriminate) ltac:(discriminate))
    as (b & E1 & E2 & V).
  exists b. split; [exact E1|]. split; [exact E2|].
  unfold num_variables. rewrite V. reflexivity.
Defined.

Lemma nonpositive_SNRb_rejected_witness :
  exists msg,
    @create_signal counter_random F_example None None (Finite 0) "BPSK" None RSNone
       (@World counter_random 0 0 []) = Raise (ValueError msg).
Proof.
  apply (@nonpositive_SNRb_rejected counter_random F_example 2 1 [] None None 0%Q "BPSK"
           None RSNone (@World counter_random 0 0 []) 1 ones1 1%Q eq_refl eq_refl).
  unfold Qle. simpl. lia.
Defined.

Lemma unsupported_256QAM : ~ supported "256QAM".
Proof. intros [C|[C|[C|[C|[]]]]]; discriminate. Defined.

Lemma unsupported_modulation_rejected_witness :
  _yF_to_hJ y_example F_example "256QAM" = Raise (ValueError "unknown modulation").
Proof.
  apply (proj1 (@unsupported_modulation_rejected counter_random "256QAM" unsupported_256QAM)
           y_example F_example 2 1 eq_refl eq_refl).
Defined.

Lemma supplied_noise_energy_witness :
  exists y v rs' w' h J offset s,
    @create_signal counter_random F_example None (Some noise_example) (Finite 1) "16QAM"
       (Some 1) RSNone (@World counter_random 0 0 []) = Ok ((y, v, Some noise_example, rs'), w') /\
    _yF_to_hJ y F_example "16QAM" = Ok (h, J, offset) /\
    symbols_to_spins v "16QAM" = Ok s /\
    (re (at2 offset 0 0) + ising_value 4 h J (spin_values s))%Z = 5%Z.
Proof.
  destruct (@supplied_noise_energy counter_random F_example noise_example 2 1 1 4 "16QAM"
              (odd_arange 2) (twice_mean_square (odd_arange 2)) 1%Q RSNone
              (@World counter_random 0 0 []) 2
              eq_refl ltac:(lia) supported_16QAM eq_refl eq_refl eq_refl eq_refl
              ltac:(entries_bound) ltac:(entries_bound) ltac:(cbn; lia))
    as (y & v & rs' & w' & h & J & offset & s & Ey & E & Es & En).
  exists y, v, rs', w', h, J, offset, s.
  split; [exact Ey|]. split; [exact E|]. split; [exact Es|exact En].
Defined.

Lemma comp_honeycomb_variables_witness :
  exists b w',
    @spin_encoded_comp counter_random (inl 1) "BPSK" None None None None (Some 1) (Some 1)
       Inf (Some 0%Z) None false (@World counter_random 0 0 []) = Ok (b, w') /\
    num_variables b = 7.
Proof.
  destruct (@comp_honeycomb_variables counter_random 1 1 1 (Some 0%Z) None false
              (@World counter_random 0 0 []) ltac:(lia) ltac:(lia) (or_introl eq_refl))
    as (b & w' & E & _ & N).
  exists b, w'. split; [exact E|]. rewrite N. reflexivity.
Defined.

Lemma simple_path_graph_2 : simple_graph path_graph_2.
Proof.
  split.
  - repeat constructor; simpl; intuition discriminate.
  - intros e [<-|[]]. simpl. repeat split; auto; discriminate.
Defined.

Lemma comp_QPSK_unlabelled_spins_witness :
  exists b w',
    @spin_encoded_comp counter_random (inr path_graph_2) "QPSK" None None None None
       (Some 1) (Some 1) Inf (Some 0%Z) None false (@World counter_random 0 0 [])
    = Ok (b, w') /\
    LIdx 2 ∈ variables b /\ 2 < num_variables b.
Proof.
  destruct (@comp_QPSK_unlabelled_spins counter_random path_graph_2 1 1 Inf (Some 0%Z) None
              false (@World counter_random 0 0 []) simple_path_graph_2
              ltac:(lia) ltac:(lia) I (or_introl eq_refl) (or_introl eq_refl))
    as (b & w' & E & V & N).
  exists b, w'. split; [exact E|]. split.
  - apply V. right. exists (LIdx 0), 2.
    split; [left; reflexivity|]. split; [reflexivity|]. vm_compute. lia.
  - apply (N ltac:(discriminate)).
Defined.

Lemma comp_supplied_data_witness :
  exists b,
    (forall w, @spin_encoded_comp counter_random (inr path_graph_2) "BPSK"
                 (Some ys_example) (Some Fs_example) None None (Some 1) (Some 1) Inf
                 None None false w = Ok (b, w)) /\
    num_variables b = 2.
Proof.
  destruct (@comp_supplied_data counter_random path_graph_2 1 1 ys_example Fs_example
              None None false simple_path_graph_2 ltac:(lia) ltac:(lia))
    as (b & E & _ & N).
  - intros bs [<-|[<-|[]]]; exists y_cell, F_cell; repeat split; reflexivity.
  - exists b. split; [exact E|exact N].
Defined.

Lemma comp_missing_entry_witness :
  @spin_encoded_comp counter_random (inr path_graph_2) "BPSK"
     (Some ys_partial) (Some Fs_example) None None (Some 1) (Some 1) Inf
     None None false (@World counter_random 0 0 []) = Raise KeyError.
Proof.
  apply (@comp_missing_entry counter_random path_graph_2 1 1 ys_partial Fs_example
           None None false (@World counter_random 0 0 []) simple_path_graph_2);
    [lia|lia| |].
  - intros bs [<-|[<-|[]]].
    + right. exists y_cell, F_cell. repeat split; reflexivity.
    + left. left. reflexivity.
  - exists (LIdx 1). split; [right; left; reflexivity|left; reflexivity].
Defined.
